(** * FTex: entity resolution and network generation

    A shallow embedding of
      - backend/app/services/entity_resolution_engine.py
      - backend/app/services/network_generation.py
      - the edge loop of backend/app/api/endpoints/ftex.py
    and the properties the specification states about them.

    Conventions of the embedding.
      - A Python [str] is the list of its code points ([pystr]); [len] is
        [length].
      - A Python [float] score is an exact rational ([Q]); Python's [==] on
        scores is [Qeq].
      - [str.lower], [str.upper] and the other services the engine takes from
        the language runtime are fields of the class [Unicode]: every
        theorem holds for whatever the runtime provides.  [basic_latin] is
        the instance used to run the code on concrete inputs.
      - A Python [dict] is an association list in insertion order where the
        code iterates over it, and a [gmap] where it only looks keys up. *)

From Stdlib Require Import ZArith QArith Qminmax Qabs Lia Lqa List Ascii String Permutation.
From stdpp Require Import base decidable option relations list gmap sets sorting.

Open Scope Q_scope.
Open Scope nat_scope.
Open Scope list_scope.

(** ** Python strings *)

Module Py.

Definition pystr : Type := list N.

(** A string literal of the source. *)
Definition str (s : string) : pystr :=
  map N_of_ascii (list_ascii_of_string s).

Definition ord (a : ascii) : N := N_of_ascii a.

(** [bool(s)] for a string: non-empty. *)
Definition truthy (s : pystr) : bool :=
  match s with [] => false | _ :: _ => true end.

Definition str_eqb (a b : pystr) : bool := bool_decide (a = b).

(** [s[i:j]] for [0 <= i], [0 <= j]. *)
Definition slice (s : pystr) (i j : nat) : pystr := take (j - i) (drop i s).

(** [str.isspace] of one code point (the White_Space code points). *)
Definition isspace (c : N) : bool :=
  ((9 <=? c) && (c <=? 13) || (28 <=? c) && (c <=? 32)
   || (c =? 133) || (c =? 160) || (c =? 5760)
   || (8192 <=? c) && (c <=? 8202)
   || (c =? 8232) || (c =? 8233) || (c =? 8239) || (c =? 8287)
   || (c =? 12288))%N.

(** [s.split()]: the maximal runs of non-whitespace code points. *)
Fixpoint split_ws_aux (cur : pystr) (s : pystr) : list pystr :=
  match s with
  | [] => match cur with [] => [] | _ => [rev cur] end
  | c :: s' =>
      if isspace c
      then match cur with
           | [] => split_ws_aux [] s'
           | _ => rev cur :: split_ws_aux [] s'
           end
      else split_ws_aux (c :: cur) s'
  end.

Definition split (s : pystr) : list pystr := split_ws_aux [] s.

(** [sep.join(parts)]. *)
Fixpoint join (sep : pystr) (parts : list pystr) : pystr :=
  match parts with
  | [] => []
  | [p] => p
  | p :: rest => p ++ sep ++ join sep rest
  end.

(** [s.replace(" ", "")]. *)
Definition remove_spaces (s : pystr) : pystr :=
  filter (fun c => c <> 32%N) s.

(** An [int] used as a [float]. *)
Definition Qnat (n : nat) : Q := inject_Z (Z.of_nat n).

(** [a <= b] on strings: lexicographic on code points. *)
Fixpoint str_leb (a b : pystr) : bool :=
  match a, b with
  | [], _ => true
  | _ :: _, [] => false
  | x :: a', y :: b' =>
      if (x <? y)%N then true
      else if (x =? y)%N then str_leb a' b'
      else false
  end.

(** [sorted(l)] for a list of strings. *)
Fixpoint insert_sorted (x : pystr) (l : list pystr) : list pystr :=
  match l with
  | [] => [x]
  | y :: l' => if str_leb x y then x :: l else y :: insert_sorted x l'
  end.

Definition sorted (l : list pystr) : list pystr :=
  fold_right insert_sorted [] l.

(** [for i, a in enumerate(l): for b in l[i+1:]: ...], as the list of the
    pairs visited. *)
Fixpoint pairs_in_order {A : Type} (l : list A) : list (A * A) :=
  match l with
  | [] => []
  | a :: l' => map (fun b => (a, b)) l' ++ pairs_in_order l'
  end.

(** [hashlib.md5(s.encode()).hexdigest()]. *)
Class Hashlib := {
  md5_hexdigest : pystr -> pystr;
}.

(** What the engine takes from the language runtime. *)
Class Unicode := {
  lower : pystr -> pystr;            (* str.lower *)
  upper : pystr -> pystr;            (* str.upper *)
  isalnum : N -> bool;               (* str.isalnum of one code point *)
  casefold_eqb : N -> N -> bool;     (* re.IGNORECASE match of a literal *)
}.

(** The runtime restricted to Basic Latin, together with U+0130, the one code
    point whose lower case is two code points long (U+0069 U+0307). *)
Definition is_upper_az (c : N) : bool := ((65 <=? c) && (c <=? 90))%N.
Definition is_lower_az (c : N) : bool := ((97 <=? c) && (c <=? 122))%N.
Definition is_digit (c : N) : bool := ((48 <=? c) && (c <=? 57))%N.

Definition lower_cp (c : N) : pystr :=
  if is_upper_az c then [(c + 32)%N]
  else if (c =? 304)%N then [105%N; 775%N]
  else [c].

Definition upper_cp (c : N) : pystr :=
  if is_lower_az c then [(c - 32)%N] else [c].

Definition fold_cp (c : N) : N := if is_upper_az c then (c + 32)%N else c.

Definition basic_latin : Unicode := {|
  lower s := concat (map lower_cp s);
  upper s := concat (map upper_cp s);
  isalnum c := is_upper_az c || is_lower_az c || is_digit c;
  casefold_eqb c p := (fold_cp c =? fold_cp p)%N;
|}.

(** [s.strip()]. *)
Fixpoint lstrip (s : pystr) : pystr :=
  match s with
  | c :: s' => if isspace c then lstrip s' else s
  | [] => []
  end.

Definition strip (s : pystr) : pystr := rev (lstrip (rev (lstrip s))).

(** [s[:n]]. *)
Definition prefix (n : nat) (s : pystr) : pystr := take n s.

Section Regex.
Context {U : Unicode}.

(** [\w]. *)
Definition is_word_char (c : N) : bool := isalnum c || (c =? 95)%N.

(** A whole word of the text against one literal of the pattern, under
    [re.IGNORECASE]. *)
Definition word_matches (w pat : pystr) : bool :=
  (length w =? length pat)
  && forallb (fun '(c, p) => casefold_eqb c p) (zip w pat).

Definition word_in (w : pystr) (pats : list pystr) : bool :=
  existsb (word_matches w) pats.

(** [re.sub(r'\b(p1|p2|...)\b', repl, s, flags=re.IGNORECASE)] and, with
    [eat_dot], [re.sub(r'\b(p1|p2|...)\b\.?', ...)], for literals made of
    word characters: a match is a maximal run of word characters equal to
    one of the literals.  [cur] is the run being read, reversed. *)
Fixpoint sub_words (pats : list pystr) (repl : pystr) (eat_dot : bool)
    (cur : pystr) (s : pystr) : pystr :=
  match s with
  | [] => if word_in (rev cur) pats then repl else rev cur
  | c :: s' =>
      if is_word_char c then sub_words pats repl eat_dot (c :: cur) s'
      else if word_in (rev cur) pats then
        if eat_dot && (c =? 46)%N
        then repl ++ sub_words pats repl eat_dot [] s'
        else repl ++ c :: sub_words pats repl eat_dot [] s'
      else rev cur ++ c :: sub_words pats repl eat_dot [] s'
  end.

(** [re.sub(r'[^\w\s]', '', s)]. *)
Definition strip_special (s : pystr) : pystr :=
  List.filter (fun c => is_word_char c || isspace c) s.

End Regex.

(** [re.sub(r'[^A-Z]', '', s)]. *)
Definition keep_AZ (s : pystr) : pystr := List.filter is_upper_az s.

(** [re.sub(pat, repl, s)] for a literal [pat]: the occurrences are replaced
    from left to right without overlap. *)
Fixpoint starts_with (pat s : pystr) : option pystr :=
  match pat, s with
  | [], _ => Some s
  | p :: pat', c :: s' => if (p =? c)%N then starts_with pat' s' else None
  | _ :: _, [] => None
  end.

Fixpoint replace_all_aux (fuel : nat) (pat repl s : pystr) : pystr :=
  match fuel with
  | 0 => s
  | S fuel' =>
      match s with
      | [] => []
      | c :: s' =>
          match starts_with pat s with
          | Some rest => repl ++ replace_all_aux fuel' pat repl rest
          | None => c :: replace_all_aux fuel' pat repl s'
          end
      end
  end.

Definition replace_all (pat repl s : pystr) : pystr :=
  replace_all_aux (S (length s)) pat repl s.

(** [re.sub('^' + pat, repl, s)]. *)
Definition replace_prefix (pat repl s : pystr) : pystr :=
  match starts_with pat s with
  | Some rest => repl ++ rest
  | None => s
  end.

(** [re.sub(pat + '$', repl, s)] on a string without line breaks. *)
Definition replace_suffix (pat repl s : pystr) : pystr :=
  match starts_with (rev pat) (rev s) with
  | Some rest => rev rest ++ repl
  | None => s
  end.

End Py.

Import Py.

(** ** BlockingStrategy *)

Module BlockingStrategy.
Section WithRuntime.
Context {U : Unicode}.

(** The [mapping] table of [soundex]; [mapping.get(c, '0')]. *)
Definition mapping : list (N * N) :=
  map (fun p => (ord (fst p), ord (snd p)))
    [ ("B", "1"); ("F", "1"); ("P", "1"); ("V", "1");
      ("C", "2"); ("G", "2"); ("J", "2"); ("K", "2"); ("Q", "2");
      ("S", "2"); ("X", "2"); ("Z", "2");
      ("D", "3"); ("T", "3");
      ("L", "4");
      ("M", "5"); ("N", "5");
      ("R", "6") ]%char.

Definition zero : N := ord "0".

Fixpoint assoc_get (t : list (N * N)) (c : N) (d : N) : N :=
  match t with
  | [] => d
  | (k, v) :: t' => if (k =? c)%N then v else assoc_get t' c d
  end.

Definition code_of (c : N) : N := assoc_get mapping c zero.

(** The loop of [soundex] over [name[1:]]; it stops once the result has four
    characters. *)
Fixpoint soundex_loop (rest : pystr) (prev_code : N) (result : pystr) : pystr :=
  match rest with
  | [] => result
  | char :: rest' =>
      let code := code_of char in
      if negb (code =? zero)%N && negb (code =? prev_code)%N then
        let result' := result ++ [code] in
        if length result' =? 4 then result'
        else soundex_loop rest' code result'
      else soundex_loop rest' code result
  end.

Definition soundex (name : pystr) : pystr :=
  if negb (truthy name) then str "0000"
  else
    match upper name with
    | [] => str "0000"   (* unreachable: upper of a non-empty str is non-empty *)
    | c0 :: rest =>
        let result := soundex_loop rest (code_of c0) [c0] in
        take 4 (result ++ str "0000")
    end.

(** [ngram_blocking(name, n)]. *)
Definition ngram_blocking (name : pystr) (n : nat) : list pystr :=
  if negb (truthy name) || (length name <? n) then
    (if truthy name then [lower name] else [])
  else
    let name' := remove_spaces (lower name) in
    map (fun i => slice name' i (i + n)) (seq 0 (length name' + 1 - n)).

(** The [replacements] of [metaphone], in the order they are applied. *)
Definition replacements : list (pystr -> pystr) :=
  [ replace_prefix (str "KN") (str "N");
    replace_prefix (str "GN") (str "N");
    replace_prefix (str "PN") (str "N");
    replace_prefix (str "AE") (str "E");
    replace_prefix (str "WR") (str "R");
    replace_prefix (str "WH") (str "W");
    replace_suffix (str "MB") (str "M");
    replace_all (str "GH") (str "");
    replace_all (str "PH") (str "F");
    replace_all (str "CK") (str "K");
    replace_all (str "SH") (str "X");
    replace_all (str "TH") (str "0");
    replace_all (str "CH") (str "X");
    replace_all (str "SCH") (str "SK");
    replace_all (str "DG") (str "J") ].

Definition metaphone (name : pystr) : pystr :=
  if negb (truthy name) then str ""
  else
    let name := keep_AZ (upper name) in
    take 6 (fold_left (fun name sub => sub name) replacements name).

(** [first_letter_year(name, year)]; [year] is [None] or a string. *)
Definition first_letter_year (name : pystr) (year : option pystr) : pystr :=
  let first := if truthy name then upper (take 1 name) else str "X" in
  let year_str :=
    match year with
    | Some y => if truthy y then y else str "0000"
    | None => str "0000"
    end in
  first ++ str "_" ++ year_str.

End WithRuntime.
End BlockingStrategy.

(** ** SimilarityScorer *)

Module SimilarityScorer.
Section WithRuntime.
Context {U : Unicode}.

Definition neq_int (c1 c2 : N) : nat := if (c1 =? c2)%N then 0 else 1.

(** The inner loop of [levenshtein_distance]: [prev] is [prev_row[j:]] and
    [last] is [curr_row[j]]; the result is [curr_row[j+1:]]. *)
Fixpoint lev_inner (c1 : N) (s2 : pystr) (prev : list nat) (last : nat)
  : list nat :=
  match s2, prev with
  | c2 :: s2', pj :: ((pj1 :: _) as prev') =>
      let insertions := pj1 + 1 in
      let deletions := last + 1 in
      let substitutions := pj + neq_int c1 c2 in
      let v := Nat.min (Nat.min insertions deletions) substitutions in
      v :: lev_inner c1 s2' prev' v
  | _, _ => []
  end.

Definition lev_row (i : nat) (c1 : N) (s2 : pystr) (prev_row : list nat)
  : list nat :=
  (i + 1) :: lev_inner c1 s2 prev_row (i + 1).

(** The outer loop over [enumerate(s1)]. *)
Fixpoint lev_rows (i : nat) (s1 s2 : pystr) (prev_row : list nat) : list nat :=
  match s1 with
  | [] => prev_row
  | c1 :: s1' => lev_rows (S i) s1' s2 (lev_row i c1 s2 prev_row)
  end.

Definition levenshtein_distance (s1 s2 : pystr) : nat :=
  let (s1, s2) := if length s1 <? length s2 then (s2, s1) else (s1, s2) in
  if length s2 =? 0 then length s1
  else List.last (lev_rows 0 s1 s2 (seq 0 (length s2 + 1))) 0.

Definition levenshtein_similarity (s1 s2 : pystr) : Q :=
  if negb (truthy s1) && negb (truthy s2) then 1
  else if negb (truthy s1) || negb (truthy s2) then 0
  else
    let distance := levenshtein_distance (lower s1) (lower s2) in
    let max_len := Nat.max (length s1) (length s2) in
    1 - Qnat distance / Qnat max_len.

(** The first [j] in [range(start, end)] with [s2_matches[j]] false and
    [s2[j] == c1]. *)
Fixpoint find_match (c1 : N) (s2 : pystr) (s2_matches : list bool)
    (j : nat) (count : nat) : option nat :=
  match count with
  | 0 => None
  | S count' =>
      match s2_matches !! j, s2 !! j with
      | Some false, Some c2 =>
          if (c1 =? c2)%N then Some j
          else find_match c1 s2 s2_matches (S j) count'
      | _, _ => find_match c1 s2 s2_matches (S j) count'
      end
  end.

(** First loop of [jaro_similarity]: the state is
    [(s1_matches, s2_matches, matches)]; [s1_matches] is built in order. *)
Fixpoint jaro_match_loop (match_distance : nat) (i : nat) (s1 s2 : pystr)
    (s1_matches s2_matches : list bool) (matches : nat)
  : list bool * list bool * nat :=
  match s1 with
  | [] => (s1_matches, s2_matches, matches)
  | c1 :: s1' =>
      let start := i - match_distance in
      let end_ := Nat.min (i + match_distance + 1) (length s2) in
      match find_match c1 s2 s2_matches start (end_ - start) with
      | Some j =>
          jaro_match_loop match_distance (S i) s1' s2
            (<[i := true]> s1_matches) (<[j := true]> s2_matches) (S matches)
      | None =>
          jaro_match_loop match_distance (S i) s1' s2
            s1_matches s2_matches matches
      end
  end.

(** [while not s2_matches[k]: k += 1] on the part of [s2] from [k] on: the
    character at the first flagged position and what follows it. *)
Fixpoint skip_unmatched (s2 : list (N * bool)) : option (N * list (N * bool)) :=
  match s2 with
  | [] => None
  | (c, true) :: rest => Some (c, rest)
  | (_, false) :: rest => skip_unmatched rest
  end.

(** Second loop of [jaro_similarity]. *)
Fixpoint jaro_transpositions (s1 : list (N * bool)) (s2 : list (N * bool))
    (transpositions : nat) : nat :=
  match s1 with
  | [] => transpositions
  | (_, false) :: s1' => jaro_transpositions s1' s2 transpositions
  | (c1, true) :: s1' =>
      match skip_unmatched s2 with
      | Some (c2, s2') =>
          jaro_transpositions s1' s2' (transpositions + neq_int c1 c2)
      | None => transpositions  (* unreachable: both sides flag equally many *)
      end
  end.

Definition jaro_similarity (s1 s2 : pystr) : Q :=
  if negb (truthy s1) && negb (truthy s2) then 1
  else if negb (truthy s1) || negb (truthy s2) then 0
  else
    let s1 := lower s1 in
    let s2 := lower s2 in
    let match_distance := Nat.max (length s1) (length s2) / 2 - 1 in
    let '(s1_matches, s2_matches, matches) :=
      jaro_match_loop match_distance 0 s1 s2
        (replicate (length s1) false) (replicate (length s2) false) 0 in
    if matches =? 0 then 0
    else
      let transpositions :=
        jaro_transpositions (zip s1 s1_matches) (zip s2 s2_matches) 0 in
      (Qnat matches / Qnat (length s1) + Qnat matches / Qnat (length s2)
       + (Qnat matches - Qnat transpositions / 2) / Qnat matches) / 3.

(** The common-prefix loop of [jaro_winkler_similarity] over
    [range(min(len(s1), len(s2), 4))]. *)
Fixpoint prefix_loop (count : nat) (s1_lower s2_lower : pystr) : nat :=
  match count, s1_lower, s2_lower with
  | S count', c1 :: r1, c2 :: r2 =>
      if (c1 =? c2)%N then S (prefix_loop count' r1 r2) else 0
  | _, _, _ => 0
  end.

Definition jaro_winkler_similarity_p (s1 s2 : pystr) (p : Q) : Q :=
  let jaro := jaro_similarity s1 s2 in
  let prefix_len :=
    prefix_loop (Nat.min (Nat.min (length s1) (length s2)) 4)
      (lower s1) (lower s2) in
  jaro + Qnat prefix_len * p * (1 - jaro).

Definition jaro_winkler_similarity (s1 s2 : pystr) : Q :=
  jaro_winkler_similarity_p s1 s2 (1 # 10).

Definition get_ngrams (ngram : nat) (s : pystr) : gset pystr :=
  let s := remove_spaces (lower s) in
  if length s <? ngram then {[ s ]}
  else list_to_set
         (map (fun i => slice s i (i + ngram)) (seq 0 (length s + 1 - ngram))).

Definition jaccard_similarity_n (s1 s2 : pystr) (ngram : nat) : Q :=
  if negb (truthy s1) && negb (truthy s2) then 1
  else if negb (truthy s1) || negb (truthy s2) then 0
  else
    let set1 := get_ngrams ngram s1 in
    let set2 := get_ngrams ngram s2 in
    let intersection := size (set1 ∩ set2) in
    let union := size (set1 ∪ set2) in
    if 0 <? union then Qnat intersection / Qnat union else 0.

Definition jaccard_similarity (s1 s2 : pystr) : Q :=
  jaccard_similarity_n s1 s2 2.

Definition token_based_similarity (s1 s2 : pystr) : Q :=
  if negb (truthy s1) && negb (truthy s2) then 1
  else if negb (truthy s1) || negb (truthy s2) then 0
  else
    let tokens1 : gset pystr := list_to_set (split (lower s1)) in
    let tokens2 : gset pystr := list_to_set (split (lower s2)) in
    if (size tokens1 =? 0) || (size tokens2 =? 0) then 0
    else Qnat (size (tokens1 ∩ tokens2)) / Qnat (size (tokens1 ∪ tokens2)).

(** [sum(c1 == c2 for c1, c2 in zip(soundex1, soundex2))]. *)
Definition count_equal (a b : pystr) : nat :=
  length (filter (fun p => fst p = snd p) (zip a b)).

Definition phonetic_similarity (s1 s2 : pystr) : Q :=
  let soundex1 := BlockingStrategy.soundex s1 in
  let soundex2 := BlockingStrategy.soundex s2 in
  if str_eqb soundex1 soundex2 then 1
  else Qnat (count_equal soundex1 soundex2) / 4.

Definition composite_name_score (name1 name2 : pystr) : Q :=
  (0 + jaro_winkler_similarity name1 name2 * (30 # 100)
     + levenshtein_similarity name1 name2 * (25 # 100)
     + jaccard_similarity name1 name2 * (15 # 100)
     + token_based_similarity name1 name2 * (20 # 100)
     + phonetic_similarity name1 name2 * (10 # 100))%Q.

End WithRuntime.
End SimilarityScorer.


(** ** Python dictionaries whose iteration order the code observes *)

Module Dict.
Section Defs.
Context {K V : Type} `{EqDecision K}.

Definition dict : Type := list (K * V).

(** [d.get(k)]. *)
Fixpoint get (d : dict) (k : K) : option V :=
  match d with
  | [] => None
  | (k', v) :: d' => if decide (k' = k) then Some v else get d' k
  end.

(** [k in d]. *)
Definition mem (d : dict) (k : K) : bool :=
  match get d k with Some _ => true | None => false end.

(** [d[k] = v]: an existing key keeps its position, a new key goes last. *)
Fixpoint set (d : dict) (k : K) (v : V) : dict :=
  match d with
  | [] => [(k, v)]
  | (k', v') :: d' =>
      if decide (k' = k) then (k, v) :: d' else (k', v') :: set d' k v
  end.

Definition keys (d : dict) : list K := map fst d.
Definition values (d : dict) : list V := map snd d.

End Defs.
Arguments dict : clear implicits.
End Dict.

Abbreviation dict := Dict.dict.

(** ** entity_resolution_engine.py *)

Module EntityResolution.

(** The dataclasses.  The attributes of a record are strings, the type on
    which every step of the pipeline is defined. *)
Record EntityRecord := {
  id : pystr;
  source_system : pystr;
  entity_type : pystr;
  attributes : dict pystr pystr;
  raw_data : dict pystr pystr;
}.

Record ResolvedEntity := {
  resolved_id : pystr;
  canonical_name : pystr;
  resolved_entity_type : pystr;
  source_records : list EntityRecord;
  confidence_score : Q;
  resolved_attributes : dict pystr pystr;
  match_scores : dict pystr Q;
}.

Record MatchCandidate := {
  record_a : EntityRecord;
  record_b : EntityRecord;
  blocking_key : pystr;
  similarity_scores : dict pystr Q;
  overall_score : Q;
}.

(** [EntityResolutionEngine]: its configuration. *)
Record Engine := {
  match_threshold : Q;
  blocking_strategies : list pystr;
}.

(** [EntityResolutionEngine(match_threshold, blocking_strategies)]. *)
Definition new_engine (threshold : Q) (strategies : option (list pystr))
  : Engine :=
  {| match_threshold := threshold;
     blocking_strategies :=
       match strategies with
       | Some ((_ :: _) as l) => l
       | _ => [str "soundex"; str "ngram"]
       end |}.

(** [d.get(k1) or d.get(k2, dflt)]. *)
Definition get_or (d : dict pystr pystr) (k1 k2 : pystr) (dflt : pystr)
  : pystr :=
  match Dict.get d k1 with
  | Some ((_ :: _) as v) => v
  | _ => default dflt (Dict.get d k2)
  end.

Section WithRuntime.
Context {U : Unicode}.

Definition titles : list pystr :=
  map str ["Mr"; "Mrs"; "Ms"; "Dr"; "Prof"; "Jr"; "Sr"; "III"; "II"; "IV"]%string.

Definition standardize_record (record : EntityRecord) : EntityRecord :=
  let attrs := attributes record in
  let attrs :=
    match Dict.get attrs (str "name") with
    | Some name =>
        let name := sub_words titles (str "") true [] name in
        let name := strip_special name in
        let name := join (str " ") (split name) in
        Dict.set attrs (str "name_standardized") (strip name)
    | None => attrs
    end in
  let attrs :=
    match Dict.get attrs (str "date_of_birth") with
    | Some dob => Dict.set attrs (str "dob_standardized") dob
    | None => attrs
    end in
  let attrs :=
    match Dict.get attrs (str "address") with
    | Some addr =>
        let addr := sub_words [str "Street"] (str "St") false [] addr in
        let addr := sub_words [str "Road"] (str "Rd") false [] addr in
        let addr := sub_words [str "Avenue"] (str "Ave") false [] addr in
        Dict.set attrs (str "address_standardized") addr
    | None => attrs
    end in
  {| id := id record;
     source_system := source_system record;
     entity_type := entity_type record;
     attributes := attrs;
     raw_data := raw_data record |}.

Definition uses (eng : Engine) (strategy : string) : bool :=
  bool_decide (str strategy ∈ blocking_strategies eng).

Definition generate_blocking_keys (eng : Engine) (record : EntityRecord)
  : list pystr :=
  let name :=
    get_or (attributes record) (str "name_standardized") (str "name") (str "")
  in
  (if uses eng "soundex"
   then [str "soundex_" ++ BlockingStrategy.soundex name] else [])
  ++ (if uses eng "metaphone"
      then [str "metaphone_" ++ BlockingStrategy.metaphone name] else [])
  ++ (if uses eng "ngram"
      then map (fun ng => str "ngram_" ++ ng)
             (take 3 (BlockingStrategy.ngram_blocking name 3))
      else [])
  ++ (if uses eng "first_letter"
      then [str "fl_"
            ++ BlockingStrategy.first_letter_year name
                 (Dict.get (attributes record) (str "year_of_birth"))]
      else []).

(** The [weights] of [score_candidate_pair]; [weights.get(k, 0.1)]. *)
Definition weights : dict pystr Q :=
  [ (str "name", 35 # 100); (str "dob", 20 # 100); (str "address", 15 # 100);
    (str "national_id", 15 # 100); (str "passport", 10 # 100);
    (str "tax_id", 5 # 100); (str "company_reg", 5 # 100) ].

Definition weight_of (k : pystr) : Q := default (1 # 10) (Dict.get weights k).

(** [sum(f(k) for k in scores)], from the integer [0]. *)
Definition sum_over (scores : dict pystr Q) (f : pystr -> Q -> Q) : Q :=
  fold_left (fun acc '(k, v) => (acc + f k v)%Q) scores 0%Q.

(** [1.0 if a == b else 0.0]. *)
Definition exact (a b : pystr) : Q := if str_eqb a b then 1 else 0.

(** [a.get(k)] and [b.get(k)] when both are truthy. *)
Definition both (a b : EntityRecord) (k : pystr) : option (pystr * pystr) :=
  match Dict.get (attributes a) k, Dict.get (attributes b) k with
  | Some ((_ :: _) as va), Some ((_ :: _) as vb) => Some (va, vb)
  | _, _ => None
  end.

(** The [scores] dictionary of [score_candidate_pair], in the order its keys
    are set. *)
Definition pair_scores (a b : EntityRecord) : dict pystr Q :=
  let name_a :=
    get_or (attributes a) (str "name_standardized") (str "name") (str "") in
  let name_b :=
    get_or (attributes b) (str "name_standardized") (str "name") (str "") in
  let addr_a :=
    get_or (attributes a) (str "address_standardized") (str "address")
      (str "") in
  let addr_b :=
    get_or (attributes b) (str "address_standardized") (str "address")
      (str "") in
  (if truthy name_a && truthy name_b
   then [(str "name", SimilarityScorer.composite_name_score name_a name_b)]
   else [])
  ++ match both a b (str "date_of_birth") with
     | Some (dob_a, dob_b) => [(str "dob", exact dob_a dob_b)]
     | None => []
     end
  ++ (if truthy addr_a && truthy addr_b
      then [(str "address",
             SimilarityScorer.jaro_winkler_similarity addr_a addr_b)]
      else [])
  ++ flat_map
       (fun id_type =>
          match both a b id_type with
          | Some (id_a, id_b) => [(id_type, exact id_a id_b)]
          | None => []
          end)
       (map str ["national_id"; "passport"; "tax_id"; "company_reg"]%string).

Definition score_candidate_pair (a b : EntityRecord) : MatchCandidate :=
  let scores := pair_scores a b in
  let total_weight := sum_over scores (fun k _ => weight_of k) in
  let overall :=
    if Qlt_le_dec 0 total_weight
    then (sum_over scores (fun k v => v * weight_of k) / total_weight)%Q
    else 0%Q in
  {| record_a := a; record_b := b; blocking_key := str "";
     similarity_scores := scores; overall_score := overall |}.

End WithRuntime.

(** *** cluster_matches: union-find on two dictionaries *)

Record forest := {
  parent : gmap pystr pystr;
  rank : gmap pystr nat;
}.

Definition empty_forest : forest := {| parent := ∅; rank := ∅ |}.

(** [find(x)]; [fuel] bounds the depth of the recursion and [None] is an
    exception (the recursion limit, or a missing key). *)
Fixpoint find (fuel : nat) (f : forest) (x : pystr) : option (pystr * forest) :=
  match fuel with
  | 0 => None
  | S fuel' =>
      let f1 :=
        match parent f !! x with
        | None => {| parent := <[x := x]> (parent f);
                     rank := <[x := 0]> (rank f) |}
        | Some _ => f
        end in
      p ← parent f1 !! x;
      if bool_decide (p ≠ x) then
        '(r, f2) ← find fuel' f1 p;
        Some (r, {| parent := <[x := r]> (parent f2); rank := rank f2 |})
      else Some (p, f1)
  end.

(** [union(x, y)]. *)
Definition union (fuel : nat) (f : forest) (x y : pystr) : option forest :=
  '(px, f1) ← find fuel f x;
  '(py, f2) ← find fuel f1 y;
  if bool_decide (px = py) then Some f2
  else
    rx ← rank f2 !! px;
    ry ← rank f2 !! py;
    let '(px, py, rx, ry) :=
      if rx <? ry then (py, px, ry, rx) else (px, py, rx, ry) in
    let parent' := <[py := px]> (parent f2) in
    if rx =? ry
    then Some {| parent := parent'; rank := <[px := rx + 1]> (rank f2) |}
    else Some {| parent := parent'; rank := rank f2 |}.

(** The loop over [matches]; the state is [(forest, all_records)]. *)
Fixpoint union_matches (fuel : nat) (threshold : Q)
    (matches : list MatchCandidate)
    (st : forest * dict pystr EntityRecord)
  : option (forest * dict pystr EntityRecord) :=
  match matches with
  | [] => Some st
  | m :: matches' =>
      if Qle_bool threshold (overall_score m) then
        let id_a := id (record_a m) in
        let id_b := id (record_b m) in
        f' ← union fuel (fst st) id_a id_b;
        union_matches fuel threshold matches'
          (f', Dict.set (Dict.set (snd st) id_a (record_a m))
                 id_b (record_b m))
      else union_matches fuel threshold matches' st
  end.

(** [clusters[root].append(record)] on a [defaultdict(list)]. *)
Definition dict_append {V : Type} (d : dict pystr (list V)) (k : pystr)
    (v : V) : dict pystr (list V) :=
  Dict.set d k (default [] (Dict.get d k) ++ [v]).

(** The loop over [all_records.items()]; the state is [(forest, clusters)]. *)
Fixpoint group_records (fuel : nat) (items : list (pystr * EntityRecord))
    (st : forest * dict pystr (list EntityRecord))
  : option (forest * dict pystr (list EntityRecord)) :=
  match items with
  | [] => Some st
  | (record_id, record) :: items' =>
      '(root, f') ← find fuel (fst st) record_id;
      group_records fuel items' (f', dict_append (snd st) root record)
  end.

Definition cluster_matches (fuel : nat) (eng : Engine)
    (matches : list MatchCandidate) : option (list (list EntityRecord)) :=
  '(f, all_records) ←
    union_matches fuel (match_threshold eng) matches (empty_forest, []);
  '(_, clusters) ← group_records fuel all_records (f, []);
  Some (Dict.values clusters).

(** *** create_canonical_record *)

(** [sum(1 for v in record.attributes.values() if v)]. *)
Definition non_null (record : EntityRecord) : nat :=
  length (List.filter truthy (Dict.values (attributes record))).

(** [completeness.sort(key=lambda x: x[0], reverse=True)]: a stable sort. *)
Fixpoint insert_desc (x : nat * EntityRecord) (l : list (nat * EntityRecord))
  : list (nat * EntityRecord) :=
  match l with
  | [] => [x]
  | y :: l' => if fst y <? fst x then x :: l else y :: insert_desc x l'
  end.

Definition sort_desc (l : list (nat * EntityRecord))
  : list (nat * EntityRecord) :=
  fold_left (fun acc x => insert_desc x acc) l [].

(** The loops that fill [canonical_attrs]. *)
Definition fill_attrs (canonical_attrs : dict pystr pystr)
    (record : EntityRecord) : dict pystr pystr :=
  fold_left
    (fun acc '(key, value) =>
       if negb (Dict.mem acc key) && truthy value
       then Dict.set acc key value else acc)
    (attributes record) canonical_attrs.

(** [len(set(r.source_system for r in cluster))]. *)
Definition num_sources (cluster : list EntityRecord) : nat :=
  length (remove_dups (map source_system cluster)).

(** The [confidence] of [create_canonical_record]. *)
Definition confidence (cluster : list EntityRecord) : Q :=
  Qmin 1 ((5 # 10) + Qnat (num_sources cluster) * (1 # 10)
          + Qnat (length cluster) * (5 # 100))%Q.

Section WithHashlib.
Context {H : Hashlib}.

(** The [resolved_id] of [create_canonical_record]. *)
Definition resolved_id_of (cluster : list EntityRecord) : pystr :=
  let sorted_ids := sorted (map id cluster) in
  take 16 (md5_hexdigest (join (str "_") sorted_ids)).

(** [None] is the [ValueError] raised on an empty cluster. *)
Definition create_canonical_record (cluster : list EntityRecord)
  : option ResolvedEntity :=
  match cluster with
  | [] => None
  | first :: _ =>
      let completeness :=
        sort_desc (map (fun record => (non_null record, record)) cluster) in
      let canonical_attrs :=
        fold_left (fun acc '(_, record) => fill_attrs acc record)
          completeness [] in
      Some {| resolved_id := resolved_id_of cluster;
              canonical_name :=
                get_or canonical_attrs (str "name_standardized") (str "name")
                  (str "Unknown");
              resolved_entity_type := entity_type first;
              source_records := cluster;
              confidence_score := confidence cluster;
              resolved_attributes := canonical_attrs;
              match_scores := [] |}
  end.

Context {U : Unicode}.

(** Step 2 of [resolve]: [block_index[key].append(record)]. *)
Definition index_record (eng : Engine)
    (block_index : dict pystr (list EntityRecord)) (record : EntityRecord)
  : dict pystr (list EntityRecord) :=
  fold_left (fun idx key => dict_append idx key record)
    (generate_blocking_keys eng record) block_index.

(** [tuple(sorted([a, b]))]. *)
Definition pair_key (a b : pystr) : pystr * pystr :=
  match sorted [a; b] with
  | [x; y] => (x, y)
  | _ => (a, b)
  end.

(** Steps 3 and 4 for one pair of one block; the state is
    [(scored_pairs, seen_pairs)]. *)
Definition pair_step (block_key : pystr)
    (st : list MatchCandidate * list (pystr * pystr))
    (p : EntityRecord * EntityRecord)
  : list MatchCandidate * list (pystr * pystr) :=
  let '(scored_pairs, seen_pairs) := st in
  let key := pair_key (id (fst p)) (id (snd p)) in
  if bool_decide (key ∈ seen_pairs) then st
  else
    let candidate := score_candidate_pair (fst p) (snd p) in
    let candidate :=
      {| record_a := record_a candidate; record_b := record_b candidate;
         blocking_key := block_key;
         similarity_scores := similarity_scores candidate;
         overall_score := overall_score candidate |} in
    (scored_pairs ++ [candidate], seen_pairs ++ [key]).

Definition block_step (st : list MatchCandidate * list (pystr * pystr))
    (block : pystr * list EntityRecord)
  : list MatchCandidate * list (pystr * pystr) :=
  fold_left (pair_step (fst block)) (pairs_in_order (snd block)) st.

(** [[create_canonical_record(c) for c in clusters]]. *)
Fixpoint canonical_records (clusters : list (list EntityRecord))
  : option (list ResolvedEntity) :=
  match clusters with
  | [] => Some []
  | c :: clusters' =>
      e ← create_canonical_record c;
      es ← canonical_records clusters';
      Some (e :: es)
  end.

Definition resolve (fuel : nat) (eng : Engine) (records : list EntityRecord)
  : option (list ResolvedEntity) :=
  let standardized := map standardize_record records in
  let block_index := fold_left (index_record eng) standardized [] in
  let scored_pairs := fst (fold_left block_step block_index ([], [])) in
  clusters ← cluster_matches fuel eng scored_pairs;
  let matched_ids := flat_map (map id) clusters in
  let singletons :=
    map (fun record => [record])
      (List.filter (fun record => negb (bool_decide (id record ∈ matched_ids)))
         standardized) in
  canonical_records (clusters ++ singletons).

End WithHashlib.

End EntityResolution.

(** ** network_generation.py *)

Module NetworkGeneration.

Inductive RelationshipType :=
  | OWNS | CONTROLS | DIRECTOR_OF | SHAREHOLDER_OF | EMPLOYEE_OF | RELATED_TO
  | FAMILY_OF
  | TRANSACTED_WITH | SENT_TO | RECEIVED_FROM
  | ACCOUNT_HOLDER | AUTHORIZED_SIGNATORY | BENEFICIAL_OWNER
  | REGISTERED_AT | RESIDES_AT | OPERATES_FROM
  | CONTACTED | SHARES_PHONE | SHARES_EMAIL | SHARES_DEVICE
  | CO_LOCATED | SAME_NETWORK | POTENTIAL_DUPLICATE.

#[export] Instance RelationshipType_eq_dec : EqDecision RelationshipType.
Proof. solve_decision. Defined.

Definition all_relationship_types : list RelationshipType :=
  [ OWNS; CONTROLS; DIRECTOR_OF; SHAREHOLDER_OF; EMPLOYEE_OF; RELATED_TO;
    FAMILY_OF; TRANSACTED_WITH; SENT_TO; RECEIVED_FROM;
    ACCOUNT_HOLDER; AUTHORIZED_SIGNATORY; BENEFICIAL_OWNER;
    REGISTERED_AT; RESIDES_AT; OPERATES_FROM;
    CONTACTED; SHARES_PHONE; SHARES_EMAIL; SHARES_DEVICE;
    CO_LOCATED; SAME_NETWORK; POTENTIAL_DUPLICATE ].

(** [relationship_type.value]. *)
Definition value (t : RelationshipType) : pystr :=
  str match t with
      | OWNS => "OWNS" | CONTROLS => "CONTROLS" | DIRECTOR_OF => "DIRECTOR_OF"
      | SHAREHOLDER_OF => "SHAREHOLDER_OF" | EMPLOYEE_OF => "EMPLOYEE_OF"
      | RELATED_TO => "RELATED_TO" | FAMILY_OF => "FAMILY_OF"
      | TRANSACTED_WITH => "TRANSACTED_WITH" | SENT_TO => "SENT_TO"
      | RECEIVED_FROM => "RECEIVED_FROM"
      | ACCOUNT_HOLDER => "ACCOUNT_HOLDER"
      | AUTHORIZED_SIGNATORY => "AUTHORIZED_SIGNATORY"
      | BENEFICIAL_OWNER => "BENEFICIAL_OWNER"
      | REGISTERED_AT => "REGISTERED_AT" | RESIDES_AT => "RESIDES_AT"
      | OPERATES_FROM => "OPERATES_FROM"
      | CONTACTED => "CONTACTED" | SHARES_PHONE => "SHARES_PHONE"
      | SHARES_EMAIL => "SHARES_EMAIL" | SHARES_DEVICE => "SHARES_DEVICE"
      | CO_LOCATED => "CO_LOCATED" | SAME_NETWORK => "SAME_NETWORK"
      | POTENTIAL_DUPLICATE => "POTENTIAL_DUPLICATE"
      end.

(** [RelationshipType(s)]: the member whose value is [s]; [None] stands for
    the [ValueError] of the enum lookup. *)
Definition of_value (s : pystr) : option RelationshipType :=
  List.find (fun t => str_eqb (value t) s) all_relationship_types.

(** An attribute value ([Any] in the source): [None], a string or a number. *)
Inductive attr :=
  | ANone
  | AStr (s : pystr)
  | ANum (q : Q).

(** [bool(v)]. *)
Definition attr_truthy (v : attr) : bool :=
  match v with
  | ANone => false
  | AStr s => truthy s
  | ANum q => negb (Qeq_bool q 0)
  end.

(** [v1 == v2]. *)
Definition attr_eqb (v1 v2 : attr) : bool :=
  match v1, v2 with
  | ANone, ANone => true
  | AStr a, AStr b => str_eqb a b
  | ANum a, ANum b => Qeq_bool a b
  | _, _ => false
  end.

(** The dataclasses.  [created_at], a wall-clock stamp that no operation
    reads, is left out. *)
Record NetworkNode := {
  node_id : pystr;
  node_type : pystr;
  label : pystr;
  node_attributes : dict pystr attr;
  risk_score : Q;
  source_systems : list pystr;
}.

Record NetworkEdge := {
  id : pystr;
  source_id : pystr;
  target_id : pystr;
  relationship_type : RelationshipType;
  weight : Q;
  attributes : dict pystr attr;
  evidence : list (dict pystr attr);
  confidence : Q;
}.

Record Network := {
  nodes : dict pystr NetworkNode;
  edges : dict pystr NetworkEdge;
}.

Definition empty_network : Network := {| nodes := []; edges := [] |}.

Definition add_node (net : Network) (node : NetworkNode) : Network :=
  {| nodes := Dict.set (nodes net) (node_id node) node; edges := edges net |}.

Definition add_edge (net : Network) (edge : NetworkEdge) : Network :=
  {| nodes := nodes net; edges := Dict.set (edges net) (id edge) edge |}.

(** [x in s] for a set of strings kept as a list. *)
Definition in_set (x : pystr) (s : list pystr) : bool :=
  bool_decide (x ∈ s).

(** [s.add(x)]. *)
Definition set_add (s : list pystr) (x : pystr) : list pystr :=
  if in_set x s then s else s ++ [x].

(** The order in which a [for] loop visits a set is not fixed by the
    language: it is some arrangement of the elements, and that is all the
    embedding assumes of it. *)
Class SetOrder := {
  set_iter : list pystr -> list pystr;
  set_iter_perm : forall s, set_iter s ≡ₚ s;
}.

Program Definition insertion_order : SetOrder := {| set_iter s := s |}.
Next Obligation. reflexivity. Qed.

Section WithSetOrder.
Context {SO : SetOrder}.

(** The body of [get_neighbors] for one [edge] and one [nid]; the state is
    [(next_level, neighbors)]. *)
Definition neighbors_edge_step (nid : pystr)
    (st : list pystr * list pystr) (edge : NetworkEdge)
  : list pystr * list pystr :=
  let '(next_level, neighbors) := st in
  if str_eqb (source_id edge) nid && negb (in_set (target_id edge) neighbors)
  then (set_add next_level (target_id edge), set_add neighbors (target_id edge))
  else if str_eqb (target_id edge) nid
          && negb (in_set (source_id edge) neighbors)
  then (set_add next_level (source_id edge), set_add neighbors (source_id edge))
  else st.

Definition neighbors_node_step (net : Network)
    (st : list pystr * list pystr) (nid : pystr) : list pystr * list pystr :=
  fold_left (neighbors_edge_step nid) (Dict.values (edges net)) st.

(** The [for _ in range(depth)] loop; the state is
    [(current_level, neighbors)]. *)
Fixpoint neighbors_loop (net : Network) (depth : nat)
    (current_level neighbors : list pystr) : list pystr :=
  match depth with
  | 0 => neighbors
  | S depth' =>
      let '(next_level, neighbors') :=
        fold_left (neighbors_node_step net) (set_iter current_level)
          ([], neighbors) in
      neighbors_loop net depth' next_level neighbors'
  end.

Definition get_neighbors (net : Network) (node : pystr) (depth : nat)
  : list pystr :=
  if depth <? 1 then [] else neighbors_loop net depth [node] [].

End WithSetOrder.

(** *** Inference rules *)

(** The interface of [RelationshipInferenceRule]: [apply] returns the edges
    it infers, or [None] when it raises. *)
Record RelationshipInferenceRule := {
  rule_relationship_type : RelationshipType;
  rule_confidence : Q;
  apply : Network -> option (list NetworkEdge);
}.

(** [attr_groups[value].append(node)] on a [defaultdict(list)]. *)
Fixpoint group_append (groups : list (attr * list NetworkNode))
    (v : attr) (node : NetworkNode) : list (attr * list NetworkNode) :=
  match groups with
  | [] => [(v, [node])]
  | (v', ns) :: groups' =>
      if attr_eqb v' v then (v', ns ++ [node]) :: groups'
      else (v', ns) :: group_append groups' v node
  end.

Definition shared_attribute_apply (attribute_name : pystr)
    (rtype : RelationshipType) (conf : Q) (net : Network)
  : list NetworkEdge :=
  let attr_groups :=
    fold_left
      (fun groups node =>
         match Dict.get (node_attributes node) attribute_name with
         | Some v => if attr_truthy v then group_append groups v node
                     else groups
         | None => groups
         end)
      (Dict.values (nodes net)) [] in
  flat_map
    (fun '(v, ns) =>
       if length ns <? 2 then []
       else
         map (fun '(node_a, node_b) =>
                {| id := str "inferred_" ++ node_id node_a ++ str "_"
                         ++ node_id node_b ++ str "_" ++ attribute_name;
                   source_id := node_id node_a;
                   target_id := node_id node_b;
                   relationship_type := rtype;
                   weight := 1;
                   attributes := [];
                   evidence :=
                     [[ (str "rule", AStr (str "shared_attribute"));
                        (str "attribute", AStr attribute_name);
                        (str "value", v) ]];
                   confidence := conf |})
             (pairs_in_order ns))
    attr_groups.

Definition SharedAttributeRule (attribute_name : pystr)
    (rtype : RelationshipType) (conf : Q) : RelationshipInferenceRule :=
  {| rule_relationship_type := rtype;
     rule_confidence := conf;
     apply net := Some (shared_attribute_apply attribute_name rtype conf net) |}.

(** [edge.attributes.get('amount', 0)] as a summand; [None] stands for the
    [TypeError] of adding a value that is not a number. *)
Definition amount_of (e : NetworkEdge) : option Q :=
  match Dict.get (attributes e) (str "amount") with
  | None => Some 0%Q
  | Some (ANum q) => Some q
  | Some _ => None
  end.

(** [tuple(sorted([a, b]))]. *)
Definition sorted_pair (a b : pystr) : pystr * pystr :=
  match sorted [a; b] with
  | [x; y] => (x, y)
  | _ => (a, b)
  end.

(** The first loop of [TransactionPatternRule.apply]: the two
    [defaultdict]s, kept as one table [pair -> (count, amount)]. *)
Definition tx_tally (tally : dict (pystr * pystr) (nat * Q))
    (e : NetworkEdge) : option (dict (pystr * pystr) (nat * Q)) :=
  if bool_decide (relationship_type e = SENT_TO)
     || bool_decide (relationship_type e = RECEIVED_FROM)
  then
    let pair := sorted_pair (source_id e) (target_id e) in
    let '(count, total) := default (0, 0%Q) (Dict.get tally pair) in
    match amount_of e with
    | Some a => Some (Dict.set tally pair (S count, (total + a)%Q))
    | None => None
    end
  else Some tally.

Fixpoint tx_tally_all (tally : dict (pystr * pystr) (nat * Q))
    (es : list NetworkEdge) : option (dict (pystr * pystr) (nat * Q)) :=
  match es with
  | [] => Some tally
  | e :: es' =>
      match tx_tally tally e with
      | Some tally' => tx_tally_all tally' es'
      | None => None
      end
  end.

Definition transaction_pattern_apply (min_transactions : nat) (conf : Q)
    (net : Network) : option (list NetworkEdge) :=
  match tx_tally_all [] (Dict.values (edges net)) with
  | None => None
  | Some tally =>
      Some (flat_map
        (fun '((id_a, id_b), (count, total)) =>
           if min_transactions <=? count then
             [ {| id := str "inferred_tx_" ++ id_a ++ str "_" ++ id_b;
                  source_id := id_a;
                  target_id := id_b;
                  relationship_type := TRANSACTED_WITH;
                  weight := Qnat count;
                  attributes := [];
                  evidence :=
                    [[ (str "rule", AStr (str "transaction_pattern"));
                       (str "transaction_count", ANum (Qnat count));
                       (str "total_amount", ANum total) ]];
                  confidence :=
                    Qmin 1 (conf + Qnat count * (2 # 100)) |} ]
           else [])
        tally)
  end.

Definition TransactionPatternRule (min_transactions : nat) (conf : Q)
  : RelationshipInferenceRule :=
  {| rule_relationship_type := TRANSACTED_WITH;
     rule_confidence := conf;
     apply := transaction_pattern_apply min_transactions conf |}.

(** *** NetworkGenerationEngine *)

Record Engine := {
  network : Network;
  inference_rules : list RelationshipInferenceRule;
}.

(** [_setup_default_rules]. *)
Definition default_rules : list RelationshipInferenceRule :=
  [ SharedAttributeRule (str "address") CO_LOCATED (7 # 10);
    SharedAttributeRule (str "phone") SHARES_PHONE (8 # 10);
    SharedAttributeRule (str "email") SHARES_EMAIL (8 # 10);
    TransactionPatternRule 3 (85 # 100) ].

(** [NetworkGenerationEngine()]. *)
Definition new_engine : Engine :=
  {| network := empty_network; inference_rules := default_rules |}.

Definition add_inference_rule (eng : Engine) (rule : RelationshipInferenceRule)
  : Engine :=
  {| network := network eng;
     inference_rules := inference_rules eng ++ [rule] |}.

Definition create_node_from_entity (eng : Engine)
    (entity_id entity_type name : pystr) (attributes : dict pystr attr)
    (risk : Q) (systems : option (list pystr)) : Engine * NetworkNode :=
  let node :=
    {| node_id := entity_id; node_type := entity_type; label := name;
       node_attributes := attributes; risk_score := risk;
       source_systems := default [] systems |} in
  ({| network := add_node (network eng) node;
      inference_rules := inference_rules eng |}, node).

Section WithHashlib.
Context {H : Hashlib}.

(** The [edge_id] of [create_edge]. *)
Definition edge_id (source target : pystr) (rtype : RelationshipType) : pystr :=
  take 16 (md5_hexdigest
             (source ++ str "_" ++ target ++ str "_" ++ value rtype)).

Definition create_edge (eng : Engine) (source target : pystr)
    (rtype : RelationshipType) (attrs : option (dict pystr attr))
    (w conf : Q) : Engine * NetworkEdge :=
  let edge :=
    {| id := edge_id source target rtype;
       source_id := source; target_id := target;
       relationship_type := rtype;
       weight := w; attributes := default [] attrs;
       evidence := []; confidence := conf |} in
  ({| network := add_edge (network eng) edge;
      inference_rules := inference_rules eng |}, edge).

End WithHashlib.

(** The inner loop of [run_inference] over the edges one rule returned; the
    state is [(network, inferred_edges)]. *)
Definition inference_edge_step (st : Network * list NetworkEdge)
    (edge : NetworkEdge) : Network * list NetworkEdge :=
  let '(net, inferred_edges) := st in
  if negb (Dict.mem (edges net) (id edge))
  then (add_edge net edge, inferred_edges ++ [edge])
  else st.

(** The loop of [run_inference] over the rules.  A rule that raises ends the
    call: the network keeps what the earlier rules added and nothing is
    returned. *)
Fixpoint inference_loop (rules : list RelationshipInferenceRule)
    (st : Network * list NetworkEdge) : Network * option (list NetworkEdge) :=
  match rules with
  | [] => (fst st, Some (snd st))
  | rule :: rules' =>
      match apply rule (fst st) with
      | Some new_edges =>
          inference_loop rules' (fold_left inference_edge_step new_edges st)
      | None => (fst st, None)
      end
  end.

Definition run_inference (eng : Engine) : Engine * option (list NetworkEdge) :=
  let '(net, result) :=
    inference_loop (inference_rules eng) (network eng, []) in
  ({| network := net; inference_rules := inference_rules eng |}, result).

Section WithSetOrder.
Context {SO : SetOrder}.

(** The state of the traversal of [propagate_risk]. *)
Record walk := {
  risk_contributions : dict pystr Q;
  visited : list pystr;
  next_level : list pystr;
}.

(** The body of the loop over the edges for one [node_id]. *)
Definition risk_edge_step (current_risk : Q) (node : pystr)
    (st : walk) (edge : NetworkEdge) : walk :=
  let neighbor_id :=
    if str_eqb (source_id edge) node then Some (target_id edge)
    else if str_eqb (target_id edge) node then Some (source_id edge)
    else None in
  match neighbor_id with
  | Some n =>
      if truthy n && negb (in_set n (visited st)) then
        let propagated_risk :=
          (current_risk * confidence edge * weight edge)%Q in
        {| risk_contributions := Dict.set (risk_contributions st) n
                                   propagated_risk;
           visited := set_add (visited st) n;
           next_level := set_add (next_level st) n |}
      else st
  | None => st
  end.

Definition risk_node_step (net : Network) (current_risk : Q)
    (st : walk) (node : pystr) : walk :=
  fold_left (risk_edge_step current_risk node) (Dict.values (edges net)) st.

(** One pass of [for hop in range(max_hops)], after
    [current_risk *= decay_factor]. *)
Definition risk_hop (net : Network) (current_risk : Q)
    (current_level : list pystr) (st : walk) : walk :=
  fold_left (risk_node_step net current_risk) (set_iter current_level)
    {| risk_contributions := risk_contributions st;
       visited := visited st;
       next_level := [] |}.

Fixpoint risk_loop (net : Network) (decay_factor : Q) (hops : nat)
    (current_risk : Q) (current_level : list pystr) (st : walk) : walk :=
  match hops with
  | 0 => st
  | S hops' =>
      let current_risk := (current_risk * decay_factor)%Q in
      let st' := risk_hop net current_risk current_level st in
      match next_level st' with
      | [] => st'
      | _ => risk_loop net decay_factor hops' current_risk (next_level st') st'
      end
  end.

Definition propagate_risk (eng : Engine) (source_node_id : pystr)
    (max_hops : nat) (decay_factor : Q) : dict pystr Q :=
  match Dict.get (nodes (network eng)) source_node_id with
  | None => []
  | Some source =>
      let source_risk := risk_score source in
      risk_contributions
        (risk_loop (network eng) decay_factor max_hops source_risk
           [source_node_id]
           {| risk_contributions := [(source_node_id, source_risk)];
              visited := [source_node_id];
              next_level := [] |})
  end.

End WithSetOrder.

(** *** Network.get_subgraph *)

Section Subgraph.
Context {SO : SetOrder}.

(** [get_subgraph(node_ids)]: the first loop visits the set [node_ids], the
    second the edges in the order of the dictionary. *)
Definition get_subgraph (net : Network) (node_ids : list pystr) : Network :=
  let subgraph :=
    fold_left
      (fun subgraph node_id =>
         match Dict.get (nodes net) node_id with
         | Some node => add_node subgraph node
         | None => subgraph
         end)
      (set_iter node_ids) empty_network in
  fold_left
    (fun subgraph edge =>
       if in_set (source_id edge) node_ids && in_set (target_id edge) node_ids
       then add_edge subgraph edge else subgraph)
    (Dict.values (edges net)) subgraph.

End Subgraph.

(** *** extract_relationships_from_transactions *)

(** A transaction of the feed: a dictionary whose [sender_entity_id] and
    [receiver_entity_id] are strings and whose [amount] is a number, each of
    them possibly absent; the other three values are copied as they are. *)
Record Transaction := {
  tx_id : attr;
  sender_entity_id : option pystr;
  receiver_entity_id : option pystr;
  amount : option Q;
  currency : attr;
  transaction_date : attr;
}.

(** [tx.get(key)] for a value that may be absent. *)
Definition get_num (o : option Q) : attr :=
  match o with Some q => ANum q | None => ANone end.

Section Transactions.
Context {H : Hashlib}.

(** The body of [for tx in transactions]; the state is the engine and the
    list [edges]. *)
Definition transaction_step (st : Engine * list NetworkEdge)
    (tx : Transaction) : Engine * list NetworkEdge :=
  match sender_entity_id tx, receiver_entity_id tx with
  | Some sender_id, Some receiver_id =>
      if negb (truthy sender_id) || negb (truthy receiver_id) then st
      else
        let '(eng, edge) :=
          create_edge (fst st) sender_id receiver_id SENT_TO
            (Some [ (str "transaction_id", tx_id tx);
                    (str "amount", get_num (amount tx));
                    (str "currency", currency tx);
                    (str "date", transaction_date tx) ])
            (default 1%Q (amount tx)) 1 in
        (eng, snd st ++ [edge])
  | _, _ => st
  end.

Definition extract_relationships_from_transactions (eng : Engine)
    (transactions : list Transaction) : Engine * list NetworkEdge :=
  fold_left transaction_step transactions (eng, []).

End Transactions.

(** *** calculate_network_metrics, get_network_summary, export *)

Record NetworkMetrics := {
  in_degree : nat;
  out_degree : nat;
  total_degree : nat;
  neighbor_count : nat;
  risk_exposure : Q;
  clustering_coefficient : Q;
}.

(** The innermost loop of the clustering coefficient: is there an edge
    between [n1] and [n2], in either direction. *)
Definition joined (net : Network) (n1 n2 : pystr) : bool :=
  existsb
    (fun e =>
       (str_eqb (source_id e) n1 && str_eqb (target_id e) n2)
       || (str_eqb (source_id e) n2 && str_eqb (target_id e) n1))
    (Dict.values (edges net)).

Section Metrics.
Context {SO : SetOrder}.

(** [calculate_network_metrics(node_id)]; [None] is the empty dictionary
    returned for a node that is not in the network. *)
Definition calculate_network_metrics (eng : Engine) (node : pystr)
  : option NetworkMetrics :=
  let net := network eng in
  if negb (Dict.mem (nodes net) node) then None
  else
    let es := Dict.values (edges net) in
    let in_degree :=
      length (List.filter (fun e => str_eqb (target_id e) node) es) in
    let out_degree :=
      length (List.filter (fun e => str_eqb (source_id e) node) es) in
    let total_degree := in_degree + out_degree in
    let neighbors := get_neighbors net node 1 in
    let risk_exposure :=
      fold_left
        (fun acc n =>
           match Dict.get (nodes net) n with
           | Some nd => (acc + risk_score nd)%Q
           | None => acc
           end)
        (set_iter neighbors) 0%Q in
    let clustering :=
      if length neighbors <? 2 then 0%Q
      else
        let neighbor_list := set_iter neighbors in
        let neighbor_edges :=
          length (List.filter (fun '(n1, n2) => joined net n1 n2)
                    (pairs_in_order neighbor_list)) in
        let max_edges :=
          (Qnat (length neighbors * (length neighbors - 1)) / 2)%Q in
        if Qlt_le_dec 0 max_edges then (Qnat neighbor_edges / max_edges)%Q
        else 0%Q in
    Some {| in_degree := in_degree; out_degree := out_degree;
            total_degree := total_degree;
            neighbor_count := length neighbors;
            risk_exposure := risk_exposure;
            clustering_coefficient := clustering |}.

End Metrics.

Record NetworkSummary := {
  node_count : nat;
  edge_count : nat;
  node_types : dict pystr nat;
  relationship_types : dict pystr nat;
  avg_risk_score : Q;
  high_risk_nodes : nat;
}.

(** [sum(n.risk_score for n in nodes)], from the integer [0]. *)
Definition total_risk (ns : list NetworkNode) : Q :=
  fold_left (fun acc n => (acc + risk_score n)%Q) ns 0%Q.

Definition get_network_summary (eng : Engine) : NetworkSummary :=
  let ns := Dict.values (nodes (network eng)) in
  let es := Dict.values (edges (network eng)) in
  {| node_count := length (nodes (network eng));
     edge_count := length (edges (network eng));
     node_types :=
       fold_left
         (fun d n =>
            Dict.set d (node_type n)
              (length (List.filter
                         (fun x => str_eqb (node_type x) (node_type n)) ns)))
         ns [];
     relationship_types :=
       fold_left
         (fun d e =>
            Dict.set d (value (relationship_type e))
              (length (List.filter
                         (fun x => bool_decide (relationship_type x
                                                = relationship_type e)) es)))
         es [];
     avg_risk_score :=
       match ns with
       | [] => 0%Q
       | _ :: _ => (total_risk ns / Qnat (length (nodes (network eng))))%Q
       end;
     high_risk_nodes :=
       length (List.filter (fun n => Qle_bool (7 # 10) (risk_score n)) ns) |}.

Record Neo4jNode := {
  neo4j_id : pystr;
  labels : list pystr;
  properties : dict pystr attr;
}.

Record Neo4jRelationship := {
  relationship_id : pystr;
  type : pystr;
  startNode : pystr;
  endNode : pystr;
  relationship_properties : dict pystr attr;
}.

(** [{**d, **items}]. *)
Definition dict_update (d items : dict pystr attr) : dict pystr attr :=
  fold_left (fun d '(k, v) => Dict.set d k v) items d.

Section Neo4jExport.
Context {U : Unicode}.

Definition export_to_neo4j_format (eng : Engine)
  : list Neo4jNode * list Neo4jRelationship :=
  (map (fun node =>
          {| neo4j_id := node_id node;
             labels := [upper (node_type node)];
             properties :=
               dict_update
                 [ (str "label", AStr (label node));
                   (str "risk_score", ANum (risk_score node)) ]
                 (node_attributes node) |})
     (Dict.values (nodes (network eng))),
   map (fun edge =>
          {| relationship_id := id edge;
             type := value (relationship_type edge);
             startNode := source_id edge;
             endNode := target_id edge;
             relationship_properties :=
               dict_update
                 [ (str "weight", ANum (weight edge));
                   (str "confidence", ANum (confidence edge)) ]
                 (attributes edge) |})
     (Dict.values (edges (network eng)))).

End Neo4jExport.

End NetworkGeneration.

(** ** api/endpoints/ftex.py: the edge loop of generate_network *)

Module FtexEndpoint.
Import NetworkGeneration.

Record NetworkEdgeInput := {
  source_id : pystr;
  target_id : pystr;
  relationship_type : pystr;
  attributes : dict pystr attr;
}.

Section WithHashlib.
Context {H : Hashlib}.

(** The body of [for edge in request.edges]. *)
Definition add_request_edge (eng : Engine) (edge : NetworkEdgeInput)
  : Engine :=
  let rel_type :=
    match of_value (relationship_type edge) with
    | Some t => t
    | None => RELATED_TO
    end in
  fst (create_edge eng (source_id edge) (target_id edge) rel_type
         (Some (attributes edge)) 1 1).

Definition add_request_edges (eng : Engine) (es : list NetworkEdgeInput)
  : Engine :=
  fold_left add_request_edge es eng.

End WithHashlib.
End FtexEndpoint.

(** ** api/endpoints/ftex.py: resolve_entities *)

Module FtexResolution.







Section WithRuntime.
Context {H : Hashlib} {U : Unicode}.


End WithRuntime.
End FtexResolution.

(** * Properties *)

(** ** Dictionaries *)

Module DictFacts.
Import Dict.
Section Facts.
Context {K V : Type} `{EqDecision K}.
Implicit Types (d : dict K V) (k : K) (v : V).

Lemma get_set_eq d k v : get (set d k v) k = Some v.
Proof.
  induction d as [|[k' v'] d IH]; simpl.
  - by rewrite decide_True.
  - destruct (decide (k' = k)) as [->|Hne]; simpl.
    + by rewrite decide_True.
    + by rewrite decide_False.
Qed.

Lemma get_set_ne d k k' v : k ≠ k' → get (set d k v) k' = get d k'.
Proof.
  intros Hne. induction d as [|[k0 v0] d IH]; simpl.
  - by rewrite decide_False.
  - destruct (decide (k0 = k)) as [->|Hne0]; simpl.
    + by rewrite !decide_False.
    + by rewrite IH.
Qed.

Lemma get_Some_keys d k v : get d k = Some v → k ∈ keys d.
Proof.
  induction d as [|[k' v'] d IH]; simpl; [done|].
  destruct (decide (k' = k)) as [->|Hne]; intros Hg.
  - apply list_elem_of_here.
  - apply list_elem_of_further. by apply IH.
Qed.

Lemma get_None_keys d k : get d k = None ↔ k ∉ keys d.
Proof.
  induction d as [|[k' v'] d IH]; simpl.
  - split; [intros _; apply not_elem_of_nil | done].
  - destruct (decide (k' = k)) as [->|Hne].
    + split; [done|]. intros Hn. exfalso. apply Hn, list_elem_of_here.
    + rewrite IH, not_elem_of_cons. intuition congruence.
Qed.

Lemma mem_keys d k : mem d k = true ↔ k ∈ keys d.
Proof.
  unfold mem. destruct (get d k) as [v|] eqn:Hg.
  - split; [intros _; by eapply get_Some_keys | done].
  - apply get_None_keys in Hg. split; [done | intros; contradiction].
Qed.

Lemma keys_set d k v :
  keys (set d k v) = if mem d k then keys d else keys d ++ [k].
Proof.
  unfold mem. induction d as [|[k' v'] d IH]; simpl; [done|].
  destruct (decide (k' = k)) as [->|Hne]; simpl; [done|].
  rewrite IH. by destruct (get d k).
Qed.

Lemma length_set d k v :
  length (set d k v) = if mem d k then length d else S (length d).
Proof.
  unfold mem. induction d as [|[k' v'] d IH]; simpl; [done|].
  destruct (decide (k' = k)) as [->|Hne]; simpl; [done|].
  rewrite IH. by destruct (get d k).
Qed.

Lemma NoDup_keys_set d k v : NoDup (keys d) → NoDup (keys (set d k v)).
Proof.
  intros Hnd. rewrite keys_set. destruct (mem d k) eqn:Hm; [done|].
  apply NoDup_app. split_and!; [done| |apply NoDup_singleton].
  intros x Hx Hx'. apply list_elem_of_singleton in Hx' as ->.
  apply mem_keys in Hx. congruence.
Qed.

Lemma mem_set d k v k' :
  mem (set d k v) k' = if decide (k = k') then true else mem d k'.
Proof.
  unfold mem. destruct (decide (k = k')) as [->|Hne].
  - by rewrite get_set_eq.
  - by rewrite get_set_ne.
Qed.

Lemma elem_of_keys_set d k v z : z ∈ keys (set d k v) ↔ z ∈ keys d ∨ z = k.
Proof.
  rewrite keys_set. destruct (mem d k) eqn:Hm.
  - apply mem_keys in Hm. split; [by left|]. by intros [?| ->].
  - by rewrite elem_of_app, list_elem_of_singleton.
Qed.

Lemma get_set d k v z :
  get (set d k v) z = if decide (k = z) then Some v else get d z.
Proof.
  destruct (decide (k = z)) as [->|Hne];
    [apply get_set_eq | by apply get_set_ne].
Qed.

Lemma keys_get d k : k ∈ keys d → ∃ v, get d k = Some v.
Proof.
  intros Hk. destruct (get d k) as [v|] eqn:Hg; [by exists v|].
  apply get_None_keys in Hg. contradiction.
Qed.

Lemma get_elem_of d k v : get d k = Some v → (k, v) ∈ d.
Proof.
  induction d as [|[k' v'] d IH]; simpl; [done|].
  destruct (decide (k' = k)) as [->|Hne]; intros Hg.
  - injection Hg as ->. apply list_elem_of_here.
  - apply list_elem_of_further. by apply IH.
Qed.

Lemma get_values d k v : get d k = Some v → v ∈ values d.
Proof.
  induction d as [|[k' v'] d IH]; simpl; [done|].
  destruct (decide (k' = k)) as [->|Hne]; intros Hg.
  - injection Hg as ->. apply list_elem_of_here.
  - apply list_elem_of_further. by apply IH.
Qed.

Lemma values_get d v :
  NoDup (keys d) → v ∈ values d → ∃ k, get d k = Some v.
Proof.
  induction d as [|[k' v'] d IH]; simpl; intros Hnd Hin.
  - by apply elem_of_nil in Hin.
  - apply NoDup_cons in Hnd as [Hk' Hnd].
    apply elem_of_cons in Hin as [->|Hin].
    + exists k'. by rewrite decide_True.
    + destruct (IH Hnd Hin) as [k Hk]. exists k.
      rewrite decide_False; [done|]. intros ->.
      apply get_Some_keys in Hk. contradiction.
Qed.

End Facts.
End DictFacts.

(** ** Worked inputs *)

Module Examples.
Import EntityResolution.

Definition record (i sys : string) (attrs : list (string * string))
  : EntityRecord :=
  {| id := str i; source_system := str sys; entity_type := str "individual";
     attributes := map (fun '(k, v) => (str k, str v)) attrs;
     raw_data := [] |}.

(** The record of the specification's second scenario. *)
Definition jane : EntityRecord :=
  record "CRM_002" "crm"
    [("name", "Jane Mary Doe"); ("date_of_birth", "1990-07-22")]%string.

(** A digest that is only used to run the code where the digest plays no
    part in the result. *)
Definition plain_digest : Hashlib := {| md5_hexdigest s := s |}.

End Examples.

(** ** Canonical records *)

Module CanonicalFacts.
Import EntityResolution Examples.

Lemma confidence_singleton (r : EntityRecord) : confidence [r] == 65 # 100.
Proof. reflexivity. Qed.

(** C7 (as the code has it): a record alone in its cluster, hence from one
    source system, is canonicalised with confidence
    [min(1.0, 0.5 + 0.1 * 1 + 0.05 * 1)], which is 0.65. *)
Theorem singleton_confidence `{H : Hashlib} (r : EntityRecord) :
  ∃ e, create_canonical_record [r] = Some e
       ∧ source_records e = [r]
       ∧ confidence_score e
         == Qmin 1 ((5 # 10) + Qnat 1 * (1 # 10) + Qnat 1 * (5 # 100))
       ∧ confidence_score e == 65 # 100.
Proof.
  eexists. split; [reflexivity|]. simpl. split; [done|]. split; reflexivity.
Qed.

(** C7 as stated fails: the singleton of the second scenario does not get a
    confidence within 0.05 of 0.55. *)
Lemma singleton_confidence_not_055 :
  ¬ (∀ (H : Hashlib) e,
       create_canonical_record [jane] = Some e →
       (Qabs (confidence_score e - (55 # 100)) <= 5 # 100)%Q).
Proof.
  intros Hc. specialize (Hc plain_digest _ eq_refl).
  vm_compute in Hc. apply Hc. reflexivity.
Qed.

End CanonicalFacts.

(** ** Edges: creation and inference *)

Module EdgeFacts.
Import NetworkGeneration DictFacts.

Lemma of_value_None (s : pystr) :
  (∀ t, value t ≠ s) → of_value s = None.
Proof.
  intros Hne. unfold of_value.
  destruct (List.find _ _) as [t|] eqn:Hf; [|done].
  apply find_some in Hf as [_ Ht]. unfold str_eqb in Ht.
  apply bool_decide_eq_true in Ht. by destruct (Hne t).
Qed.

Lemma edge_step_spec (net : Network) (acc : list NetworkEdge) (e : NetworkEdge) :
  NoDup (Dict.keys (edges net)) →
  ∃ added,
    inference_edge_step (net, acc) e
    = (fold_left add_edge added net, acc ++ added)
    ∧ Dict.keys (edges (fold_left add_edge added net))
      = Dict.keys (edges net) ++ map id added
    ∧ (added = [] ∨ added = [e])
    ∧ NoDup (Dict.keys (edges (fold_left add_edge added net)))
    ∧ nodes (fold_left add_edge added net) = nodes net
    ∧ ∀ k x, Dict.get (edges net) k = Some x →
             Dict.get (edges (fold_left add_edge added net)) k = Some x.
Proof.
  intros Hnd. unfold inference_edge_step.
  destruct (Dict.mem (edges net) (id e)) eqn:Hm; simpl.
  - exists []. simpl. rewrite !app_nil_r. by split_and!; [..|left| | |].
  - exists [e]. simpl. split_and!; [done| |by right| |done|].
    + by rewrite keys_set, Hm.
    + by apply NoDup_keys_set.
    + intros k x Hk. rewrite get_set_ne; [done|]. intros <-.
      unfold Dict.mem in Hm. by rewrite Hk in Hm.
Qed.

Lemma edge_steps_spec (es : list NetworkEdge) (net : Network)
    (acc : list NetworkEdge) :
  NoDup (Dict.keys (edges net)) →
  ∃ net' added,
    fold_left inference_edge_step es (net, acc) = (net', acc ++ added)
    ∧ Dict.keys (edges net') = Dict.keys (edges net) ++ map id added
    ∧ added ⊆ es
    ∧ NoDup (Dict.keys (edges net'))
    ∧ nodes net' = nodes net
    ∧ ∀ k x, Dict.get (edges net) k = Some x →
             Dict.get (edges net') k = Some x.
Proof.
  revert net acc. induction es as [|e es IH]; intros net acc Hnd;
    cbn [fold_left].
  - exists net, []. rewrite !app_nil_r. by split_and!.
  - destruct (edge_step_spec net acc e Hnd)
      as (a1 & -> & Hk1 & Ha1 & Hnd1 & Hn1 & Hp1).
    destruct (IH _ (acc ++ a1) Hnd1) as (net' & a2 & -> & Hk2 & Ha2 & Hnd2 & Hn2 & Hp2).
    exists net', (a1 ++ a2). split_and!.
    + by rewrite app_assoc.
    + by rewrite Hk2, Hk1, map_app, app_assoc.
    + intros x Hx. apply elem_of_app in Hx as [Hx|Hx].
      * destruct Ha1 as [->| ->]; [by apply elem_of_nil in Hx|].
        apply list_elem_of_singleton in Hx as ->. apply list_elem_of_here.
      * apply list_elem_of_further. by apply Ha2.
    + done.
    + congruence.
    + intros k x Hk. by apply Hp2, Hp1.
Qed.

Lemma inference_loop_spec (rules : list RelationshipInferenceRule)
    (net : Network) (acc : list NetworkEdge) :
  NoDup (Dict.keys (edges net)) →
  ∃ added,
    Dict.keys (edges (fst (inference_loop rules (net, acc))))
    = Dict.keys (edges net) ++ map id added
    ∧ NoDup (Dict.keys (edges (fst (inference_loop rules (net, acc)))))
    ∧ nodes (fst (inference_loop rules (net, acc))) = nodes net
    ∧ (∀ k x, Dict.get (edges net) k = Some x →
          Dict.get (edges (fst (inference_loop rules (net, acc)))) k = Some x)
    ∧ (∀ l, snd (inference_loop rules (net, acc)) = Some l → l = acc ++ added).
Proof.
  revert net acc. induction rules as [|rule rules IH]; intros net acc Hnd;
    cbn [inference_loop fst snd].
  - exists []. rewrite !app_nil_r. split_and!; try done.
    intros l [= <-]. done.
  - destruct (apply rule net) as [new_edges|]; cbn [fst snd].
    + destruct (edge_steps_spec new_edges net acc Hnd)
        as (net1 & a1 & -> & Hk1 & _ & Hnd1 & Hn1 & Hp1).
      destruct (IH net1 (acc ++ a1) Hnd1) as (a2 & Hk2 & Hnd2 & Hn2 & Hp2 & Hr2).
      exists (a1 ++ a2). split_and!.
      * by rewrite Hk2, Hk1, map_app, app_assoc.
      * done.
      * congruence.
      * intros k x Hk. by apply Hp2, Hp1.
      * intros l Hl. rewrite (Hr2 l Hl). by rewrite app_assoc.
    + exists []. rewrite !app_nil_r. split_and!; try done.
Qed.

(** How many times [x] occurs in [l]. *)
Definition occurrences (x : pystr) (l : list pystr) : nat :=
  length (filter (λ k, k = x) l).

Lemma occurrences_absent (l : list pystr) (x : pystr) :
  x ∉ l → occurrences x l = 0.
Proof.
  unfold occurrences. induction l as [|y l IH]; intros Hx; [done|].
  apply not_elem_of_cons in Hx as [Hne Hx].
  rewrite filter_cons_False by congruence. by apply IH.
Qed.

Lemma stored_once (l : list pystr) (x : pystr) :
  NoDup l → x ∈ l → occurrences x l = 1.
Proof.
  induction 1 as [|y l Hy Hnd IH]; intros Hx.
  - by apply elem_of_nil in Hx.
  - unfold occurrences. apply elem_of_cons in Hx as [->|Hx].
    + rewrite filter_cons_True by done. cbn. f_equal.
      by apply occurrences_absent.
    + rewrite filter_cons_False; [by apply IH|]. intros ->. contradiction.
Qed.

(** C3: [create_edge] derives the edge id from the triple alone, and a second
    call with the same triple leaves the network with the same ids, the id
    of the triple stored once and bound to the second edge; [run_inference]
    keeps every edge that was stored under its id, stores no id twice, and
    returns only edges whose ids were not in the network, each once.  Both
    hold from any state of the engine, hence for every repeated call. *)
Theorem edge_idempotence `{H : Hashlib} (eng : Engine) :
  NoDup (Dict.keys (edges (network eng))) →
  (∀ s t r a1 w1 c1 a2 w2 c2,
     let eng1 := fst (create_edge eng s t r a1 w1 c1) in
     let e1 := snd (create_edge eng s t r a1 w1 c1) in
     let eng2 := fst (create_edge eng1 s t r a2 w2 c2) in
     let e2 := snd (create_edge eng1 s t r a2 w2 c2) in
     id e1 = edge_id s t r ∧ id e2 = edge_id s t r
     ∧ Dict.keys (edges (network eng2)) = Dict.keys (edges (network eng1))
     ∧ occurrences (edge_id s t r) (Dict.keys (edges (network eng2))) = 1
     ∧ Dict.get (edges (network eng2)) (edge_id s t r) = Some e2)
  ∧ (let eng' := fst (run_inference eng) in
     NoDup (Dict.keys (edges (network eng')))
     ∧ (∀ k e, Dict.get (edges (network eng)) k = Some e →
               Dict.get (edges (network eng')) k = Some e)
     ∧ ∀ inferred, snd (run_inference eng) = Some inferred →
         NoDup (map id inferred)
         ∧ (∀ e, e ∈ inferred → id e ∉ Dict.keys (edges (network eng)))
         ∧ Dict.keys (edges (network eng'))
           = Dict.keys (edges (network eng)) ++ map id inferred).
Proof.
  intros Hnd. split.
  - intros s t r a1 w1 c1 a2 w2 c2.
    unfold create_edge, add_edge. cbn [fst snd network edges id].
    split_and!; [done|done| | |].
    + rewrite (keys_set (Dict.set _ _ _)), mem_set. by rewrite decide_True.
    + apply stored_once.
      * by do 2 apply NoDup_keys_set.
      * apply mem_keys. rewrite mem_set. by rewrite decide_True.
    + by rewrite get_set_eq.
  - unfold run_inference.
    destruct (inference_loop_spec (inference_rules eng) (network eng) [] Hnd)
      as (added & Hk & Hnd' & _ & Hp & Hr).
    destruct (inference_loop _ _) as [net' res]; cbn in *.
    split_and!; [done|done|].
    intros inferred ->. specialize (Hr _ eq_refl). cbn in Hr. subst added.
    rewrite Hk in Hnd'. apply NoDup_app in Hnd' as (_ & Hdisj & Hnd'').
    split_and!; [done| |done].
    intros e He Hin. apply (Hdisj _ Hin). apply list_elem_of_fmap. eauto.
Qed.

(** The engine as it is constructed satisfies the hypothesis of
    [edge_idempotence]. *)
Lemma edge_idempotence_witness :
  let eng := NetworkGeneration.new_engine in
  let H := Examples.plain_digest in
  let eng2 :=
    fst (create_edge (fst (create_edge eng (str "A") (str "B") OWNS None 1 1))
           (str "A") (str "B") OWNS None 1 1) in
  NoDup (Dict.keys (edges (network eng)))
  ∧ occurrences (edge_id (str "A") (str "B") OWNS)
      (Dict.keys (edges (network eng2))) = 1.
Proof.
  split; [apply NoDup_nil_2|].
  apply (@edge_idempotence Examples.plain_digest NetworkGeneration.new_engine).
  apply NoDup_nil_2.
Defined.

End EdgeFacts.

(** ** The edge loop of the API *)

Module EndpointFacts.
Import NetworkGeneration DictFacts.

(** C8: a relationship kind that is the value of no member of
    [RelationshipType] does not fail; the edge is stored as [RELATED_TO],
    under the id derived from that kind. *)
Theorem unknown_kind_defaults `{H : Hashlib} (eng : Engine)
    (edge : FtexEndpoint.NetworkEdgeInput) :
  (∀ t, value t ≠ FtexEndpoint.relationship_type edge) →
  ∃ e,
    Dict.get (edges (network (FtexEndpoint.add_request_edge eng edge)))
      (edge_id (FtexEndpoint.source_id edge) (FtexEndpoint.target_id edge)
         RELATED_TO) = Some e
    ∧ relationship_type e = RELATED_TO
    ∧ source_id e = FtexEndpoint.source_id edge
    ∧ target_id e = FtexEndpoint.target_id edge
    ∧ e ∈ Dict.values (edges (network (FtexEndpoint.add_request_edge eng edge))).
Proof.
  intros Hunk. unfold FtexEndpoint.add_request_edge.
  rewrite (EdgeFacts.of_value_None _ Hunk). cbn.
  eexists. split; [apply get_set_eq|]. split_and!; try done.
  eapply get_values, get_set_eq.
Qed.

Definition friend_of : FtexEndpoint.NetworkEdgeInput :=
  {| FtexEndpoint.source_id := str "E001";
     FtexEndpoint.target_id := str "E002";
     FtexEndpoint.relationship_type := str "FRIEND_OF";
     FtexEndpoint.attributes := [] |}.

Lemma unknown_kind_defaults_witness :
  (∀ t, value t ≠ FtexEndpoint.relationship_type friend_of)
  ∧ ∃ e,
      Dict.get
        (edges (network
           (@FtexEndpoint.add_request_edge Examples.plain_digest
              NetworkGeneration.new_engine friend_of)))
        (@edge_id Examples.plain_digest (str "E001") (str "E002") RELATED_TO)
      = Some e
      ∧ relationship_type e = RELATED_TO.
Proof.
  assert (Hunk : ∀ t, value t ≠ FtexEndpoint.relationship_type friend_of)
    by (intros t; destruct t; vm_compute; discriminate).
  split; [exact Hunk|].
  destruct (@unknown_kind_defaults Examples.plain_digest
              NetworkGeneration.new_engine friend_of Hunk)
    as (e & He & Hr & _).
  exists e. split; [exact He | exact Hr].
Defined.

End EndpointFacts.

(** ** Similarity scores on empty strings and out of range *)

Module ScoreFacts.
Import SimilarityScorer EntityResolution.

Section AnyRuntime.
Context {U : Unicode}.

(** Two empty strings score 1.0 under every similarity function. *)
Lemma both_empty :
  (levenshtein_similarity [] [] == 1
   ∧ jaro_similarity [] [] == 1
   ∧ jaro_winkler_similarity [] [] == 1
   ∧ jaccard_similarity [] [] == 1
   ∧ token_based_similarity [] [] == 1
   ∧ phonetic_similarity [] [] == 1
   ∧ composite_name_score [] [] == 1)%Q.
Proof. by split_and!. Qed.

(** With exactly one empty string, the five functions that test for empty
    arguments, directly or through [jaro_similarity], score 0.0. *)
Lemma one_empty (s : pystr) :
  s ≠ [] →
  (levenshtein_similarity [] s == 0 ∧ levenshtein_similarity s [] == 0
   ∧ jaro_similarity [] s == 0 ∧ jaro_similarity s [] == 0
   ∧ jaro_winkler_similarity [] s == 0 ∧ jaro_winkler_similarity s [] == 0
   ∧ jaccard_similarity [] s == 0 ∧ jaccard_similarity s [] == 0
   ∧ token_based_similarity [] s == 0 ∧ token_based_similarity s [] == 0)%Q.
Proof. destruct s as [|c s]; [done|]. intros _. by split_and!. Qed.

End AnyRuntime.

(** C6 fails on [phonetic_similarity], the one scorer without the test for
    empty arguments that its siblings start with: the Soundex code of the
    empty string is "0000", which agrees with "A000" in three places, and the
    composite score inherits the 0.75. *)
Theorem phonetic_similarity_one_empty :
  (@phonetic_similarity basic_latin (str "") (str "a") == 3 # 4
   ∧ @phonetic_similarity basic_latin (str "a") (str "") == 3 # 4
   ∧ @composite_name_score basic_latin (str "") (str "a") == 3 # 40)%Q.
Proof. by vm_compute. Qed.

(** U+0130 against "a". *)
Definition dotted_I : pystr := [304%N].

Definition named (i name : pystr) : EntityRecord :=
  {| id := i; source_system := str "crm"; entity_type := str "individual";
     attributes := [(str "name", name)]; raw_data := [] |}.

(** C4 fails on [levenshtein_similarity]: the distance is taken between the
    lower-cased strings and divided by the longer of the original lengths.
    The lower case of U+0130 is two code points long, both differ from "a",
    so the distance is 2 over a length of 1 and the score is -1.0; the
    composite name score and the overall score of the pair are negative
    too. *)
Theorem levenshtein_similarity_below_zero :
  (@levenshtein_similarity basic_latin dotted_I (str "a") == -1
   ∧ @composite_name_score basic_latin dotted_I (str "a") == - (7 # 40)
   ∧ overall_score
       (@score_candidate_pair basic_latin (named (str "r1") dotted_I)
          (named (str "r2") (str "a"))) == - (7 # 40))%Q.
Proof. by vm_compute. Qed.

End ScoreFacts.

(** ** Neighbourhoods *)

Module NeighborFacts.
Import NetworkGeneration.

Lemma in_set_true (x : pystr) (s : list pystr) : in_set x s = true ↔ x ∈ s.
Proof. unfold in_set. apply bool_decide_eq_true. Qed.

Lemma in_set_false (x : pystr) (s : list pystr) : in_set x s = false ↔ x ∉ s.
Proof. unfold in_set. apply bool_decide_eq_false. Qed.

Lemma elem_of_set_add (s : list pystr) (x y : pystr) :
  y ∈ set_add s x ↔ y ∈ s ∨ y = x.
Proof.
  unfold set_add. destruct (in_set x s) eqn:Hx.
  - apply in_set_true in Hx. split; [by left|]. by intros [?| ->].
  - rewrite elem_of_app, list_elem_of_singleton. done.
Qed.

Lemma NoDup_set_add (s : list pystr) (x : pystr) :
  NoDup s → NoDup (set_add s x).
Proof.
  intros Hnd. unfold set_add. destruct (in_set x s) eqn:Hx; [done|].
  apply in_set_false in Hx. apply NoDup_app. split_and!; [done| |].
  - intros y Hy Hy'. apply list_elem_of_singleton in Hy' as ->. contradiction.
  - apply NoDup_singleton.
Qed.

Section WithSetOrder.
Context {SO : SetOrder}.

(** What one pass over one edge guarantees: both sets grow, whatever enters
    [neighbors] enters [next_level], and the far end of an edge at [nid] is a
    neighbour afterwards. *)
Lemma edge_step_grows nid st e x :
  (x ∈ st.1 → x ∈ (neighbors_edge_step nid st e).1)
  ∧ (x ∈ st.2 → x ∈ (neighbors_edge_step nid st e).2).
Proof.
  destruct st as [next nbrs]. unfold neighbors_edge_step.
  repeat case_match; cbn; rewrite ?elem_of_set_add; tauto.
Qed.

Lemma edge_step_new nid st e x :
  x ∈ (neighbors_edge_step nid st e).2 →
  x ∈ st.2 ∨ x ∈ (neighbors_edge_step nid st e).1.
Proof.
  destruct st as [next nbrs]. unfold neighbors_edge_step.
  repeat case_match; cbn; rewrite ?elem_of_set_add; tauto.
Qed.

Lemma edge_step_far_end nid st e :
  (source_id e = nid → target_id e ∈ (neighbors_edge_step nid st e).2)
  ∧ (target_id e = nid → source_id e ∈ (neighbors_edge_step nid st e).2).
Proof.
  destruct st as [next nbrs]. unfold neighbors_edge_step, str_eqb.
  destruct (bool_decide (source_id e = nid)) eqn:Hs;
    destruct (in_set (target_id e) nbrs) eqn:Ht;
    destruct (bool_decide (target_id e = nid)) eqn:Htn;
    destruct (in_set (source_id e) nbrs) eqn:Hsn; cbn;
    rewrite ?elem_of_set_add;
    rewrite ?bool_decide_eq_true, ?bool_decide_eq_false in *;
    rewrite ?in_set_true, ?in_set_false in *;
    split; intros; subst; try tauto; try congruence; auto.
Qed.

Lemma edges_grow nid es st x :
  (x ∈ st.1 → x ∈ (fold_left (neighbors_edge_step nid) es st).1)
  ∧ (x ∈ st.2 → x ∈ (fold_left (neighbors_edge_step nid) es st).2).
Proof.
  revert st. induction es as [|e es IH]; intros st; cbn [fold_left]; [done|].
  destruct (IH (neighbors_edge_step nid st e)) as [IH1 IH2].
  destruct (edge_step_grows nid st e x) as [G1 G2]. split; auto.
Qed.

Lemma edges_new nid es st x :
  x ∈ (fold_left (neighbors_edge_step nid) es st).2 →
  x ∈ st.2 ∨ x ∈ (fold_left (neighbors_edge_step nid) es st).1.
Proof.
  revert st. induction es as [|e es IH]; intros st; cbn [fold_left];
    [by left|].
  intros Hx. destruct (IH _ Hx) as [Hx'|Hx']; [|by right].
  destruct (edge_step_new nid st e x Hx') as [?|Hn]; [by left|right].
  by apply edges_grow.
Qed.

Lemma edges_far_end nid es st e :
  e ∈ es →
  (source_id e = nid →
     target_id e ∈ (fold_left (neighbors_edge_step nid) es st).2)
  ∧ (target_id e = nid →
       source_id e ∈ (fold_left (neighbors_edge_step nid) es st).2).
Proof.
  revert st. induction es as [|e' es IH]; intros st He; cbn [fold_left].
  - by apply elem_of_nil in He.
  - apply elem_of_cons in He as [->|He]; [|by apply IH].
    destruct (edge_step_far_end nid st e') as [F1 F2].
    split; intros Hn; apply edges_grow; auto.
Qed.

Lemma nodes_grow net ns st x :
  (x ∈ st.1 → x ∈ (fold_left (neighbors_node_step net) ns st).1)
  ∧ (x ∈ st.2 → x ∈ (fold_left (neighbors_node_step net) ns st).2).
Proof.
  revert st. induction ns as [|n ns IH]; intros st; cbn [fold_left]; [done|].
  destruct (IH (neighbors_node_step net st n)) as [IH1 IH2].
  destruct (edges_grow n (Dict.values (edges net)) st x) as [G1 G2].
  split; auto.
Qed.

Lemma nodes_new net ns st x :
  x ∈ (fold_left (neighbors_node_step net) ns st).2 →
  x ∈ st.2 ∨ x ∈ (fold_left (neighbors_node_step net) ns st).1.
Proof.
  revert st. induction ns as [|n ns IH]; intros st; cbn [fold_left];
    [by left|].
  intros Hx. destruct (IH _ Hx) as [Hx'|Hx']; [|by right].
  destruct (edges_new n _ st x Hx') as [?|Hn]; [by left|right].
  by apply nodes_grow.
Qed.

Lemma nodes_far_end net ns st nid e :
  nid ∈ ns → e ∈ Dict.values (edges net) →
  (source_id e = nid →
     target_id e ∈ (fold_left (neighbors_node_step net) ns st).2)
  ∧ (target_id e = nid →
       source_id e ∈ (fold_left (neighbors_node_step net) ns st).2).
Proof.
  revert st. induction ns as [|n ns IH]; intros st Hn He; cbn [fold_left].
  - by apply elem_of_nil in Hn.
  - apply elem_of_cons in Hn as [->|Hn]; [|by apply IH].
    destruct (edges_far_end n _ st e He) as [F1 F2].
    split; intros Hs; apply nodes_grow; auto.
Qed.

Lemma loop_grows net depth cur nbrs x :
  x ∈ nbrs → x ∈ neighbors_loop net depth cur nbrs.
Proof.
  revert cur nbrs. induction depth as [|d IH]; intros cur nbrs Hx;
    cbn [neighbors_loop]; [done|].
  destruct (fold_left _ _ _) as [next nbrs'] eqn:Hf. apply IH.
  pose proof (nodes_grow net (set_iter cur) ([], nbrs) x) as [_ G].
  rewrite Hf in G. by apply G.
Qed.

(** C10: [get_neighbors] never marks the queried node as seen, so a node
    with an edge at it is among its own neighbours from depth 2 on, and from
    depth 1 on when the edge is a self-loop. *)
Theorem get_neighbors_contains_self (net : Network) (v : pystr) (depth : nat)
    (e : NetworkEdge) :
  e ∈ Dict.values (edges net) →
  (source_id e = v ∨ target_id e = v) →
  (2 ≤ depth → v ∈ get_neighbors net v depth)
  ∧ (source_id e = v → target_id e = v → 1 ≤ depth →
       v ∈ get_neighbors net v depth).
Proof.
  intros He Hinc.
  assert (Hv : v ∈ set_iter [v])
    by (rewrite set_iter_perm; apply list_elem_of_here).
  split.
  - intros Hd. destruct depth as [|[|d]]; [lia|lia|].
    unfold get_neighbors. cbn [Nat.ltb Nat.leb neighbors_loop].
    destruct (fold_left _ (set_iter [v]) _) as [next1 nbrs1] eqn:H1.
    destruct (fold_left _ (set_iter next1) _) as [next2 nbrs2] eqn:H2.
    apply loop_grows.
    pose proof (nodes_far_end net (set_iter [v]) ([], []) v e Hv He) as [F1 F2].
    pose proof (nodes_new net (set_iter [v]) ([], [])) as N1.
    rewrite H1 in F1, F2, N1. cbn [fst snd] in *.
    assert (Hfar : ∃ u, u ∈ next1
                        ∧ (source_id e = u ∧ target_id e = v
                           ∨ target_id e = u ∧ source_id e = v)).
    { destruct Hinc as [Hs|Ht].
      - exists (target_id e). split; [|by right].
        destruct (N1 _ (F1 Hs)) as [Hn|Hn]; [by apply elem_of_nil in Hn|done].
      - exists (source_id e). split; [|by left].
        destruct (N1 _ (F2 Ht)) as [Hn|Hn]; [by apply elem_of_nil in Hn|done]. }
    destruct Hfar as (u & Hu & Hends).
    assert (Hu' : u ∈ set_iter next1) by (by rewrite set_iter_perm).
    pose proof (nodes_far_end net (set_iter next1) ([], nbrs1) u e Hu' He)
      as [G1 G2].
    rewrite H2 in G1, G2. cbn [snd] in *.
    destruct Hends as [[Hs Ht]|[Ht Hs]].
    + rewrite <- Ht. by apply G1.
    + rewrite <- Hs. by apply G2.
  - intros Hs Ht Hd. destruct depth as [|d]; [lia|].
    unfold get_neighbors. cbn [Nat.ltb Nat.leb neighbors_loop].
    destruct (fold_left _ (set_iter [v]) _) as [next1 nbrs1] eqn:H1.
    apply loop_grows.
    pose proof (nodes_far_end net (set_iter [v]) ([], []) v e Hv He) as [F1 _].
    rewrite H1 in F1. cbn [snd] in F1. rewrite <- Ht at 1. by apply F1.
Qed.

End WithSetOrder.

(** One edge from [a] to [b]: at depth 2 the neighbours of [a] are [b] and
    [a] itself. *)
Definition one_edge : Network :=
  add_edge empty_network
    {| id := str "e1"; source_id := str "a"; target_id := str "b";
       relationship_type := RELATED_TO; weight := 1; attributes := [];
       evidence := []; confidence := 1 |}.

Lemma get_neighbors_contains_self_witness :
  @get_neighbors insertion_order one_edge (str "a") 2 = [str "b"; str "a"]
  ∧ str "a" ∈ @get_neighbors insertion_order one_edge (str "a") 2.
Proof.
  split; [reflexivity|].
  refine (proj1 (@get_neighbors_contains_self insertion_order one_edge
                   (str "a") 2 _ _ _) _).
  - apply list_elem_of_here.
  - left. reflexivity.
  - lia.
Defined.

End NeighborFacts.

(** ** Risk propagation *)

Module RiskFacts.
Import NetworkGeneration DictFacts NeighborFacts.


Section WithSetOrder.
Context {SO : SetOrder}.



(** Every key of [risk_contributions] has been visited. *)
Definition recorded_visited (st : walk) : Prop :=
  ∀ x, x ∈ Dict.keys (risk_contributions st) → x ∈ visited st.

(** Every node of [next_level] holds the contribution of an edge at it,
    computed from [cr]. *)
Definition level_priced (net : Network) (cr : Q) (st : walk) : Prop :=
  ∀ x, x ∈ next_level st →
    ∃ e, e ∈ Dict.values (edges net)
         ∧ (source_id e = x ∨ target_id e = x)
         ∧ Dict.get (risk_contributions st) x
           = Some (cr * confidence e * weight e)%Q.

(** [st'] keeps the contributions of [st]. *)
Definition keeps (st st' : walk) : Prop :=
  ∀ x v, Dict.get (risk_contributions st) x = Some v →
         Dict.get (risk_contributions st') x = Some v.

Lemma keeps_refl st : keeps st st.
Proof. by intros x v. Qed.

Lemma risk_edge_spec net cr node st e :
  e ∈ Dict.values (edges net) →
  recorded_visited st → level_priced net cr st →
  recorded_visited (risk_edge_step cr node st e)
  ∧ level_priced net cr (risk_edge_step cr node st e)
  ∧ keeps st (risk_edge_step cr node st e).
Proof.
  intros He Hrv Hlp. unfold risk_edge_step, str_eqb.
  set (nb := if bool_decide (source_id e = node) then Some (target_id e)
             else if bool_decide (target_id e = node) then Some (source_id e)
             else None).
  assert (Hnb : ∀ n, nb = Some n → source_id e = n ∨ target_id e = n).
  { intros n. unfold nb. repeat case_bool_decide; intros [= <-]; auto. }
  destruct nb as [n|]; [|by split_and!; try apply keeps_refl].
  specialize (Hnb n eq_refl).
  destruct (truthy n && negb (in_set n (visited st))) eqn:Hc; [|by split_and!; try apply keeps_refl].
  apply andb_true_iff in Hc as [_ Hnv]. apply negb_true_iff in Hnv.
  apply in_set_false in Hnv.
  assert (Hfresh : n ∉ Dict.keys (risk_contributions st)) by (intros ?; auto).
  split_and!.
  - intros x. cbn [risk_contributions visited next_level]. rewrite keys_set.
    destruct (Dict.mem _ n) eqn:Hm.
    + apply mem_keys in Hm. contradiction.
    + rewrite elem_of_app, list_elem_of_singleton, elem_of_set_add.
      intros [?| ->]; auto.
  - intros x. cbn [risk_contributions visited next_level].
    rewrite elem_of_set_add. intros Hx.
    destruct (decide (x = n)) as [->|Hne].
    + exists e. by rewrite get_set_eq.
    + destruct Hx as [Hx|Hx]; [|done].
      destruct (Hlp x Hx) as (e' & ? & ? & ?). exists e'.
      rewrite get_set_ne by done. done.
  - intros x v Hx. cbn [risk_contributions visited next_level].
    rewrite get_set_ne; [done|]. intros <-.
    apply Hfresh. by eapply get_Some_keys.
Qed.

Lemma keeps_trans st1 st2 st3 : keeps st1 st2 → keeps st2 st3 → keeps st1 st3.
Proof. intros H1 H2 x v Hx. by apply H2, H1. Qed.

Lemma risk_edges_spec net cr node es st :
  es ⊆ Dict.values (edges net) →
  recorded_visited st → level_priced net cr st →
  recorded_visited (fold_left (risk_edge_step cr node) es st)
  ∧ level_priced net cr (fold_left (risk_edge_step cr node) es st)
  ∧ keeps st (fold_left (risk_edge_step cr node) es st).
Proof.
  revert st. induction es as [|e es IH]; intros st Hsub Hrv Hlp;
    cbn [fold_left]; [by split_and!; try apply keeps_refl|].
  destruct (risk_edge_spec net cr node st e) as (R1 & L1 & K1); [|done..|].
  { apply Hsub, list_elem_of_here. }
  destruct (IH (risk_edge_step cr node st e)) as (R2 & L2 & K2); [|done..|].
  { intros x Hx. apply Hsub. by apply list_elem_of_further. }
  split_and!; [done|done|]. by eapply keeps_trans.
Qed.

Lemma risk_nodes_spec net cr ns st :
  recorded_visited st → level_priced net cr st →
  recorded_visited (fold_left (risk_node_step net cr) ns st)
  ∧ level_priced net cr (fold_left (risk_node_step net cr) ns st)
  ∧ keeps st (fold_left (risk_node_step net cr) ns st).
Proof.
  revert st. induction ns as [|n ns IH]; intros st Hrv Hlp;
    cbn [fold_left]; [by split_and!; try apply keeps_refl|].
  destruct (risk_edges_spec net cr n (Dict.values (edges net)) st)
    as (R1 & L1 & K1); [done..|].
  destruct (IH (risk_node_step net cr st n)) as (R2 & L2 & K2); [done..|].
  split_and!; [done|done|]. by eapply keeps_trans.
Qed.

Lemma risk_hop_spec net cr cur st :
  recorded_visited st →
  recorded_visited (risk_hop net cr cur st)
  ∧ level_priced net cr (risk_hop net cr cur st)
  ∧ keeps st (risk_hop net cr cur st).
Proof.
  intros Hrv. unfold risk_hop.
  destruct (risk_nodes_spec net cr (set_iter cur)
              {| risk_contributions := risk_contributions st;
                 visited := visited st; next_level := [] |})
    as (R & L & K); [done| |by split_and!].
  intros x Hx. by apply elem_of_nil in Hx.
Qed.

Lemma loop_keeps net q hops cr cur st :
  recorded_visited st → keeps st (risk_loop net q hops cr cur st).
Proof.
  revert cr cur st. induction hops as [|h IH]; intros cr cur st Hrv;
    cbn [risk_loop]; [apply keeps_refl|].
  destruct (risk_hop_spec net (cr * q)%Q cur st Hrv) as (R & _ & K).
  destruct (next_level _); [done|].
  eapply keeps_trans; [done|]. by apply IH.
Qed.



End WithSetOrder.










End RiskFacts.

(** ** Clustering: the union-find of cluster_matches *)

Module ClusterFacts.
Import EntityResolution DictFacts.

(** [r] is the representative that following [parent] from [x] leads to. *)
Inductive root (f : forest) : pystr → pystr → Prop :=
  | root_self x : parent f !! x = Some x → root f x x
  | root_step x p r :
      parent f !! x = Some p → p ≠ x → root f p r → root f x r.

(** [a] and [b] are in the same set of the forest. *)
Definition same (f : forest) (a b : pystr) : Prop :=
  ∃ r, root f a r ∧ root f b r.

(** The shape the two dictionaries keep: parents are keys, keys have ranks,
    the rank grows strictly towards the parent, and no rank exceeds [n]. *)
Record wf (f : forest) (n : nat) : Prop := {
  wf_closed : ∀ x p, parent f !! x = Some p → is_Some (parent f !! p);
  wf_keys : ∀ x, is_Some (parent f !! x) ↔ is_Some (rank f !! x);
  wf_ranked : ∀ x p rx rp,
      parent f !! x = Some p → p ≠ x →
      rank f !! x = Some rx → rank f !! p = Some rp → rx < rp;
  wf_bound : ∀ x r, rank f !! x = Some r → r ≤ n;
}.

Lemma wf_empty : wf empty_forest 0.
Proof. split; cbn; intros *; rewrite ?lookup_empty; done. Qed.

Lemma wf_mono f n m : wf f n → n ≤ m → wf f m.
Proof.
  intros [C K R B] Hle. split; try done.
  intros x r Hr. specialize (B x r Hr). lia.
Qed.

Lemma root_is_root f x r : root f x r → parent f !! r = Some r.
Proof. induction 1; done. Qed.

Lemma root_key f x r : root f x r → is_Some (parent f !! x).
Proof. destruct 1; eauto. Qed.

Lemma root_unique f x r1 r2 : root f x r1 → root f x r2 → r1 = r2.
Proof.
  intros H1. revert r2. induction H1 as [x Hx|x p r Hp Hne _ IH]; intros r2 H2.
  - destruct H2 as [|x p' r' Hp' Hne' _]; [done|]. congruence.
  - destruct H2 as [x Hx|x p' r' Hp' Hne' H2]; [congruence|].
    apply IH. congruence.
Qed.

Lemma root_of_root f r x : parent f !! r = Some r → root f r x → x = r.
Proof. intros Hr Hx. eapply root_unique; [done|]. by apply root_self. Qed.

Lemma root_rank f n x r rx rr :
  wf f n → root f x r → rank f !! x = Some rx → rank f !! r = Some rr →
  rx ≤ rr ∧ (x ≠ r → rx < rr).
Proof.
  intros Hwf Hroot. revert rx.
  induction Hroot as [x Hx|x p r Hp Hne Hroot IH]; intros rx Hrx Hrr.
  - split; [|done]. assert (rx = rr) by congruence. lia.
  - assert (is_Some (rank f !! p)) as [rp Hrp].
    { apply (wf_keys _ _ Hwf). by eapply (wf_closed _ _ Hwf). }
    pose proof (wf_ranked _ _ Hwf _ _ _ _ Hp Hne Hrx Hrp).
    destruct (IH _ Hrp Hrr). split; [lia|]. intros _. lia.
Qed.

(** Redirecting [x] to its own representative (path compression) changes no
    representative. *)
Lemma compress_root f x r y r' :
  root f x r → x ≠ r →
  root f y r' ↔
  root {| parent := <[x := r]> (parent f); rank := rank f |} y r'.
Proof.
  intros Hx Hne. pose proof (root_is_root _ _ _ Hx) as Hr. split.
  - induction 1 as [y Hy|y p r' Hp Hnp Hroot IH].
    + destruct (decide (y = x)) as [->|Hyx].
      * destruct Hne. symmetry. eapply root_unique; [exact Hx|]. by apply root_self.
      * apply root_self. cbn. by rewrite lookup_insert_ne.
    + destruct (decide (y = x)) as [->|Hyx].
      * assert (r' = r) as ->.
        { eapply root_unique; [|exact Hx]. by eapply root_step. }
        eapply root_step; [cbn; apply lookup_insert_eq|congruence|].
        apply root_self. cbn. rewrite lookup_insert_ne; [done|congruence].
      * eapply root_step; [|done|done]. cbn. by rewrite lookup_insert_ne.
  - induction 1 as [y Hy|y p r' Hp Hnp Hroot IH]; cbn in *.
    + destruct (decide (y = x)) as [->|Hyx].
      * rewrite lookup_insert_eq in Hy. congruence.
      * rewrite lookup_insert_ne in Hy by done. by apply root_self.
    + destruct (decide (y = x)) as [->|Hyx].
      * rewrite lookup_insert_eq in Hp. injection Hp as <-.
        assert (r' = r) as -> by (by eapply root_of_root). done.
      * rewrite lookup_insert_ne in Hp by done. by eapply root_step.
Qed.

(** A new key, as [find] adds it: its own parent, rank 0. *)
Definition with_key (f : forest) (x : pystr) : forest :=
  match parent f !! x with
  | None => {| parent := <[x := x]> (parent f); rank := <[x := 0]> (rank f) |}
  | Some _ => f
  end.

Lemma with_key_wf f n x : wf f n → wf (with_key f x) n.
Proof.
  intros Hwf. unfold with_key. destruct (parent f !! x) eqn:Hx; [done|].
  assert (Hrx : rank f !! x = None).
  { apply eq_None_not_Some. rewrite <- (wf_keys _ _ Hwf x), Hx. by intros [? ?]. }
  split; cbn.
  - intros y p. destruct (decide (x = y)) as [->|Hne].
    + rewrite lookup_insert_eq. intros [= <-]. by rewrite lookup_insert_eq.
    + rewrite lookup_insert_ne by done. intros Hy.
      destruct (decide (x = p)) as [->|Hnp]; [by rewrite lookup_insert_eq|].
      rewrite lookup_insert_ne by done. by eapply (wf_closed _ _ Hwf).
  - intros y. destruct (decide (x = y)) as [->|Hne].
    + by rewrite !lookup_insert_eq.
    + rewrite !lookup_insert_ne by done. apply (wf_keys _ _ Hwf).
  - intros y p ry rp. destruct (decide (x = y)) as [->|Hne].
    + rewrite lookup_insert_eq. intros [= <-]. done.
    + rewrite !lookup_insert_ne by done. intros Hy Hpy Hry.
      destruct (decide (x = p)) as [->|Hnp].
      * destruct (wf_closed _ _ Hwf _ _ Hy) as [? ?]. congruence.
      * rewrite lookup_insert_ne by done. intros Hrp.
        by eapply (wf_ranked _ _ Hwf y p).
  - intros y r. destruct (decide (x = y)) as [->|Hne].
    + rewrite lookup_insert_eq. intros [= <-]. lia.
    + rewrite lookup_insert_ne by done. apply (wf_bound _ _ Hwf).
Qed.

Lemma with_key_root f n x y r :
  wf f n → is_Some (parent f !! y) → root f y r ↔ root (with_key f x) y r.
Proof.
  intros Hwf Hy. unfold with_key. destruct (parent f !! x) eqn:Hx; [done|].
  split.
  - induction 1 as [y' Hy'|y' p r' Hp Hnp Hroot IH].
    + apply root_self. cbn. rewrite lookup_insert_ne; [done|congruence].
    + eapply root_step; [|done|].
      * cbn. rewrite lookup_insert_ne; [done|congruence].
      * apply IH. by eapply (wf_closed _ _ Hwf).
  - intros Hroot. revert Hy.
    induction Hroot as [y' Hy'|y' p r' Hp Hnp Hroot IH]; cbn in *; intros Hk.
    + rewrite lookup_insert_ne in Hy' by (intros <-; destruct Hk; congruence).
      by apply root_self.
    + rewrite lookup_insert_ne in Hp by (intros <-; destruct Hk; congruence).
      eapply root_step; [done|done|]. apply IH. by eapply (wf_closed _ _ Hwf).
Qed.

Lemma with_key_self f x : is_Some (parent (with_key f x) !! x).
Proof.
  unfold with_key. destruct (parent f !! x) eqn:Hx; [by rewrite Hx|].
  cbn. by rewrite lookup_insert_eq.
Qed.

Lemma with_key_keys f x y :
  is_Some (parent (with_key f x) !! y) ↔ is_Some (parent f !! y) ∨ y = x.
Proof.
  unfold with_key. destruct (parent f !! x) eqn:Hx.
  - split; [by left|]. intros [?| ->]; [done|]. by rewrite Hx.
  - cbn. destruct (decide (x = y)) as [->|Hne].
    + rewrite lookup_insert_eq. split; [by right|done].
    + rewrite lookup_insert_ne by done. split; [by left|].
      intros [?| ->]; done.
Qed.

Lemma compress_wf f n x r :
  wf f n → root f x r → x ≠ r →
  wf {| parent := <[x := r]> (parent f); rank := rank f |} n.
Proof.
  intros Hwf Hx Hne.
  pose proof (root_is_root _ _ _ Hx) as Hr.
  pose proof (root_key _ _ _ Hx) as Hk.
  split; cbn.
  - intros y p. destruct (decide (x = y)) as [->|Hyx].
    + rewrite lookup_insert_eq. intros [= <-].
      rewrite lookup_insert_ne by done. by rewrite Hr.
    + rewrite lookup_insert_ne by done. intros Hy.
      destruct (decide (x = p)) as [->|Hpx]; [by rewrite lookup_insert_eq|].
      rewrite lookup_insert_ne by done. by eapply (wf_closed _ _ Hwf).
  - intros y. destruct (decide (x = y)) as [->|Hyx].
    + rewrite lookup_insert_eq. rewrite <- (wf_keys _ _ Hwf y).
      split; [done|by eauto].
    + rewrite lookup_insert_ne by done. apply (wf_keys _ _ Hwf).
  - intros y p ry rp. destruct (decide (x = y)) as [->|Hyx].
    + rewrite lookup_insert_eq. intros [= <-] _ Hry Hrp.
      by apply (root_rank _ _ _ _ _ _ Hwf Hx Hry Hrp).
    + rewrite lookup_insert_ne by done. apply (wf_ranked _ _ Hwf).
  - apply (wf_bound _ _ Hwf).
Qed.

(** [find] with enough fuel: it returns the representative, keeps the
    shape, and changes no representative. *)
Lemma find_spec fuel : ∀ f x n,
  wf f n → 0 < fuel →
  (∀ rx, rank (with_key f x) !! x = Some rx → n < fuel + rx) →
  ∃ r f', find fuel f x = Some (r, f')
    ∧ wf f' n
    ∧ rank f' = rank (with_key f x)
    ∧ root f' x r
    ∧ (parent f !! x = None → r = x)
    ∧ (∀ y, is_Some (parent f' !! y) ↔ is_Some (parent f !! y) ∨ y = x)
    ∧ (∀ y r', is_Some (parent f !! y) → root f y r' ↔ root f' y r').
Proof.
  induction fuel as [|fuel IH]; intros f x n Hwf Hpos Hfuel; [lia|].
  cbn [find]. change (match parent f !! x with
                      | Some _ => f
                      | None => _
                      end) with (with_key f x).
  pose proof (with_key_wf f n x Hwf) as Hwf1.
  set (f1 := with_key f x) in *.
  destruct (with_key_self f x) as [p Hp]. fold f1 in Hp. rewrite Hp. cbn.
  case_bool_decide as Hpx.
  - (* the parent is another key: recurse, then compress *)
    assert (is_Some (rank f1 !! x)) as [rx Hrx].
    { apply (wf_keys _ _ Hwf1). by rewrite Hp. }
    assert (is_Some (parent f1 !! p)) as Hkp by (by eapply (wf_closed _ _ Hwf1)).
    assert (is_Some (rank f1 !! p)) as [rp Hrp] by (by apply (wf_keys _ _ Hwf1)).
    pose proof (wf_ranked _ _ Hwf1 _ _ _ _ Hp Hpx Hrx Hrp) as Hlt.
    pose proof (wf_bound _ _ Hwf1 _ _ Hrp) as Hbp.
    specialize (Hfuel _ Hrx).
    assert (Hwk : with_key f1 p = f1).
    { unfold with_key. destruct Hkp as [? Hkp]. by rewrite Hkp. }
    destruct (IH f1 p n Hwf1)
      as (r & f2 & Hfind & Hwf2 & Hrank2 & Hroot2 & _ & Hkeys2 & Heq2).
    { lia. }
    { rewrite Hwk. intros rp' Hrp'. assert (rp' = rp) by congruence. lia. }
    rewrite Hfind. cbn. rewrite Hwk in Hrank2.
    assert (Hx1 : root f1 x r).
    { eapply root_step; [done|done|]. by apply Heq2. }
    assert (Hx2 : root f2 x r).
    { apply Heq2; [by rewrite Hp|done]. }
    assert (Hxr : x ≠ r).
    { intros <-. pose proof (proj2 (Heq2 p x Hkp) Hroot2) as Hpx'.
      destruct (root_rank _ _ _ _ _ _ Hwf1 Hpx' Hrp Hrx). lia. }
    eexists _, _. split; [done|]. split_and!.
    + by apply compress_wf.
    + done.
    + by apply compress_root.
    + intros Hnew. exfalso. subst f1. unfold with_key in Hp.
      rewrite Hnew in Hp. cbn in Hp. rewrite lookup_insert_eq in Hp. congruence.
    + intros y. cbn. rewrite <- (with_key_keys f x y). fold f1.
      destruct (decide (x = y)) as [->|Hyx].
      * rewrite lookup_insert_eq, Hp. done.
      * rewrite lookup_insert_ne by done. rewrite Hkeys2.
        split; [intros [?| ->]; done | by left].
    + intros y r' Hy.
      rewrite (with_key_root f n x y r' Hwf Hy). fold f1.
      rewrite (Heq2 y r'); [|apply with_key_keys; by left].
      by apply compress_root.
  - (* [x] is its own parent *)
    assert (p = x) as -> by (by destruct (decide (p = x)); [|exfalso; auto]).
    eexists _, _. split; [done|]. split_and!; try done.
    + by apply root_self.
    + apply with_key_keys.
    + intros y r' Hy. by apply (with_key_root f n).
Qed.

(** Making the representative [c] a child of the representative [pr]. *)
Lemma link_root f c pr rk z r :
  parent f !! c = Some c → parent f !! pr = Some pr → c ≠ pr →
  root {| parent := <[c := pr]> (parent f); rank := rk |} z r
  ↔ (root f z r ∧ r ≠ c) ∨ (root f z c ∧ r = pr).
Proof.
  intros Hc Hpr Hne. split.
  - induction 1 as [y Hy|y p r Hp Hnp Hroot IH]; cbn in *.
    + destruct (decide (c = y)) as [->|Hcy].
      * rewrite lookup_insert_eq in Hy. congruence.
      * rewrite lookup_insert_ne in Hy by done. left. split; [|done].
        by apply root_self.
    + destruct (decide (c = y)) as [->|Hcy].
      * rewrite lookup_insert_eq in Hp. injection Hp as <-. right.
        split; [by apply root_self|].
        destruct IH as [[Hr _]|[Hr _]].
        -- by eapply root_of_root.
        -- apply (root_of_root _ _ _ Hpr) in Hr. congruence.
      * rewrite lookup_insert_ne in Hp by done.
        destruct IH as [[Hr ?]|[Hr ?]]; [left|right];
          (split; [by eapply root_step|done]).
  - intros [[Hroot Hrc]|[Hroot ->]].
    + induction Hroot as [y Hy|y p r Hp Hnp Hroot IH].
      * apply root_self. cbn. by rewrite lookup_insert_ne.
      * eapply root_step; [|done|by apply IH]. cbn.
        rewrite lookup_insert_ne; [done|]. intros <-. congruence.
    + remember c as c' eqn:Hcc in Hroot.
      induction Hroot as [y Hy|y p r Hp Hnp Hroot IH]; subst.
      * eapply root_step; [cbn; apply lookup_insert_eq|done|].
        apply root_self. cbn. by rewrite lookup_insert_ne.
      * eapply root_step; [|done|by apply IH]. cbn.
        rewrite lookup_insert_ne; [done|]. intros <-. congruence.
Qed.

Lemma link_wf f n c pr rc rp :
  wf f n → parent f !! c = Some c → parent f !! pr = Some pr → c ≠ pr →
  rank f !! c = Some rc → rank f !! pr = Some rp → rc ≤ rp →
  wf {| parent := <[c := pr]> (parent f);
        rank := if rp =? rc then <[pr := rp + 1]> (rank f) else rank f |}
     (S n).
Proof.
  intros Hwf Hc Hpr Hne Hrc Hrp Hle.
  assert (Hrank : ∀ y ry,
    (if rp =? rc then <[pr := rp + 1]> (rank f) else rank f) !! y = Some ry →
    if decide (y = pr) then (if rp =? rc then ry = rp + 1 else ry = rp)
    else rank f !! y = Some ry).
  { intros y ry. destruct (decide (y = pr)) as [->|Hy].
    - destruct (rp =? rc); [rewrite lookup_insert_eq|]; congruence.
    - destruct (rp =? rc); [rewrite lookup_insert_ne by done|]; done. }
  split; cbn.
  - intros y p. destruct (decide (c = y)) as [->|Hcy].
    + rewrite lookup_insert_eq. intros [= <-].
      rewrite lookup_insert_ne by done. by rewrite Hpr.
    + rewrite lookup_insert_ne by done. intros Hy.
      destruct (decide (c = p)) as [->|Hcp]; [by rewrite lookup_insert_eq|].
      rewrite lookup_insert_ne by done. by eapply (wf_closed _ _ Hwf).
  - intros y.
    assert (is_Some (<[c := pr]> (parent f) !! y) ↔ is_Some (parent f !! y)) as ->.
    { destruct (decide (c = y)) as [->|Hcy].
      - rewrite lookup_insert_eq, Hc. done.
      - by rewrite lookup_insert_ne. }
    rewrite (wf_keys _ _ Hwf y). destruct (rp =? rc); [|done].
    destruct (decide (pr = y)) as [->|Hpy].
    + rewrite lookup_insert_eq, Hrp. done.
    + by rewrite lookup_insert_ne.
  - intros y p ry rp' Hy Hpy Hry Hrp'.
    apply Hrank in Hry, Hrp'.
    destruct (decide (c = y)) as [->|Hcy].
    + rewrite lookup_insert_eq in Hy. injection Hy as <-.
      rewrite decide_False in Hry by done. rewrite decide_True in Hrp' by done.
      assert (ry = rc) by congruence.
      destruct (rp =? rc) eqn:He; [apply Nat.eqb_eq in He|apply Nat.eqb_neq in He]; lia.
    + rewrite lookup_insert_ne in Hy by done.
      destruct (decide (y = pr)) as [->|Hypr]; [congruence|].
      destruct (decide (p = pr)) as [->|Hppr].
      * assert (ry < rp) by (by eapply (wf_ranked _ _ Hwf y pr)).
        destruct (rp =? rc); lia.
      * by eapply (wf_ranked _ _ Hwf y p).
  - intros y ry Hry. apply Hrank in Hry.
    pose proof (wf_bound _ _ Hwf _ _ Hrp).
    destruct (decide (y = pr)) as [->|Hy].
    + destruct (rp =? rc); lia.
    + pose proof (wf_bound _ _ Hwf _ _ Hry). lia.
Qed.

(** The partition a forest stands for, on all strings: a string that is not
    a key is alone. *)
Definition eqv (f : forest) (a b : pystr) : Prop := a = b ∨ same f a b.

Lemma eqv_refl f a : eqv f a a.
Proof. by left. Qed.

Lemma eqv_sym f a b : eqv f a b → eqv f b a.
Proof. intros [->|(r & ? & ?)]; [by left|right]. by exists r. Qed.

Lemma eqv_trans f a b c : eqv f a b → eqv f b c → eqv f a c.
Proof.
  intros [->|(r & Ha & Hb)]; [done|]. intros [<-|(r' & Hb' & Hc)].
  - right. by exists r.
  - right. exists r. split; [done|].
    by rewrite (root_unique _ _ _ _ Hb Hb').
Qed.

Lemma eqv_root f a x r : root f x r → eqv f a x → root f a r.
Proof.
  intros Hx [->|(r' & Ha & Hx')]; [done|].
  by rewrite (root_unique _ _ _ _ Hx Hx').
Qed.

Lemma root_eqv f a b r : root f a r → root f b r → eqv f a b.
Proof. intros Ha Hb. right. by exists r. Qed.

(** [find] leaves the partition as it is. *)
Lemma find_ok fuel f x n :
  wf f n → n < fuel →
  ∃ r f', find fuel f x = Some (r, f')
    ∧ wf f' n
    ∧ root f' x r
    ∧ (parent f !! x = None → r = x)
    ∧ (∀ y, is_Some (parent f' !! y) ↔ is_Some (parent f !! y) ∨ y = x)
    ∧ (∀ y r', is_Some (parent f !! y) → root f y r' ↔ root f' y r')
    ∧ (∀ a b, eqv f' a b ↔ eqv f a b).
Proof.
  intros Hwf Hfuel.
  destruct (find_spec fuel f x n Hwf) as (r & f' & Hfind & Hwf' & _ & Hroot & Hnew & Hkeys & Heq);
    [lia|intros; lia|].
  exists r, f'. split_and!; try done.
  assert (Hold : ∀ a b ρ, is_Some (parent f !! a) → root f' a ρ → root f' b ρ →
                          eqv f a b).
  { intros a b ρ Ha Hra Hrb.
    destruct (parent f !! b) as [pb|] eqn:Hb.
    - right. exists ρ. split; apply Heq; eauto.
    - assert (b = x) as ->.
      { destruct (proj1 (Hkeys b) (root_key _ _ _ Hrb)) as [[? Hk]|]; [congruence|done]. }
      specialize (Hnew Hb) as ->.
      assert (ρ = x) as -> by (by eapply root_unique).
      apply Heq in Hra; [|done].
      apply root_is_root in Hra. congruence. }
  intros a b. split.
  - intros [->|(ρ & Hra & Hrb)]; [by left|].
    destruct (parent f !! a) as [pa|] eqn:Ha; [by eapply Hold; eauto|].
    destruct (parent f !! b) as [pb|] eqn:Hb.
    + apply eqv_sym. eapply Hold; eauto.
    + left.
      destruct (proj1 (Hkeys a) (root_key _ _ _ Hra)) as [[? Hk]|]; [congruence|].
      destruct (proj1 (Hkeys b) (root_key _ _ _ Hrb)) as [[? Hk]|]; congruence.
  - intros [->|(ρ & Hra & Hrb)]; [by left|]. right. exists ρ.
    split; apply Heq; eauto using root_key.
Qed.

(** Linking two representatives merges their two classes and nothing else. *)
Lemma link_eqv f c pr rk u v a b :
  parent f !! c = Some c → parent f !! pr = Some pr → c ≠ pr →
  root f u c → root f v pr →
  eqv {| parent := <[c := pr]> (parent f); rank := rk |} a b
  ↔ eqv f a b ∨ (eqv f a u ∧ eqv f v b) ∨ (eqv f a v ∧ eqv f u b).
Proof.
  intros Hc Hpr Hne Hu Hv.
  pose proof (link_root f c pr rk) as L.
  split.
  - intros [->|(ρ & Ha & Hb)]; [left; by left|].
    apply L in Ha, Hb; [|done..].
    destruct Ha as [[Ha Hac]|[Ha ->]], Hb as [[Hb Hbc]|[Hb Hbe]].
    + left. by eapply root_eqv.
    + subst ρ. right. right. split; by eapply root_eqv.
    + right. left. split; by eapply root_eqv.
    + left. by eapply root_eqv.
  - assert (Hmerge : ∀ z, root f z c ∨ root f z pr →
              root {| parent := <[c := pr]> (parent f); rank := rk |} z pr).
    { intros z [Hz|Hz]; apply L; try done; [by right|left]. split; [done|congruence]. }
    intros [[->|(ρ & Ha & Hb)]|[[Hau Hvb]|[Hav Hub]]].
    + by left.
    + right. destruct (decide (ρ = c)) as [->|Hρ].
      * exists pr. split; apply Hmerge; by left.
      * exists ρ. split; apply L; try done; by left.
    + right. exists pr. split; apply Hmerge.
      * left. by eapply eqv_root.
      * right. eapply eqv_root; [done|]. by apply eqv_sym.
    + right. exists pr. split; apply Hmerge.
      * right. by eapply eqv_root.
      * left. eapply eqv_root; [done|]. by apply eqv_sym.
Qed.

(** [union] with enough fuel: the classes of [x] and [y] become one. *)
Lemma union_ok fuel f x y n :
  wf f n → n < fuel →
  ∃ f', union fuel f x y = Some f'
    ∧ wf f' (S n)
    ∧ (∀ z, is_Some (parent f' !! z)
            ↔ is_Some (parent f !! z) ∨ z = x ∨ z = y)
    ∧ (∀ a b, eqv f' a b
              ↔ eqv f a b ∨ (eqv f a x ∧ eqv f y b) ∨ (eqv f a y ∧ eqv f x b)).
Proof.
  intros Hwf Hfuel. unfold union.
  destruct (find_ok fuel f x n Hwf Hfuel)
    as (px & f1 & -> & Hwf1 & Hx1 & _ & Hk1 & _ & He1).
  cbn -[Nat.ltb Nat.eqb].
  destruct (find_ok fuel f1 y n Hwf1 Hfuel)
    as (py & f2 & -> & Hwf2 & Hy2 & _ & Hk2 & Hr2 & He2).
  cbn -[Nat.ltb Nat.eqb].
  assert (Hx2 : root f2 x px) by (apply Hr2; eauto using root_key).
  assert (Hkeys : ∀ z, is_Some (parent f2 !! z)
                       ↔ is_Some (parent f !! z) ∨ z = x ∨ z = y).
  { intros z. rewrite Hk2, Hk1. tauto. }
  assert (He : ∀ a b, eqv f2 a b ↔ eqv f a b).
  { intros a b. by rewrite He2, He1. }
  case_bool_decide as Hpp.
  - (* already in one class *)
    subst py. exists f2. split_and!; [done|eapply wf_mono; [done|lia]|done|].
    intros a b. rewrite <- !He. split; [by left|].
    assert (eqv f2 x y) by (by eapply root_eqv).
    intros [?|[[? ?]|[? ?]]]; eauto using eqv_trans, eqv_sym.
  - pose proof (root_is_root _ _ _ Hx2) as Hpx.
    pose proof (root_is_root _ _ _ Hy2) as Hpy.
    assert (is_Some (rank f2 !! px)) as [rx Hrx]
      by (apply (wf_keys _ _ Hwf2); by rewrite Hpx).
    assert (is_Some (rank f2 !! py)) as [ry Hry]
      by (apply (wf_keys _ _ Hwf2); by rewrite Hpy).
    rewrite Hrx, Hry. cbn -[Nat.ltb Nat.eqb].
    destruct (rx <? ry) eqn:Hlt;
      [apply Nat.ltb_lt in Hlt|apply Nat.ltb_ge in Hlt].
    + (* [px] goes under [py] *)
      pose proof (link_wf f2 n px py rx ry Hwf2 Hpx Hpy Hpp Hrx Hry) as Hl.
      pose proof (λ rk a b, link_eqv f2 px py rk x y a b Hpx Hpy Hpp Hx2 Hy2)
        as Hq.
      destruct (ry =? rx) eqn:Hrr.
      * eexists. split; [done|]. split_and!.
        -- apply Hl. lia.
        -- intros z. cbn. rewrite <- Hkeys.
           destruct (decide (px = z)) as [->|Hz];
             [rewrite lookup_insert_eq, Hpx|rewrite lookup_insert_ne]; done.
        -- intros a b. rewrite Hq, !He. tauto.
      * eexists. split; [done|]. split_and!.
        -- apply Hl. lia.
        -- intros z. cbn. rewrite <- Hkeys.
           destruct (decide (px = z)) as [->|Hz];
             [rewrite lookup_insert_eq, Hpx|rewrite lookup_insert_ne]; done.
        -- intros a b. rewrite Hq, !He. tauto.
    + (* [py] goes under [px] *)
      assert (Hpp' : py ≠ px) by congruence.
      pose proof (link_wf f2 n py px ry rx Hwf2 Hpy Hpx Hpp' Hry Hrx) as Hl.
      pose proof (λ rk a b, link_eqv f2 py px rk y x a b Hpy Hpx Hpp' Hy2 Hx2)
        as Hq.
      destruct (rx =? ry) eqn:Hrr.
      * eexists. split; [done|]. split_and!.
        -- apply Hl. lia.
        -- intros z. cbn. rewrite <- Hkeys.
           destruct (decide (py = z)) as [->|Hz];
             [rewrite lookup_insert_eq, Hpy|rewrite lookup_insert_ne]; done.
        -- intros a b. rewrite Hq, !He. tauto.
      * eexists. split; [done|]. split_and!.
        -- apply Hl. lia.
        -- intros z. cbn. rewrite <- Hkeys.
           destruct (decide (py = z)) as [->|Hz];
             [rewrite lookup_insert_eq, Hpy|rewrite lookup_insert_ne]; done.
        -- intros a b. rewrite Hq, !He. tauto.
Qed.

(** *** What the accepted pairs connect *)

(** The relation [R] with one more pair. *)
Definition with_pair (R : relation pystr) (x y : pystr) : relation pystr :=
  λ a b, R a b ∨ (a = x ∧ b = y).

(** The equivalence generated by one more pair. *)
Lemma rtsc_with_pair (R : relation pystr) x y a b :
  rtsc (with_pair R x y) a b
  ↔ rtsc R a b ∨ (rtsc R a x ∧ rtsc R y b) ∨ (rtsc R a y ∧ rtsc R x b).
Proof.
  split.
  - induction 1 as [a|a a' b Hstep _ IH]; [by left|].
    assert (Hcase : rtsc R a a' ∨ (a = x ∧ a' = y) ∨ (a = y ∧ a' = x)).
    { destruct Hstep as [[?|?]|[?|[-> ->]]]; auto using rtsc_lr, rtsc_rl. }
    destruct Hcase as [Haa|[[-> ->]|[-> ->]]].
    + destruct IH as [?|[[? ?]|[? ?]]].
      * left. by etrans.
      * right. left. split; [by etrans|done].
      * right. right. split; [by etrans|done].
    + destruct IH as [?|[[? ?]|[? ?]]].
      * right. left. by split.
      * left. etrans; [symmetry|]; done.
      * by left.
    + destruct IH as [?|[[? ?]|[? ?]]].
      * right. right. by split.
      * by left.
      * left. etrans; [symmetry|]; done.
  - assert (Hsub : ∀ u v, rtsc R u v → rtsc (with_pair R x y) u v).
    { intros u v. apply (rtsc_congruence (λ z, z)). intros ? ? ?. by left. }
    assert (Hxy : rtsc (with_pair R x y) x y) by (apply rtsc_lr; by right).
    intros [?|[[? ?]|[? ?]]].
    + by apply Hsub.
    + etrans; [by apply Hsub|]. etrans; [exact Hxy|]. by apply Hsub.
    + etrans; [by apply Hsub|]. etrans; [symmetry; exact Hxy|]. by apply Hsub.
Qed.

(** The pairs of ids that [cluster_matches] unites: those of the matches
    that reach the threshold. *)
Definition accepted (threshold : Q) (m : MatchCandidate) : bool :=
  Qle_bool threshold (overall_score m).

Definition united (threshold : Q) (ms : list MatchCandidate)
  : relation pystr :=
  λ a b, ∃ m, m ∈ ms ∧ accepted threshold m = true
              ∧ id (record_a m) = a ∧ id (record_b m) = b.

(** The ids that occur in an accepted pair. *)
Definition touched (threshold : Q) (ms : list MatchCandidate) (z : pystr)
  : Prop :=
  ∃ m, m ∈ ms ∧ accepted threshold m = true
       ∧ (id (record_a m) = z ∨ id (record_b m) = z).

(** The state of the loop over [matches] after the matches [done]. *)
Record united_state (threshold : Q) (done : list MatchCandidate)
    (st : forest * dict pystr EntityRecord) : Prop := {
  us_wf : wf st.1 (length done);
  us_eqv : ∀ a b, eqv st.1 a b ↔ rtsc (united threshold done) a b;
  us_keys : ∀ z, is_Some (parent st.1 !! z) ↔ touched threshold done z;
  us_records : ∀ z, z ∈ Dict.keys st.2 ↔ touched threshold done z;
  us_ids : ∀ z r, Dict.get st.2 z = Some r → id r = z;
  us_from : ∀ z r, Dict.get st.2 z = Some r →
      ∃ m, m ∈ done ∧ accepted threshold m = true
           ∧ (record_a m = r ∨ record_b m = r);
  us_nodup : NoDup (Dict.keys st.2);
}.

Lemma rtsc_iff (R R' : relation pystr) :
  (∀ a b, R a b ↔ R' a b) → ∀ a b, rtsc R a b ↔ rtsc R' a b.
Proof.
  intros HR a b.
  split; apply (rtsc_congruence (λ z, z)); intros ? ?; apply HR.
Qed.

Lemma united_snoc thr done m a b :
  united thr (done ++ [m]) a b
  ↔ united thr done a b
    ∨ (accepted thr m = true ∧ id (record_a m) = a ∧ id (record_b m) = b).
Proof.
  unfold united. split.
  - intros (m' & Hin & Hacc & Ha & Hb).
    apply elem_of_app in Hin as [Hin|Hin]; [left; eauto|].
    apply list_elem_of_singleton in Hin as ->. by right.
  - intros [(m' & Hin & ?)|(? & ? & ?)].
    + exists m'. split; [|done]. apply elem_of_app. by left.
    + exists m. split; [|done]. apply elem_of_app. right.
      by apply list_elem_of_singleton.
Qed.

Lemma touched_snoc thr done m z :
  touched thr (done ++ [m]) z
  ↔ touched thr done z
    ∨ (accepted thr m = true ∧ (id (record_a m) = z ∨ id (record_b m) = z)).
Proof.
  unfold touched. split.
  - intros (m' & Hin & Hacc & Hz).
    apply elem_of_app in Hin as [Hin|Hin]; [left; eauto|].
    apply list_elem_of_singleton in Hin as ->. by right.
  - intros [(m' & Hin & ?)|(? & ?)].
    + exists m'. split; [|done]. apply elem_of_app. by left.
    + exists m. split; [|done]. apply elem_of_app. right.
      by apply list_elem_of_singleton.
Qed.

Lemma united_state_empty thr : united_state thr [] (empty_forest, []).
Proof.
  split; cbn.
  - apply wf_empty.
  - intros a b. split.
    + intros [->|(r & Ha & _)]; [done|].
      apply root_key in Ha as [? Ha]. cbn in Ha. by rewrite lookup_empty in Ha.
    + intros Hr. left. induction Hr as [|a a' b Hs _ _]; [done|].
      destruct Hs as [(m & Hm & _)|(m & Hm & _)]; by apply elem_of_nil in Hm.
  - intros z. rewrite lookup_empty. split; [by intros [? ?]|].
    intros (m & Hm & _). by apply elem_of_nil in Hm.
  - intros z. split; [intros Hz; by apply elem_of_nil in Hz|].
    intros (m & Hm & _). by apply elem_of_nil in Hm.
  - done.
  - done.
  - apply NoDup_nil_2.
Qed.

(** One pass of the loop over [matches]. *)
Lemma union_match_ok fuel thr done m st :
  united_state thr done st → length done < fuel →
  ∃ st', union_matches fuel thr [m] st = Some st'
         ∧ united_state thr (done ++ [m]) st'.
Proof.
  intros [Hwf Heqv Hkeys Hrecs Hids Hfrom Hnd] Hfuel.
  destruct st as [f recs]. cbn [fst snd] in *.
  cbn [union_matches]. cbv zeta. cbn [fst snd].
  fold (accepted thr m). destruct (accepted thr m) eqn:Hacc.
  - destruct (union_ok fuel f (id (record_a m)) (id (record_b m))
                (length done) Hwf Hfuel) as (f' & -> & Hwf' & Hk' & He').
    cbn. eexists. split; [done|]. split; cbn [fst snd].
    + by rewrite length_app, Nat.add_1_r.
    + intros a b. rewrite He', !Heqv.
      rewrite <- rtsc_with_pair. apply rtsc_iff. intros u v.
      rewrite united_snoc. unfold with_pair. rewrite Hacc.
      intuition congruence.
    + intros z. rewrite Hk', Hkeys, touched_snoc, Hacc. intuition congruence.
    + intros z. rewrite !elem_of_keys_set, Hrecs, touched_snoc, Hacc.
      intuition congruence.
    + intros z r. rewrite !get_set. repeat case_decide; try congruence.
      apply Hids.
    + intros z r. rewrite !get_set. intros Hz.
      assert (Hm : m ∈ done ++ [m]).
      { apply elem_of_app. right. by apply list_elem_of_singleton. }
      repeat case_decide.
      * exists m. split_and!; [done|done|right; congruence].
      * exists m. split_and!; [done|done|left; congruence].
      * destruct (Hfrom z r Hz) as (m' & ? & ?).
        exists m'. split; [|done]. apply elem_of_app. by left.
    + by do 2 apply NoDup_keys_set.
  - exists (f, recs). split; [done|]. split; cbn [fst snd].
    + rewrite length_app. eapply wf_mono; [done|lia].
    + intros a b. rewrite Heqv. apply rtsc_iff. intros u v.
      rewrite united_snoc, Hacc. intuition congruence.
    + intros z. rewrite Hkeys, touched_snoc, Hacc. intuition congruence.
    + intros z. rewrite Hrecs, touched_snoc, Hacc. intuition congruence.
    + done.
    + intros z r Hz. destruct (Hfrom z r Hz) as (m' & ? & ?).
      exists m'. split; [|done]. apply elem_of_app. by left.
    + done.
Qed.

Lemma union_matches_cons fuel thr m ms st :
  union_matches fuel thr (m :: ms) st
  = union_matches fuel thr [m] st ≫= union_matches fuel thr ms.
Proof.
  cbn [union_matches]. cbv zeta.
  destruct (Qle_bool thr (overall_score m)); [|done].
  by destruct (union fuel st.1 _ _).
Qed.

(** The loop over [matches] with enough fuel. *)
Lemma union_matches_ok fuel thr ms : ∀ done st,
  united_state thr done st → length done + length ms < fuel →
  ∃ st', union_matches fuel thr ms st = Some st'
         ∧ united_state thr (done ++ ms) st'.
Proof.
  induction ms as [|m ms IH]; intros done st Hst Hfuel.
  - exists st. by rewrite app_nil_r.
  - cbn [length] in Hfuel.
    destruct (union_match_ok fuel thr done m st Hst) as (st1 & H1 & Hst1);
      [lia|].
    destruct (IH (done ++ [m]) st1 Hst1) as (st' & H' & Hst').
    { rewrite length_app. cbn. lia. }
    exists st'. rewrite union_matches_cons, H1. cbn.
    by rewrite <- app_assoc in Hst'.
Qed.

(** *** Grouping by representative *)

(** The representative [find] returns for [k]. *)
Definition rep_of (fuel : nat) (f : forest) (k : pystr) : pystr :=
  match find fuel f k with
  | Some (r, _) => r
  | None => k
  end.

(** The [clusters] dictionary, given the representative of each id. *)
Definition grouped (rep : pystr → pystr) (items : list (pystr * EntityRecord))
    (clusters : dict pystr (list EntityRecord))
  : dict pystr (list EntityRecord) :=
  fold_left (λ cl '(k, r), dict_append cl (rep k) r) items clusters.

(** The records of [items] whose id has representative [κ]. *)
Definition members (rep : pystr → pystr) (items : list (pystr * EntityRecord))
    (κ : pystr) : list EntityRecord :=
  map snd (filter (λ kr, rep kr.1 = κ) items).

Lemma rep_of_spec fuel f n k :
  wf f n → n < fuel →
  (is_Some (parent f !! k) → root f k (rep_of fuel f k))
  ∧ (parent f !! k = None → rep_of fuel f k = k).
Proof.
  intros Hwf Hfuel. unfold rep_of.
  destruct (find_ok fuel f k n Hwf Hfuel)
    as (r & f' & -> & _ & Hroot & Hnew & _ & Hr & _).
  split; [|done]. intros Hk. by apply Hr.
Qed.

Lemma rep_of_find fuel f n x r f' k :
  wf f n → n < fuel → find fuel f x = Some (r, f') →
  rep_of fuel f' k = rep_of fuel f k.
Proof.
  intros Hwf Hfuel Hfind.
  destruct (find_ok fuel f x n Hwf Hfuel)
    as (r0 & f0 & Hfind0 & Hwf' & Hroot & Hnew & Hkeys & Hr & _).
  rewrite Hfind in Hfind0. injection Hfind0 as <- <-.
  destruct (rep_of_spec fuel f n k Hwf Hfuel) as [Hk1 Hk2].
  destruct (rep_of_spec fuel f' n k Hwf' Hfuel) as [Hk1' Hk2'].
  destruct (parent f !! k) as [pk|] eqn:Hk.
  - assert (Hkf : is_Some (parent f !! k)) by (by rewrite Hk).
    eapply root_unique.
    + apply Hk1'. apply (proj2 (Hkeys k)). by left.
    + apply (proj1 (Hr k _ Hkf)). apply Hk1. eauto.
  - rewrite (Hk2 eq_refl). destruct (decide (k = x)) as [->|Hne].
    + specialize (Hnew Hk) as ->.
      eapply root_unique; [|exact Hroot]. apply Hk1'. eauto using root_key.
    + apply Hk2'. apply eq_None_not_Some. intros Hs.
      apply (proj1 (Hkeys k)) in Hs as [[? ?]|?]; congruence.
Qed.

Lemma grouped_ext rep rep' items cl :
  (∀ k, rep k = rep' k) → grouped rep items cl = grouped rep' items cl.
Proof.
  intros Hext. revert cl. unfold grouped.
  induction items as [|[k r] items IH]; intros cl; cbn [fold_left]; [done|].
  by rewrite Hext, IH.
Qed.

(** The loop over [all_records.items()] with enough fuel. *)
Lemma group_records_ok fuel n items : ∀ f cl,
  wf f n → n < fuel →
  ∃ f', group_records fuel items (f, cl)
        = Some (f', grouped (rep_of fuel f) items cl).
Proof.
  induction items as [|[k r] items IH]; intros f cl Hwf Hfuel.
  - by exists f.
  - cbn [group_records fst snd].
    destruct (find_ok fuel f k n Hwf Hfuel)
      as (ρ & f1 & Hfind & Hwf1 & _).
    rewrite Hfind. cbn.
    destruct (IH f1 (dict_append cl ρ r) Hwf1 Hfuel) as (f' & ->).
    exists f'. f_equal. f_equal.
    assert (rep_of fuel f k = ρ) as Hρ by (unfold rep_of; by rewrite Hfind).
    rewrite (grouped_ext (rep_of fuel f1) (rep_of fuel f))
      by (intros k'; by eapply rep_of_find).
    unfold grouped. cbn [fold_left]. by rewrite Hρ.
Qed.

Lemma grouped_get rep items : ∀ cl κ,
  Dict.get (grouped rep items cl) κ
  = match Dict.get cl κ, members rep items κ with
    | Some l, new => Some (l ++ new)
    | None, [] => None
    | None, new => Some new
    end.
Proof.
  unfold grouped, members.
  induction items as [|[k r] items IH]; intros cl κ; cbn [fold_left].
  - cbn. destruct (Dict.get cl κ); by rewrite ?app_nil_r.
  - rewrite IH. unfold dict_append. rewrite get_set.
    rewrite filter_cons. cbn [fst snd].
    destruct (decide (rep k = κ)) as [->|Hne]; cbn [map].
    + destruct (Dict.get cl κ); cbn; [by rewrite <- app_assoc|done].
    + done.
Qed.

Lemma eqv_rep fuel f n a b :
  wf f n → n < fuel →
  is_Some (parent f !! a) → is_Some (parent f !! b) →
  eqv f a b ↔ rep_of fuel f a = rep_of fuel f b.
Proof.
  intros Hwf Hfuel Ha Hb.
  destruct (rep_of_spec fuel f n a Hwf Hfuel) as [Hra _].
  destruct (rep_of_spec fuel f n b Hwf Hfuel) as [Hrb _].
  specialize (Hra Ha). specialize (Hrb Hb). split.
  - intros He. eapply root_unique; [exact Hra|]. eapply eqv_root; done.
  - intros Heq. rewrite <- Heq in Hrb. by eapply root_eqv.
Qed.

(** What [cluster_matches] returns with enough fuel: the records it has
    kept, grouped by the representative of their id. *)
Lemma cluster_matches_ok fuel eng matches :
  length matches < fuel →
  ∃ f recs,
    united_state (match_threshold eng) matches (f, recs)
    ∧ cluster_matches fuel eng matches
      = Some (Dict.values (grouped (rep_of fuel f) recs [])).
Proof.
  intros Hfuel. unfold cluster_matches.
  destruct (union_matches_ok fuel (match_threshold eng) matches []
              (empty_forest, []) (united_state_empty _))
    as ([f recs] & -> & Hst); [cbn; lia|].
  cbn -[group_records] in Hst |- *.
  destruct (group_records_ok fuel (length matches) recs f []
              (us_wf _ _ _ Hst) Hfuel) as (f' & Hg).
  destruct (group_records fuel recs _) as [[f'' cl]|]; [|done].
  injection Hg as -> ->. cbn. by exists f, recs.
Qed.

(** C2: with fuel for the recursion of [find], [cluster_matches] returns,
    and when the pairs (A, B) and (B, C) both reach the threshold, one of the
    clusters holds the records with the ids of A, of B and of C, whether or
    not a pair (A, C) was scored. *)
Theorem clustering_transitive (fuel : nat) (eng : Engine)
    (matches : list MatchCandidate) (m1 m2 : MatchCandidate) :
  length matches < fuel →
  m1 ∈ matches → m2 ∈ matches →
  (match_threshold eng <= overall_score m1)%Q →
  (match_threshold eng <= overall_score m2)%Q →
  id (record_b m1) = id (record_a m2) →
  ∃ clusters c,
    cluster_matches fuel eng matches = Some clusters
    ∧ c ∈ clusters
    ∧ id (record_a m1) ∈ map id c
    ∧ id (record_b m1) ∈ map id c
    ∧ id (record_b m2) ∈ map id c.
Proof.
  intros Hfuel Hm1 Hm2 Hs1 Hs2 HB.
  destruct (cluster_matches_ok fuel eng matches Hfuel) as (f & recs & Hst & ->).
  set (thr := match_threshold eng) in *.
  apply Qle_bool_iff in Hs1, Hs2.
  destruct Hst as [Hwf Heqv Hkeys Hrecs Hids _ _]. cbn [fst snd] in *.
  assert (Hin : ∀ m z, m ∈ matches → accepted thr m = true →
                 id (record_a m) = z ∨ id (record_b m) = z →
                 is_Some (parent f !! z)
                 ∧ ∃ r, (z, r) ∈ recs ∧ id r = z).
  { intros m z Hm Hacc Hz.
    assert (Ht : touched thr matches z) by (by exists m).
    split; [by apply Hkeys|].
    destruct (keys_get recs z (proj2 (Hrecs z) Ht)) as [r Hr].
    exists r. split; [by apply get_elem_of|by eapply Hids]. }
  destruct (Hin m1 _ Hm1 Hs1 (or_introl eq_refl)) as (HkA & rA & HrA & HA).
  destruct (Hin m1 _ Hm1 Hs1 (or_intror eq_refl)) as (HkB & rB & HrB & HB').
  destruct (Hin m2 _ Hm2 Hs2 (or_intror eq_refl)) as (HkC & rC & HrC & HC).
  assert (HeAB : eqv f (id (record_a m1)) (id (record_b m1))).
  { apply Heqv, rtsc_lr. by exists m1. }
  assert (HeBC : eqv f (id (record_b m1)) (id (record_b m2))).
  { apply Heqv, rtsc_lr. exists m2. by rewrite HB. }
  set (ρ := rep_of fuel f).
  assert (HρB : ρ (id (record_b m1)) = ρ (id (record_a m1))).
  { symmetry. by eapply eqv_rep. }
  assert (HρC : ρ (id (record_b m2)) = ρ (id (record_a m1))).
  { rewrite <- HρB. symmetry. by eapply eqv_rep. }
  set (κ := ρ (id (record_a m1))) in *.
  assert (Hmem : ∀ z r, (z, r) ∈ recs → ρ z = κ → r ∈ members ρ recs κ).
  { intros z r Hr Hz. unfold members.
    apply (list_elem_of_fmap_2 snd _ (z, r)).
    apply list_elem_of_filter. by split. }
  pose proof (grouped_get ρ recs [] κ) as Hget. cbn [Dict.get] in Hget.
  pose proof (Hmem _ _ HrA eq_refl) as HinA.
  destruct (members ρ recs κ) as [|r0 c0] eqn:Hc;
    [by apply elem_of_nil in HinA|].
  rewrite <- Hc in *. clear Hc r0 c0.
  exists (Dict.values (grouped ρ recs [])), (members ρ recs κ).
  split_and!.
  - done.
  - by eapply get_values.
  - rewrite <- HA at 1. by apply list_elem_of_fmap_2.
  - rewrite <- HB' at 1. apply list_elem_of_fmap_2. by eapply Hmem.
  - rewrite <- HC at 1. apply list_elem_of_fmap_2. by eapply Hmem.
Qed.

(** Three records and the two scored pairs (A, B) and (B, C). *)
Definition rec_A : EntityRecord := Examples.record "A" "crm" [].
Definition rec_B : EntityRecord := Examples.record "B" "kyc" [].
Definition rec_C : EntityRecord := Examples.record "C" "txn" [].

Definition scored (a b : EntityRecord) (score : Q) : MatchCandidate :=
  {| record_a := a; record_b := b; blocking_key := str "";
     similarity_scores := []; overall_score := score |}.

Definition default_engine : Engine := new_engine (75 # 100) None.

Example cluster_matches_chain :
  cluster_matches 3 default_engine
    [scored rec_A rec_B (8 # 10); scored rec_B rec_C (9 # 10)]
  = Some [[rec_A; rec_B; rec_C]].
Proof. by vm_compute. Qed.

Lemma clustering_transitive_witness :
  (match_threshold default_engine <= 8 # 10)%Q
  ∧ (match_threshold default_engine <= 9 # 10)%Q
  ∧ ∃ clusters c,
      cluster_matches 3 default_engine
        [scored rec_A rec_B (8 # 10); scored rec_B rec_C (9 # 10)]
      = Some clusters
      ∧ c ∈ clusters
      ∧ str "A" ∈ map id c ∧ str "B" ∈ map id c ∧ str "C" ∈ map id c.
Proof.
  split; [by vm_compute|]. split; [by vm_compute|].
  apply (clustering_transitive 3 default_engine
           [scored rec_A rec_B (8 # 10); scored rec_B rec_C (9 # 10)]
           (scored rec_A rec_B (8 # 10)) (scored rec_B rec_C (9 # 10))).
  - cbn. lia.
  - apply list_elem_of_here.
  - apply list_elem_of_further, list_elem_of_here.
  - by vm_compute.
  - by vm_compute.
  - reflexivity.
Defined.

End ClusterFacts.

(** ** Levenshtein distance *)

Module LevenshteinFacts.
Import SimilarityScorer.

(** The edit distance of two strings, by recursion on both. *)
Fixpoint lev (a b : pystr) : nat :=
  match a with
  | [] => length b
  | x :: a' =>
      (fix lev_a (b : pystr) : nat :=
         match b with
         | [] => length a
         | y :: b' =>
             Nat.min (Nat.min (lev a' b + 1) (lev_a b' + 1))
               (lev a' b' + neq_int x y)
         end) b
  end.

(** The distance between two prefixes, read from their last characters
    backwards: entry [j] of row [i] of the table of [levenshtein_distance]. *)
Definition dist (p q : pystr) : nat := lev (rev p) (rev q).

(** Row [|p|] of the table. *)
Definition row (p s2 : pystr) : list nat :=
  map (λ j, dist p (take j s2)) (seq 0 (length s2 + 1)).

Lemma lev_nil_r a : lev a [] = length a.
Proof. by destruct a. Qed.

Lemma lev_cons_cons x a y b :
  lev (x :: a) (y :: b)
  = Nat.min (Nat.min (lev a (y :: b) + 1) (lev (x :: a) b + 1))
      (lev a b + neq_int x y).
Proof. reflexivity. Qed.

Lemma neq_int_sym x y : neq_int x y = neq_int y x.
Proof. unfold neq_int. by rewrite N.eqb_sym. Qed.

Lemma lev_sym a : ∀ b, lev a b = lev b a.
Proof.
  induction a as [|x a IHa]; intros b.
  - by rewrite lev_nil_r.
  - induction b as [|y b IHb]; [done|].
    rewrite !lev_cons_cons, IHb, (IHa (y :: b)), (IHa b), (neq_int_sym x y).
    lia.
Qed.

Lemma lev_bound a : ∀ b, lev a b ≤ Nat.max (length a) (length b).
Proof.
  induction a as [|x a IHa]; intros b; [cbn; lia|].
  induction b as [|y b IHb]; [cbn; lia|].
  rewrite lev_cons_cons. specialize (IHa b). unfold neq_int. cbn [length].
  destruct (x =? y)%N; lia.
Qed.

Lemma dist_sym p q : dist p q = dist q p.
Proof. apply lev_sym. Qed.

Lemma dist_nil_l q : dist [] q = length q.
Proof. unfold dist. cbn. by rewrite length_rev. Qed.

Lemma dist_nil_r p : dist p [] = length p.
Proof. unfold dist. cbn. by rewrite lev_nil_r, length_rev. Qed.

Lemma dist_snoc p c1 q c2 :
  dist (p ++ [c1]) (q ++ [c2])
  = Nat.min (Nat.min (dist p (q ++ [c2]) + 1) (dist (p ++ [c1]) q + 1))
      (dist p q + neq_int c1 c2).
Proof. unfold dist. by rewrite !rev_unit, lev_cons_cons. Qed.

Lemma dist_bound p q : dist p q ≤ Nat.max (length p) (length q).
Proof. unfold dist. rewrite <- (length_rev p), <- (length_rev q). apply lev_bound. Qed.

(** The inner loop fills the row of [p ++ [c1]] from the row of [p]. *)
Lemma lev_inner_spec c1 p s2 : ∀ rest q,
  s2 = q ++ rest →
  lev_inner c1 rest
    (map (λ j, dist p (take j s2)) (seq (length q) (S (length rest))))
    (dist (p ++ [c1]) q)
  = map (λ j, dist (p ++ [c1]) (take j s2)) (seq (S (length q)) (length rest)).
Proof.
  induction rest as [|c2 rest IH]; intros q Hs2; [done|].
  cbn [length seq map lev_inner].
  assert (Hq : take (length q) s2 = q) by (by rewrite Hs2, take_app_length).
  assert (Hq1 : take (S (length q)) s2 = q ++ [c2]).
  { rewrite Hs2, (cons_middle c2 q rest), app_assoc.
    replace (S (length q)) with (length (q ++ [c2]))
      by (rewrite length_app; cbn; lia).
    apply take_app_length. }
  rewrite Hq, Hq1, <- dist_snoc. f_equal.
  specialize (IH (q ++ [c2])). rewrite length_app, Nat.add_1_r in IH.
  cbn [seq map] in IH. rewrite Hq1 in IH. apply IH.
  by rewrite Hs2, <- app_assoc.
Qed.

Lemma lev_row_spec p c1 s2 :
  lev_row (length p) c1 s2 (row p s2) = row (p ++ [c1]) s2.
Proof.
  unfold lev_row, row. rewrite !Nat.add_1_r. cbn [seq map].
  pose proof (lev_inner_spec c1 p s2 s2 [] eq_refl) as H.
  cbn [length seq map] in H.
  rewrite take_0, !dist_nil_r, length_app in *. cbn [length] in *.
  rewrite Nat.add_1_r in *. by f_equal.
Qed.

Lemma lev_rows_spec s2 : ∀ s1 p,
  lev_rows (length p) s1 s2 (row p s2) = row (p ++ s1) s2.
Proof.
  induction s1 as [|c1 s1 IH]; intros p; cbn [lev_rows].
  - by rewrite app_nil_r.
  - rewrite lev_row_spec. specialize (IH (p ++ [c1])).
    rewrite length_app, Nat.add_1_r in IH. rewrite IH.
    by rewrite <- app_assoc.
Qed.

Lemma row_nil s2 : row [] s2 = seq 0 (length s2 + 1).
Proof.
  unfold row. rewrite <- (map_id (seq 0 (length s2 + 1))) at 2.
  apply map_ext_in. intros j Hj. apply in_seq in Hj.
  rewrite dist_nil_l, length_take. lia.
Qed.

Lemma last_row p s2 : List.last (row p s2) 0 = dist p s2.
Proof.
  unfold row. rewrite Nat.add_1_r, seq_S, map_app. cbn [map Nat.add].
  rewrite last_last. by rewrite firstn_all.
Qed.

(** [levenshtein_distance] is the edit distance. *)
Lemma levenshtein_distance_dist s1 s2 :
  levenshtein_distance s1 s2 = dist s1 s2.
Proof.
  assert (Hcore : ∀ a b,
    (if length b =? 0 then length a
     else List.last (lev_rows 0 a b (seq 0 (length b + 1))) 0) = dist a b).
  { intros a b. destruct b as [|y b]; [by rewrite dist_nil_r|].
    change (length (y :: b) =? 0) with false. cbv iota.
    rewrite <- (row_nil (y :: b)).
    change 0 with (length (@nil N)) at 1.
    rewrite (lev_rows_spec (y :: b) a []). apply last_row. }
  unfold levenshtein_distance.
  destruct (length s1 <? length s2); rewrite Hcore; [apply dist_sym|done].
Qed.

Lemma levenshtein_distance_sym s1 s2 :
  levenshtein_distance s1 s2 = levenshtein_distance s2 s1.
Proof. rewrite !levenshtein_distance_dist. apply dist_sym. Qed.

End LevenshteinFacts.

(** ** Jaro: the greedy matching is the same from both sides *)

Module JaroFacts.
Import SimilarityScorer.

(** Position [r] of [b] can be taken for the character [c]. *)
Definition cand (c : N) (b : pystr) (bm : list bool) (r : nat) : Prop :=
  bm !! r = Some false ∧ b !! r = Some c.

Lemma find_match_step c b bm j count :
  find_match c b bm j (S count)
  = match bm !! j, b !! j with
    | Some false, Some c2 =>
        if (c =? c2)%N then Some j else find_match c b bm (S j) count
    | _, _ => find_match c b bm (S j) count
    end.
Proof. reflexivity. Qed.

Lemma find_match_here c b bm j count :
  cand c b bm j → find_match c b bm j (S count) = Some j.
Proof.
  intros [Hm Hc]. rewrite find_match_step, Hm, Hc. by rewrite N.eqb_refl.
Qed.

Lemma find_match_next c b bm j count :
  ¬ cand c b bm j →
  find_match c b bm j (S count) = find_match c b bm (S j) count.
Proof.
  intros Hn. rewrite find_match_step.
  destruct (bm !! j) as [[|]|] eqn:Hm; try done.
  destruct (b !! j) as [c2|] eqn:Hc; try done.
  destruct (c =? c2)%N eqn:He; [|done].
  apply N.eqb_eq in He as ->. by destruct Hn.
Qed.

Lemma cand_dec c b bm r : cand c b bm r ∨ ¬ cand c b bm r.
Proof.
  unfold cand. destruct (bm !! r) as [[|]|]; [right|..|right]; try by intros [? ?].
  destruct (b !! r) as [c2|]; [|right; by intros [? ?]].
  destruct (decide (c2 = c)) as [->|Hne]; [by left|right].
  intros [_ [= ?]]. done.
Qed.

(** [find_match] returns the first candidate of the range, if there is one. *)
Lemma find_match_Some c b bm : ∀ count j r,
  find_match c b bm j count = Some r ↔
  (j ≤ r < j + count ∧ cand c b bm r
   ∧ ∀ r', j ≤ r' < r → ¬ cand c b bm r').
Proof.
  induction count as [|count IH]; intros j r.
  - cbn. split; [done|]. intros [? _]. lia.
  - destruct (cand_dec c b bm j) as [Hc|Hn].
    + rewrite (find_match_here _ _ _ _ _ Hc). split.
      * intros [= <-]. split_and!; [lia|lia|done|]. intros r' ?. lia.
      * intros (Hr & _ & Hleast). f_equal.
        destruct (decide (j = r)) as [|Hne]; [done|].
        destruct (Hleast j); [lia|done].
    + rewrite (find_match_next _ _ _ _ _ Hn), IH. split.
      * intros (Hr & Hcr & Hleast). split_and!; [lia|lia|done|].
        intros r' Hr'. destruct (decide (r' = j)) as [->|]; [done|].
        apply Hleast. lia.
      * intros (Hr & Hcr & Hleast).
        assert (r ≠ j) by (intros ->; done).
        split_and!; [lia|lia|done|]. intros r' Hr'. apply Hleast. lia.
Qed.

Lemma find_match_None c b bm : ∀ count j,
  find_match c b bm j count = None ↔
  ∀ r, j ≤ r < j + count → ¬ cand c b bm r.
Proof.
  induction count as [|count IH]; intros j.
  - cbn. split; [intros _ r ?; lia|done].
  - destruct (cand_dec c b bm j) as [Hc|Hn].
    + rewrite (find_match_here _ _ _ _ _ Hc). split; [done|].
      intros Hall. destruct (Hall j); [lia|done].
    + rewrite (find_match_next _ _ _ _ _ Hn), IH. split.
      * intros Hall r Hr. destruct (decide (r = j)) as [->|]; [done|].
        apply Hall. lia.
      * intros Hall r Hr. apply Hall. lia.
Qed.

(** The result only depends on which positions of the range are candidates. *)
Lemma find_match_ext c b bm bm' j count :
  (∀ r, j ≤ r < j + count → cand c b bm r ↔ cand c b bm' r) →
  find_match c b bm j count = find_match c b bm' j count.
Proof.
  intros Hext. destruct (find_match c b bm j count) as [r|] eqn:Hf.
  - symmetry. apply find_match_Some. apply find_match_Some in Hf as (Hr & Hc & Hl).
    split_and!; [lia|lia|by apply Hext|].
    intros r' Hr' Hc'. apply (Hl r' Hr'). apply Hext; [lia|done].
  - symmetry. apply find_match_None. intros r Hr Hc.
    rewrite find_match_None in Hf. apply (Hf r Hr). by apply Hext.
Qed.

(** Position [i] of one string and position [r] of the other carry the same
    character and are within the matching distance: they may be matched. *)
Definition compat (md : nat) (p o : pystr) (i r : nat) : Prop :=
  (i ≤ r + md ∧ r ≤ i + md) ∧ ∃ c, p !! i = Some c ∧ o !! r = Some c.

Lemma compat_sym md p o i r : compat md p o i r ↔ compat md o p r i.
Proof. unfold compat. split; intros [[? ?] (c & ? & ?)]; eauto 10. Qed.

(** The search of [jaro_similarity] for a partner of position [i]. *)
Definition pick (md : nat) (c : N) (o : pystr) (om : list bool) (i : nat)
  : option nat :=
  find_match c o om (i - md) (Nat.min (i + md + 1) (length o) - (i - md)).

Lemma pick_Some md p o om i c r :
  p !! i = Some c →
  pick md c o om i = Some r ↔
  (compat md p o i r ∧ om !! r = Some false
   ∧ ∀ r', r' < r → ¬ (compat md p o i r' ∧ om !! r' = Some false)).
Proof.
  intros Hi. unfold pick. rewrite find_match_Some. unfold cand, compat. split.
  - intros (Hr & [Hm Hc] & Hleast).
    pose proof (lookup_lt_Some _ _ _ Hc).
    split_and!; [lia|lia|by exists c|done|].
    intros r' Hr' [[[? ?] (c' & Hi' & Hc')] Hm'].
    assert (c' = c) as -> by congruence.
    pose proof (lookup_lt_Some _ _ _ Hc').
    apply (Hleast r'); [lia|done].
  - intros ([[? ?] (c' & Hi' & Hc)] & Hm & Hleast).
    assert (c' = c) as -> by congruence.
    pose proof (lookup_lt_Some _ _ _ Hc).
    split_and!; [lia|lia|done|done|].
    intros r' Hr' [Hm' Hc'].
    pose proof (lookup_lt_Some _ _ _ Hc').
    apply (Hleast r'); [lia|]. split; [|done]. split; [lia|by exists c].
Qed.

Lemma pick_None md p o om i c :
  p !! i = Some c →
  pick md c o om i = None ↔
  ∀ r, ¬ (compat md p o i r ∧ om !! r = Some false).
Proof.
  intros Hi. unfold pick. rewrite find_match_None. unfold cand, compat. split.
  - intros Hall r [[[? ?] (c' & Hi' & Hc)] Hm].
    assert (c' = c) as -> by congruence.
    pose proof (lookup_lt_Some _ _ _ Hc).
    apply (Hall r); [lia|done].
  - intros Hall r Hr [Hm Hc].
    pose proof (lookup_lt_Some _ _ _ Hc).
    apply (Hall r). split; [|done]. split; [lia|by exists c].
Qed.

(** The first loop of [jaro_similarity], on flags that may already be set:
    a position of the string being read whose flag is set is passed over. *)
Fixpoint gen_loop (md i : nat) (rest o : pystr) (pm om : list bool)
  : list bool * list bool :=
  match rest with
  | [] => (pm, om)
  | c :: rest' =>
      match pm !! i with
      | Some true => gen_loop md (S i) rest' o pm om
      | _ =>
          match pick md c o om i with
          | Some r =>
              gen_loop md (S i) rest' o (<[i := true]> pm) (<[r := true]> om)
          | None => gen_loop md (S i) rest' o pm om
          end
      end
  end.

Lemma drop_cons_inv {A} (l : list A) i c rest :
  drop i l = c :: rest → l !! i = Some c ∧ drop (S i) l = rest.
Proof.
  revert i. induction l as [|x l IH]; intros i.
  - by rewrite drop_nil.
  - destruct i as [|i]; cbn.
    + intros [= -> ->]. by rewrite drop_0.
    + apply IH.
Qed.

(** On fresh flags the loop of the code is [gen_loop]. *)
Lemma loop_gen md o : ∀ rest i pm om m,
  (∀ i', i ≤ i' → pm !! i' ≠ Some true) →
  ((jaro_match_loop md i rest o pm om m).1.1,
   (jaro_match_loop md i rest o pm om m).1.2)
  = gen_loop md i rest o pm om.
Proof.
  induction rest as [|c rest IH]; intros i pm om m Hfresh; [done|].
  cbn [jaro_match_loop gen_loop]. fold (pick md c o om i).
  assert (Hi : pm !! i ≠ Some true) by (apply Hfresh; lia).
  assert (Hgen : match pm !! i with
                 | Some true => gen_loop md (S i) rest o pm om
                 | _ => match pick md c o om i with
                        | Some r => gen_loop md (S i) rest o (<[i := true]> pm)
                                      (<[r := true]> om)
                        | None => gen_loop md (S i) rest o pm om
                        end
                 end
                 = match pick md c o om i with
                   | Some r => gen_loop md (S i) rest o (<[i := true]> pm)
                                 (<[r := true]> om)
                   | None => gen_loop md (S i) rest o pm om
                   end).
  { destruct (pm !! i) as [[|]|]; done. }
  rewrite Hgen. destruct (pick md c o om i) as [r|].
  - apply IH. intros i' Hi'. rewrite list_lookup_insert_ne by lia.
    apply Hfresh. lia.
  - apply IH. intros i' Hi'. apply Hfresh. lia.
Qed.

Lemma flag_cases (pm : list bool) (i : nat) :
  i < length pm → pm !! i = Some true ∨ pm !! i = Some false.
Proof.
  intros Hi. destruct (lookup_lt_is_Some_2 pm i Hi) as [[|] ->]; auto.
Qed.

(** When every position of the other string is taken, or fits no position
    that is still to be matched, the loop changes nothing. *)
Lemma gen_idle md p o : ∀ rest i pm om,
  drop i p = rest → length pm = length p →
  (∀ r, om !! r = Some true
        ∨ ∀ j, pm !! j = Some false → ¬ compat md p o j r) →
  gen_loop md i rest o pm om = (pm, om).
Proof.
  induction rest as [|c rest IH]; intros i pm om Hdrop Hlen Hdead; [done|].
  apply drop_cons_inv in Hdrop as [Hi Hdrop]. cbn [gen_loop].
  destruct (flag_cases pm i) as [Hf|Hf]; [|rewrite Hf..].
  { rewrite Hlen. by eapply lookup_lt_Some. }
  - by apply IH.
  - assert (pick md c o om i = None) as ->.
    { apply (pick_None md p); [done|]. intros r [Hc Hm].
      destruct (Hdead r) as [Ht|Hd]; [congruence|]. by apply (Hd i). }
    by apply IH.
Qed.

(** Matching [jk] with [k] beforehand changes nothing, when [k] is the
    partner the loop would give [jk] and no earlier position wants [k]. *)
Lemma gen_lockstep md p o jk k : ∀ rest j pm om,
  drop j p = rest → length pm = length p → j ≤ jk →
  pm !! jk = Some false → om !! k = Some false →
  compat md p o jk k →
  (∀ j', j ≤ j' → j' < jk → pm !! j' = Some false → ¬ compat md p o j' k) →
  (∀ i, i < k → om !! i = Some true ∨ ¬ compat md p o jk i) →
  gen_loop md j rest o pm om
  = gen_loop md j rest o (<[jk := true]> pm) (<[k := true]> om).
Proof.
  induction rest as [|c rest IH];
    intros j pm om Hdrop Hlen Hj Hjk Hk Hcompat Hearlier Hsmaller.
  { (* [jk] is a position of [p] at or after [j] *)
    exfalso. pose proof (lookup_lt_Some _ _ _ Hjk) as Hlt.
    assert (length (drop j p) = 0) by (by rewrite Hdrop).
    rewrite length_drop in *. lia. }
  apply drop_cons_inv in Hdrop as [Hpj Hdrop]. cbn [gen_loop].
  pose proof (lookup_lt_Some _ _ _ Hjk) as Hjklt.
  pose proof (lookup_lt_Some _ _ _ Hk) as Hklt.
  destruct (decide (j = jk)) as [->|Hne].
  - (* the loop reaches [jk]: it picks [k] *)
    rewrite Hjk, list_lookup_insert_eq by done.
    assert (pick md c o om jk = Some k) as ->; [|done].
    apply (pick_Some md p); [done|]. split_and!; [done|done|].
    intros r' Hr' [Hc' Hm']. destruct (Hsmaller r' Hr'); [congruence|done].
  - rewrite list_lookup_insert_ne by done.
    destruct (flag_cases pm j) as [Hf|Hf]; [|rewrite Hf..].
    { rewrite Hlen. by eapply lookup_lt_Some. }
    + apply IH; try done; [lia|]. intros j' ? ?. apply Hearlier; lia.
    + assert (Hnk : ¬ compat md p o j k) by (apply Hearlier; [lia|lia|done]).
      assert (Hsame : pick md c o (<[k := true]> om) j = pick md c o om j).
      { unfold pick. apply find_match_ext. intros r Hr. unfold cand.
        destruct (decide (r = k)) as [->|Hrk].
        - rewrite list_lookup_insert_eq by done. split; [by intros [? ?]|].
          intros [_ Hc]. destruct Hnk. split; [|by exists c].
          pose proof (lookup_lt_Some _ _ _ Hc). lia.
        - by rewrite list_lookup_insert_ne. }
      rewrite Hsame. destruct (pick md c o om j) as [r|] eqn:Hpick.
      * apply (pick_Some md p) in Hpick as (Hcr & Hmr & _); [|done].
        assert (r ≠ k) by (intros ->; done).
        rewrite (list_insert_insert_ne pm j jk) by done.
        rewrite (list_insert_insert_ne om r k) by done.
        apply IH; try done.
        -- by rewrite length_insert.
        -- lia.
        -- by rewrite list_lookup_insert_ne.
        -- by rewrite list_lookup_insert_ne.
        -- intros j' ? ? Hj'. rewrite list_lookup_insert_ne in Hj' by lia.
           apply Hearlier; [lia|lia|done].
        -- intros i Hi. destruct (Hsmaller i Hi) as [Ht|?]; [left|by right].
           destruct (decide (r = i)) as [->|?]; [congruence|].
           by rewrite list_lookup_insert_ne.
      * apply IH; try done; [lia|]. intros j' ? ?. apply Hearlier; lia.
Qed.

(** Reading [a] from position [k] on gives the flags that reading [b] from
    its start gives, when the positions of [a] before [k] are matched or fit
    no free position of [b]. *)
Lemma greedy_sym md a b : ∀ rest k F1 F2,
  drop k a = rest → length F1 = length a → length F2 = length b →
  (∀ i, i < k → F1 !! i = Some true
                ∨ ∀ j, F2 !! j = Some false → ¬ compat md a b i j) →
  (∀ i, k ≤ i → i < length a → F1 !! i = Some false) →
  gen_loop md 0 b a F2 F1
  = ((gen_loop md k rest b F1 F2).2, (gen_loop md k rest b F1 F2).1).
Proof.
  induction rest as [|c rest IH]; intros k F1 F2 Hdrop Hl1 Hl2 Hdone Hnew.
  - cbn [gen_loop fst snd]. apply (gen_idle md b a); [apply drop_0|done|].
    intros i.
    assert (Hk : length a ≤ k).
    { assert (length (drop k a) = 0) by (by rewrite Hdrop).
      rewrite length_drop in *. lia. }
    destruct (decide (i < length a)) as [Hi|Hi].
    + destruct (Hdone i) as [?|Hd]; [lia|by left|right].
      intros j Hj Hc. apply (Hd j Hj). by apply compat_sym.
    + right. intros j _ [_ (c & _ & Hc)].
      apply lookup_lt_Some in Hc. lia.
  - apply drop_cons_inv in Hdrop as [Hak Hdrop]. cbn [gen_loop].
    pose proof (lookup_lt_Some _ _ _ Hak) as Hklt.
    rewrite (Hnew k) by lia.
    destruct (pick md c b F2 k) as [j|] eqn:Hpick.
    + apply (pick_Some md a) in Hpick as (Hc & Hm & Hleast); [|done].
      rewrite <- (IH (S k)); try done.
      * assert (Hk : F1 !! k = Some false) by (apply Hnew; lia).
        apply (gen_lockstep md b a j k b 0 F2 F1 (drop_0 b) Hl2
                 (Nat.le_0_l j) Hm Hk (proj1 (compat_sym _ _ _ _ _) Hc)).
        -- intros j' _ Hj' Hf Hc'. apply (Hleast j' Hj').
           split; [by apply compat_sym|done].
        -- intros i Hi. destruct (Hdone i Hi) as [?|Hd]; [by left|right].
           intros Hc'. apply (Hd j Hm). by apply compat_sym.
      * by rewrite length_insert.
      * by rewrite length_insert.
      * intros i Hi. destruct (decide (i = k)) as [->|Hne].
        -- left. apply list_lookup_insert_eq. lia.
        -- rewrite list_lookup_insert_ne by done.
           destruct (Hdone i) as [?|Hd]; [lia|by left|right].
           intros j' Hj'. apply Hd.
           destruct (decide (j = j')) as [->|?].
           ++ rewrite list_lookup_insert_eq in Hj'; [done|].
              by eapply lookup_lt_Some.
           ++ by rewrite list_lookup_insert_ne in Hj'.
      * intros i Hi Hi'. rewrite list_lookup_insert_ne by lia.
        apply Hnew; lia.
    + apply (IH (S k)); try done.
      * intros i Hi. destruct (decide (i = k)) as [->|Hne].
        -- right. intros j Hj Hc'.
           apply (proj1 (pick_None md a b F2 k c Hak) Hpick j). by split.
        -- apply Hdone. lia.
      * intros i Hi Hi'. apply Hnew; lia.
Qed.

(** The number of flags that are set. *)
Definition count_true (l : list bool) : nat := length (filter (λ x, x = true) l).

Lemma count_true_insert (l : list bool) i :
  l !! i = Some false → count_true (<[i := true]> l) = S (count_true l).
Proof.
  unfold count_true. revert i. induction l as [|x l IH]; intros i; [done|].
  destruct i as [|i]; cbn [lookup list_lookup].
  - intros [= ->]. cbn [insert list_insert].
    rewrite filter_cons_True by done. by rewrite filter_cons_False by done.
  - intros Hi. specialize (IH i Hi). cbn [insert list_insert].
    change (list_insert i true l) with (<[i := true]> l).
    rewrite !filter_cons.
    destruct (decide (x = true)); cbn [length]; [f_equal|]; exact IH.
Qed.

Lemma count_true_replicate n : count_true (replicate n false) = 0.
Proof.
  unfold count_true. induction n as [|n IH]; [done|]. cbn [replicate].
  by rewrite filter_cons_False by done.
Qed.

(** [matches] counts the flags the loop sets, on either side. *)
Lemma loop_count md o : ∀ rest i pm om m,
  (∀ i', i ≤ i' → i' < i + length rest → pm !! i' = Some false) →
  let res := jaro_match_loop md i rest o pm om m in
  res.2 + count_true pm = m + count_true res.1.1
  ∧ res.2 + count_true om = m + count_true res.1.2.
Proof.
  induction rest as [|c rest IH]; intros i pm om m Hfresh; [done|].
  cbn [jaro_match_loop]. fold (pick md c o om i).
  destruct (pick md c o om i) as [r|] eqn:Hpick.
  - unfold pick in Hpick. apply find_match_Some in Hpick as (_ & [Hm _] & _).
    specialize (IH (S i) (<[i := true]> pm) (<[r := true]> om) (S m)).
    destruct IH as [IH1 IH2].
    { intros i' ? ?. rewrite list_lookup_insert_ne by lia.
      apply Hfresh; cbn [length]; lia. }
    rewrite count_true_insert in IH1 by (apply Hfresh; cbn [length]; lia).
    rewrite count_true_insert in IH2 by done.
    cbn zeta in *. lia.
  - apply IH. intros i' ? ?. apply Hfresh; cbn [length]; lia.
Qed.

(** The characters at the flagged positions, in order. *)
Fixpoint picked (s : list (N * bool)) : pystr :=
  match s with
  | [] => []
  | (c, true) :: s' => c :: picked s'
  | (_, false) :: s' => picked s'
  end.

(** Positions at which two strings differ, up to the shorter one. *)
Fixpoint mismatches (a b : pystr) : nat :=
  match a, b with
  | x :: a', y :: b' => neq_int x y + mismatches a' b'
  | _, _ => 0
  end.

Lemma skip_unmatched_picked s :
  match skip_unmatched s with
  | Some (c, s') => picked s = c :: picked s'
  | None => picked s = []
  end.
Proof. induction s as [|[c []] s IH]; cbn; [done|done|]. exact IH. Qed.

Lemma jaro_transpositions_spec : ∀ s1 s2 t,
  jaro_transpositions s1 s2 t = t + mismatches (picked s1) (picked s2).
Proof.
  induction s1 as [|[c1 []] s1 IH]; intros s2 t; cbn [jaro_transpositions picked].
  - cbn. lia.
  - pose proof (skip_unmatched_picked s2) as Hs.
    destruct (skip_unmatched s2) as [[c2 s2']|]; rewrite Hs.
    + rewrite IH. cbn [mismatches]. lia.
    + cbn. lia.
  - apply IH.
Qed.

Lemma mismatches_sym a : ∀ b, mismatches a b = mismatches b a.
Proof.
  induction a as [|x a IH]; intros [|y b]; cbn; try done.
  by rewrite IH, LevenshteinFacts.neq_int_sym.
Qed.

Lemma jaro_transpositions_sym s1 s2 :
  jaro_transpositions s1 s2 0 = jaro_transpositions s2 s1 0.
Proof. rewrite !jaro_transpositions_spec. by rewrite mismatches_sym. Qed.

(** The first loop of [jaro_similarity] sets the same flags and counts the
    same matches whichever string is read. *)
Lemma match_loop_sym md a b :
  jaro_match_loop md 0 b a (replicate (length b) false)
    (replicate (length a) false) 0
  = let res := jaro_match_loop md 0 a b (replicate (length a) false)
                 (replicate (length b) false) 0 in
    (res.1.2, res.1.1, res.2).
Proof.
  set (Fa := replicate (length a) false). set (Fb := replicate (length b) false).
  assert (Hfa : ∀ i, i < length a → Fa !! i = Some false).
  { intros i Hi. by apply lookup_replicate_2. }
  assert (Hfb : ∀ i, i < length b → Fb !! i = Some false).
  { intros i Hi. by apply lookup_replicate_2. }
  assert (Hna : ∀ i, Fa !! i ≠ Some true).
  { intros i Hi. apply lookup_replicate in Hi as [? _]. done. }
  assert (Hnb : ∀ i, Fb !! i ≠ Some true).
  { intros i Hi. apply lookup_replicate in Hi as [? _]. done. }
  pose proof (loop_gen md b a 0 Fa Fb 0 (λ i _, Hna i)) as Hab.
  pose proof (loop_gen md a b 0 Fb Fa 0 (λ i _, Hnb i)) as Hba.
  pose proof (greedy_sym md a b a 0 Fa Fb (drop_0 a)) as Hsym.
  rewrite <- Hab, <- Hba in Hsym. cbn [fst snd] in Hsym.
  specialize (Hsym (length_replicate _ _) (length_replicate _ _)).
  assert (Hsym' := Hsym ltac:(intros; lia) ltac:(intros; by apply Hfa)).
  clear Hsym. injection Hsym' as H1 H2.
  destruct (loop_count md b a 0 Fa Fb 0) as [Ca1 Ca2].
  { intros i _ Hi. by apply Hfa. }
  destruct (loop_count md a b 0 Fb Fa 0) as [Cb1 Cb2].
  { intros i _ Hi. by apply Hfb. }
  unfold Fa, Fb in *. rewrite !count_true_replicate in *.
  cbn zeta in *. cbn [Nat.add] in *.
  destruct (jaro_match_loop md 0 a b _ _ 0) as [[ra rb] m].
  destruct (jaro_match_loop md 0 b a _ _ 0) as [[rb' ra'] m'].
  cbn [fst snd] in *. subst. f_equal. lia.
Qed.

End JaroFacts.

(** ** Symmetry of the similarity scores *)

Module SymmetryFacts.
Import SimilarityScorer.

Section AnyRuntime.
Context {U : Unicode}.

Lemma levenshtein_similarity_sym s1 s2 :
  (levenshtein_similarity s1 s2 == levenshtein_similarity s2 s1)%Q.
Proof.
  unfold levenshtein_similarity. destruct s1, s2; cbn [truthy negb andb orb]; try done.
  by rewrite LevenshteinFacts.levenshtein_distance_sym, Nat.max_comm.
Qed.

Lemma jaro_similarity_sym s1 s2 :
  (jaro_similarity s1 s2 == jaro_similarity s2 s1)%Q.
Proof.
  unfold jaro_similarity.
  destruct s1 as [|c1 s1], s2 as [|c2 s2]; cbn [truthy negb andb orb]; try done.
  set (a := lower (c1 :: s1)). set (b := lower (c2 :: s2)).
  rewrite (Nat.max_comm (length b) (length a)).
  set (md := Nat.max (length a) (length b) / 2 - 1).
  rewrite (JaroFacts.match_loop_sym md a b). cbv zeta.
  destruct (jaro_match_loop md 0 a b _ _ 0) as [[ra rb] m]. cbn [fst snd].
  destruct (m =? 0); [done|].
  rewrite (JaroFacts.jaro_transpositions_sym (zip b rb) (zip a ra)).
  apply Qdiv_comp; [|done]. apply Qplus_comp; [|done]. apply Qplus_comm.
Qed.

Lemma prefix_loop_sym n : ∀ a b, prefix_loop n a b = prefix_loop n b a.
Proof.
  induction n as [|n IH]; intros [|x a] [|y b]; cbn; try done.
  rewrite (N.eqb_sym y x). destruct (x =? y)%N; [|done]. by rewrite IH.
Qed.

Lemma jaro_winkler_similarity_p_sym s1 s2 p :
  (jaro_winkler_similarity_p s1 s2 p == jaro_winkler_similarity_p s2 s1 p)%Q.
Proof.
  unfold jaro_winkler_similarity_p. cbv zeta.
  rewrite (jaro_similarity_sym s1 s2), (Nat.min_comm (length s1) (length s2)).
  by rewrite prefix_loop_sym.
Qed.

Lemma inter_comm (X Y : gset pystr) : X ∩ Y = Y ∩ X.
Proof. apply (comm_L (∩) X Y). Qed.

Lemma union_comm (X Y : gset pystr) : X ∪ Y = Y ∪ X.
Proof. apply (comm_L (∪) X Y). Qed.

Lemma jaccard_similarity_n_sym s1 s2 n :
  (jaccard_similarity_n s1 s2 n == jaccard_similarity_n s2 s1 n)%Q.
Proof.
  unfold jaccard_similarity_n.
  destruct s1, s2; cbn [truthy negb andb orb]; try done. cbv zeta.
  by rewrite (inter_comm (get_ngrams n (_ :: s1))),
    (union_comm (get_ngrams n (_ :: s1))).
Qed.

Lemma token_based_similarity_sym s1 s2 :
  (token_based_similarity s1 s2 == token_based_similarity s2 s1)%Q.
Proof.
  unfold token_based_similarity.
  destruct s1, s2; cbn [truthy negb andb orb]; try done. cbv zeta.
  rewrite orb_comm.
  by rewrite (inter_comm (list_to_set (split (lower (_ :: s1))))),
    (union_comm (list_to_set (split (lower (_ :: s1))))).
Qed.

Lemma count_equal_sym a : ∀ b, count_equal a b = count_equal b a.
Proof.
  unfold count_equal. induction a as [|x a IH]; intros [|y b]; try done.
  cbn [zip zip_with]. rewrite !filter_cons. cbn [fst snd].
  specialize (IH b).
  destruct (decide (x = y)), (decide (y = x)); cbn [length]; congruence.
Qed.

Lemma phonetic_similarity_sym s1 s2 :
  (phonetic_similarity s1 s2 == phonetic_similarity s2 s1)%Q.
Proof.
  unfold phonetic_similarity, str_eqb. cbv zeta.
  rewrite count_equal_sym.
  destruct (decide (BlockingStrategy.soundex s1 = BlockingStrategy.soundex s2))
    as [He|Hne].
  - by rewrite !bool_decide_eq_true_2.
  - by rewrite !bool_decide_eq_false_2.
Qed.

Lemma composite_name_score_sym s1 s2 :
  (composite_name_score s1 s2 == composite_name_score s2 s1)%Q.
Proof.
  unfold composite_name_score, jaro_winkler_similarity, jaccard_similarity.
  by rewrite (jaro_winkler_similarity_p_sym s1 s2),
    (levenshtein_similarity_sym s1 s2), (jaccard_similarity_n_sym s1 s2),
    (token_based_similarity_sym s1 s2), (phonetic_similarity_sym s1 s2).
Qed.

(** C5: every similarity function gives the same score to [(a, b)] and to
    [(b, a)]. *)
Theorem similarity_symmetric (a b : pystr) :
  (levenshtein_similarity a b == levenshtein_similarity b a
   ∧ jaro_similarity a b == jaro_similarity b a
   ∧ jaro_winkler_similarity a b == jaro_winkler_similarity b a
   ∧ jaccard_similarity a b == jaccard_similarity b a
   ∧ token_based_similarity a b == token_based_similarity b a
   ∧ phonetic_similarity a b == phonetic_similarity b a
   ∧ composite_name_score a b == composite_name_score b a)%Q.
Proof.
  split_and!.
  - apply levenshtein_similarity_sym.
  - apply jaro_similarity_sym.
  - apply jaro_winkler_similarity_p_sym.
  - apply jaccard_similarity_n_sym.
  - apply token_based_similarity_sym.
  - apply phonetic_similarity_sym.
  - apply composite_name_score_sym.
Qed.

End AnyRuntime.
End SymmetryFacts.

(** ** sorted: the order of strings *)

Module SortedFacts.

(** [a <= b] on strings. *)
Definition str_le (a b : pystr) : Prop := str_leb a b = true.

Lemma str_leb_refl a : str_leb a a = true.
Proof.
  induction a as [|x a IH]; cbn; [done|].
  by rewrite N.ltb_irrefl, N.eqb_refl.
Qed.

Lemma str_leb_total a : ∀ b, str_leb a b = true ∨ str_leb b a = true.
Proof.
  induction a as [|x a IH]; intros [|y b]; cbn; auto.
  destruct (N.ltb_spec x y) as [Hlt|Hge]; [by left|].
  destruct (N.ltb_spec y x) as [Hlt'|Hge']; [by right|].
  assert (x = y) as -> by lia. rewrite N.eqb_refl. apply IH.
Qed.

Lemma str_leb_trans a : ∀ b c,
  str_leb a b = true → str_leb b c = true → str_leb a c = true.
Proof.
  induction a as [|x a IH]; intros [|y b] [|z c]; cbn; try done.
  destruct (N.ltb_spec x y), (N.eqb_spec x y), (N.ltb_spec y z),
    (N.eqb_spec y z), (N.ltb_spec x z), (N.eqb_spec x z);
    subst; try done; try lia.
  apply IH.
Qed.

Lemma str_leb_antisym a : ∀ b,
  str_leb a b = true → str_leb b a = true → a = b.
Proof.
  induction a as [|x a IH]; intros [|y b]; cbn; try done.
  destruct (N.ltb_spec x y), (N.eqb_spec x y), (N.ltb_spec y x),
    (N.eqb_spec y x); subst; try done; try lia.
  intros H1 H2. f_equal. by apply IH.
Qed.

#[local] Instance str_le_trans : Transitive str_le.
Proof. intros a b c. apply str_leb_trans. Qed.

#[local] Instance str_le_antisym : AntiSymm (=) str_le.
Proof. intros a b. apply str_leb_antisym. Qed.

Lemma insert_sorted_perm x l : insert_sorted x l ≡ₚ x :: l.
Proof.
  induction l as [|y l IH]; cbn; [done|].
  destruct (str_leb x y); [done|]. rewrite IH. apply Permutation_swap.
Qed.

Lemma insert_sorted_Sorted x l :
  Sorted str_le l → Sorted str_le (insert_sorted x l).
Proof.
  induction 1 as [|y l Hl IH Hhd]; cbn.
  - by repeat constructor.
  - destruct (str_leb x y) eqn:Hxy.
    + constructor; [by constructor|]. by constructor.
    + constructor; [done|].
      assert (Hyx : str_le y x).
      { destruct (str_leb_total x y) as [?|?]; [congruence|done]. }
      destruct Hhd as [|z l Hyz]; cbn; [by constructor|].
      destruct (str_leb x z); by constructor.
Qed.

Lemma sorted_perm l : sorted l ≡ₚ l.
Proof.
  induction l as [|x l IH]; cbn; [done|].
  by rewrite insert_sorted_perm, IH.
Qed.

Lemma sorted_Sorted l : Sorted str_le (sorted l).
Proof.
  induction l as [|x l IH]; cbn; [constructor|].
  by apply insert_sorted_Sorted.
Qed.

(** [sorted] depends on the elements of the list only. *)
Lemma sorted_Permutation l l' : l ≡ₚ l' → sorted l = sorted l'.
Proof.
  intros Hp. apply (Sorted_unique str_le); try apply sorted_Sorted.
  by rewrite !sorted_perm.
Qed.

Lemma pair_key_eq a b :
  EntityResolution.pair_key a b = if str_leb a b then (a, b) else (b, a).
Proof.
  unfold EntityResolution.pair_key. cbn. by destruct (str_leb a b).
Qed.

End SortedFacts.

(** ** resolve: the resolved ids of a batch *)

Module ResolveFacts.
Import EntityResolution DictFacts ClusterFacts SortedFacts.

Section WithRuntime.
Context {H : Hashlib} {U : Unicode}.

(** *** The score of a pair does not depend on its orientation *)

(** Two [scores] dictionaries with the same keys and equal values. *)
Definition same_scores (s s' : dict pystr Q) : Prop :=
  Forall2 (λ x y, x.1 = y.1 ∧ (x.2 == y.2)%Q) s s'.

Lemma exact_sym a b : exact a b = exact b a.
Proof.
  unfold exact, str_eqb.
  destruct (decide (a = b)) as [->|Hne]; [done|].
  by rewrite !bool_decide_eq_false_2.
Qed.

Lemma both_sym a b k :
  both a b k = (λ p, (p.2, p.1)) <$> both b a k.
Proof.
  unfold both.
  destruct (Dict.get (attributes a) k) as [[|? ?]|],
    (Dict.get (attributes b) k) as [[|? ?]|]; done.
Qed.

Lemma pair_scores_sym a b : same_scores (pair_scores a b) (pair_scores b a).
Proof.
  unfold pair_scores, same_scores. cbv zeta.
  apply Forall2_app; [|apply Forall2_app; [|apply Forall2_app]].
  - rewrite andb_comm. destruct (_ && _); repeat constructor.
    apply SymmetryFacts.composite_name_score_sym.
  - rewrite (both_sym a b).
    destruct (both b a _) as [[? ?]|]; cbn; repeat constructor.
    cbn. by rewrite exact_sym.
  - rewrite andb_comm. destruct (_ && _); repeat constructor.
    apply SymmetryFacts.jaro_winkler_similarity_p_sym.
  - generalize (map str ["national_id"; "passport"; "tax_id"; "company_reg"]%string).
    intros ks. induction ks as [|k ks IH]; cbn [flat_map]; [constructor|].
    apply Forall2_app; [|done]. rewrite (both_sym a b).
    destruct (both b a _) as [[? ?]|]; cbn; repeat constructor.
    cbn. by rewrite exact_sym.
Qed.

Lemma sum_weights s s' :
  same_scores s s' →
  sum_over s (λ k _, weight_of k) = sum_over s' (λ k _, weight_of k).
Proof.
  unfold sum_over. intros Hs. generalize 0%Q.
  induction Hs as [|[k v] [k' v'] s s' [Hk _] _ IH]; intros acc; [done|].
  cbn in Hk |- *. subst k'. apply IH.
Qed.

Lemma sum_scores s s' :
  same_scores s s' →
  (sum_over s (λ k v, v * weight_of k)
   == sum_over s' (λ k v, v * weight_of k))%Q.
Proof.
  unfold sum_over.
  enough (∀ acc acc', (acc == acc')%Q → same_scores s s' →
            (fold_left (λ acc '(k, v), acc + v * weight_of k) s acc
             == fold_left (λ acc '(k, v), acc + v * weight_of k) s' acc')%Q)
    as Hgen by (by apply Hgen).
  intros acc acc' Hacc Hs. revert acc acc' Hacc.
  induction Hs as [|[k v] [k' v'] s s' [Hk Hv] _ IH]; intros acc acc' Hacc;
    [done|].
  cbn in Hk, Hv |- *. subst k'. apply IH. by rewrite Hacc, Hv.
Qed.

Lemma overall_score_sym a b :
  (overall_score (score_candidate_pair a b)
   == overall_score (score_candidate_pair b a))%Q.
Proof.
  unfold score_candidate_pair. cbn [overall_score].
  rewrite (sum_weights _ _ (pair_scores_sym a b)).
  destruct (Qlt_le_dec 0 _); [|done].
  by rewrite (sum_scores _ _ (pair_scores_sym a b)).
Qed.

(** A scored pair is accepted whichever record comes first. *)
Lemma accepted_sym thr a b :
  accepted thr (score_candidate_pair a b)
  = accepted thr (score_candidate_pair b a).
Proof.
  unfold accepted. apply eq_true_iff_eq.
  by rewrite !Qle_bool_iff, overall_score_sym.
Qed.

(** *** The pairs of a block *)

Lemma elem_of_pairs_cons {A} (x : A) l a b :
  (a, b) ∈ pairs_in_order (x :: l)
  ↔ (a = x ∧ b ∈ l) ∨ (a, b) ∈ pairs_in_order l.
Proof.
  cbn [pairs_in_order]. rewrite elem_of_app, list_elem_of_fmap. split.
  - intros [(b' & [= -> ->] & Hb)|Hin]; [by left|by right].
  - intros [[-> Hb]|Hin]; [left; by exists b|by right].
Qed.

Lemma pairs_in_order_elems {A} (l : list A) a b :
  (a, b) ∈ pairs_in_order l → a ∈ l ∧ b ∈ l.
Proof.
  induction l as [|x l IH]; [by intros ?%elem_of_nil|].
  rewrite elem_of_pairs_cons, !elem_of_cons.
  intros [[-> Hb]|Hin]; [by auto|]. destruct (IH Hin). auto.
Qed.

(** Reordering a block turns its pairs around at most. *)
Lemma pairs_in_order_perm {A} (l l' : list A) :
  l ≡ₚ l' → ∀ a b, (a, b) ∈ pairs_in_order l →
  (a, b) ∈ pairs_in_order l' ∨ (b, a) ∈ pairs_in_order l'.
Proof.
  induction 1 as [|x l l' Hp IH|x y l|l l' l'' _ IH1 _ IH2]; intros a b.
  - by left.
  - rewrite !elem_of_pairs_cons. intros [[-> Hb]|Hin].
    + left. left. by rewrite <- Hp.
    + destruct (IH _ _ Hin); auto.
  - rewrite !elem_of_pairs_cons, !elem_of_cons. intuition (subst; auto 6).
  - intros Hin. destruct (IH1 _ _ Hin) as [Hin'|Hin'].
    + by apply IH2.
    + destruct (IH2 _ _ Hin'); auto.
Qed.

(** *** The block index *)

Lemma elem_of_get {V} (d : dict pystr V) k v :
  NoDup (Dict.keys d) → (k, v) ∈ d → Dict.get d k = Some v.
Proof.
  induction d as [|[k' v'] d IH]; cbn; [by intros _ ?%elem_of_nil|].
  intros [Hk' Hnd]%NoDup_cons [[= -> ->]|Hin]%elem_of_cons.
  - by rewrite decide_True.
  - rewrite decide_False; [by apply IH|]. intros ->. apply Hk'.
    by apply (list_elem_of_fmap_2 fst _ (k, v)).
Qed.

(** What the loop of step 2 puts under the key [k]: each record once for
    every time [k] is among its blocking keys. *)
Definition block_list (eng : Engine) (k : pystr) (recs : list EntityRecord)
  : list EntityRecord :=
  flat_map
    (λ r, map (λ _, r) (filter (λ k', k' = k) (generate_blocking_keys eng r)))
    recs.

(** A [defaultdict(list)] entry after appending [new]. *)
Definition extend {V} (o : option (list V)) (new : list V)
  : option (list V) :=
  match o, new with
  | Some l, _ => Some (l ++ new)
  | None, [] => None
  | None, _ => Some new
  end.

Lemma extend_nil {V} (o : option (list V)) : extend o [] = o.
Proof. destruct o; cbn; by rewrite ?app_nil_r. Qed.

Lemma extend_app {V} (o : option (list V)) a b :
  extend (extend o a) b = extend o (a ++ b).
Proof.
  destruct o as [l|]; cbn; [by rewrite app_assoc|].
  destruct a; cbn; [done|]. done.
Qed.

Lemma dict_append_get {V} (d : dict pystr (list V)) k v κ :
  Dict.get (dict_append d k v) κ
  = extend (Dict.get d κ) (if decide (k = κ) then [v] else []).
Proof.
  unfold dict_append. rewrite get_set.
  destruct (decide (k = κ)) as [->|Hne]; [|by rewrite extend_nil].
  by destruct (Dict.get d κ).
Qed.

Lemma index_record_get eng r idx k :
  Dict.get (index_record eng idx r) k
  = extend (Dict.get idx k)
      (map (λ _, r) (filter (λ k', k' = k) (generate_blocking_keys eng r))).
Proof.
  unfold index_record. generalize (generate_blocking_keys eng r).
  intros ks. revert idx.
  induction ks as [|k0 ks IH]; intros idx; cbn [fold_left].
  - rewrite filter_nil. cbn [map]. by rewrite extend_nil.
  - rewrite IH, dict_append_get, extend_app. f_equal.
    rewrite filter_cons. by destruct (decide (k0 = k)).
Qed.

Lemma block_index_get eng recs : ∀ idx k,
  Dict.get (fold_left (index_record eng) recs idx) k
  = extend (Dict.get idx k) (block_list eng k recs).
Proof.
  unfold block_list.
  induction recs as [|r recs IH]; intros idx k; cbn [fold_left flat_map].
  - by rewrite extend_nil.
  - by rewrite IH, index_record_get, extend_app.
Qed.

Lemma index_record_NoDup eng r idx :
  NoDup (Dict.keys idx) → NoDup (Dict.keys (index_record eng idx r)).
Proof.
  unfold index_record. generalize (generate_blocking_keys eng r).
  intros ks. revert idx.
  induction ks as [|k0 ks IH]; intros idx Hnd; cbn [fold_left]; [done|].
  apply IH. by apply NoDup_keys_set.
Qed.

Lemma block_index_NoDup eng recs : ∀ idx,
  NoDup (Dict.keys idx) →
  NoDup (Dict.keys (fold_left (index_record eng) recs idx)).
Proof.
  induction recs as [|r recs IH]; intros idx Hnd; cbn [fold_left]; [done|].
  by apply IH, index_record_NoDup.
Qed.

Lemma block_list_elem eng k recs r : r ∈ block_list eng k recs → r ∈ recs.
Proof.
  unfold block_list. rewrite list_elem_of_In, in_flat_map.
  intros (r' & Hr' & Hin). apply list_elem_of_In in Hin.
  apply list_elem_of_fmap in Hin as (? & -> & _). by apply list_elem_of_In.
Qed.

Lemma block_list_perm eng k recs recs' :
  recs ≡ₚ recs' → block_list eng k recs ≡ₚ block_list eng k recs'.
Proof. intros Hp. unfold block_list. by apply Permutation_flat_map. Qed.

(** *** Steps 3 and 4: the scored pairs *)

(** The pairs the loops of step 3 visit, in order. *)
Definition candidates (block_index : dict pystr (list EntityRecord))
  : list (EntityRecord * EntityRecord) :=
  flat_map (λ block, pairs_in_order block.2) block_index.

Definition key_of (m : MatchCandidate) : pystr * pystr :=
  pair_key (id (record_a m)) (id (record_b m)).

(** The state [(scored_pairs, seen_pairs)] after the pairs [visited]. *)
Record scored_state (visited : list (EntityRecord * EntityRecord))
    (st : list MatchCandidate * list (pystr * pystr)) : Prop := {
  ss_seen : st.2 = map key_of st.1;
  ss_nodup : NoDup st.2;
  ss_from : ∀ m, m ∈ st.1 →
      (record_a m, record_b m) ∈ visited
      ∧ overall_score m
        = overall_score (score_candidate_pair (record_a m) (record_b m));
  ss_all : ∀ p, p ∈ visited → pair_key (id p.1) (id p.2) ∈ st.2;
}.

Lemma scored_state_empty : scored_state [] ([], []).
Proof.
  split; cbn; [done|apply NoDup_nil_2| |]; intros ? Hin;
    by apply elem_of_nil in Hin.
Qed.

Lemma pair_step_ok k visited st p :
  scored_state visited st → scored_state (visited ++ [p]) (pair_step k st p).
Proof.
  destruct st as [scored seen]. intros [Hseen Hnd Hfrom Hall].
  cbn [fst snd] in *. unfold pair_step. cbv zeta.
  case_bool_decide as Hkey; split; cbn [fst snd].
  - done.
  - done.
  - intros m Hm. destruct (Hfrom m Hm) as [Hin Hsc].
    split; [|done]. apply elem_of_app. by left.
  - intros q [Hq|Hq%list_elem_of_singleton]%elem_of_app; [by apply Hall|].
    by subst q.
  - by rewrite map_app, Hseen.
  - apply NoDup_app. split_and!; [done| |apply NoDup_singleton].
    intros x Hx ->%list_elem_of_singleton. contradiction.
  - intros m [Hm|Hm%list_elem_of_singleton]%elem_of_app.
    + destruct (Hfrom m Hm) as [Hin Hsc].
      split; [|done]. apply elem_of_app. by left.
    + subst m. cbn. split; [|done]. apply elem_of_app. right.
      apply list_elem_of_singleton. by destruct p.
  - intros q [Hq|Hq%list_elem_of_singleton]%elem_of_app.
    + apply elem_of_app. left. by apply Hall.
    + subst q. apply elem_of_app. right. by apply list_elem_of_singleton.
Qed.

Lemma pair_steps_ok k ps : ∀ visited st,
  scored_state visited st →
  scored_state (visited ++ ps) (fold_left (pair_step k) ps st).
Proof.
  induction ps as [|p ps IH]; intros visited st Hst; cbn [fold_left].
  - by rewrite app_nil_r.
  - change (p :: ps) with ([p] ++ ps). rewrite app_assoc.
    by apply IH, pair_step_ok.
Qed.

Lemma block_steps_ok blocks : ∀ visited st,
  scored_state visited st →
  scored_state (visited ++ candidates blocks) (fold_left block_step blocks st).
Proof.
  unfold candidates.
  induction blocks as [|[k l] blocks IH]; intros visited st Hst;
    cbn [fold_left flat_map].
  - by rewrite app_nil_r.
  - rewrite app_assoc. apply IH. unfold block_step. cbn [fst snd].
    by apply pair_steps_ok.
Qed.

(** The pairs visited are the pairs of the blocks. *)
Lemma elem_of_candidates eng recs a b :
  (a, b) ∈ candidates (fold_left (index_record eng) recs [])
  ↔ ∃ k, (a, b) ∈ pairs_in_order (block_list eng k recs).
Proof.
  unfold candidates. rewrite list_elem_of_In, in_flat_map.
  pose proof (block_index_NoDup eng recs [] (NoDup_nil_2)) as Hnd.
  pose proof (block_index_get eng recs []) as Hget.
  set (idx := fold_left (index_record eng) recs []) in *.
  split.
  - intros ([k l] & Hkl & Hin). exists k. cbn [snd] in Hin.
    apply list_elem_of_In in Hin, Hkl.
    assert (Dict.get idx k = Some l) as Hk by (by apply elem_of_get).
    rewrite Hget in Hk. cbn in Hk.
    destruct (block_list eng k recs); [done|]. by injection Hk as ->.
  - intros (k & Hin).
    destruct (block_list eng k recs) as [|r l] eqn:Hl;
      [by apply elem_of_nil in Hin|].
    exists (k, r :: l). split; [|by apply list_elem_of_In].
    apply list_elem_of_In, get_elem_of. rewrite Hget, Hl. done.
Qed.

(** *** The accepted pairs *)

(** [scored_pairs] at the end of step 4. *)
Definition scored_pairs (eng : Engine) (recs : list EntityRecord)
  : list MatchCandidate :=
  (fold_left block_step (fold_left (index_record eng) recs []) ([], [])).1.

(** Two ids are linked when their records share a block and score at least
    the threshold. *)
Definition linked (eng : Engine) (recs : list EntityRecord)
  : relation pystr :=
  λ x y, ∃ a b k,
    (a, b) ∈ pairs_in_order (block_list eng k recs)
    ∧ id a = x ∧ id b = y
    ∧ accepted (match_threshold eng) (score_candidate_pair a b) = true.

Lemma scored_pairs_state eng recs :
  scored_state (candidates (fold_left (index_record eng) recs []))
    (fold_left block_step (fold_left (index_record eng) recs []) ([], [])).
Proof. apply (block_steps_ok _ [] _ scored_state_empty). Qed.

Lemma id_inj recs a b :
  NoDup (map id recs) → a ∈ recs → b ∈ recs → id a = id b → a = b.
Proof.
  induction recs as [|r recs IH]; cbn [map]; [by intros _ ?%elem_of_nil|].
  intros [Hr Hnd]%NoDup_cons [->|Ha]%elem_of_cons [->|Hb]%elem_of_cons Hid.
  - done.
  - destruct Hr. rewrite Hid. by apply list_elem_of_fmap_2.
  - destruct Hr. rewrite <- Hid. by apply list_elem_of_fmap_2.
  - by apply IH.
Qed.

Lemma pair_key_inj x y x' y' :
  pair_key x y = pair_key x' y' → (x = x' ∧ y = y') ∨ (x = y' ∧ y = x').
Proof.
  rewrite !pair_key_eq.
  destruct (str_leb x y), (str_leb x' y'); intros [= -> ->]; auto.
Qed.

Lemma candidate_records eng recs a b k :
  (a, b) ∈ pairs_in_order (block_list eng k recs) → a ∈ recs ∧ b ∈ recs.
Proof.
  intros [Ha Hb]%pairs_in_order_elems. eauto using block_list_elem.
Qed.

Lemma united_linked eng recs x y :
  united (match_threshold eng) (scored_pairs eng recs) x y →
  linked eng recs x y.
Proof.
  intros (m & Hm & Hacc & Hx & Hy).
  destruct (ss_from _ _ (scored_pairs_state eng recs) m Hm) as [Hin Hsc].
  apply elem_of_candidates in Hin as (k & Hin).
  exists (record_a m), (record_b m), k. split_and!; try done.
  unfold accepted in *. by rewrite <- Hsc.
Qed.

Lemma linked_united eng recs x y :
  NoDup (map id recs) → linked eng recs x y →
  sc (united (match_threshold eng) (scored_pairs eng recs)) x y.
Proof.
  intros Hnd (a & b & k & Hin & Hx & Hy & Hacc).
  pose proof (scored_pairs_state eng recs) as [Hseen _ Hfrom Hall].
  fold (scored_pairs eng recs) in Hseen, Hfrom.
  assert (Hc : (a, b) ∈ candidates (fold_left (index_record eng) recs []))
    by (apply elem_of_candidates; eauto).
  specialize (Hall _ Hc). rewrite Hseen in Hall. cbn [fst snd] in Hall.
  apply list_elem_of_fmap in Hall as (m & Hkey & Hm).
  destruct (Hfrom m Hm) as [Hcm Hsc].
  apply elem_of_candidates in Hcm as (k' & Hcm).
  destruct (candidate_records _ _ _ _ _ Hin) as [Ha Hb].
  destruct (candidate_records _ _ _ _ _ Hcm) as [Ha' Hb'].
  assert (Haccm : ∀ a' b', record_a m = a' → record_b m = b' →
            accepted (match_threshold eng) m
            = accepted (match_threshold eng) (score_candidate_pair a' b')).
  { intros ? ? <- <-. unfold accepted. by rewrite Hsc. }
  unfold key_of in Hkey. apply pair_key_inj in Hkey as [[Hia Hib]|[Hia Hib]].
  - left. exists m. split_and!; try congruence.
    rewrite (Haccm a b); [done| |]; by apply (id_inj recs).
  - right. exists m. split_and!; try congruence.
    rewrite (Haccm b a), accepted_sym; [done| |]; by apply (id_inj recs).
Qed.

Lemma rtsc_sc_iff (R R' : relation pystr) :
  (∀ a b, R a b → sc R' a b) → (∀ a b, R' a b → sc R a b) →
  ∀ a b, rtsc R a b ↔ rtsc R' a b.
Proof.
  intros H1 H2 a b. unfold rtsc.
  split; apply rtc_subrel; intros u v [Huv|Huv].
  - by apply H1.
  - symmetry. by apply H1.
  - by apply H2.
  - symmetry. by apply H2.
Qed.

(** The clusters are the classes of the linked ids. *)
Lemma rtsc_united_linked eng recs :
  NoDup (map id recs) →
  ∀ a b, rtsc (united (match_threshold eng) (scored_pairs eng recs)) a b
         ↔ rtsc (linked eng recs) a b.
Proof.
  intros Hnd. apply rtsc_sc_iff.
  - intros a b Hu. left. by apply united_linked.
  - intros a b. by apply linked_united.
Qed.

(** Reordering the batch turns the linked pairs around at most. *)
Lemma linked_perm eng recs recs' :
  recs ≡ₚ recs' → ∀ x y, linked eng recs x y → sc (linked eng recs') x y.
Proof.
  intros Hp x y (a & b & k & Hin & Hx & Hy & Hacc).
  destruct (pairs_in_order_perm _ _ (block_list_perm eng k _ _ Hp) _ _ Hin)
    as [Hin'|Hin'].
  - left. by exists a, b, k.
  - right. exists b, a, k. by rewrite accepted_sym.
Qed.

Lemma rtsc_linked_perm eng recs recs' :
  recs ≡ₚ recs' →
  ∀ a b, rtsc (linked eng recs) a b ↔ rtsc (linked eng recs') a b.
Proof.
  intros Hp. apply rtsc_sc_iff; by apply linked_perm.
Qed.

Lemma linked_ids eng recs x y :
  linked eng recs x y → x ∈ map id recs ∧ y ∈ map id recs.
Proof.
  intros (a & b & k & Hin & <- & <- & _).
  destruct (candidate_records _ _ _ _ _ Hin).
  split; by apply list_elem_of_fmap_2.
Qed.

(** No pair of ids is scored twice, which bounds the number of scored
    pairs. *)
Lemma scored_pairs_length eng recs :
  length (scored_pairs eng recs) ≤ length recs * length recs.
Proof.
  pose proof (scored_pairs_state eng recs) as [Hseen Hnd Hfrom _].
  fold (scored_pairs eng recs) in Hseen, Hfrom.
  set (L := map id recs).
  rewrite <- (length_map key_of), <- Hseen.
  replace (length recs * length recs) with (length (list_prod L L))
    by (unfold L; by rewrite length_prod, length_map).
  apply submseteq_length, NoDup_submseteq; [done|].
  intros [u v]. rewrite Hseen. cbn [fst snd].
  intros (m & Hkey & Hm)%list_elem_of_fmap.
  destruct (Hfrom m Hm) as [(k & Hin)%elem_of_candidates _].
  destruct (candidate_records _ _ _ _ _ Hin) as [Ha Hb].
  apply (list_elem_of_fmap_2 id) in Ha, Hb.
  apply list_elem_of_In, in_prod_iff. rewrite <- !list_elem_of_In.
  unfold key_of in Hkey. rewrite pair_key_eq in Hkey.
  destruct (str_leb _ _); by injection Hkey as -> ->.
Qed.

(** *** Steps 5 and 6: the clusters and their ids *)

(** The [resolved_id] of a cluster with the member ids [ids]. *)
Definition id_of_ids (ids : list pystr) : pystr :=
  take 16 (md5_hexdigest (join (str "_") (sorted ids))).

Lemma resolved_id_of_ids c : resolved_id_of c = id_of_ids (map id c).
Proof. done. Qed.

Lemma id_of_ids_perm l l' : l ≡ₚ l' → id_of_ids l = id_of_ids l'.
Proof. intros Hp. unfold id_of_ids. by rewrite (sorted_Permutation l l'). Qed.

(** [l] lists, once each, the ids connected to [z] by [R]. *)
Definition class_of (R : relation pystr) (z : pystr) (l : list pystr)
  : Prop :=
  NoDup l ∧ ∀ y, y ∈ l ↔ rtsc R z y.

Lemma class_of_unique R z l l' :
  class_of R z l → class_of R z l' → l ≡ₚ l'.
Proof.
  intros [Hnd Hl] [Hnd' Hl']. apply NoDup_Permutation; [done|done|].
  intros y. by rewrite Hl, Hl'.
Qed.

Lemma class_of_iff R R' z l :
  (∀ a b, rtsc R a b ↔ rtsc R' a b) → class_of R z l ↔ class_of R' z l.
Proof.
  intros HR. unfold class_of. split; intros [Hnd Hl]; split; try done;
    intros y; by rewrite Hl, HR.
Qed.

Lemma canonical_records_ok cs :
  Forall (λ c, c ≠ []) cs →
  ∃ es, canonical_records cs = Some es
        ∧ map source_records es = cs
        ∧ Forall (λ e, resolved_id e = resolved_id_of (source_records e)) es.
Proof.
  induction 1 as [|c cs Hc _ (es & Hes & Hsrc & Hids)].
  - by exists [].
  - destruct c as [|r c]; [done|]. cbn [canonical_records].
    rewrite Hes. cbn. eexists. split; [done|]. cbn [map source_records].
    split; [by rewrite Hsrc|]. by constructor.
Qed.

Lemma grouped_NoDup rep items : ∀ cl,
  NoDup (Dict.keys cl) → NoDup (Dict.keys (grouped rep items cl)).
Proof.
  unfold grouped.
  induction items as [|[k r] items IH]; intros cl Hnd; cbn [fold_left];
    [done|].
  by apply IH, NoDup_keys_set.
Qed.

Lemma values_grouped rep items c :
  c ∈ Dict.values (grouped rep items [])
  ↔ ∃ κ, c = members rep items κ ∧ c ≠ [].
Proof.
  pose proof (grouped_get rep items []) as Hget. cbn [Dict.get] in Hget.
  split.
  - intros Hc. apply values_get in Hc as (κ & Hκ);
      [|apply grouped_NoDup, NoDup_nil_2].
    exists κ. rewrite Hget in Hκ.
    destruct (members rep items κ); [done|]. by injection Hκ as <-.
  - intros (κ & -> & Hne). apply (get_values _ κ). rewrite Hget.
    by destruct (members rep items κ).
Qed.

Lemma members_ids rep (items : dict pystr EntityRecord) κ :
  (∀ z r, (z, r) ∈ items → id r = z) →
  map id (members rep items κ) = filter (λ z, rep z = κ) (Dict.keys items).
Proof.
  unfold members, Dict.keys.
  induction items as [|[z r] items IH]; intros Hid; [done|].
  rewrite filter_cons. cbn [map fst]. rewrite filter_cons.
  rewrite <- IH by (intros; apply Hid; by apply list_elem_of_further).
  destruct (decide (rep z = κ)); cbn [map snd]; [|done].
  f_equal. apply Hid, list_elem_of_here.
Qed.

Lemma rtsc_untouched thr ms z y :
  ¬ touched thr ms z → rtsc (united thr ms) z y → y = z.
Proof.
  intros Hz Hr. destruct Hr as [|z w y Hs _]; [done|]. destruct Hz.
  destruct Hs as [(m & ? & ? & ? & ?)|(m & ? & ? & ? & ?)]; exists m; auto.
Qed.

Lemma rtsc_touched thr ms z y :
  touched thr ms z → rtsc (united thr ms) z y → touched thr ms y.
Proof.
  intros Hz Hr. induction Hr as [|z w y Hs _ IH]; [done|]. apply IH.
  destruct Hs as [(m & ? & ? & ? & ?)|(m & ? & ? & ? & ?)]; exists m; auto.
Qed.

Lemma touched_ids eng recs z :
  touched (match_threshold eng) (scored_pairs eng recs) z → z ∈ map id recs.
Proof.
  intros (m & Hm & _ & Hz).
  destruct (ss_from _ _ (scored_pairs_state eng recs) m Hm)
    as [(k & Hin)%elem_of_candidates _].
  destruct (candidate_records _ _ _ _ _ Hin) as [Ha Hb].
  destruct Hz as [<-|<-]; by apply list_elem_of_fmap_2.
Qed.

Lemma standardize_ids records :
  map id (map standardize_record records) = map id records.
Proof. rewrite map_map. by apply map_ext. Qed.

(** The member ids of the cluster of an id that occurs in an accepted
    pair. *)
Lemma cluster_class fuel thr ms f recs z :
  united_state thr ms (f, recs) → length ms < fuel → z ∈ Dict.keys recs →
  class_of (united thr ms) z
    (filter (λ y, rep_of fuel f y = rep_of fuel f z) (Dict.keys recs)).
Proof.
  intros [Hwf Heqv Hkeys Hrecs Hids _ Hnd] Hfuel Hz. cbn [fst snd] in *.
  split; [by apply NoDup_filter|].
  assert (Htz : touched thr ms z) by (by apply Hrecs).
  intros y. rewrite list_elem_of_filter. split.
  - intros [Hρ Hy]. apply Heqv, eqv_sym.
    apply (eqv_rep fuel f (length ms)); try done; apply Hkeys; by apply Hrecs.
  - intros Hr. pose proof (rtsc_touched _ _ _ _ Htz Hr) as Hty.
    split; [|by apply Hrecs]. symmetry.
    apply (eqv_rep fuel f (length ms));
      [done|done|by apply Hkeys|by apply Hkeys|by apply Heqv].
Qed.

(** An id that occurs in no accepted pair is alone. *)
Lemma singleton_class thr ms z :
  ¬ touched thr ms z → class_of (united thr ms) z [z].
Proof.
  intros Hz. split; [apply NoDup_singleton|].
  intros y. rewrite list_elem_of_singleton. split; [by intros ->|].
  by apply rtsc_untouched.
Qed.

(** What [resolve] returns with enough fuel, for a batch with distinct ids:
    one entity for each class of linked ids. *)
Lemma resolve_ids fuel eng records :
  NoDup (map id records) → length records * length records < fuel →
  ∃ es, resolve fuel eng records = Some es
    ∧ Forall (λ e, resolved_id e = resolved_id_of (source_records e)) es
    ∧ ∀ x, x ∈ map resolved_id es
        ↔ ∃ z l, z ∈ map id records
             ∧ class_of (linked eng (map standardize_record records)) z l
             ∧ x = id_of_ids l.
Proof.
  intros Hnd Hfuel. unfold resolve. cbv zeta.
  set (std := map standardize_record records).
  assert (Hstd : map id std = map id records) by apply standardize_ids.
  rewrite <- Hstd in Hnd |- *.
  fold (scored_pairs eng std).
  assert (Hlen : length (scored_pairs eng std) < fuel).
  { eapply Nat.le_lt_trans; [apply scored_pairs_length|].
    unfold std. by rewrite length_map. }
  destruct (cluster_matches_ok fuel eng _ Hlen) as (f & recs & Hst & ->).
  cbn [mbind option_bind].
  set (thr := match_threshold eng) in *. set (ρ := rep_of fuel f).
  set (ms := scored_pairs eng std) in *.
  set (clusters := Dict.values (grouped ρ recs [])).
  set (matched := flat_map (map id) clusters).
  set (singles := map (λ record, [record]) (List.filter _ std)).
  pose proof Hst as [_ _ _ Hrecs Hids _ Hndk]. cbn [fst snd] in *.
  assert (Hitems : ∀ z r, (z, r) ∈ recs → id r = z).
  { intros z r Hin. by apply Hids, elem_of_get. }
  assert (Hmem : ∀ κ, map id (members ρ recs κ)
                      = filter (λ z, ρ z = κ) (Dict.keys recs))
    by (intros; by apply members_ids).
  assert (Hcl : ∀ c, c ∈ clusters
                     ↔ ∃ z, z ∈ Dict.keys recs ∧ c = members ρ recs (ρ z)).
  { intros c. unfold clusters. rewrite values_grouped. split.
    - intros (κ & -> & Hne).
      destruct (filter (λ z, ρ z = κ) (Dict.keys recs)) as [|z l] eqn:Hf.
      { rewrite <- Hmem in Hf. by apply map_eq_nil in Hf. }
      assert (Hz : z ∈ filter (λ z, ρ z = κ) (Dict.keys recs))
        by (rewrite Hf; apply list_elem_of_here).
      apply list_elem_of_filter in Hz as [<- Hz]. by exists z.
    - intros (z & Hz & ->). exists (ρ z). split; [done|].
      intros Hnil. apply (f_equal (map id)) in Hnil. rewrite Hmem in Hnil.
      assert (Hin : z ∈ filter (λ z', ρ z' = ρ z) (Dict.keys recs))
        by (by apply list_elem_of_filter).
      rewrite Hnil in Hin. by apply elem_of_nil in Hin. }
  assert (Hmatched : ∀ z, z ∈ matched ↔ z ∈ Dict.keys recs).
  { intros z. unfold matched. rewrite list_elem_of_In, in_flat_map. split.
    - intros (c & Hc%list_elem_of_In & Hz%list_elem_of_In).
      apply Hcl in Hc as (z' & _ & ->). rewrite Hmem in Hz.
      by apply list_elem_of_filter in Hz as [_ Hz].
    - intros Hz. exists (members ρ recs (ρ z)). split.
      + apply list_elem_of_In, Hcl. by exists z.
      + apply list_elem_of_In. rewrite Hmem. by apply list_elem_of_filter. }
  assert (Hsingles : ∀ c, c ∈ singles
                          ↔ ∃ r, r ∈ std ∧ (id r ∉ Dict.keys recs) ∧ c = [r]).
  { intros c. unfold singles. rewrite list_elem_of_fmap. split.
    - intros (r & -> & Hr). exists r.
      apply list_elem_of_In, filter_In in Hr as [Hr Hb].
      apply negb_true_iff, bool_decide_eq_false in Hb.
      rewrite Hmatched in Hb. by rewrite list_elem_of_In.
    - intros (r & Hr & Hz & ->). exists r. split; [done|].
      apply list_elem_of_In, filter_In. split; [by apply list_elem_of_In|].
      apply negb_true_iff, bool_decide_eq_false. by rewrite Hmatched. }
  destruct (canonical_records_ok (clusters ++ singles))
    as (es & -> & Hsrc & Hres).
  { apply Forall_app. split; apply Forall_forall; intros c Hc.
    - apply Hcl in Hc as (z & Hz & ->).
      intros Hnil. apply (f_equal (map id)) in Hnil. rewrite Hmem in Hnil.
      assert (Hin : z ∈ filter (λ z', ρ z' = ρ z) (Dict.keys recs))
        by (by apply list_elem_of_filter).
      rewrite Hnil in Hin. by apply elem_of_nil in Hin.
    - by apply Hsingles in Hc as (r & _ & _ & ->). }
  exists es. split; [done|]. split; [done|].
  assert (Hmap : map resolved_id es = map resolved_id_of (clusters ++ singles)).
  { rewrite <- Hsrc, map_map. apply map_ext_Forall. exact Hres. }
  assert (Hclass : ∀ z l, class_of (united thr ms) z l
                          ↔ class_of (linked eng std) z l).
  { intros z l. apply class_of_iff. by apply rtsc_united_linked. }
  intros x. rewrite Hmap, list_elem_of_fmap. split.
  - intros (c & -> & [Hc|Hc]%elem_of_app).
    + apply Hcl in Hc as (z & Hz & ->).
      exists z, (map id (members ρ recs (ρ z))). split_and!.
      * apply (touched_ids eng std). by apply Hrecs.
      * apply Hclass. rewrite Hmem. by apply cluster_class.
      * done.
    + apply Hsingles in Hc as (r & Hr & Hz & ->).
      exists (id r), [id r]. split_and!.
      * by apply list_elem_of_fmap_2.
      * apply Hclass, singleton_class. by rewrite <- Hrecs.
      * done.
  - intros (z & l & Hz & Hl & ->).
    destruct (decide (z ∈ Dict.keys recs)) as [Hk|Hk].
    + exists (members ρ recs (ρ z)). split.
      * rewrite resolved_id_of_ids. apply id_of_ids_perm.
        apply (class_of_unique (linked eng std) z); [done|].
        apply Hclass. rewrite Hmem. by apply cluster_class.
      * apply elem_of_app. left. apply Hcl. by exists z.
    + apply list_elem_of_fmap in Hz as (r & -> & Hr).
      exists [r]. split.
      * rewrite resolved_id_of_ids. apply id_of_ids_perm.
        apply (class_of_unique (linked eng std) (id r)); [done|].
        apply Hclass, singleton_class. by rewrite <- Hrecs.
      * apply elem_of_app. right. apply Hsingles. by exists r.
Qed.

(** C1: for a batch whose record ids are distinct, and with fuel for the
    recursion of [find], [resolve] returns on the batch and on every
    reordering of it, and the two results have the same set of
    [resolved_id]s; the [resolved_id] of every entity produced is that of its
    member records, which depends on the set of their ids only.  Resolving
    the same batch twice is the case of the identical order. *)
Theorem resolution_order_independent (fuel : nat) (eng : Engine)
    (records records' : list EntityRecord) :
  NoDup (map id records) → records ≡ₚ records' →
  length records * length records < fuel →
  (∀ c c', map id c ≡ₚ map id c' → resolved_id_of c = resolved_id_of c')
  ∧ ∃ es es',
      resolve fuel eng records = Some es
      ∧ resolve fuel eng records' = Some es'
      ∧ Forall (λ e, resolved_id e = resolved_id_of (source_records e))
          (es ++ es')
      ∧ ∀ x, x ∈ map resolved_id es ↔ x ∈ map resolved_id es'.
Proof.
  intros Hnd Hp Hfuel. split.
  { intros c c' Hc. rewrite !resolved_id_of_ids. by apply id_of_ids_perm. }
  assert (Hnd' : NoDup (map id records')) by (by rewrite <- Hp).
  assert (Hfuel' : length records' * length records' < fuel)
    by (by rewrite <- Hp).
  destruct (resolve_ids fuel eng records Hnd Hfuel) as (es & -> & Hes & Hx).
  destruct (resolve_ids fuel eng records' Hnd' Hfuel')
    as (es' & -> & Hes' & Hx').
  exists es, es'. split_and!; [done|done|by apply Forall_app|].
  intros x. rewrite Hx, Hx'.
  assert (Hstd : map standardize_record records
                 ≡ₚ map standardize_record records') by (by rewrite Hp).
  split; intros (z & l & Hz & Hl & ->); exists z, l; split_and!; try done.
  - by rewrite <- Hp.
  - eapply class_of_iff; [|exact Hl]. intros a b. symmetry.
    by apply rtsc_linked_perm.
  - by rewrite Hp.
  - eapply class_of_iff; [|exact Hl]. intros a b.
    by apply rtsc_linked_perm.
Qed.

End WithRuntime.

(** Two records of one person and a third record, in two orders. *)
Definition john_crm : EntityRecord :=
  Examples.record "CRM_001" "crm"
    [("name", "John Smith"); ("date_of_birth", "1985-03-15")]%string.
Definition john_kyc : EntityRecord :=
  Examples.record "KYC_001" "kyc"
    [("name", "Jon Smith"); ("date_of_birth", "1985-03-15")]%string.

Definition batch : list EntityRecord := [john_crm; john_kyc; Examples.jane].
Definition shuffled : list EntityRecord := [Examples.jane; john_kyc; john_crm].

Example resolve_batch :
  let H := Examples.plain_digest in
  let U := basic_latin in
  map resolved_id <$> resolve 10 default_engine batch
  = Some [str "CRM_001_KYC_001"; str "CRM_002"]
  ∧ map resolved_id <$> resolve 10 default_engine shuffled
    = Some [str "CRM_001_KYC_001"; str "CRM_002"].
Proof. by vm_compute. Qed.

Lemma resolution_order_independent_witness :
  let H := Examples.plain_digest in
  let U := basic_latin in
  NoDup (map id batch) ∧ batch ≡ₚ shuffled
  ∧ length batch * length batch < 10
  ∧ (∀ c c', map id c ≡ₚ map id c' → resolved_id_of c = resolved_id_of c')
  ∧ ∃ es es',
      resolve 10 default_engine batch = Some es
      ∧ resolve 10 default_engine shuffled = Some es'
      ∧ Forall (λ e, resolved_id e = resolved_id_of (source_records e))
          (es ++ es')
      ∧ ∀ x, x ∈ map resolved_id es ↔ x ∈ map resolved_id es'.
Proof.
  intros H U.
  assert (Hnd : NoDup (map id batch))
    by (apply (bool_decide_unpack _); by vm_compute).
  assert (Hp : batch ≡ₚ shuffled)
    by (symmetry; apply (reverse_Permutation batch)).
  assert (Hfuel : length batch * length batch < 10) by (cbn; lia).
  split; [exact Hnd|]. split; [exact Hp|]. split; [exact Hfuel|].
  exact (resolution_order_independent 10 default_engine batch shuffled
           Hnd Hp Hfuel).
Defined.

(** The ids of a batch have to be distinct: when two records share an id, a
    pair of ids can be scored on either of them, and which one depends on the
    order of the batch. *)
Definition smith_crm : EntityRecord :=
  Examples.record "1" "crm" [("name", "John Smith")]%string.
Definition other_kyc : EntityRecord :=
  Examples.record "1" "kyc" [("name", "Johzzzzz")]%string.
Definition smith_txn : EntityRecord :=
  Examples.record "2" "txn" [("name", "John Smith")]%string.

Example shared_id_order_dependent :
  let H := Examples.plain_digest in
  let U := basic_latin in
  map resolved_id
    <$> resolve 10 default_engine [smith_crm; other_kyc; smith_txn]
  = Some [str "1_2"]
  ∧ map resolved_id
      <$> resolve 10 default_engine [other_kyc; smith_crm; smith_txn]
    = Some [str "1"; str "1"; str "2"].
Proof. by vm_compute. Qed.

End ResolveFacts.

(** ** levenshtein_distance: an edit distance *)

Module DistanceFacts.
Import SimilarityScorer LevenshteinFacts.

Lemma neq_int_refl x : neq_int x x = 0.
Proof. unfold neq_int. by rewrite N.eqb_refl. Qed.

Lemma neq_int_0 x y : neq_int x y = 0 → x = y.
Proof. unfold neq_int. by destruct (N.eqb_spec x y). Qed.

Lemma neq_int_triangle x y z : neq_int x z ≤ neq_int x y + neq_int y z.
Proof.
  unfold neq_int.
  destruct (N.eqb_spec x z), (N.eqb_spec x y), (N.eqb_spec y z);
    try lia; congruence.
Qed.

Lemma lev_refl a : lev a a = 0.
Proof.
  induction a as [|x a IH]; [done|].
  rewrite lev_cons_cons, IH, neq_int_refl. lia.
Qed.

(** Two strings differ in length by no more than their distance. *)
Lemma lev_lower a : ∀ b, length a ≤ length b + lev a b.
Proof.
  induction a as [|x a IHa]; intros b; [cbn; lia|].
  induction b as [|y b IHb]; [cbn; lia|].
  rewrite lev_cons_cons. pose proof (IHa (y :: b)). pose proof (IHa b).
  cbn [length] in *. lia.
Qed.

Lemma lev_0 a : ∀ b, lev a b = 0 → a = b.
Proof.
  induction a as [|x a IHa]; intros b.
  - cbn. by destruct b.
  - destruct b as [|y b]; [done|]. rewrite lev_cons_cons. intros H0.
    assert (lev a b = 0 ∧ neq_int x y = 0) as [Hab Hxy] by lia.
    by rewrite (IHa b Hab), (neq_int_0 x y Hxy).
Qed.

Lemma lev_triangle_bounded n : ∀ a b c,
  length a + length b + length c < n → lev a c ≤ lev a b + lev b c.
Proof.
  induction n as [|n IH]; intros a b c Hn; [lia|].
  destruct a as [|x a].
  { pose proof (lev_lower c b). rewrite (lev_sym c b) in *. cbn. lia. }
  destruct c as [|z c].
  { pose proof (lev_lower (x :: a) b). rewrite !lev_nil_r. lia. }
  destruct b as [|y b].
  { pose proof (lev_bound (x :: a) (z :: c)). rewrite lev_nil_r.
    change (lev [] (z :: c)) with (length (z :: c)). lia. }
  cbn [length] in Hn.
  pose proof (IH a (y :: b) (z :: c) ltac:(cbn [length]; lia)).
  pose proof (IH (x :: a) (y :: b) c ltac:(cbn [length]; lia)).
  pose proof (IH (x :: a) b (z :: c) ltac:(cbn [length]; lia)).
  pose proof (IH (x :: a) b c ltac:(cbn [length]; lia)).
  pose proof (IH a b (z :: c) ltac:(cbn [length]; lia)).
  pose proof (IH a b c ltac:(cbn [length]; lia)).
  pose proof (neq_int_triangle x y z).
  rewrite (lev_cons_cons x a z c), (lev_cons_cons x a y b),
    (lev_cons_cons y b z c) in *.
  lia.
Qed.

Lemma lev_triangle a b c : lev a c ≤ lev a b + lev b c.
Proof.
  apply (lev_triangle_bounded (S (length a + length b + length c))). lia.
Qed.

Lemma levenshtein_distance_same a : levenshtein_distance a a = 0.
Proof. rewrite levenshtein_distance_dist. apply lev_refl. Qed.

Lemma levenshtein_distance_le a b :
  levenshtein_distance a b ≤ Nat.max (length a) (length b).
Proof.
  rewrite levenshtein_distance_dist. unfold dist.
  pose proof (lev_bound (rev a) (rev b)). by rewrite !length_rev in *.
Qed.

(** X1: [levenshtein_distance] satisfies the equations that define the edit
    distance: against the empty string it is the length, and for two strings
    that end in [c1] and [c2] it is the least of a deletion, an insertion
    and a substitution (free when [c1 = c2]). *)
Theorem levenshtein_distance_equations :
  (∀ s, levenshtein_distance [] s = length s)
  ∧ (∀ s, levenshtein_distance s [] = length s)
  ∧ ∀ p c1 q c2,
      levenshtein_distance (p ++ [c1]) (q ++ [c2])
      = Nat.min
          (Nat.min (levenshtein_distance p (q ++ [c2]) + 1)
                   (levenshtein_distance (p ++ [c1]) q + 1))
          (levenshtein_distance p q + if decide (c1 = c2) then 0 else 1).
Proof.
  split_and!; intros.
  - by rewrite levenshtein_distance_dist, dist_nil_l.
  - by rewrite levenshtein_distance_dist, dist_nil_r.
  - rewrite !levenshtein_distance_dist, dist_snoc. unfold neq_int.
    by destruct (N.eqb_spec c1 c2), (decide (c1 = c2)).
Qed.

(** X2: [levenshtein_distance] is a metric on strings, and it lies between
    the difference of the two lengths and the greater length. *)
Theorem levenshtein_distance_metric (a b c : pystr) :
  (levenshtein_distance a b = 0 ↔ a = b)
  ∧ levenshtein_distance a b = levenshtein_distance b a
  ∧ levenshtein_distance a c
    ≤ levenshtein_distance a b + levenshtein_distance b c
  ∧ Nat.max (length a) (length b) - Nat.min (length a) (length b)
    ≤ levenshtein_distance a b
  ∧ levenshtein_distance a b ≤ Nat.max (length a) (length b).
Proof.
  split_and!; [| | | |apply levenshtein_distance_le].
  - split; [|intros ->; apply levenshtein_distance_same].
    rewrite levenshtein_distance_dist. unfold dist. intros H0%lev_0.
    by rewrite <- (rev_involutive a), H0, rev_involutive.
  - rewrite !levenshtein_distance_dist. apply lev_sym.
  - rewrite !levenshtein_distance_dist. apply lev_triangle.
  - rewrite levenshtein_distance_dist. unfold dist.
    pose proof (lev_lower (rev a) (rev b)).
    pose proof (lev_lower (rev b) (rev a)).
    rewrite (lev_sym (rev b)), !length_rev in *. lia.
Qed.

End DistanceFacts.

(** ** The range of the similarity scores *)

Module RangeFacts.
Import BlockingStrategy SimilarityScorer.

(** [lra] after turning the divisions by a literal into products. *)
Ltac lra_div :=
  unfold Qdiv in *;
  repeat change (/ 2)%Q with (1 # 2)%Q in *;
  repeat change (/ 3)%Q with (1 # 3)%Q in *;
  repeat change (/ 4)%Q with (1 # 4)%Q in *;
  lra.

Lemma Qnat_nonneg n : (0 <= Qnat n)%Q.
Proof. unfold Qnat. change 0%Q with (inject_Z 0). rewrite <- Zle_Qle. lia. Qed.

Lemma Qnat_le n m : n ≤ m → (Qnat n <= Qnat m)%Q.
Proof. intros Hnm. unfold Qnat. rewrite <- Zle_Qle. lia. Qed.

Lemma Qnat_lt n m : n < m → (Qnat n < Qnat m)%Q.
Proof. intros Hnm. unfold Qnat. rewrite <- Zlt_Qlt. lia. Qed.

Lemma Qnat_pos n : 0 < n → (0 < Qnat n)%Q.
Proof. intros Hn. apply (Qnat_lt 0 n Hn). Qed.

(** A part of a whole, as a fraction. *)
Lemma Qnat_ratio m l : m ≤ l → 0 < l → (0 <= Qnat m / Qnat l <= 1)%Q.
Proof.
  intros Hml Hl. pose proof (Qnat_pos l Hl). split.
  - apply Qle_shift_div_l; [done|]. rewrite Qmult_0_l. apply Qnat_nonneg.
  - apply Qle_shift_div_r; [done|]. rewrite Qmult_1_l. by apply Qnat_le.
Qed.


Section AnyRuntime.
Context {U : Unicode}.

(** *** soundex *)

Definition is_code (c : N) : Prop := (48 <= c <= 54)%N.

Lemma is_code_zero : is_code 48.
Proof. unfold is_code. lia. Qed.

Lemma code_of_is_code c : is_code (code_of c).
Proof.
  unfold code_of, mapping, zero, is_code. cbn.
  repeat (destruct (_ =? c)%N; [lia|]). lia.
Qed.

Lemma padding_codes : Forall is_code (str "0000").
Proof. repeat constructor; apply is_code_zero. Qed.

Lemma soundex_loop_codes rest : ∀ prev result,
  Forall is_code (drop 1 result) → 0 < length result →
  Forall is_code (drop 1 (soundex_loop rest prev result))
  ∧ take 1 (soundex_loop rest prev result) = take 1 result.
Proof.
  induction rest as [|c rest IH]; intros prev result Hres Hlen; [done|].
  cbn [soundex_loop]. cbv zeta.
  assert (Hnew : Forall is_code (drop 1 (result ++ [code_of c]))
                 ∧ take 1 (result ++ [code_of c]) = take 1 result).
  { destruct result as [|c0 result]; [cbn in Hlen; lia|].
    cbn in Hres |- *. split; [|done]. apply Forall_app. split; [done|].
    constructor; [apply code_of_is_code|constructor]. }
  destruct (_ && _); [|by apply IH].
  destruct (_ =? 4); [done|].
  destruct Hnew as [Hc Ht]. rewrite <- Ht. apply IH; [done|].
  rewrite length_app. lia.
Qed.

Lemma soundex_length name : length (soundex name) = 4.
Proof.
  unfold soundex. destruct (negb (truthy name)); [done|].
  destruct (upper name) as [|c0 rest]; [done|]. cbv zeta.
  rewrite length_take, length_app. change (length (str "0000")) with 4. lia.
Qed.

(** X3: A Soundex code has four characters: the first character of the
    upper-cased name, then digits between 0 and 6. *)
Theorem soundex_shape (name : pystr) :
  length (soundex name) = 4
  ∧ Forall is_code (drop 1 (soundex name))
  ∧ (name = [] → soundex name = str "0000")
  ∧ ∀ c rest, name ≠ [] → upper name = c :: rest →
      take 1 (soundex name) = [c].
Proof.
  unfold soundex. destruct name as [|n0 name]; cbn [truthy negb].
  { split_and!; [done| |done|done].
    apply (Forall_drop _ 1), padding_codes. }
  destruct (upper (n0 :: name)) as [|c0 rest] eqn:Hup.
  { split_and!; [done| |done|done].
    apply (Forall_drop _ 1), padding_codes. }
  cbv zeta.
  destruct (soundex_loop_codes rest (code_of c0) [c0]) as [Hcodes Hfirst];
    [constructor|cbn; lia|].
  set (result := soundex_loop rest (code_of c0) [c0]) in *.
  assert (Hlen : 0 < length result).
  { destruct result; [done|cbn; lia]. }
  split_and!.
  - rewrite length_take, length_app.
    change (length (str "0000")) with 4. lia.
  - destruct result as [|r0 result]; [cbn in Hlen; lia|].
    change (Forall is_code (take 3 (result ++ str "0000"))).
    apply Forall_take, Forall_app. split; [done|]. apply padding_codes.
  - done.
  - intros c rest' _ [= <- <-].
    destruct result as [|r0 result]; [cbn in Hlen; lia|].
    injection Hfirst as ->. done.
Qed.


(** *** phonetic_similarity *)

Lemma count_equal_le a : ∀ b, count_equal a b ≤ length a.
Proof.
  unfold count_equal.
  induction a as [|x a IH]; intros [|y b]; cbn [zip zip_with length];
    try (cbn; lia).
  rewrite filter_cons. specialize (IH b).
  destruct (decide _); cbn [length]; lia.
Qed.

Lemma count_equal_all a : ∀ b,
  length a = length b → count_equal a b = length a → a = b.
Proof.
  unfold count_equal. induction a as [|x a IH]; intros [|y b] Hlen; try done.
  cbn [zip zip_with]. rewrite filter_cons. cbn [fst snd length] in *.
  pose proof (count_equal_le a b) as Hle. unfold count_equal in Hle.
  destruct (decide (x = y)) as [->|Hne]; cbn [length]; intros Hc.
  - f_equal. apply IH; lia.
  - lia.
Qed.

(** X4: [phonetic_similarity] is one of 0, 1/4, 1/2, 3/4 and 1, and it is 1
    exactly when the two Soundex codes are equal. *)
Theorem phonetic_similarity_values (s1 s2 : pystr) :
  (∃ k, k ≤ 4 ∧ phonetic_similarity s1 s2 == Qnat k / 4)%Q
  ∧ (phonetic_similarity s1 s2 == 1 ↔ soundex s1 = soundex s2)%Q.
Proof.
  unfold phonetic_similarity, str_eqb. cbv zeta.
  pose proof (soundex_length s1) as Hl1. pose proof (soundex_length s2) as Hl2.
  pose proof (count_equal_le (soundex s1) (soundex s2)) as Hle.
  rewrite Hl1 in Hle. case_bool_decide as Heq.
  - split; [|done]. exists 4. split; [lia|reflexivity].
  - split; [by eexists|]. split; [|done]. intros H1. exfalso. apply Heq.
    apply count_equal_all; [congruence|]. rewrite Hl1.
    destruct (decide (count_equal (soundex s1) (soundex s2) = 4)) as [|Hne];
      [done|].
    assert (Hlt : (Qnat (count_equal (soundex s1) (soundex s2)) < Qnat 4)%Q)
      by (apply Qnat_lt; lia).
    change (Qnat 4) with 4%Q in Hlt. revert H1 Hlt.
    generalize (Qnat (count_equal (soundex s1) (soundex s2))). intros q H1 Hlt.
    assert (q == 4)%Q; [|lra].
    rewrite <- (Qmult_div_r q 4) by done. rewrite H1. reflexivity.
Qed.

(** *** Jaccard and token overlap *)

Lemma inter_sub_union (A B : gset pystr) : A ∩ B ⊆ A ∪ B.
Proof.
  intros x [Hx _]%elem_of_intersection. apply elem_of_union. by left.
Qed.

Lemma overlap_ratio (A B : gset pystr) :
  (0 <= (if 0 <? size (A ∪ B)
         then Qnat (size (A ∩ B)) / Qnat (size (A ∪ B)) else 0) <= 1)%Q.
Proof.
  destruct (Nat.ltb_spec 0 (size (A ∪ B))) as [Hpos|_]; [|lra].
  apply Qnat_ratio; [|done]. apply subseteq_size, inter_sub_union.
Qed.

(** X5: [jaccard_similarity] (for every n-gram length) and
    [token_based_similarity] are fractions of a whole: between 0 and 1. *)
Theorem overlap_similarity_range (s1 s2 : pystr) (ngram : nat) :
  (0 <= jaccard_similarity_n s1 s2 ngram <= 1
   ∧ 0 <= token_based_similarity s1 s2 <= 1)%Q.
Proof.
  unfold jaccard_similarity_n, token_based_similarity.
  destruct s1, s2; cbn [truthy negb andb orb]; try lra. cbv zeta. split.
  - apply overlap_ratio.
  - destruct (_ || _); [lra|].
    set (A := list_to_set _ : gset pystr). set (B := list_to_set _ : gset pystr).
    pose proof (overlap_ratio A B) as HAB.
    destruct (Nat.ltb_spec 0 (size (A ∪ B))) as [Hpos|Hz]; [done|].
    assert (size (A ∩ B) = 0) as ->.
    { pose proof (subseteq_size _ _ (inter_sub_union A B)). lia. }
    change (Qnat 0) with 0%Q. unfold Qdiv. rewrite Qmult_0_l. lra.
Qed.

(** *** Jaro and Jaro-Winkler *)

Lemma loop_lengths md o : ∀ rest i pm om m,
  let res := jaro_match_loop md i rest o pm om m in
  length res.1.1 = length pm ∧ length res.1.2 = length om.
Proof.
  induction rest as [|c rest IH]; intros i pm om m; [done|].
  cbn [jaro_match_loop]. cbv zeta.
  destruct (find_match _ _ _ _ _) as [j|].
  - destruct (IH (S i) (<[i:=true]> pm) (<[j:=true]> om) (S m)) as [H1 H2].
    by rewrite !length_insert in *.
  - apply IH.
Qed.

Lemma count_true_le l : JaroFacts.count_true l ≤ length l.
Proof. unfold JaroFacts.count_true. apply length_filter. Qed.

Lemma picked_length a : ∀ f,
  length (JaroFacts.picked (zip a f)) ≤ JaroFacts.count_true f.
Proof.
  unfold JaroFacts.count_true.
  induction a as [|x a IH]; intros [|[] f];
    cbn [zip zip_with JaroFacts.picked length]; try lia.
  - rewrite filter_cons_True by done. cbn [length]. specialize (IH f). lia.
  - rewrite filter_cons_False by done. apply IH.
Qed.

Lemma mismatches_le a : ∀ b, JaroFacts.mismatches a b ≤ length a.
Proof.
  induction a as [|x a IH]; intros [|y b]; cbn [JaroFacts.mismatches length];
    try lia.
  specialize (IH b). unfold neq_int. destruct (x =? y)%N; lia.
Qed.

(** The Jaro formula on [m] matches and [t] transpositions. *)
Lemma jaro_formula_range (m t l1 l2 : nat) :
  0 < m → m ≤ l1 → m ≤ l2 → t ≤ m →
  (0 < (Qnat m / Qnat l1 + Qnat m / Qnat l2
        + (Qnat m - Qnat t / 2) / Qnat m) / 3 <= 1)%Q.
Proof.
  intros Hm H1 H2 Ht.
  pose proof (Qnat_ratio m l1 H1 ltac:(lia)) as [H1a H1b].
  pose proof (Qnat_ratio m l2 H2 ltac:(lia)) as [H2a H2b].
  pose proof (Qnat_pos m Hm) as Hmq. pose proof (Qnat_nonneg t) as Htq.
  pose proof (Qnat_le t m Ht) as Htm.
  assert (H3 : (1 / 2 <= (Qnat m - Qnat t / 2) / Qnat m <= 1)%Q).
  { clear H1a H1b H2a H2b Hm H1 H2 Ht. revert Hmq Htq Htm.
    generalize (Qnat m) (Qnat t). intros qm qt Hmq Htq Htm. split.
    - apply Qle_shift_div_l; [done|]. lra_div.
    - apply Qle_shift_div_r; [done|]. lra_div. }
  revert H1a H1b H2a H2b H3.
  generalize (Qnat m / Qnat l1)%Q (Qnat m / Qnat l2)%Q
    ((Qnat m - Qnat t / 2) / Qnat m)%Q.
  intros x y z ? ? ? ? [? ?]. split.
  - apply Qlt_shift_div_l; lra_div.
  - apply Qle_shift_div_r; lra_div.
Qed.

Lemma jaro_similarity_range s1 s2 : (0 <= jaro_similarity s1 s2 <= 1)%Q.
Proof.
  unfold jaro_similarity.
  destruct s1 as [|c1 s1], s2 as [|c2 s2]; cbn [truthy negb andb orb];
    try lra.
  set (a := lower (c1 :: s1)). set (b := lower (c2 :: s2)).
  set (md := Nat.max (length a) (length b) / 2 - 1).
  pose proof (loop_lengths md b a 0 (replicate (length a) false)
                (replicate (length b) false) 0) as [Hl1 Hl2].
  pose proof (JaroFacts.loop_count md b a 0 (replicate (length a) false)
                (replicate (length b) false) 0) as [Hc1 Hc2].
  { intros i _ Hi. apply lookup_replicate_2. cbn in Hi. lia. }
  cbv zeta in Hl1, Hl2, Hc1, Hc2.
  rewrite !JaroFacts.count_true_replicate, !length_replicate in *.
  destruct (jaro_match_loop md 0 a b _ _ 0) as [[f1 f2] m].
  cbn [fst snd] in *. destruct (Nat.eqb_spec m 0) as [|Hm]; [lra|].
  rewrite JaroFacts.jaro_transpositions_spec. cbn [Nat.add].
  pose proof (count_true_le f1). pose proof (count_true_le f2).
  pose proof (mismatches_le (JaroFacts.picked (zip a f1))
                (JaroFacts.picked (zip b f2))).
  pose proof (picked_length a f1).
  destruct (jaro_formula_range m
              (JaroFacts.mismatches (JaroFacts.picked (zip a f1))
                 (JaroFacts.picked (zip b f2)))
              (length a) (length b)) as [? ?]; try lia.
  split; [lra|done].
Qed.

Lemma prefix_loop_le n : ∀ a b, prefix_loop n a b ≤ n.
Proof.
  induction n as [|n IH]; intros [|x a] [|y b]; cbn; try lia.
  destruct (x =? y)%N; [|lia]. specialize (IH a b). lia.
Qed.

(** X6: [jaro_similarity] and [jaro_winkler_similarity] lie between 0 and 1
    on all inputs, and the prefix bonus never lowers the Jaro score. *)
Theorem jaro_winkler_range (s1 s2 : pystr) :
  (0 <= jaro_similarity s1 s2 <= 1
   ∧ jaro_similarity s1 s2 <= jaro_winkler_similarity s1 s2 <= 1)%Q.
Proof.
  pose proof (jaro_similarity_range s1 s2) as [H0 H1]. split; [done|].
  unfold jaro_winkler_similarity, jaro_winkler_similarity_p. cbv zeta.
  set (k := prefix_loop _ _ _).
  assert (Hk : k ≤ 4).
  { unfold k. etrans; [apply prefix_loop_le|]. lia. }
  pose proof (Qnat_nonneg k) as Hk0. pose proof (Qnat_le k 4 Hk) as Hk4.
  change (Qnat 4) with 4%Q in Hk4.
  revert H0 H1 Hk0 Hk4. generalize (jaro_similarity s1 s2) (Qnat k).
  intros j q ? ? ? ?. split; nra.
Qed.

(** *** Levenshtein similarity *)

(** X7: When lower-casing lengthens neither string, [levenshtein_similarity]
    lies between 0 and 1. *)
Theorem levenshtein_similarity_range (s1 s2 : pystr) :
  length (lower s1) ≤ length s1 → length (lower s2) ≤ length s2 →
  (0 <= levenshtein_similarity s1 s2 <= 1)%Q.
Proof.
  intros H1 H2. unfold levenshtein_similarity.
  destruct s1 as [|c1 s1], s2 as [|c2 s2]; cbn [truthy negb andb orb];
    try lra. cbv zeta.
  pose proof (DistanceFacts.levenshtein_distance_le
                (lower (c1 :: s1)) (lower (c2 :: s2))) as Hd.
  destruct (Qnat_ratio
              (levenshtein_distance (lower (c1 :: s1)) (lower (c2 :: s2)))
              (Nat.max (length (c1 :: s1)) (length (c2 :: s2))));
    [lia|cbn [length]; lia|]. lra.
Qed.

End AnyRuntime.

Lemma levenshtein_similarity_range_witness :
  let U := basic_latin in
  length (lower (str "Jon Smith")) ≤ length (str "Jon Smith")
  ∧ length (lower (str "JOHN SMITH")) ≤ length (str "JOHN SMITH")
  ∧ (0 <= levenshtein_similarity (str "Jon Smith") (str "JOHN SMITH") <= 1)%Q.
Proof.
  intros U.
  assert (H1 : length (lower (str "Jon Smith")) ≤ length (str "Jon Smith"))
    by (vm_compute; lia).
  assert (H2 : length (lower (str "JOHN SMITH")) ≤ length (str "JOHN SMITH"))
    by (vm_compute; lia).
  split; [exact H1|]. split; [exact H2|].
  exact (levenshtein_similarity_range (str "Jon Smith") (str "JOHN SMITH")
           H1 H2).
Defined.

End RangeFacts.

(** ** A name compared with itself *)

Module IdentityFacts.
Import BlockingStrategy SimilarityScorer RangeFacts.













Section AnyRuntime.
Context {U : Unicode}.




End AnyRuntime.


End IdentityFacts.

(** ** cluster_matches and resolve: the clusters partition the batch *)

Module PartitionFacts.
Import EntityResolution DictFacts ClusterFacts SortedFacts ResolveFacts.

(** Appending to an entry of a [defaultdict(list)] adds one value. *)
Lemma dict_append_concat {V} (cl : dict pystr (list V)) κ (v : V) :
  concat (Dict.values (dict_append cl κ v)) ≡ₚ concat (Dict.values cl) ++ [v].
Proof.
  unfold dict_append.
  induction cl as [|[k' l'] cl IH]; cbn [Dict.get Dict.set Dict.values map concat].
  - done.
  - destruct (decide (k' = κ)) as [->|Hne];
      cbn [Dict.values map concat default snd Datatypes.id].
    + rewrite <- !app_assoc. apply Permutation_app_head, Permutation_app_comm.
    + unfold Dict.values in IH. rewrite IH. by rewrite app_assoc.
Qed.

Lemma grouped_concat rep items : ∀ cl,
  concat (Dict.values (grouped rep items cl))
  ≡ₚ concat (Dict.values cl) ++ map snd items.
Proof.
  unfold grouped.
  induction items as [|[k r] items IH]; intros cl; cbn [fold_left map snd].
  - by rewrite app_nil_r.
  - rewrite IH, dict_append_concat, <- app_assoc. done.
Qed.

Lemma items_ids (items : dict pystr EntityRecord) :
  (∀ z r, (z, r) ∈ items → id r = z) →
  map id (map snd items) = Dict.keys items.
Proof.
  unfold Dict.keys. induction items as [|[z r] items IH]; intros Hid; [done|].
  cbn [map fst snd]. f_equal.
  - apply Hid, list_elem_of_here.
  - apply IH. intros. apply Hid. by apply list_elem_of_further.
Qed.


Lemma concat_ids (cs : list (list EntityRecord)) :
  concat (map (map id) cs) = map id (concat cs).
Proof.
  induction cs as [|c cs IH]; cbn [map concat]; [done|].
  by rewrite map_app, IH.
Qed.

(** The clusters of a final state: none is empty, and together they hold
    the ids that the state has recorded. *)
Lemma clusters_cover fuel thr (matches : list MatchCandidate) f recs :
  united_state thr matches (f, recs) →
  (∀ c, c ∈ Dict.values (grouped (rep_of fuel f) recs []) → c ≠ [])
  ∧ ∀ z, z ∈ Dict.keys recs
         ↔ ∃ c, c ∈ Dict.values (grouped (rep_of fuel f) recs [])
                ∧ z ∈ map id c.
Proof.
  intros Hst. set (ρ := rep_of fuel f).
  pose proof Hst as [_ _ _ Hrecs Hids _ Hndk]. cbn [fst snd] in *.
  assert (Hitems : ∀ z r, (z, r) ∈ recs → id r = z).
  { intros z r Hin. by apply Hids, elem_of_get. }
  assert (Hmem : ∀ κ, map id (members ρ recs κ)
                      = filter (λ z, ρ z = κ) (Dict.keys recs))
    by (intros; by apply members_ids).
  split.
  - intros c (κ & -> & Hne)%values_grouped. done.
  - intros z. split.
    + intros Hz. exists (members ρ recs (ρ z)).
      assert (Hin : z ∈ map id (members ρ recs (ρ z))).
      { rewrite Hmem. by apply list_elem_of_filter. }
      split; [|done]. apply values_grouped. exists (ρ z). split; [done|].
      intros Hnil. rewrite Hnil in Hin. by apply elem_of_nil in Hin.
    + intros (c & (κ & -> & _)%values_grouped & Hz).
      rewrite Hmem in Hz. by apply list_elem_of_filter in Hz as [_ Hz].
Qed.

(** X9: [cluster_matches] returns the connected components of the accepted
    pairs: no cluster is empty, the ids of a cluster are the ids connected
    to any one of them, every id of an accepted pair is in a cluster, and no
    id occurs twice. *)
Theorem cluster_matches_components (fuel : nat) (eng : Engine)
    (matches : list MatchCandidate) :
  length matches < fuel →
  ∃ clusters,
    cluster_matches fuel eng matches = Some clusters
    ∧ (∀ c, c ∈ clusters → c ≠ [])
    ∧ (∀ c a b, c ∈ clusters → a ∈ map id c →
         b ∈ map id c ↔ rtsc (united (match_threshold eng) matches) a b)
    ∧ (∀ z, touched (match_threshold eng) matches z
            ↔ ∃ c, c ∈ clusters ∧ z ∈ map id c)
    ∧ NoDup (concat (map (map id) clusters)).
Proof.
  intros Hfuel.
  destruct (cluster_matches_ok fuel eng matches Hfuel) as (f & recs & Hst & ->).
  set (thr := match_threshold eng) in *. set (ρ := rep_of fuel f).
  pose proof Hst as [_ _ _ Hrecs Hids _ Hndk]. cbn [fst snd] in *.
  assert (Hitems : ∀ z r, (z, r) ∈ recs → id r = z).
  { intros z r Hin. by apply Hids, elem_of_get. }
  assert (Hmem : ∀ κ, map id (members ρ recs κ)
                      = filter (λ z, ρ z = κ) (Dict.keys recs))
    by (intros; by apply members_ids).
  destruct (clusters_cover fuel thr matches f recs Hst) as [Hne Hcover].
  eexists. split; [done|]. split_and!.
  - done.
  - intros c a b (κ & -> & _)%values_grouped Ha.
    rewrite Hmem in Ha |- *. apply list_elem_of_filter in Ha as [<- Ha].
    by apply (cluster_class fuel thr matches f recs a).
  - intros z. by rewrite <- Hrecs, Hcover.
  - rewrite concat_ids, (grouped_concat ρ recs []). cbn [Dict.values map concat app].
    by rewrite items_ids.
Qed.

Section WithRuntime.
Context {H : Hashlib} {U : Unicode}.

(** What [resolve] returns: the canonical records of the clusters, then
    those of the records left alone. *)
Lemma resolve_clusters fuel eng records :
  length records * length records < fuel →
  let std := map standardize_record records in
  ∃ f recs es,
    united_state (match_threshold eng) (scored_pairs eng std) (f, recs)
    ∧ length (scored_pairs eng std) < fuel
    ∧ resolve fuel eng records = Some es
    ∧ map source_records es
      = Dict.values (grouped (rep_of fuel f) recs [])
        ++ map (λ r, [r])
             (List.filter (λ r, negb (bool_decide (id r ∈ Dict.keys recs)))
                std)
    ∧ Forall (λ e, resolved_id e = resolved_id_of (source_records e)) es.
Proof.
  intros Hfuel std. unfold resolve. cbv zeta. fold std.
  fold (scored_pairs eng std).
  assert (Hlen : length (scored_pairs eng std) < fuel).
  { eapply Nat.le_lt_trans; [apply scored_pairs_length|].
    unfold std. by rewrite length_map. }
  destruct (cluster_matches_ok fuel eng _ Hlen) as (f & recs & Hst & Hcm').
  destruct (clusters_cover fuel _ _ f recs Hst) as [Hne Hcover].
  rewrite Hcm'. cbn [mbind option_bind].
  set (clusters := Dict.values (grouped (rep_of fuel f) recs [])) in *.
  assert (Hfilter :
    List.filter
      (λ r, negb (bool_decide (id r ∈ flat_map (map id) clusters))) std
    = List.filter (λ r, negb (bool_decide (id r ∈ Dict.keys recs))) std).
  { apply filter_ext. intros r. f_equal. apply bool_decide_ext.
    rewrite Hcover.
    rewrite list_elem_of_In, in_flat_map. split.
    - intros (c & Hc & Hz). exists c. by rewrite !list_elem_of_In.
    - intros (c & Hc & Hz). exists c. by rewrite <- !list_elem_of_In. }
  rewrite Hfilter.
  destruct (canonical_records_ok
              (clusters
               ++ map (λ r, [r])
                    (List.filter
                       (λ r, negb (bool_decide (id r ∈ Dict.keys recs))) std)))
    as (es & -> & Hsrc & Hres).
  { apply Forall_app. split; apply Forall_forall; intros c Hc.
    - by apply Hne.
    - by apply list_elem_of_fmap in Hc as (r & -> & _). }
  by exists f, recs, es.
Qed.

Lemma stored_records eng std f recs z r :
  united_state (match_threshold eng) (scored_pairs eng std) (f, recs) →
  Dict.get recs z = Some r → r ∈ std.
Proof.
  intros Hst Hz.
  destruct (us_from _ _ _ Hst z r Hz) as (m & Hm & _ & Hr).
  destruct (ss_from _ _ (scored_pairs_state eng std) m Hm)
    as [(k & Hin)%elem_of_candidates _].
  destruct (candidate_records _ _ _ _ _ Hin) as [Ha Hb].
  destruct Hr as [<-|<-]; done.
Qed.



Lemma elem_of_block_list eng k recs r :
  r ∈ block_list eng k recs ↔ r ∈ recs ∧ k ∈ generate_blocking_keys eng r.
Proof.
  unfold block_list. rewrite list_elem_of_In, in_flat_map. split.
  - intros (r' & Hr' & Hin). apply list_elem_of_In in Hin, Hr'.
    apply list_elem_of_fmap in Hin as (k' & -> & Hk').
    by apply list_elem_of_filter in Hk' as [-> Hk'].
  - intros [Hr Hk]. exists r. split; [by apply list_elem_of_In|].
    apply list_elem_of_In, list_elem_of_fmap. exists k. split; [done|].
    by apply list_elem_of_filter.
Qed.

Lemma alone_closed (R : relation pystr) z :
  (∀ y, sc R z y → y = z) → ∀ y, rtsc R z y → y = z.
Proof.
  intros Hz y Hr. induction Hr as [|x w y Hs _ IH]; [done|].
  pose proof (Hz w Hs) as ->. by apply IH.
Qed.

Lemma one_element (l : list pystr) z :
  NoDup l → (∀ y, y ∈ l ↔ y = z) → l = [z].
Proof.
  intros Hnd Hl. apply Permutation_singleton_r.
  apply NoDup_Permutation; [done|apply NoDup_singleton|].
  intros y. by rewrite Hl, list_elem_of_singleton.
Qed.

(** X11: A record that shares no blocking key with any other record of the
    batch is resolved to an entity of its own, whose only member is the
    record (standardized) and whose id is the digest of the record's id. *)
Theorem singleton_preserved (fuel : nat) (eng : Engine)
    (records : list EntityRecord) (r : EntityRecord) :
  NoDup (map id records) → length records * length records < fuel →
  r ∈ records →
  (∀ r' k, r' ∈ records → r' ≠ r →
     k ∈ generate_blocking_keys eng (standardize_record r) →
     k ∉ generate_blocking_keys eng (standardize_record r')) →
  ∃ es e,
    resolve fuel eng records = Some es ∧ e ∈ es
    ∧ source_records e = [standardize_record r]
    ∧ resolved_id e = take 16 (md5_hexdigest (id r)).
Proof.
  intros Hnd Hfuel Hr Hkeys.
  destruct (resolve_clusters fuel eng records Hfuel)
    as (f & recs & es & Hst & Hlen & Hres & Hsrc & Hrid).
  set (std := map standardize_record records) in *.
  assert (Hstd : map id std = map id records) by apply standardize_ids.
  pose proof Hnd as Hnd0. rewrite <- Hstd in Hnd.
  set (sr := standardize_record r).
  assert (Hsr : sr ∈ std) by (by apply list_elem_of_fmap_2).
  enough (Hin : [sr] ∈ map source_records es).
  { apply list_elem_of_fmap in Hin as (e & He & Hin).
    exists es, e. split_and!; try done.
    rewrite Forall_forall in Hrid. by rewrite (Hrid e Hin), <- He. }
  rewrite Hsrc. apply elem_of_app.
  pose proof Hst as [_ _ _ Hrecs Hids _ Hndk]. cbn [fst snd] in *.
  destruct (decide (id sr ∈ Dict.keys recs)) as [Hk|Hk].
  - left. set (ρ := rep_of fuel f). set (z := id sr) in *.
    assert (Hitems : ∀ z r, (z, r) ∈ recs → id r = z).
    { intros z' r' Hin. by apply Hids, elem_of_get. }
    pose proof (members_ids ρ recs (ρ z) Hitems) as Hmem.
    pose proof (cluster_class fuel _ _ f recs z Hst Hlen Hk) as [Hndl Hl].
    fold ρ in Hndl, Hl. rewrite <- Hmem in Hndl, Hl.
    assert (Honly : ∀ y, sc (linked eng std) z y → y = z).
    { assert (Hone : ∀ a b k,
                (a, b) ∈ pairs_in_order (block_list eng k std) →
                a = sr ∨ b = sr → id a = id b).
      { intros a b k [Ha Hb]%pairs_in_order_elems Hab.
        apply elem_of_block_list in Ha as [Ha Hka].
        apply elem_of_block_list in Hb as [Hb Hkb].
        assert (Hsame : ∀ x, x ∈ std → k ∈ generate_blocking_keys eng x →
                          k ∈ generate_blocking_keys eng sr → x = sr).
        { intros x (r' & -> & Hr')%list_elem_of_fmap Hkx Hks.
          destruct (decide (id r' = id r)) as [Heq|Hne].
          - by rewrite (id_inj records r' r Hnd0 Hr' Hr Heq).
          - destruct (Hkeys r' k Hr' ltac:(congruence) Hks). done. }
        destruct Hab as [->| ->].
        - by rewrite (Hsame b Hb Hkb Hka).
        - by rewrite (Hsame a Ha Hka Hkb). }
      intros y [(a & b & k & Hin & Ha & Hb & _)|(a & b & k & Hin & Ha & Hb & _)].
      - rewrite <- Hb, <- Ha. symmetry. apply (Hone a b k Hin). left.
        apply (id_inj std); try done. by apply (candidate_records eng std a b k).
      - rewrite <- Hb, <- Ha. apply (Hone a b k Hin). right.
        apply (id_inj std); try done. by apply (candidate_records eng std a b k). }
    assert (Hids_c : map id (members ρ recs (ρ z)) = [z]).
    { apply one_element; [done|]. intros y. rewrite Hl. split.
      - intros Hy. apply (alone_closed (linked eng std) z Honly).
        by apply rtsc_united_linked.
      - by intros ->. }
    apply values_grouped. exists (ρ z).
    destruct (members ρ recs (ρ z)) as [|r0 [|r1 c]] eqn:Hc; try done.
    injection Hids_c as Hr0. split; [|done]. f_equal.
    apply (id_inj std); try done.
    assert (Hin0 : r0 ∈ members ρ recs (ρ z))
      by (rewrite Hc; apply list_elem_of_here).
    unfold members in Hin0.
    apply list_elem_of_fmap in Hin0 as ([z' r'] & -> & Hzr).
    apply list_elem_of_filter in Hzr as [_ Hzr]. cbn [snd].
    eapply stored_records; [done|]. by apply elem_of_get.
  - right. apply (list_elem_of_fmap_2 (λ r, [r])).
    apply list_elem_of_In, filter_In. split; [by apply list_elem_of_In|].
    by apply negb_true_iff, bool_decide_eq_false.
Qed.

End WithRuntime.

Lemma cluster_matches_components_witness :
  let matches := [scored rec_A rec_B (8 # 10); scored rec_B rec_C (9 # 10)] in
  length matches < 3
  ∧ ∃ clusters,
      cluster_matches 3 default_engine matches = Some clusters
      ∧ (∀ c, c ∈ clusters → c ≠ [])
      ∧ (∀ c a b, c ∈ clusters → a ∈ map id c →
           b ∈ map id c
           ↔ rtsc (united (match_threshold default_engine) matches) a b)
      ∧ (∀ z, touched (match_threshold default_engine) matches z
              ↔ ∃ c, c ∈ clusters ∧ z ∈ map id c)
      ∧ NoDup (concat (map (map id) clusters)).
Proof.
  intros matches.
  assert (Hfuel : length matches < 3) by (cbn; lia).
  split; [exact Hfuel|].
  exact (cluster_matches_components 3 default_engine matches Hfuel).
Defined.


(** A record whose name shares nothing with the two others. *)
Definition li_wei : EntityRecord :=
  Examples.record "KYC_009" "kyc" [("name", "Li Wei")]%string.

Lemma singleton_preserved_witness :
  let H := Examples.plain_digest in
  let U := basic_latin in
  let records := [john_crm; john_kyc; li_wei] in
  NoDup (map id records) ∧ length records * length records < 10
  ∧ li_wei ∈ records
  ∧ ∃ es e,
      resolve 10 default_engine records = Some es ∧ e ∈ es
      ∧ source_records e = [standardize_record li_wei]
      ∧ resolved_id e = take 16 (md5_hexdigest (id li_wei)).
Proof.
  intros H U records.
  assert (Hnd : NoDup (map id records))
    by (apply (bool_decide_unpack _); by vm_compute).
  assert (Hfuel : length records * length records < 10) by (cbn; lia).
  assert (Hin : li_wei ∈ records)
    by (do 2 apply list_elem_of_further; apply list_elem_of_here).
  split; [exact Hnd|]. split; [exact Hfuel|]. split; [exact Hin|].
  apply (singleton_preserved 10 default_engine records li_wei Hnd Hfuel Hin).
  intros r' k Hr' Hne. revert k. apply Forall_forall.
  apply elem_of_cons in Hr' as [->|Hr'];
    [|apply elem_of_cons in Hr' as [->|Hr'];
      [|apply list_elem_of_singleton in Hr' as ->; done]].
  - apply (bool_decide_unpack _). by vm_compute.
  - apply (bool_decide_unpack _). by vm_compute.
Defined.

End PartitionFacts.

(** ** standardize_record, score_candidate_pair, create_canonical_record *)

Module RecordFacts.
Import EntityResolution DictFacts ResolveFacts RangeFacts.

(** A decidable statement about concrete strings, by evaluation. *)
Ltac by_compute := apply (bool_decide_unpack _); by vm_compute.

Lemma set_same {V} (d : dict pystr V) k v :
  Dict.get d k = Some v → Dict.set d k v = d.
Proof.
  induction d as [|[k' v'] d IH]; cbn; [done|].
  destruct (decide (k' = k)) as [->|Hne].
  - by intros [= ->].
  - intros Hg. by rewrite IH.
Qed.

Lemma record_ext (r1 r2 : EntityRecord) :
  id r1 = id r2 → source_system r1 = source_system r2 →
  entity_type r1 = entity_type r2 → attributes r1 = attributes r2 →
  raw_data r1 = raw_data r2 → r1 = r2.
Proof. destruct r1, r2; cbn; congruence. Qed.

Section WithRuntime.
Context {U : Unicode}.

(** *** standardize_record *)

(** One step of [standardize_record]: when [key] is present, the value
    derived from it is stored under [key']. *)
Definition derive (key key' : pystr) (g : pystr → pystr)
    (attrs : dict pystr pystr) : dict pystr pystr :=
  match Dict.get attrs key with
  | Some x => Dict.set attrs key' (g x)
  | None => attrs
  end.

Lemma get_derive_ne key key' g d k :
  key' ≠ k → Dict.get (derive key key' g d) k = Dict.get d k.
Proof.
  intros Hne. unfold derive. destruct (Dict.get d key); [|done].
  by rewrite get_set_ne.
Qed.

Lemma get_derive_eq key key' g d x :
  Dict.get d key = Some x → Dict.get (derive key key' g d) key' = Some (g x).
Proof. intros Hx. unfold derive. by rewrite Hx, get_set_eq. Qed.

Lemma derive_done key key' g d x :
  Dict.get x key = Dict.get d key →
  (∀ v, Dict.get d key = Some v → Dict.get x key' = Some (g v)) →
  derive key key' g x = x.
Proof.
  intros Hk Hv. unfold derive. rewrite Hk.
  destruct (Dict.get d key) as [v|]; [|done]. by apply set_same, Hv.
Qed.

Definition clean_name (name : pystr) : pystr :=
  strip (join (str " ")
           (split (strip_special (sub_words titles (str "") true [] name)))).

Definition clean_address (addr : pystr) : pystr :=
  sub_words [str "Avenue"] (str "Ave") false []
    (sub_words [str "Road"] (str "Rd") false []
       (sub_words [str "Street"] (str "St") false [] addr)).

Lemma standardize_attributes record :
  attributes (standardize_record record)
  = derive (str "address") (str "address_standardized") clean_address
      (derive (str "date_of_birth") (str "dob_standardized") (λ dob, dob)
         (derive (str "name") (str "name_standardized") clean_name
            (attributes record))).
Proof. reflexivity. Qed.

(** X12: [standardize_record] keeps the identity of the record and every
    attribute that is not one of the three [*_standardized] keys; the three
    derived keys are functions of [name], [date_of_birth] and [address]; and
    standardizing a second time changes nothing. *)
Theorem standardize_record_stable (record : EntityRecord) :
  let std := standardize_record record in
  id std = id record ∧ source_system std = source_system record
  ∧ entity_type std = entity_type record ∧ raw_data std = raw_data record
  ∧ (∀ k, k ∉ [str "name_standardized"; str "dob_standardized";
               str "address_standardized"] →
       Dict.get (attributes std) k = Dict.get (attributes record) k)
  ∧ (∀ name, Dict.get (attributes record) (str "name") = Some name →
       Dict.get (attributes std) (str "name_standardized")
       = Some (clean_name name))
  ∧ (∀ dob, Dict.get (attributes record) (str "date_of_birth") = Some dob →
       Dict.get (attributes std) (str "dob_standardized") = Some dob)
  ∧ (∀ addr, Dict.get (attributes record) (str "address") = Some addr →
       Dict.get (attributes std) (str "address_standardized")
       = Some (clean_address addr))
  ∧ standardize_record std = std.
Proof.
  intros std.
  set (d0 := attributes record).
  set (d1 := derive (str "name") (str "name_standardized") clean_name d0).
  set (d2 := derive (str "date_of_birth") (str "dob_standardized")
               (λ dob, dob) d1).
  set (d3 := derive (str "address") (str "address_standardized")
               clean_address d2).
  assert (Hattrs : attributes std = d3) by apply standardize_attributes.
  assert (Hkeep : ∀ k, k ∉ [str "name_standardized"; str "dob_standardized";
                            str "address_standardized"] →
            Dict.get d3 k = Dict.get d0 k
            ∧ Dict.get d2 k = Dict.get d0 k ∧ Dict.get d1 k = Dict.get d0 k).
  { intros k Hk. unfold d3, d2, d1.
    rewrite !get_derive_ne; [done|..]; intros <-; apply Hk; by_compute. }
  assert (Hname : ∀ name, Dict.get d0 (str "name") = Some name →
            Dict.get d3 (str "name_standardized") = Some (clean_name name)).
  { intros name Hn. unfold d3, d2. rewrite !get_derive_ne by done.
    by apply get_derive_eq. }
  assert (Hdob : ∀ dob, Dict.get d0 (str "date_of_birth") = Some dob →
            Dict.get d3 (str "dob_standardized") = Some dob).
  { intros dob Hd. unfold d3. rewrite get_derive_ne by done.
    apply (get_derive_eq _ _ (λ dob, dob)). unfold d1.
    by rewrite get_derive_ne. }
  assert (Haddr : ∀ addr, Dict.get d0 (str "address") = Some addr →
            Dict.get d3 (str "address_standardized")
            = Some (clean_address addr)).
  { intros addr Ha. apply get_derive_eq. unfold d2, d1.
    by rewrite !get_derive_ne. }
  rewrite Hattrs. split_and!; try done.
  - intros k Hk. by apply Hkeep.
  - apply record_ext; try done.
    rewrite (standardize_attributes std), Hattrs.
    rewrite (derive_done (str "name") _ clean_name d0 d3);
      [|apply Hkeep; by_compute|done].
    rewrite (derive_done (str "date_of_birth") _ (λ dob, dob) d0 d3);
      [|apply Hkeep; by_compute|done].
    rewrite (derive_done (str "address") _ clean_address d0 d3);
      [|apply Hkeep; by_compute|done].
    done.
Qed.

(** *** score_candidate_pair *)







(** X14: The score of a pair does not depend on which record comes first:
    the same fields are compared, and the overall scores are equal. *)
Theorem score_candidate_pair_symmetric (a b : EntityRecord) :
  map fst (similarity_scores (score_candidate_pair a b))
  = map fst (similarity_scores (score_candidate_pair b a))
  ∧ (overall_score (score_candidate_pair a b)
     == overall_score (score_candidate_pair b a))%Q.
Proof.
  split; [|apply overall_score_sym].
  cbn [score_candidate_pair similarity_scores].
  pose proof (pair_scores_sym a b) as Hs. unfold same_scores in Hs.
  induction Hs as [|x y s s' [Hk _] _ IH]; [done|]. cbn [map]. by f_equal.
Qed.

End WithRuntime.

(** *** create_canonical_record *)

(** The order of [completeness] after the sort: most complete first. *)
Definition desc (p q : nat * EntityRecord) : Prop := q.1 ≤ p.1.

Lemma insert_desc_perm x l : insert_desc x l ≡ₚ x :: l.
Proof.
  induction l as [|y l IH]; cbn [insert_desc]; [done|].
  destruct (y.1 <? x.1); [done|]. rewrite IH. apply Permutation_swap.
Qed.

Lemma insert_desc_sorted x l :
  StronglySorted desc l → StronglySorted desc (insert_desc x l).
Proof.
  induction 1 as [|y l Hl IH Hy]; cbn [insert_desc].
  - by repeat constructor.
  - destruct (Nat.ltb_spec y.1 x.1) as [Hlt|Hge].
    + constructor; [by constructor|]. constructor; [unfold desc; lia|].
      eapply Forall_impl; [exact Hy|]. unfold desc. intros z Hz. lia.
    + constructor; [done|]. rewrite insert_desc_perm. by constructor.
Qed.

Lemma sort_desc_spec l :
  sort_desc l ≡ₚ l ∧ StronglySorted desc (sort_desc l).
Proof.
  unfold sort_desc.
  enough (Hgen : ∀ acc, StronglySorted desc acc →
            fold_left (λ acc x, insert_desc x acc) l acc ≡ₚ acc ++ l
            ∧ StronglySorted desc
                (fold_left (λ acc x, insert_desc x acc) l acc)).
  { destruct (Hgen [] ltac:(constructor)) as [Hp Hs]. by split. }
  induction l as [|x l IH]; intros acc Hacc; cbn [fold_left].
  - by rewrite app_nil_r.
  - destruct (IH (insert_desc x acc) (insert_desc_sorted x acc Hacc))
      as [Hp Hs].
    split; [|done]. rewrite Hp, insert_desc_perm. cbn [app].
    apply Permutation_middle.
Qed.

(** One assignment of the loops that fill [canonical_attrs]. *)
Definition fill_step (acc : dict pystr pystr) (kv : pystr * pystr)
  : dict pystr pystr :=
  if negb (Dict.mem acc kv.1) && truthy kv.2
  then Dict.set acc kv.1 kv.2 else acc.

Lemma fill_attrs_fold acc r :
  fill_attrs acc r = fold_left fill_step (attributes r) acc.
Proof.
  unfold fill_attrs. generalize (attributes r). intros l. revert acc.
  induction l as [|[k v] l IH]; intros acc; [done|]. apply IH.
Qed.

Lemma fill_all_fold (cs : list (nat * EntityRecord)) : ∀ acc,
  fold_left (λ acc '(_, record), fill_attrs acc record) cs acc
  = fold_left fill_step (flat_map (λ p, attributes p.2) cs) acc.
Proof.
  induction cs as [|[n r] cs IH]; intros acc; cbn [fold_left flat_map]; [done|].
  by rewrite IH, fill_attrs_fold, fold_left_app.
Qed.

(** A non-empty value for the key [k]. *)
Definition hit (k : pystr) (kv : pystr * pystr) : bool :=
  bool_decide (kv.1 = k) && truthy kv.2.

Lemma fill_get items : ∀ acc k,
  Dict.get (fold_left fill_step items acc) k
  = match Dict.get acc k with
    | Some v => Some v
    | None => snd <$> List.find (hit k) items
    end.
Proof.
  induction items as [|[k0 v0] items IH]; intros acc k; cbn [fold_left List.find].
  - by destruct (Dict.get acc k).
  - rewrite IH. unfold fill_step, hit, Dict.mem. cbn [fst snd].
    destruct (Dict.get acc k0) as [w|] eqn:Hk0; cbn [negb andb].
    + destruct (Dict.get acc k) as [v|] eqn:Hk; [done|].
      case_bool_decide as Heq; [congruence|done].
    + destruct (truthy v0); cbn [andb].
      * rewrite get_set. destruct (decide (k0 = k)) as [->|Hne].
        -- rewrite Hk0. by rewrite bool_decide_eq_true_2.
        -- by rewrite bool_decide_eq_false_2.
      * by rewrite andb_false_r.
Qed.

Lemma find_app {A} (P : A → bool) l l' :
  List.find P (l ++ l')
  = match List.find P l with Some x => Some x | None => List.find P l' end.
Proof.
  induction l as [|y l IH]; cbn [List.find app]; [done|].
  by destruct (P y).
Qed.

Lemma find_none_Forall {A} (P : A → bool) l :
  List.find P l = None → Forall (λ y, P y = false) l.
Proof.
  induction l as [|y l IH]; cbn [List.find]; [constructor|].
  destruct (P y) eqn:Hy; [done|]. intros Hl. constructor; auto.
Qed.

Lemma find_Some_elem {A} (P : A → bool) l x :
  List.find P l = Some x → x ∈ l ∧ P x = true.
Proof.
  intros [Hin Hx]%find_some. by rewrite list_elem_of_In.
Qed.

(** The first hit in the concatenation of some lists is in the first list
    that has one. *)
Lemma find_flat_map {A B} (f : A → list B) (P : B → bool) cs x :
  List.find P (flat_map f cs) = Some x →
  ∃ cs1 c cs2,
    cs = cs1 ++ c :: cs2 ∧ List.find P (f c) = Some x
    ∧ Forall (λ c', Forall (λ y, P y = false) (f c')) cs1.
Proof.
  induction cs as [|c cs IH]; cbn [flat_map]; [done|].
  rewrite find_app. destruct (List.find P (f c)) as [y|] eqn:Hc.
  - intros [= ->]. by exists [], c, cs.
  - intros (cs1 & c' & cs2 & -> & Hx & Hcs1)%IH.
    exists (c :: cs1), c', cs2. split_and!; [done|done|].
    constructor; [by apply find_none_Forall|done].
Qed.

Section WithHashlib.
Context {H : Hashlib}.

Lemma canonical_attributes cluster e :
  create_canonical_record cluster = Some e →
  resolved_attributes e
  = fold_left fill_step
      (flat_map (λ p, attributes p.2)
         (sort_desc (map (λ r, (non_null r, r)) cluster))) [].
Proof.
  destruct cluster as [|first rest]; [done|]. cbn [create_canonical_record].
  intros [= <-]. cbn [resolved_attributes]. apply fill_all_fold.
Qed.

(** X15: The survivorship rule of [create_canonical_record]: a canonical
    attribute is a non-empty value of some member for that key, taken from a
    member that is at least as complete as every member holding a non-empty
    value for the key; and every key for which some member holds a non-empty
    value is present. *)
Theorem canonical_attributes_survivorship (cluster : list EntityRecord)
    (e : ResolvedEntity) :
  create_canonical_record cluster = Some e →
  (∀ k v, Dict.get (resolved_attributes e) k = Some v →
     truthy v = true
     ∧ ∃ r, r ∈ cluster ∧ (k, v) ∈ attributes r
            ∧ ∀ r' v', r' ∈ cluster → (k, v') ∈ attributes r' →
                truthy v' = true → non_null r' ≤ non_null r)
  ∧ (∀ k r v, r ∈ cluster → (k, v) ∈ attributes r → truthy v = true →
       is_Some (Dict.get (resolved_attributes e) k)).
Proof.
  intros He. rewrite (canonical_attributes cluster e He).
  set (cs := sort_desc (map (λ r, (non_null r, r)) cluster)).
  destruct (sort_desc_spec (map (λ r, (non_null r, r)) cluster))
    as [Hperm Hsorted]. fold cs in Hperm, Hsorted.
  assert (Hcs : ∀ c, c ∈ cs ↔ ∃ r, r ∈ cluster ∧ c = (non_null r, r)).
  { intros c. rewrite Hperm, list_elem_of_fmap. split.
    - intros (r & -> & Hr). by exists r.
    - intros (r & Hr & ->). by exists r. }
  split.
  - intros k v Hget. rewrite fill_get in Hget. cbn [Dict.get] in Hget.
    destruct (List.find (hit k) _) as [[k0 v0]|] eqn:Hfind; [|done].
    injection Hget as ->.
    destruct (find_flat_map _ _ _ _ Hfind)
      as (cs1 & c & cs2 & Hsplit & Hc & Hcs1).
    apply find_Some_elem in Hc as [Hin Hhit]. unfold hit in Hhit.
    cbn [fst snd] in Hhit. apply andb_true_iff in Hhit as [Hk Hv].
    apply bool_decide_eq_true in Hk as ->. split; [done|].
    assert (Hc : c ∈ cs).
    { rewrite Hsplit. apply elem_of_app. right. apply list_elem_of_here. }
    apply Hcs in Hc as (r & Hr & ->). cbn [snd] in Hin.
    exists r. split_and!; [done|done|].
    intros r' v' Hr' Hin' Hv'.
    assert (Hc' : (non_null r', r') ∈ cs) by (apply Hcs; eauto).
    rewrite Hsplit in Hc', Hsorted.
    apply elem_of_app in Hc' as [Hc'|Hc'].
    + rewrite Forall_forall in Hcs1. specialize (Hcs1 _ Hc').
      rewrite Forall_forall in Hcs1. specialize (Hcs1 _ Hin').
      unfold hit in Hcs1. cbn [fst snd] in Hcs1.
      by rewrite bool_decide_eq_true_2, Hv' in Hcs1.
    + apply StronglySorted_app_1_r in Hsorted.
      apply elem_of_cons in Hc' as [[= -> _]|Hc']; [done|].
      apply StronglySorted_cons in Hsorted as [Hall _].
      rewrite Forall_forall in Hall. apply (Hall _ Hc').
  - intros k r v Hr Hin Hv. rewrite fill_get. cbn [Dict.get].
    destruct (List.find (hit k) _) as [kv|] eqn:Hfind; [by eexists|].
    apply find_none_Forall in Hfind. rewrite Forall_forall in Hfind.
    assert (Hhit : hit k (k, v) = false).
    { apply Hfind. apply list_elem_of_In, in_flat_map.
      exists (non_null r, r). split; [|by apply list_elem_of_In].
      apply list_elem_of_In, Hcs. eauto. }
    unfold hit in Hhit. cbn [fst snd] in Hhit.
    by rewrite bool_decide_eq_true_2, Hv in Hhit.
Qed.



End WithHashlib.



Lemma canonical_attributes_survivorship_witness :
  let H := Examples.plain_digest in
  let cluster := [ResolveFacts.john_crm; ResolveFacts.john_kyc] in
  ∃ e, create_canonical_record cluster = Some e
       ∧ ∀ k r v, r ∈ cluster → (k, v) ∈ attributes r → truthy v = true →
           is_Some (Dict.get (resolved_attributes e) k).
Proof.
  intros H cluster.
  destruct (create_canonical_record cluster) as [e|] eqn:He;
    [|by vm_compute in He].
  exists e. split; [done|].
  apply (canonical_attributes_survivorship cluster e He).
Defined.

End RecordFacts.

(** ** The entity-resolution endpoint *)

Module ResolutionEndpointFacts.
Import FtexResolution RangeFacts PartitionFacts.


Section WithRuntime.
Context {H : Hashlib} {U : Unicode}.


End WithRuntime.



End ResolutionEndpointFacts.

(** ** get_neighbors: the nodes within [depth] edges *)

Module ReachFacts.
Import NetworkGeneration NeighborFacts.

(** [x] is at the other end of the edge [e] at [u]. *)
Definition far_end (e : NetworkEdge) (u x : pystr) : Prop :=
  (source_id e = u ∧ target_id e = x) ∨ (target_id e = u ∧ source_id e = x).

(** An edge of the network joins [u] and [x], in either direction. *)
Definition adjacent (net : Network) (u x : pystr) : Prop :=
  ∃ e, e ∈ Dict.values (edges net) ∧ far_end e u x.

(** A walk of [k] edges leads from [u] to [x]. *)
Fixpoint reach (net : Network) (k : nat) (u x : pystr) : Prop :=
  match k with
  | 0 => u = x
  | S k' => ∃ w, reach net k' u w ∧ adjacent net w x
  end.

Section WithSetOrder.
Context {SO : SetOrder}.

(** One pass over one edge: the far end of the edge at [nid] joins
    [neighbors], and joins [next_level] when it was not a neighbour. *)
Lemma far_step_spec nid st e x :
  (x ∈ (neighbors_edge_step nid st e).2 ↔ x ∈ st.2 ∨ far_end e nid x)
  ∧ (x ∈ (neighbors_edge_step nid st e).1
     ↔ x ∈ st.1 ∨ ((x ∉ st.2) ∧ far_end e nid x)).
Proof.
  destruct st as [next nbrs]. unfold neighbors_edge_step, str_eqb, far_end.
  cbn [fst snd].
  destruct (decide (source_id e = nid)) as [Hs|Hs];
    destruct (decide (target_id e ∈ nbrs)) as [Ht|Ht];
    destruct (decide (target_id e = nid)) as [Htn|Htn];
    destruct (decide (source_id e ∈ nbrs)) as [Hsn|Hsn];
    rewrite ?(bool_decide_eq_true_2 _ Hs), ?(bool_decide_eq_false_2 _ Hs),
      ?(bool_decide_eq_true_2 _ Htn), ?(bool_decide_eq_false_2 _ Htn),
      ?(proj2 (in_set_true _ _) Ht), ?(proj2 (in_set_false _ _) Ht),
      ?(proj2 (in_set_true _ _) Hsn), ?(proj2 (in_set_false _ _) Hsn);
    cbn [andb negb fst snd]; rewrite ?elem_of_set_add;
    (split; split; intros Hx;
     intuition (subst; try congruence; try contradiction; auto 6)).
Qed.

(** What has been added after the pairs [(u, e)] visited so far. *)
Definition added (visited : list (pystr * NetworkEdge)) (x : pystr) : Prop :=
  ∃ u e, (u, e) ∈ visited ∧ far_end e u x.

Definition pass_state (nbrs0 : list pystr)
    (visited : list (pystr * NetworkEdge)) (st : list pystr * list pystr)
  : Prop :=
  (∀ x, x ∈ st.2 ↔ x ∈ nbrs0 ∨ added visited x)
  ∧ (∀ x, x ∈ st.1 ↔ (x ∉ nbrs0) ∧ added visited x)
  ∧ (NoDup nbrs0 → NoDup st.2).

Lemma added_snoc visited u e x :
  added (visited ++ [(u, e)]) x ↔ added visited x ∨ far_end e u x.
Proof.
  unfold added. split.
  - intros (u' & e' & [Hin|Hin%list_elem_of_singleton]%elem_of_app & Hf).
    + left. eauto.
    + injection Hin as -> ->. by right.
  - intros [(u' & e' & Hin & Hf)|Hf].
    + exists u', e'. split; [|done]. apply elem_of_app. by left.
    + exists u, e. split; [|done]. apply elem_of_app. right.
      by apply list_elem_of_singleton.
Qed.

Lemma edge_step_pass nbrs0 visited st nid e :
  pass_state nbrs0 visited st →
  pass_state nbrs0 (visited ++ [(nid, e)]) (neighbors_edge_step nid st e).
Proof.
  intros (Hn & Hx & Hnd). split_and!.
  - intros x. destruct (far_step_spec nid st e x) as [-> _].
    rewrite Hn, added_snoc. tauto.
  - intros x. destruct (far_step_spec nid st e x) as [_ ->].
    rewrite Hx, added_snoc. pose proof (Hn x) as Hnx.
    destruct (decide (x ∈ st.2)), (decide (x ∈ nbrs0)); tauto.
  - intros Hnd0. specialize (Hnd Hnd0). destruct st as [next nbrs].
    unfold neighbors_edge_step. cbn [snd] in *.
    repeat case_match; cbn [snd]; try done; by apply NoDup_set_add.
Qed.

Lemma edges_pass nbrs0 nid es : ∀ visited st,
  pass_state nbrs0 visited st →
  pass_state nbrs0 (visited ++ map (λ e, (nid, e)) es)
    (fold_left (neighbors_edge_step nid) es st).
Proof.
  induction es as [|e es IH]; intros visited st Hst; cbn [fold_left map].
  - by rewrite app_nil_r.
  - rewrite (cons_middle _ visited), app_assoc. by apply IH, edge_step_pass.
Qed.

Lemma nodes_pass net nbrs0 ns : ∀ visited st,
  pass_state nbrs0 visited st →
  pass_state nbrs0
    (visited
     ++ flat_map (λ n, map (λ e, (n, e)) (Dict.values (edges net))) ns)
    (fold_left (neighbors_node_step net) ns st).
Proof.
  induction ns as [|n ns IH]; intros visited st Hst; cbn [fold_left flat_map].
  - by rewrite app_nil_r.
  - rewrite app_assoc. by apply IH, edges_pass.
Qed.

(** One level of [get_neighbors]: [neighbors] gains what is adjacent to the
    current level, and the next level is what it gained. *)
Lemma level_spec net cur nbrs :
  let st := fold_left (neighbors_node_step net) (set_iter cur) ([], nbrs) in
  (∀ x, x ∈ st.2 ↔ x ∈ nbrs ∨ ∃ u, u ∈ cur ∧ adjacent net u x)
  ∧ (∀ x, x ∈ st.1 ↔ (x ∉ nbrs) ∧ ∃ u, u ∈ cur ∧ adjacent net u x)
  ∧ (NoDup nbrs → NoDup st.2).
Proof.
  intros st.
  assert (H0 : pass_state nbrs [] ([], nbrs)).
  { split_and!; cbn [fst snd].
    - intros x. split; [by left|]. intros [?|(u & e & Hin & _)]; [done|].
      by apply elem_of_nil in Hin.
    - intros x. split; [by intros ?%elem_of_nil|].
      intros [_ (u & e & Hin & _)]. by apply elem_of_nil in Hin.
    - done. }
  pose proof (nodes_pass net nbrs (set_iter cur) [] _ H0) as (Hn & Hx & Hnd).
  fold st in Hn, Hx, Hnd. cbn [app] in Hn, Hx.
  assert (Hadd : ∀ x,
    added (flat_map (λ n, map (λ e, (n, e)) (Dict.values (edges net)))
             (set_iter cur)) x
    ↔ ∃ u, u ∈ cur ∧ adjacent net u x).
  { intros x. unfold added, adjacent. split.
    - intros (u & e & Hin & Hf).
      apply list_elem_of_In, in_flat_map in Hin as (n & Hn' & Hin).
      apply list_elem_of_In in Hn', Hin.
      apply list_elem_of_fmap in Hin as (e' & [= -> ->] & He).
      rewrite set_iter_perm in Hn'. eauto.
    - intros (u & Hu & e & He & Hf). exists u, e. split; [|done].
      apply list_elem_of_In, in_flat_map. exists u.
      split; apply list_elem_of_In; [by rewrite set_iter_perm|].
      by apply (list_elem_of_fmap_2 (λ e, (u, e))). }
  split_and!; [| |done].
  - intros x. by rewrite Hn, Hadd.
  - intros x. by rewrite Hx, Hadd.
Qed.

(** The state of [get_neighbors] after [i] levels from [v]. *)
Definition levels_done (net : Network) (v : pystr) (i : nat)
    (cur nbrs : list pystr) : Prop :=
  (∀ x, x ∈ nbrs ↔ ∃ k, 1 ≤ k ≤ i ∧ reach net k v x)
  ∧ (∀ x, x ∈ cur → reach net i v x)
  ∧ (∀ w, reach net i v w → w ∈ cur ∨ ∃ k, 1 ≤ k < i ∧ reach net k v w)
  ∧ NoDup nbrs.

Lemma loop_spec net v : ∀ depth i cur nbrs,
  levels_done net v i cur nbrs →
  (∀ x, x ∈ neighbors_loop net depth cur nbrs
        ↔ ∃ k, 1 ≤ k ≤ i + depth ∧ reach net k v x)
  ∧ NoDup (neighbors_loop net depth cur nbrs).
Proof.
  induction depth as [|d IH]; intros i cur nbrs (Hn & Hc & Hr & Hnd);
    cbn [neighbors_loop].
  - split; [|done]. intros x. rewrite Hn. by rewrite Nat.add_0_r.
  - pose proof (level_spec net cur nbrs) as (Ln & Lx & Lnd). cbv zeta in *.
    destruct (fold_left _ _ _) as [next nbrs']. cbn [fst snd] in *.
    replace (i + S d) with (S i + d) by lia. apply IH. split_and!.
    + intros x. rewrite Ln, Hn. split.
      * intros [(k & Hk & Hx)|(u & Hu & Ha)].
        -- exists k. split; [lia|done].
        -- exists (S i). split; [lia|]. exists u. split; [by apply Hc|done].
      * intros (k & Hk & Hx).
        destruct (decide (k ≤ i)) as [Hle|Hgt];
          [left; exists k; split; [lia|done]|].
        assert (k = S i) as -> by lia. destruct Hx as (w & Hw & Ha).
        destruct (Hr w Hw) as [Hcur|(k' & Hk' & Hw')].
        -- right. by exists w.
        -- left. exists (S k'). split; [lia|]. by exists w.
    + intros x [_ (u & Hu & Ha)]%Lx. exists u. split; [by apply Hc|done].
    + intros x (w & Hw & Ha).
      destruct (decide (x ∈ nbrs)) as [Hin|Hnin].
      * right. apply Hn in Hin as (k & Hk & Hx). exists k. split; [lia|done].
      * destruct (Hr w Hw) as [Hcur|(k' & Hk' & Hw')].
        -- left. apply Lx. split; [done|]. by exists w.
        -- destruct Hnin. apply Hn. exists (S k'). split; [lia|].
           by exists w.
    + by apply Lnd.
Qed.

Lemma levels_start net v : levels_done net v 0 [v] [].
Proof.
  split_and!.
  - intros x. split; [by intros ?%elem_of_nil|]. intros (k & Hk & _). lia.
  - intros x ->%list_elem_of_singleton. done.
  - intros w <-. left. apply list_elem_of_here.
  - constructor.
Qed.

(** At depth 1, the neighbours are the far ends of the edges at the node. *)
Lemma neighbors_depth_one net v :
  (∀ x, x ∈ get_neighbors net v 1 ↔ adjacent net v x)
  ∧ NoDup (get_neighbors net v 1).
Proof.
  destruct (loop_spec net v 1 0 [v] [] (levels_start net v)) as [Hx Hnd].
  change (get_neighbors net v 1) with (neighbors_loop net 1 [v] []).
  split; [|done]. intros x. rewrite Hx. split.
  - intros (k & Hk & Hr). assert (k = 1) as -> by lia.
    by destruct Hr as (w & <- & Ha).
  - intros Ha. exists 1. split; [lia|]. by exists v.
Qed.

(** X18: [get_neighbors(node_id, depth)] is the set of the nodes that a walk
    of at least one and at most [depth] edges, taken in either direction,
    reaches from [node_id]; no node is listed twice. *)
Theorem get_neighbors_reach (net : Network) (v : pystr) (depth : nat) :
  (∀ x, x ∈ get_neighbors net v depth
        ↔ ∃ k, 1 ≤ k ≤ depth ∧ reach net k v x)
  ∧ NoDup (get_neighbors net v depth).
Proof.
  unfold get_neighbors. destruct (Nat.ltb_spec depth 1) as [Hlt|Hge].
  - split; [|constructor]. intros x. split; [by intros ?%elem_of_nil|].
    intros (k & Hk & _). lia.
  - apply (loop_spec net v depth 0 [v] []), levels_start.
Qed.

End WithSetOrder.
End ReachFacts.

(** ** Networks: sub-graphs, metrics and the summary *)

Module NetworkFacts.
Import NetworkGeneration DictFacts NeighborFacts ReachFacts RangeFacts.

(** The invariant of a network that is built with [add_node] and
    [add_edge]: a node and an edge are stored under their own id, and a
    dictionary holds a key once. *)
Record keyed (net : Network) : Prop := {
  keyed_nodes : NoDup (Dict.keys (nodes net));
  keyed_edges : NoDup (Dict.keys (edges net));
  keyed_node_id : ∀ k n, (k, n) ∈ nodes net → node_id n = k;
  keyed_edge_id : ∀ k e, (k, e) ∈ edges net → id e = k;
}.

Lemma elem_of_set {V} (d : dict pystr V) k v k' v' :
  (k', v') ∈ Dict.set d k v → (k', v') ∈ d ∨ (k' = k ∧ v' = v).
Proof.
  induction d as [|[k0 v0] d IH]; cbn [Dict.set].
  - intros [= -> ->]%list_elem_of_singleton. by right.
  - destruct (decide (k0 = k)) as [->|Hne].
    + intros [[= -> ->]|Hin]%elem_of_cons; [by right|].
      left. by apply list_elem_of_further.
    + intros [[= -> ->]|Hin]%elem_of_cons; [left; apply list_elem_of_here|].
      destruct (IH Hin) as [?|?]; [left; by apply list_elem_of_further|by right].
Qed.

Lemma keyed_empty : keyed empty_network.
Proof.
  split; cbn; try apply NoDup_nil_2; intros ? ? Hin; by apply elem_of_nil in Hin.
Qed.

Lemma keyed_add_node net node : keyed net → keyed (add_node net node).
Proof.
  intros [Hn He Hni Hei]. split; cbn [add_node nodes edges]; try done.
  - by apply NoDup_keys_set.
  - intros k n [Hin|[-> ->]]%elem_of_set; [by apply Hni|done].
Qed.

Lemma keyed_add_edge net edge : keyed net → keyed (add_edge net edge).
Proof.
  intros [Hn He Hni Hei]. split; cbn [add_edge nodes edges]; try done.
  - by apply NoDup_keys_set.
  - intros k n [Hin|[-> ->]]%elem_of_set; [by apply Hei|done].
Qed.

Lemma get_Some_elem {V} (d : dict pystr V) k v :
  NoDup (Dict.keys d) → Dict.get d k = Some v ↔ (k, v) ∈ d.
Proof.
  intros Hnd. split; [apply get_elem_of|by apply ResolveFacts.elem_of_get].
Qed.

Section WithSetOrder.
Context {SO : SetOrder}.

(** *** get_subgraph *)

Definition pick_node (net : Network) (subgraph : Network) (node_id : pystr)
  : Network :=
  match Dict.get (nodes net) node_id with
  | Some node => add_node subgraph node
  | None => subgraph
  end.

Definition pick_edge (node_ids : list pystr) (subgraph : Network)
    (edge : NetworkEdge) : Network :=
  if in_set (source_id edge) node_ids && in_set (target_id edge) node_ids
  then add_edge subgraph edge else subgraph.

Lemma pick_nodes_spec net : keyed net → ∀ l acc,
  keyed acc →
  let sub := fold_left (pick_node net) l acc in
  keyed sub ∧ edges sub = edges acc
  ∧ ∀ k, Dict.get (nodes sub) k
         = match (if decide (k ∈ l) then Dict.get (nodes net) k else None) with
           | Some n => Some n
           | None => Dict.get (nodes acc) k
           end.
Proof.
  intros Hnet. induction l as [|i l IH]; intros acc Hacc; cbn [fold_left].
  - split_and!; [done|done|]. intros k. by rewrite decide_False by apply not_elem_of_nil.
  - assert (Hacc' : keyed (pick_node net acc i)).
    { unfold pick_node. destruct (Dict.get (nodes net) i); [|done].
      by apply keyed_add_node. }
    destruct (IH _ Hacc') as (Hk & He & Hget). split_and!; [done| |].
    + rewrite He. unfold pick_node. by destruct (Dict.get (nodes net) i).
    + intros k. rewrite Hget. unfold pick_node.
      destruct (decide (k ∈ l)) as [Hl|Hl].
      * rewrite decide_True by (by apply list_elem_of_further).
        destruct (Dict.get (nodes net) k) as [n|] eqn:Hk'; [done|].
        destruct (Dict.get (nodes net) i) as [ni|] eqn:Hi; [|done].
        cbn [add_node nodes]. rewrite get_set.
        assert (node_id ni = i).
        { apply (keyed_node_id net Hnet). by apply get_elem_of. }
        destruct (decide (node_id ni = k)); [congruence|done].
      * destruct (decide (k = i)) as [->|Hne].
        -- rewrite decide_True by apply list_elem_of_here.
           destruct (Dict.get (nodes net) i) as [ni|] eqn:Hi; [|done].
           cbn [add_node nodes]. rewrite get_set.
           assert (node_id ni = i).
           { apply (keyed_node_id net Hnet). by apply get_elem_of. }
           by rewrite decide_True.
        -- rewrite decide_False by (rewrite elem_of_cons; tauto).
           destruct (Dict.get (nodes net) i) as [ni|] eqn:Hi; [|done].
           cbn [add_node nodes]. rewrite get_set.
           assert (node_id ni = i).
           { apply (keyed_node_id net Hnet). by apply get_elem_of. }
           rewrite decide_False by congruence. done.
Qed.

Definition kept (node_ids : list pystr) (e : NetworkEdge) : bool :=
  in_set (source_id e) node_ids && in_set (target_id e) node_ids.

Lemma pick_edges_spec node_ids : ∀ (es : dict pystr NetworkEdge) acc,
  keyed acc → NoDup (Dict.keys es) → (∀ k e, (k, e) ∈ es → id e = k) →
  let sub := fold_left (pick_edge node_ids) (Dict.values es) acc in
  keyed sub ∧ nodes sub = nodes acc
  ∧ ∀ k, Dict.get (edges sub) k
         = match Dict.get es k with
           | Some e => if kept node_ids e then Some e
                       else Dict.get (edges acc) k
           | None => Dict.get (edges acc) k
           end.
Proof.
  induction es as [|[k0 e0] es IH]; intros acc Hacc Hnd Hid;
    cbn [Dict.values map fold_left snd].
  - done.
  - cbn [Dict.keys map fst] in Hnd. apply NoDup_cons in Hnd as [Hk0 Hnd].
    assert (Hid0 : id e0 = k0) by (apply Hid, list_elem_of_here).
    assert (Hacc' : keyed (pick_edge node_ids acc e0)).
    { unfold pick_edge. destruct (_ && _); [|done]. by apply keyed_add_edge. }
    destruct (IH (pick_edge node_ids acc e0) Hacc' Hnd) as (Hk & Hn & Hget).
    { intros k e Hin. apply Hid. by apply list_elem_of_further. }
    split_and!; [done| |].
    + unfold Dict.values in Hn. rewrite Hn. unfold pick_edge.
      by destruct (_ && _).
    + intros k. unfold Dict.values in Hget. rewrite Hget.
      cbn [Dict.get]. destruct (decide (k0 = k)) as [->|Hne].
      * rewrite (proj2 (get_None_keys es k)) by done.
        unfold pick_edge. fold (kept node_ids e0).
        destruct (kept node_ids e0); [|done].
        cbn [add_edge edges]. rewrite get_set. by rewrite decide_True.
      * assert (Hsame : Dict.get (edges (pick_edge node_ids acc e0)) k
                        = Dict.get (edges acc) k).
        { unfold pick_edge. destruct (_ && _); [|done].
          cbn [add_edge edges]. rewrite get_set.
          by rewrite decide_False by congruence. }
        by rewrite Hsame.
Qed.

(** X19: [get_subgraph] is the induced sub-graph: it holds the nodes of the
    network whose id is in [node_ids] and the edges whose two ends are in
    [node_ids] (whether or not the network has nodes for them), and nothing
    else. *)
Theorem get_subgraph_lookup (net : Network) (node_ids : list pystr) :
  keyed net →
  let subgraph := get_subgraph net node_ids in
  (∀ k, Dict.get (nodes subgraph) k
        = if decide (k ∈ node_ids) then Dict.get (nodes net) k else None)
  ∧ (∀ k, Dict.get (edges subgraph) k
          = match Dict.get (edges net) k with
            | Some e =>
                if decide (source_id e ∈ node_ids ∧ target_id e ∈ node_ids)
                then Some e else None
            | None => None
            end)
  ∧ keyed subgraph.
Proof.
  intros Hnet subgraph. unfold get_subgraph in subgraph.
  fold (pick_node net) in subgraph. fold (pick_edge node_ids) in subgraph.
  destruct (pick_nodes_spec net Hnet (set_iter node_ids) empty_network
              keyed_empty) as (Hk1 & He1 & Hg1). cbv zeta in *.
  set (sub1 := fold_left (pick_node net) (set_iter node_ids) empty_network)
    in *.
  destruct (pick_edges_spec node_ids (edges net) sub1 Hk1
              (keyed_edges net Hnet) (keyed_edge_id net Hnet))
    as (Hk2 & Hn2 & Hg2). cbv zeta in *. fold subgraph in Hk2, Hn2, Hg2.
  split_and!; [| |done].
  - intros k. rewrite Hn2, Hg1. cbn [empty_network nodes Dict.get].
    destruct (decide (k ∈ set_iter node_ids)) as [Hin|Hin];
      rewrite set_iter_perm in Hin.
    + rewrite decide_True by done. by destruct (Dict.get (nodes net) k).
    + by rewrite decide_False.
  - intros k. rewrite Hg2, He1. cbn [empty_network edges Dict.get].
    destruct (Dict.get (edges net) k) as [e|]; [|done].
    unfold kept, in_set.
    destruct (decide (source_id e ∈ node_ids ∧ target_id e ∈ node_ids))
      as [[Hs Ht]|Hn].
    + by rewrite !bool_decide_eq_true_2.
    + destruct (decide (source_id e ∈ node_ids)) as [Hs|Hs].
      * rewrite (bool_decide_eq_true_2 _ Hs).
        rewrite bool_decide_eq_false_2 by tauto. done.
      * by rewrite (bool_decide_eq_false_2 _ Hs).
Qed.

End WithSetOrder.

Lemma get_subgraph_lookup_witness :
  let SO := insertion_order in
  keyed one_edge
  ∧ Dict.get (edges (get_subgraph one_edge [str "a"])) (str "e1") = None
  ∧ Dict.keys (edges (get_subgraph one_edge [str "a"; str "b"])) = [str "e1"].
Proof.
  intros SO.
  assert (Hk : keyed one_edge) by apply keyed_add_edge, keyed_empty.
  split; [exact Hk|].
  destruct (get_subgraph_lookup one_edge [str "a"] Hk) as (_ & He & _).
  split; [by rewrite He|reflexivity].
Defined.

(** *** calculate_network_metrics *)

Lemma length_pairs {A} (l : list A) :
  2 * length (pairs_in_order l) = length l * (length l - 1).
Proof.
  induction l as [|a l IH]; cbn [pairs_in_order length]; [done|].
  rewrite length_app, length_map. nia.
Qed.

Section Metrics.
Context {SO : SetOrder}.

(** The neighbours at depth 1 are the far ends of the edges at the node. *)
Lemma neighbors_adjacent net v x :
  x ∈ get_neighbors net v 1 ↔ adjacent net v x.
Proof. apply neighbors_depth_one. Qed.

(** X20: [calculate_network_metrics] answers for the nodes of the network
    and only for them; the total degree is the sum of the two degrees; the
    neighbours are no more than the total degree, and there is none exactly
    when the total degree is 0; the clustering coefficient lies between 0
    and 1. *)
Theorem network_metrics_facts (eng : Engine) (v : pystr) :
  (calculate_network_metrics eng v = None
   ↔ v ∉ Dict.keys (nodes (network eng)))
  ∧ ∀ m, calculate_network_metrics eng v = Some m →
      total_degree m = in_degree m + out_degree m
      ∧ neighbor_count m ≤ total_degree m
      ∧ (neighbor_count m = 0 ↔ total_degree m = 0)
      ∧ (0 <= clustering_coefficient m <= 1)%Q.
Proof.
  unfold calculate_network_metrics. cbv zeta.
  set (net := network eng). set (es := Dict.values (edges net)).
  destruct (Dict.mem (nodes net) v) eqn:Hmem; cbn [negb].
  2:{ split; [|done]. split; [|done]. intros _ Hk%mem_keys. congruence. }
  split; [split; [done|]; intros Hk; apply mem_keys in Hmem; contradiction|].
  intros m [= <-].
  cbn [total_degree in_degree out_degree neighbor_count
       clustering_coefficient].
  set (ins := List.filter (λ e, str_eqb (target_id e) v) es).
  set (outs := List.filter (λ e, str_eqb (source_id e) v) es).
  set (nb := get_neighbors net v 1).
  assert (Hnd : NoDup nb) by apply neighbors_depth_one.
  assert (Hins : ∀ e, e ∈ ins ↔ e ∈ es ∧ target_id e = v).
  { intros e. unfold ins, str_eqb.
    by rewrite list_elem_of_In, filter_In, bool_decide_eq_true,
      <- list_elem_of_In. }
  assert (Houts : ∀ e, e ∈ outs ↔ e ∈ es ∧ source_id e = v).
  { intros e. unfold outs, str_eqb.
    by rewrite list_elem_of_In, filter_In, bool_decide_eq_true,
      <- list_elem_of_In. }
  assert (Hsub : ∀ x, x ∈ nb → x ∈ map target_id outs ++ map source_id ins).
  { intros x (e & He & [[Hs Ht]|[Ht Hs]])%neighbors_adjacent;
      apply elem_of_app; [left|right]; rewrite <- ?Ht, <- ?Hs.
    - apply list_elem_of_fmap_2, Houts. done.
    - apply list_elem_of_fmap_2, Hins. done. }
  assert (Hle : length nb ≤ length ins + length outs).
  { pose proof (submseteq_length _ _ (NoDup_submseteq _ _ Hnd Hsub)) as Hl.
    rewrite length_app, !length_map in Hl. lia. }
  split; [done|]. split; [done|]. split.
  - split; [|lia]. intros Hz. apply length_zero_iff_nil in Hz.
    assert (Hno : ∀ x, ¬ adjacent net v x).
    { intros x Hx%neighbors_adjacent. fold nb in Hx. rewrite Hz in Hx.
      by apply elem_of_nil in Hx. }
    assert (Hi : ins = []).
    { apply elem_of_nil_inv. intros e [He Ht]%Hins.
      apply (Hno (source_id e)). exists e. split; [done|]. by right. }
    assert (Ho : outs = []).
    { apply elem_of_nil_inv. intros e [He Hs]%Houts.
      apply (Hno (target_id e)). exists e. split; [done|]. by left. }
    by rewrite Hi, Ho.
  - destruct (Nat.ltb_spec (length nb) 2) as [Hlt|Hge]; [lra|].
    set (l := set_iter nb).
    assert (Hl : length l = length nb)
      by (unfold l; by rewrite set_iter_perm).
    set (ne := length (List.filter _ (pairs_in_order l))).
    assert (Hne : ne ≤ length (pairs_in_order l))
      by apply List.filter_length_le.
    pose proof (length_pairs l) as Hp. rewrite Hl in Hp.
    set (me := (Qnat (length nb * (length nb - 1)) / 2)%Q).
    assert (Hme : (me == Qnat (length (pairs_in_order l)))%Q).
    { unfold me. rewrite <- Hp. unfold Qnat.
      rewrite Nat2Z.inj_mul. unfold Qdiv, Qeq. cbn. lia. }
    assert (Hpos : 0 < length (pairs_in_order l)) by nia.
    pose proof (Qnat_pos _ Hpos) as Hq.
    destruct (Qlt_le_dec 0 me) as [Hlt|Hle']; [|lra].
    pose proof (Qnat_nonneg ne) as Hn0.
    pose proof (Qnat_le _ _ Hne) as Hn1.
    split.
    + apply Qle_shift_div_l; [done|]. lra.
    + apply Qle_shift_div_r; [done|]. lra.
Qed.

End Metrics.

(** *** get_network_summary *)

Lemma filter_disjoint_length {A} (p q : A → bool) (l : list A) :
  (∀ x, p x && q x = false) →
  length (List.filter (λ x, p x || q x) l)
  = length (List.filter p l) + length (List.filter q l).
Proof.
  intros Hd. induction l as [|x l IH]; [done|]. cbn [List.filter].
  specialize (Hd x). destruct (p x), (q x); cbn in *; try done; lia.
Qed.

Lemma filter_none {A} (p : A → bool) (l : list A) :
  (∀ x, p x = false) → List.filter p l = [].
Proof.
  intros Hp. induction l as [|x l IH]; [done|]. cbn [List.filter].
  by rewrite Hp.
Qed.

Section Tally.
Context {A : Type} (f : A → pystr) (same : A → A → bool).
Hypothesis same_spec : ∀ x y, same x y = true ↔ f x = f y.
Variable ns : list A.

(** One entry of a dictionary comprehension that counts the items with the
    key of [n]. *)
Definition tally_step (d : dict pystr nat) (n : A) : dict pystr nat :=
  Dict.set d (f n) (length (List.filter (λ x, same x n) ns)).

Definition count_of (k : pystr) : nat :=
  length (List.filter (λ x, bool_decide (f x = k)) ns).

Lemma tally_count n :
  length (List.filter (λ x, same x n) ns) = count_of (f n).
Proof.
  unfold count_of. f_equal. apply filter_ext. intros x.
  destruct (same x n) eqn:E.
  - apply same_spec in E. by rewrite bool_decide_eq_true_2.
  - rewrite bool_decide_eq_false_2; [done|].
    intros E'%same_spec. congruence.
Qed.

Lemma tally_spec l : ∀ d,
  NoDup (Dict.keys d) → (∀ k c, (k, c) ∈ d → c = count_of k) →
  let d' := fold_left tally_step l d in
  NoDup (Dict.keys d') ∧ (∀ k c, (k, c) ∈ d' → c = count_of k)
  ∧ ∀ k, k ∈ Dict.keys d' ↔ k ∈ Dict.keys d ∨ k ∈ map f l.
Proof.
  induction l as [|n l IH]; intros d Hnd Hc; cbn [fold_left map].
  - split_and!; [done|done|]. intros k. rewrite elem_of_nil. tauto.
  - destruct (IH (tally_step d n)) as (Hnd' & Hc' & Hk').
    + by apply NoDup_keys_set.
    + intros k c [Hin|[-> ->]]%elem_of_set; [by apply Hc|apply tally_count].
    + split_and!; [done|done|]. intros k. rewrite Hk'. unfold tally_step.
      rewrite elem_of_keys_set, elem_of_cons. tauto.
Qed.

Lemma count_of_sum (ks : list pystr) :
  NoDup ks →
  sum_list (map count_of ks)
  = length (List.filter (λ x, bool_decide (f x ∈ ks)) ns).
Proof.
  induction ks as [|k ks IH]; intros Hks.
  - cbn [map sum_list sum_list_with]. symmetry. apply length_zero_iff_nil.
    apply filter_none. intros x.
    apply bool_decide_eq_false_2, not_elem_of_nil.
  - apply NoDup_cons in Hks as [Hk Hks]. cbn [map].
    change (sum_list (?x :: ?l)) with (x + sum_list l).
    rewrite (IH Hks). unfold count_of.
    rewrite <- filter_disjoint_length.
    + f_equal. apply filter_ext. intros x.
      destruct (decide (f x = k)) as [Heq|Hne],
        (decide (f x ∈ ks)) as [Hin|Hnin];
        rewrite ?(bool_decide_eq_true_2 _ Heq),
          ?(bool_decide_eq_false_2 _ Hne), ?(bool_decide_eq_true_2 _ Hin),
          ?(bool_decide_eq_false_2 _ Hnin); cbn [orb]; symmetry;
        [apply bool_decide_eq_true_2..|apply bool_decide_eq_false_2];
        rewrite elem_of_cons; tauto.
    + intros x. destruct (decide (f x = k)) as [Heq|Hne].
      * rewrite (bool_decide_eq_false_2 (f x ∈ ks)) by congruence.
        apply andb_false_r.
      * by rewrite (bool_decide_eq_false_2 _ Hne).
Qed.

(** The counts of a tally over [ns] add up to the length of [ns]; each
    count is the number of items under its key, and is not 0. *)
Lemma tally_total :
  let d := fold_left tally_step ns [] in
  sum_list (Dict.values d) = length ns
  ∧ NoDup (Dict.keys d)
  ∧ (∀ k, k ∈ Dict.keys d ↔ k ∈ map f ns)
  ∧ (∀ k c, Dict.get d k = Some c → c = count_of k ∧ 0 < c).
Proof.
  intros d.
  destruct (tally_spec ns []) as (Hnd & Hc & Hk);
    [constructor|by intros ? ? ?%elem_of_nil|]. fold d in Hnd, Hc, Hk.
  assert (Hkeys : ∀ k, k ∈ Dict.keys d ↔ k ∈ map f ns).
  { intros k. rewrite Hk. cbn. rewrite elem_of_nil. tauto. }
  assert (Hvals : Dict.values d = map count_of (Dict.keys d)).
  { unfold Dict.values, Dict.keys. rewrite map_map. apply map_ext_in.
    intros [k c] Hin%list_elem_of_In. by apply Hc. }
  split_and!; [|done|done|].
  - rewrite Hvals, (count_of_sum _ Hnd). f_equal.
    apply forallb_filter_id, forallb_forall. intros x Hx%list_elem_of_In.
    apply bool_decide_eq_true_2, Hkeys. by apply list_elem_of_fmap_2.
  - intros k c Hget. pose proof (Hc _ _ (get_elem_of _ _ _ Hget)) as ->.
    split; [done|]. apply get_Some_keys, Hkeys in Hget.
    apply list_elem_of_fmap in Hget as (x & -> & Hx). unfold count_of.
    apply list_elem_of_In in Hx.
    assert (Hin : In x (List.filter (λ x0, bool_decide (f x0 = f x)) ns)).
    { apply filter_In. split; [done|]. by apply bool_decide_eq_true_2. }
    destruct (List.filter _ ns); [done|cbn; lia].
Qed.

End Tally.

Lemma value_inj (a b : RelationshipType) : value a = value b → a = b.
Proof. destruct a, b; intros Hv; try done; by vm_compute in Hv. Qed.

(** X21: The two histograms of [get_network_summary] partition the network:
    the counts of [node_types] add up to [node_count] and those of
    [relationship_types] to [edge_count]; a type is listed exactly when a
    node (an edge) has it, with the number of the nodes (edges) that have
    it, which is not 0; and the high-risk nodes are no more than the nodes. *)
Theorem network_summary_counts (eng : Engine) :
  let s := get_network_summary eng in
  let ns := Dict.values (nodes (network eng)) in
  let es := Dict.values (edges (network eng)) in
  sum_list (Dict.values (node_types s)) = node_count s
  ∧ sum_list (Dict.values (relationship_types s)) = edge_count s
  ∧ (∀ t, t ∈ Dict.keys (node_types s) ↔ ∃ n, n ∈ ns ∧ node_type n = t)
  ∧ (∀ t c, Dict.get (node_types s) t = Some c →
       0 < c
       ∧ c = length (List.filter (λ n, bool_decide (node_type n = t)) ns))
  ∧ (∀ t, t ∈ Dict.keys (relationship_types s)
          ↔ ∃ e, e ∈ es ∧ value (relationship_type e) = t)
  ∧ (∀ r c, Dict.get (relationship_types s) (value r) = Some c →
       0 < c
       ∧ c = length (List.filter
                      (λ e, bool_decide (relationship_type e = r)) es))
  ∧ high_risk_nodes s ≤ node_count s.
Proof.
  intros s ns es.
  pose proof (tally_total node_type
                (λ x n, str_eqb (node_type x) (node_type n))
                (λ x y, bool_decide_eq_true _) ns) as (Hsum & _ & Hk & Hc).
  assert (Hsame : ∀ x y : NetworkEdge,
    bool_decide (relationship_type x = relationship_type y) = true
    ↔ value (relationship_type x) = value (relationship_type y)).
  { intros x y. rewrite bool_decide_eq_true. split; [by intros ->|].
    apply value_inj. }
  pose proof (tally_total (λ e, value (relationship_type e))
                (λ x e, bool_decide (relationship_type x
                                     = relationship_type e))
                Hsame es) as (Hsum' & _ & Hk' & Hc').
  cbv zeta in *.
  unfold s, get_network_summary.
  cbn [node_types relationship_types node_count edge_count high_risk_nodes].
  fold ns es. unfold tally_step in *.
  assert (Hln : length ns = length (nodes (network eng)))
    by apply length_map.
  assert (Hle : length es = length (edges (network eng)))
    by apply length_map.
  split_and!.
  - by rewrite Hsum.
  - by rewrite Hsum'.
  - intros t. rewrite Hk. split.
    + intros (n & -> & Hn)%list_elem_of_fmap. eauto.
    + intros (n & Hn & <-). by apply list_elem_of_fmap_2.
  - intros t c Hget. destruct (Hc t c Hget) as [-> Hpos]. done.
  - intros t. rewrite Hk'. split.
    + intros (e & -> & He)%list_elem_of_fmap. eauto.
    + intros (e & He & <-).
      by apply (list_elem_of_fmap_2 (λ e, value (relationship_type e))).
  - intros r c Hget. destruct (Hc' _ c Hget) as [-> Hpos]. split; [done|].
    unfold count_of. f_equal. apply filter_ext. intros e.
    apply bool_decide_ext. split; [apply value_inj|by intros ->].
  - rewrite <- Hln. apply List.filter_length_le.
Qed.

End NetworkFacts.

(** ** Transactions and the transaction pattern rule *)

Module TransactionFacts.
Import NetworkGeneration DictFacts NetworkFacts RangeFacts.

(** The edges that [TransactionPatternRule] counts. *)
Definition is_transfer (e : NetworkEdge) : bool :=
  bool_decide (relationship_type e = SENT_TO)
  || bool_decide (relationship_type e = RECEIVED_FROM).

(** [e] is counted under the pair [p]. *)
Definition counted (p : pystr * pystr) (e : NetworkEdge) : bool :=
  is_transfer e && bool_decide (sorted_pair (source_id e) (target_id e) = p).

(** The count that a tally holds for [p]; a pair without an entry has
    none. *)
Definition count_in (tally : dict (pystr * pystr) (nat * Q))
    (p : pystr * pystr) : nat :=
  match Dict.get tally p with Some (c, _) => c | None => 0 end.

Definition total_in (tally : dict (pystr * pystr) (nat * Q))
    (p : pystr * pystr) : Q :=
  match Dict.get tally p with Some (_, t) => t | None => 0%Q end.

(** The amounts of the edges counted under [p], added up in the order of
    the edges, from [t]. *)
Definition add_amounts (p : pystr * pystr) (es : list NetworkEdge) (t : Q)
  : Q :=
  fold_left (λ t e, (t + default 0%Q (amount_of e))%Q)
    (List.filter (counted p) es) t.



Lemma pair_lookup {V} (d : dict (pystr * pystr) V) k v :
  NoDup (Dict.keys d) → (k, v) ∈ d → Dict.get d k = Some v.
Proof.
  induction d as [|[k' v'] d IH]; cbn; [by intros _ ?%elem_of_nil|].
  intros [Hk' Hnd]%NoDup_cons [[= -> ->]|Hin]%elem_of_cons.
  - by rewrite decide_True.
  - rewrite decide_False; [by apply IH|]. intros ->. apply Hk'.
    by apply (list_elem_of_fmap_2 fst _ (k, v)).
Qed.

(** An edge that the rule cannot add up: a counted edge whose [amount] is
    there and is not a number. *)
Definition bad_amount (e : NetworkEdge) : bool :=
  is_transfer e && bool_decide (amount_of e = None).

Lemma tx_tally_step tally e :
  match tx_tally tally e with
  | Some tally' =>
      bad_amount e = false
      ∧ (NoDup (Dict.keys tally) → NoDup (Dict.keys tally'))
      ∧ ∀ p, count_in tally' p
             = count_in tally p + (if counted p e then 1 else 0)
               ∧ total_in tally' p = add_amounts p [e] (total_in tally p)
  | None => bad_amount e = true
  end.
Proof.
  unfold tx_tally, bad_amount, add_amounts, counted. fold (is_transfer e).
  cbn [List.filter].
  destruct (is_transfer e); cbn [andb].
  2:{ split_and!; [done|done|]. intros p. split; [lia|done]. }
  set (pair := sorted_pair (source_id e) (target_id e)).
  destruct (default (0, 0%Q) (Dict.get tally pair)) as [count total] eqn:Hd.
  destruct (amount_of e) as [a|] eqn:Ha; [|done].
  split_and!; [done|by apply NoDup_keys_set|].
  intros p. unfold count_in, total_in. rewrite get_set.
  destruct (decide (pair = p)) as [<-|Hne].
  - rewrite bool_decide_eq_true_2 by done. cbn [fold_left default].
    rewrite Ha. cbn [default].
    destruct (Dict.get tally pair) as [[c t]|]; cbn in Hd;
      injection Hd as <- <-; (split; [lia|done]).
  - rewrite bool_decide_eq_false_2 by done. split; [lia|done].
Qed.

Lemma tx_tally_all_spec es : ∀ tally,
  match tx_tally_all tally es with
  | Some tally' =>
      Forall (λ e, bad_amount e = false) es
      ∧ (NoDup (Dict.keys tally) → NoDup (Dict.keys tally'))
      ∧ ∀ p, count_in tally' p
             = count_in tally p + length (List.filter (counted p) es)
             ∧ total_in tally' p = add_amounts p es (total_in tally p)
  | None => Exists (λ e, bad_amount e = true) es
  end.
Proof.
  induction es as [|e es IH]; intros tally; cbn [tx_tally_all].
  - split_and!; [constructor|done|]. intros p. cbn. split; [lia|done].
  - pose proof (tx_tally_step tally e) as Hs.
    destruct (tx_tally tally e) as [t1|]; [|by left].
    destruct Hs as (Hb & Hnd & Hc). specialize (IH t1).
    destruct (tx_tally_all t1 es) as [t2|]; [|by right].
    destruct IH as (Hb' & Hnd' & Hc'). split_and!.
    + by constructor.
    + auto.
    + intros p. destruct (Hc' p) as [-> ->], (Hc p) as [-> ->].
      unfold add_amounts. cbn [List.filter].
      destruct (counted p e); cbn [length fold_left]; (split; [lia|done]).
Qed.

(** Every entry of a tally that starts empty has a count above 0. *)
Lemma tally_entries es tally p c t :
  tx_tally_all [] es = Some tally → (p, (c, t)) ∈ tally →
  c = length (List.filter (counted p) es) ∧ t = add_amounts p es 0.
Proof.
  intros Ht Hin. pose proof (tx_tally_all_spec es []) as Hs.
  rewrite Ht in Hs. destruct Hs as (_ & Hnd & Hc).
  specialize (Hnd (NoDup_nil_2)). specialize (Hc p).
  unfold count_in, total_in in Hc.
  rewrite (pair_lookup _ _ _ Hnd Hin) in Hc. cbn in Hc. done.
Qed.

Lemma tally_keys es : ∀ tally tally' p,
  tx_tally_all tally es = Some tally' →
  p ∈ Dict.keys tally' ↔
  p ∈ Dict.keys tally ∨ ∃ e, e ∈ es ∧ counted p e = true.
Proof.
  induction es as [|e es IH]; intros tally tally' p; cbn [tx_tally_all].
  - intros [= <-]. split; [by left|]. intros [?|(e & He & _)]; [done|].
    by apply elem_of_nil in He.
  - destruct (tx_tally tally e) as [t1|] eqn:H1; [|done]. intros H2.
    rewrite (IH _ _ _ H2). unfold tx_tally in H1. unfold counted.
    fold (is_transfer e) in H1. destruct (is_transfer e) eqn:Htr.
    + destruct (default _ _) as [c t]. destruct (amount_of e); [|done].
      injection H1 as <-. rewrite elem_of_keys_set. split.
      * intros [ [? | ->] | (e' & He' & Hc) ]; [by left| |].
        -- right. exists e. split; [apply list_elem_of_here|].
           rewrite Htr. by apply bool_decide_eq_true_2.
        -- right. exists e'. split; [by apply list_elem_of_further|done].
      * intros [?|(e' & [->|He']%elem_of_cons & Hc)]; [by left; left| |].
        -- rewrite Htr in Hc. apply bool_decide_eq_true in Hc. left. by right.
        -- right. by exists e'.
    + injection H1 as <-. split.
      * intros [?|(e' & He' & Hc)]; [by left|]. right. exists e'.
        split; [by apply list_elem_of_further|done].
      * intros [?|(e' & [->|He']%elem_of_cons & Hc)]; [by left| |].
        -- by rewrite Htr in Hc.
        -- right. by exists e'.
Qed.

(** The edge that the rule infers for a pair. *)
Definition pattern_edge (conf : Q) (p : pystr * pystr) (count : nat)
    (total : Q) : NetworkEdge :=
  {| id := str "inferred_tx_" ++ p.1 ++ str "_" ++ p.2;
     source_id := p.1; target_id := p.2;
     relationship_type := TRANSACTED_WITH;
     weight := Qnat count; attributes := [];
     evidence := [[ (str "rule", AStr (str "transaction_pattern"));
                    (str "transaction_count", ANum (Qnat count));
                    (str "total_amount", ANum total) ]];
     confidence := Qmin 1 (conf + Qnat count * (2 # 100)) |}.

(** The number of the edges counted under [p]. *)
Definition transfers (p : pystr * pystr) (es : list NetworkEdge) : nat :=
  length (List.filter (counted p) es).

Lemma pattern_apply_spec n conf net :
  let es := Dict.values (edges net) in
  match transaction_pattern_apply n conf net with
  | None => Exists (λ e, bad_amount e = true) es
  | Some l =>
      Forall (λ e, bad_amount e = false) es
      ∧ ∀ e, e ∈ l ↔
          ∃ p, 0 < transfers p es ∧ n ≤ transfers p es
               ∧ e = pattern_edge conf p (transfers p es)
                       (add_amounts p es 0)
  end.
Proof.
  intros es. unfold transaction_pattern_apply, transfers. fold es.
  pose proof (tx_tally_all_spec es []) as Hs.
  destruct (tx_tally_all [] es) as [tally|] eqn:Ht; [|done].
  destruct Hs as (Hb & Hnd & Hc). specialize (Hnd (NoDup_nil_2)).
  split; [done|]. intros e. split.
  - intros (x & Hx & He)%list_elem_of_In%in_flat_map.
    destruct x as [[a b] [c t]]. apply list_elem_of_In in Hx.
    destruct (tally_entries _ _ _ _ _ Ht Hx) as [Hcount Htotal].
    destruct (Nat.leb_spec n c) as [Hle|Hgt]; [|done].
    destruct He as [<-|[]]. exists (a, b). rewrite <- Hcount, <- Htotal.
    split_and!; [|done|done].
    assert (Hk : (a, b) ∈ Dict.keys tally)
      by (by apply (list_elem_of_fmap_2 fst _ ((a, b), (c, t)))).
    apply (tally_keys _ _ _ _ Ht) in Hk as [Hk|(e & He & Hce)];
      [by apply elem_of_nil in Hk|].
    rewrite Hcount. apply list_elem_of_In in He.
    assert (Hin : In e (List.filter (counted (a, b)) es))
      by (apply filter_In; done).
    destruct (List.filter _ es); [done|cbn; lia].
  - intros (p & Hpos & Hn & ->). destruct (Hc p) as [Hcp Htp].
    unfold count_in, total_in in Hcp, Htp. cbn [Dict.get] in Hcp, Htp.
    destruct (Dict.get tally p) as [[c t]|] eqn:Hg; [|lia].
    cbn in Hcp. subst c t. apply list_elem_of_In, in_flat_map.
    exists (p, (length (List.filter (counted p) es), add_amounts p es 0)).
    split; [by apply list_elem_of_In, get_elem_of|].
    destruct p as [a b].
    destruct (Nat.leb_spec n (length (List.filter (counted (a, b)) es)));
      [by left|lia].
Qed.


(** *** extract_relationships_from_transactions *)

Lemma add_edges_get (es : list NetworkEdge) : ∀ net k,
  Dict.get (edges (fold_left add_edge es net)) k
  = match last (filter (λ e, id e = k) es) with
    | Some e => Some e
    | None => Dict.get (edges net) k
    end.
Proof.
  induction es as [|e es IH]; intros net k; cbn [fold_left]; [done|].
  rewrite IH. cbn [add_edge edges]. rewrite get_set.
  destruct (decide (id e = k)) as [Hk|Hk].
  - rewrite filter_cons_True by done.
    destruct (filter _ es) as [|x xs] eqn:Hf; [done|].
    change (last (e :: x :: xs)) with (last (x :: xs)).
    destruct (last (x :: xs)) as [y|] eqn:Hl; [done|].
    by apply last_None in Hl.
  - by rewrite filter_cons_False by done.
Qed.

Lemma add_edges_nodes (es : list NetworkEdge) : ∀ net,
  nodes (fold_left add_edge es net) = nodes net.
Proof. induction es as [|e es IH]; intros net; cbn; [done|]. by rewrite IH. Qed.

Section WithHashlib.
Context {H : Hashlib}.

(** The edge that the loop makes for a transaction, if it names both
    parties. *)
Definition transaction_edge (tx : Transaction) : option NetworkEdge :=
  match sender_entity_id tx, receiver_entity_id tx with
  | Some sender_id, Some receiver_id =>
      if truthy sender_id && truthy receiver_id then
        Some (create_edge new_engine sender_id receiver_id SENT_TO
                (Some [ (str "transaction_id", tx_id tx);
                        (str "amount", get_num (amount tx));
                        (str "currency", currency tx);
                        (str "date", transaction_date tx) ])
                (default 1%Q (amount tx)) 1).2
      else None
  | _, _ => None
  end.

Lemma transaction_step_edge st tx :
  transaction_step st tx
  = match transaction_edge tx with
    | Some e => ({| network := add_edge (network st.1) e;
                    inference_rules := inference_rules st.1 |}, st.2 ++ [e])
    | None => st
    end.
Proof.
  unfold transaction_step, transaction_edge.
  destruct (sender_entity_id tx) as [s|], (receiver_entity_id tx) as [r|];
    try done.
  destruct (truthy s), (truthy r); done.
Qed.

Lemma extract_fold txs : ∀ eng acc,
  fold_left transaction_step txs (eng, acc)
  = ({| network := fold_left add_edge (omap transaction_edge txs)
                     (network eng);
        inference_rules := inference_rules eng |},
     acc ++ omap transaction_edge txs).
Proof.
  induction txs as [|tx txs IH]; intros eng acc; cbn [fold_left].
  - cbn. rewrite app_nil_r. by destruct eng.
  - rewrite transaction_step_edge. cbn [fst snd].
    change (omap transaction_edge (tx :: txs))
      with (match transaction_edge tx with
            | Some y => y :: omap transaction_edge txs
            | None => omap transaction_edge txs
            end).
    destruct (transaction_edge tx) as [e|].
    + rewrite IH. cbn [network inference_rules fold_left].
      by rewrite <- app_assoc.
    + apply IH.
Qed.

(** X23: [extract_relationships_from_transactions] returns one edge for each
    transaction that names a sender and a receiver, in the order of the
    transactions, and leaves the nodes and the rules as they are. The
    network keeps, under each edge id, only the edge of the last of the
    transactions with that id: the transactions from one sender to one
    receiver share their id, so they collapse onto one stored edge. *)
Theorem transactions_collapse (eng : Engine) (txs : list Transaction) :
  let res := extract_relationships_from_transactions eng txs in
  res.2 = omap transaction_edge txs
  ∧ (∀ tx e, transaction_edge tx = Some e →
       ∃ s r, sender_entity_id tx = Some s ∧ receiver_entity_id tx = Some r
              ∧ id e = edge_id s r SENT_TO ∧ source_id e = s
              ∧ target_id e = r)
  ∧ nodes (network res.1) = nodes (network eng)
  ∧ inference_rules res.1 = inference_rules eng
  ∧ ∀ k, Dict.get (edges (network res.1)) k
         = match last (filter (λ e, id e = k) res.2) with
           | Some e => Some e
           | None => Dict.get (edges (network eng)) k
           end.
Proof.
  intros res. unfold res, extract_relationships_from_transactions.
  rewrite extract_fold. cbn [fst snd network inference_rules app].
  split_and!; [done| |apply add_edges_nodes|done|intros k; apply add_edges_get].
  intros tx e. unfold transaction_edge.
  destruct (sender_entity_id tx) as [s|], (receiver_entity_id tx) as [r|];
    try done.
  destruct (truthy s && truthy r); [|done]. intros [= <-]. by exists s, r.
Qed.








Lemma transaction_edge_shape tx e :
  transaction_edge tx = Some e →
  relationship_type e = SENT_TO
  ∧ id e = edge_id (source_id e) (target_id e) SENT_TO
  ∧ amount_of e = amount tx.
Proof.
  unfold transaction_edge.
  destruct (sender_entity_id tx) as [s|], (receiver_entity_id tx) as [r|];
    try done.
  destruct (truthy s && truthy r); [|done]. intros [= <-].
  split_and!; [done|done|]. unfold amount_of, create_edge.
  cbn [snd attributes default]. by destruct (amount tx).
Qed.


Lemma inference_steps_keep es : ∀ (st : Network * list NetworkEdge) k x,
  Dict.get (edges st.1) k = Some x →
  Dict.get (edges (fold_left inference_edge_step es st).1) k = Some x.
Proof.
  induction es as [|e es IH]; intros [net acc] k x Hk; cbn [fold_left];
    [done|].
  apply IH. unfold inference_edge_step. cbn [fst] in Hk.
  destruct (Dict.mem (edges net) (id e)) eqn:Hm; cbn [negb fst]; [done|].
  cbn [add_edge edges]. rewrite get_set_ne; [done|]. intros <-.
  unfold Dict.mem in Hm. by rewrite Hk in Hm.
Qed.

(** X25: A transaction that names both parties and has no [amount] leaves an
    edge whose [amount] is [None]; unless a later transaction of the same
    sender and receiver replaces that edge, [run_inference] with the default
    rules then raises, in [TransactionPatternRule.apply]. *)
Theorem missing_amount_stops_inference (eng : Engine)
    (before after : list Transaction) (tx : Transaction) (e : NetworkEdge) :
  inference_rules eng = default_rules →
  transaction_edge tx = Some e → amount tx = None →
  Forall (λ tx', ∀ e', transaction_edge tx' = Some e' → id e' ≠ id e) after →
  let eng' :=
    (extract_relationships_from_transactions eng (before ++ tx :: after)).1 in
  Dict.get (edges (network eng')) (id e) = Some e
  ∧ Dict.get (attributes e) (str "amount") = Some ANone
  ∧ (∀ n conf, transaction_pattern_apply n conf (network eng') = None)
  ∧ (run_inference eng').2 = None.
Proof.
  intros Hrules Hedge Hamount Hafter eng'.
  assert (Hget : Dict.get (edges (network eng')) (id e) = Some e).
  { unfold eng', extract_relationships_from_transactions.
    rewrite extract_fold. cbn [fst network]. rewrite add_edges_get.
    rewrite omap_app. cbn [omap list_omap]. rewrite Hedge.
    rewrite filter_app, filter_cons_True by done.
    replace (filter (λ e0, id e0 = id e) (omap transaction_edge after))
      with (@nil NetworkEdge).
    - by rewrite last_snoc.
    - symmetry. apply elem_of_nil_inv.
      intros x [Hid (tx' & Htx' & Hx)%list_elem_of_omap]%list_elem_of_filter.
      rewrite Forall_forall in Hafter. by apply (Hafter tx' Htx' x). }
  assert (Hattr : Dict.get (attributes e) (str "amount") = Some ANone).
  { unfold transaction_edge in Hedge.
    destruct (sender_entity_id tx) as [s|], (receiver_entity_id tx) as [r|];
      try done.
    destruct (truthy s && truthy r); [|done]. injection Hedge as <-.
    rewrite Hamount. done. }
  assert (Hbad : bad_amount e = true).
  { apply transaction_edge_shape in Hedge as (Ht & _ & Ha).
    unfold bad_amount, is_transfer. rewrite Ht, Ha, Hamount. done. }
  assert (Hstop : ∀ n conf net,
    Dict.get (edges net) (id e) = Some e →
    transaction_pattern_apply n conf net = None).
  { intros n conf net Hin. pose proof (pattern_apply_spec n conf net) as Hs.
    destruct (transaction_pattern_apply n conf net) as [l|]; [|done].
    destruct Hs as [Hall _]. rewrite Forall_forall in Hall.
    rewrite (Hall e) in Hbad; [done|]. by apply (get_values _ (id e)). }
  split_and!; [done|done|by intros n conf; apply Hstop|].
  unfold run_inference.
  assert (Hr : inference_rules eng' = default_rules).
  { unfold eng', extract_relationships_from_transactions.
    by rewrite extract_fold. }
  rewrite Hr. unfold default_rules.
  cbn [inference_loop apply SharedAttributeRule TransactionPatternRule fst].
  set (st1 := fold_left inference_edge_step _ (network eng', [])).
  set (st2 := fold_left inference_edge_step _ st1).
  set (st3 := fold_left inference_edge_step _ st2).
  rewrite (Hstop 3 (85 # 100) st3.1); [done|].
  unfold st3, st2, st1. by do 3 apply inference_steps_keep.
Qed.

End WithHashlib.

Definition payment (i a b : string) (amt : option Q) : Transaction :=
  {| tx_id := AStr (str i); sender_entity_id := Some (str a);
     receiver_entity_id := Some (str b); amount := amt;
     currency := AStr (str "USD"); transaction_date := ANone |}.


Lemma missing_amount_stops_inference_witness :
  let H := Examples.plain_digest in
  let tx := payment "t1" "A" "B" None in
  amount tx = None
  ∧ (run_inference
       (extract_relationships_from_transactions new_engine [tx]).1).2 = None.
Proof.
  intros H tx.
  assert (Hamount : amount tx = None) by reflexivity.
  assert (Hrules : inference_rules new_engine = default_rules)
    by reflexivity.
  destruct (transaction_edge tx) as [e|] eqn:Hedge; [|done].
  split; [exact Hamount|].
  apply (missing_amount_stops_inference new_engine [] [] tx e
           Hrules Hedge Hamount (Forall_nil_2 _)).
Defined.

End TransactionFacts.

(** ** The inference rules and run_inference *)

Module InferenceFacts.
Import NetworkGeneration DictFacts NetworkFacts TransactionFacts.

(** *** Equality of attribute values *)

Lemma attr_eqb_refl v : attr_eqb v v = true.
Proof.
  destruct v as [|s|q]; cbn; [done| |].
  - by apply bool_decide_eq_true_2.
  - by apply Qeq_bool_iff.
Qed.

Lemma attr_eqb_sym v w : attr_eqb v w = attr_eqb w v.
Proof.
  destruct v as [|s|q], w as [|s'|q']; cbn; try done.
  - unfold str_eqb. apply bool_decide_ext. split; by intros ->.
  - apply eq_true_iff_eq. rewrite !Qeq_bool_iff. split; by intros ->.
Qed.

Lemma attr_eqb_trans u v w :
  attr_eqb u v = true → attr_eqb v w = true → attr_eqb u w = true.
Proof.
  destruct u as [|s|q], v as [|s'|q'], w as [|s''|q'']; cbn; try done.
  - unfold str_eqb. rewrite !bool_decide_eq_true. congruence.
  - rewrite !Qeq_bool_iff. intros -> ->. reflexivity.
Qed.

Lemma attr_eqb_truthy v w :
  attr_eqb v w = true → attr_truthy v = attr_truthy w.
Proof.
  destruct v as [|s|q], w as [|s'|q']; cbn; try done.
  - unfold str_eqb. rewrite bool_decide_eq_true. by intros ->.
  - rewrite Qeq_bool_iff. intros Hq. f_equal.
    apply eq_true_iff_eq. rewrite !Qeq_bool_iff. by rewrite Hq.
Qed.

(** *** SharedAttributeRule.apply *)

(** The node has a truthy value of the attribute, equal to [v]. *)
Definition holds (a : pystr) (v : attr) (n : NetworkNode) : bool :=
  match Dict.get (node_attributes n) a with
  | Some v' => attr_truthy v' && attr_eqb v v'
  | None => false
  end.

(** The body of the first loop of [apply]. *)
Definition group_step (a : pystr) (groups : list (attr * list NetworkNode))
    (node : NetworkNode) : list (attr * list NetworkNode) :=
  match Dict.get (node_attributes node) a with
  | Some v => if attr_truthy v then group_append groups v node else groups
  | None => groups
  end.

(** The edge of the second loop for [node_a], [node_b] of the group [v]. *)
Definition shared_edge (a : pystr) (t : RelationshipType) (c : Q)
    (node_a node_b : NetworkNode) (v : attr) : NetworkEdge :=
  {| id := str "inferred_" ++ node_id node_a ++ str "_"
           ++ node_id node_b ++ str "_" ++ a;
     source_id := node_id node_a;
     target_id := node_id node_b;
     relationship_type := t;
     weight := 1;
     attributes := [];
     evidence := [[ (str "rule", AStr (str "shared_attribute"));
                    (str "attribute", AStr a);
                    (str "value", v) ]];
     confidence := c |}.

(** No two groups have equal keys. *)
Definition distinct_keys (gs : list (attr * list NetworkNode)) : Prop :=
  ∀ i j g1 g2, gs !! i = Some g1 → gs !! j = Some g2 →
               attr_eqb g1.1 g2.1 = true → i = j.

Definition extend_group (v : attr) (n : NetworkNode)
    (g : attr * list NetworkNode) : attr * list NetworkNode :=
  if attr_eqb g.1 v then (g.1, g.2 ++ [n]) else g.

Lemma extend_group_key v n g : (extend_group v n g).1 = g.1.
Proof. unfold extend_group. by destruct (attr_eqb g.1 v). Qed.

Lemma group_append_closed gs v n :
  distinct_keys gs →
  group_append gs v n
  = map (extend_group v n) gs
    ++ (if existsb (λ g, attr_eqb g.1 v) gs then [] else [(v, [n])]).
Proof.
  induction gs as [|[vk l] gs IH]; intros Hd; cbn [group_append map existsb];
    [done|].
  unfold extend_group at 1. cbn [fst snd].
  destruct (attr_eqb vk v) eqn:Hk; cbn [orb].
  - rewrite app_nil_r. f_equal. symmetry.
    rewrite <- (map_id gs) at 2. apply map_ext_in.
    intros g Hg%list_elem_of_In. unfold extend_group.
    destruct (attr_eqb g.1 v) eqn:Hg'; [|done]. exfalso.
    apply list_elem_of_lookup in Hg as [j Hj].
    assert (0 = S j); [|done].
    apply (Hd 0 (S j) (vk, l) g); [done|done|]. cbn [fst].
    apply (attr_eqb_trans _ v); [done|]. by rewrite attr_eqb_sym.
  - cbn [app]. f_equal. apply IH. intros i j g1 g2 Hi Hj He.
    assert (S i = S j) as [= ->]; [|done]. by apply (Hd (S i) (S j) g1 g2).
Qed.

(** What the first loop has built from the nodes [ns]. *)
Definition grouped_by (a : pystr) (ns : list NetworkNode)
    (gs : list (attr * list NetworkNode)) : Prop :=
  distinct_keys gs
  ∧ (∀ g, g ∈ gs →
       g.2 = List.filter (holds a g.1) ns
       ∧ ∃ n0 rest, g.2 = n0 :: rest
                    ∧ Dict.get (node_attributes n0) a = Some g.1
                    ∧ attr_truthy g.1 = true)
  ∧ ∀ n v, n ∈ ns → Dict.get (node_attributes n) a = Some v →
           attr_truthy v = true → ∃ g, g ∈ gs ∧ attr_eqb g.1 v = true.

Lemma filter_none_in {A} (p : A → bool) (l : list A) :
  (∀ x, x ∈ l → p x = false) → List.filter p l = [].
Proof.
  induction l as [|x l IH]; intros Hp; [done|]. cbn [List.filter].
  rewrite (Hp x) by apply list_elem_of_here. apply IH.
  intros y Hy. by apply Hp, list_elem_of_further.
Qed.

Lemma filter_snoc {A} (p : A → bool) (l : list A) (x : A) :
  List.filter p (l ++ [x]) = List.filter p l ++ (if p x then [x] else []).
Proof. by rewrite List.filter_app. Qed.

Lemma grouped_by_step a ns gs n :
  grouped_by a ns gs → grouped_by a (ns ++ [n]) (group_step a gs n).
Proof.
  intros (Hd & Hg & Hc). unfold group_step.
  destruct (Dict.get (node_attributes n) a) as [v|] eqn:Hv.
  2:{ split_and!; [done| |].
      - intros g Hin. destruct (Hg g Hin) as [Hf Hh]. split; [|done].
        rewrite filter_snoc, <- Hf. unfold holds. rewrite Hv.
        by rewrite app_nil_r.
      - intros n' v' [Hn' | ->%list_elem_of_singleton]%elem_of_app Hv' Ht;
          [by eapply Hc|congruence]. }
  destruct (attr_truthy v) eqn:Htv.
  2:{ split_and!; [done| |].
      - intros g Hin. destruct (Hg g Hin) as [Hf Hh]. split; [|done].
        rewrite filter_snoc, <- Hf. unfold holds. rewrite Hv, Htv.
        by rewrite app_nil_r.
      - intros n' v' [Hn' | ->%list_elem_of_singleton]%elem_of_app Hv' Ht;
          [by eapply Hc|congruence]. }
  rewrite (group_append_closed _ _ _ Hd).
  assert (Hold : ∀ g, g ∈ gs →
    (extend_group v n g).2 = List.filter (holds a g.1) (ns ++ [n])
    ∧ ∃ n0 rest, (extend_group v n g).2 = n0 :: rest
                 ∧ Dict.get (node_attributes n0) a = Some g.1
                 ∧ attr_truthy g.1 = true).
  { intros g Hin. destruct (Hg g Hin) as [Hf (n0 & rest & Hl & Hn0 & Ht)].
    rewrite filter_snoc, <- Hf. unfold holds, extend_group.
    rewrite Hv, Htv. cbn [andb].
    destruct (attr_eqb g.1 v); cbn [snd].
    - split; [done|]. exists n0, (rest ++ [n]). by rewrite Hl.
    - rewrite app_nil_r. split; [done|]. by exists n0, rest. }
  split_and!.
  - intros i j g1 g2 Hi Hj He.
    destruct (existsb _ gs) eqn:Hex.
    + rewrite app_nil_r in Hi, Hj. rewrite list_lookup_fmap in Hi, Hj.
      destruct (gs !! i) as [x|] eqn:Hxi; [|done].
      destruct (gs !! j) as [y|] eqn:Hyj; [|done].
      cbn in Hi, Hj. injection Hi as <-. injection Hj as <-.
      rewrite !extend_group_key in He. by apply (Hd i j x y).
    + assert (Hnone : ∀ g, g ∈ gs → attr_eqb g.1 v = false).
      { intros g Hin. destruct (attr_eqb g.1 v) eqn:E; [|done].
        assert (existsb (λ g, attr_eqb g.1 v) gs = true); [|congruence].
        apply existsb_exists. exists g. split; [by apply list_elem_of_In|done]. }
      apply lookup_app_Some in Hi as [Hi|[Hli Hi]];
        apply lookup_app_Some in Hj as [Hj|[Hlj Hj]];
        rewrite ?length_map in *.
      * rewrite list_lookup_fmap in Hi, Hj.
        destruct (gs !! i) as [x|] eqn:Hxi; [|done].
        destruct (gs !! j) as [y|] eqn:Hyj; [|done].
        cbn in Hi, Hj. injection Hi as <-. injection Hj as <-.
        rewrite !extend_group_key in He. by apply (Hd i j x y).
      * exfalso. apply list_lookup_singleton_Some in Hj as [_ <-].
        rewrite list_lookup_fmap in Hi.
        destruct (gs !! i) as [x|] eqn:Hxi; [|done]. cbn in Hi.
        injection Hi as <-. rewrite extend_group_key in He. cbn [fst] in He.
        rewrite (Hnone x) in He; [done|]. by eapply list_elem_of_lookup_2.
      * exfalso. apply list_lookup_singleton_Some in Hi as [_ <-].
        rewrite list_lookup_fmap in Hj.
        destruct (gs !! j) as [y|] eqn:Hyj; [|done]. cbn in Hj.
        injection Hj as <-. rewrite extend_group_key in He. cbn [fst] in He.
        rewrite attr_eqb_sym, (Hnone y) in He; [done|].
        by eapply list_elem_of_lookup_2.
      * apply list_lookup_singleton_Some in Hi as [Hi _].
        apply list_lookup_singleton_Some in Hj as [Hj _]. lia.
  - intros g [(g0 & -> & Hin)%list_elem_of_fmap|Hin]%elem_of_app.
    + rewrite extend_group_key. by apply Hold.
    + destruct (existsb _ gs) eqn:Hex; [by apply elem_of_nil in Hin|].
      apply list_elem_of_singleton in Hin as ->. cbn [fst snd].
      assert (Hnil : List.filter (holds a v) ns = []).
      { apply filter_none_in. intros n' Hn'. unfold holds.
        destruct (Dict.get (node_attributes n') a) as [v'|] eqn:Hv'; [|done].
        destruct (attr_truthy v') eqn:Ht'; [|done]. cbn [andb].
        destruct (attr_eqb v v') eqn:E; [|done].
        destruct (Hc n' v' Hn' Hv' Ht') as (g & Hg' & Hgv).
        assert (existsb (λ g, attr_eqb g.1 v) gs = true); [|congruence].
        apply existsb_exists. exists g. split; [by apply list_elem_of_In|].
        apply (attr_eqb_trans _ v'); [done|]. by rewrite attr_eqb_sym. }
      rewrite filter_snoc, Hnil. unfold holds at 1.
      rewrite Hv, Htv, attr_eqb_refl. cbn [andb app]. split; [done|].
      by exists n, [].
  - intros n' v' [Hn' | ->%list_elem_of_singleton]%elem_of_app Hv' Ht'.
    + destruct (Hc n' v' Hn' Hv' Ht') as (g & Hin & He).
      exists (extend_group v n g). rewrite extend_group_key.
      split; [|done]. apply elem_of_app. left. by apply list_elem_of_fmap_2.
    + assert (v' = v) as -> by congruence.
      destruct (existsb _ gs) eqn:Hex.
      * apply existsb_exists in Hex as (g & Hin%list_elem_of_In & He).
        exists (extend_group v n g). rewrite extend_group_key.
        split; [|done]. apply elem_of_app. left. by apply list_elem_of_fmap_2.
      * exists (v, [n]). cbn [fst]. split; [|apply attr_eqb_refl].
        apply elem_of_app. right. by apply list_elem_of_singleton.
Qed.

Lemma grouped_by_fold a ns : ∀ seen gs,
  grouped_by a seen gs →
  grouped_by a (seen ++ ns) (fold_left (group_step a) ns gs).
Proof.
  induction ns as [|n ns IH]; intros seen gs Hg; cbn [fold_left].
  - by rewrite app_nil_r.
  - rewrite (cons_middle n seen ns), app_assoc. by apply IH, grouped_by_step.
Qed.

Lemma pairs_filter {A} (p : A → bool) (l : list A) a b :
  (a, b) ∈ pairs_in_order (List.filter p l)
  ↔ (a, b) ∈ pairs_in_order l ∧ p a = true ∧ p b = true.
Proof.
  induction l as [|x l IH]; cbn [List.filter].
  - cbn. rewrite elem_of_nil. tauto.
  - destruct (p x) eqn:Hx.
    + rewrite !ResolveFacts.elem_of_pairs_cons, IH.
      rewrite list_elem_of_In, filter_In, <- list_elem_of_In.
      split.
      * intros [[-> [Hb Hpb]]|(Hin & Hpa & Hpb)]; [by auto|tauto].
      * intros [[[-> Hb]|Hin] [Hpa Hpb]]; [by left|by right].
    + rewrite ResolveFacts.elem_of_pairs_cons, IH. split; [tauto|].
      intros [[[-> Hb]|Hin] [Hpa Hpb]]; [congruence|done].
Qed.

Lemma find_filter_head {A} (p : A → bool) (l : list A) x rest :
  List.filter p l = x :: rest → List.find p l = Some x.
Proof.
  induction l as [|y l IH]; cbn [List.filter List.find]; [done|].
  destruct (p y); [by intros [= ->]|done].
Qed.

Lemma find_same {A} (p q : A → bool) (l : list A) :
  (∀ x, p x = q x) → List.find p l = List.find q l.
Proof.
  intros Hpq. induction l as [|x l IH]; cbn [List.find]; [done|].
  by rewrite Hpq, IH.
Qed.

Lemma holds_same a v w n :
  attr_eqb v w = true → holds a v n = holds a w n.
Proof.
  intros Hvw. unfold holds.
  destruct (Dict.get (node_attributes n) a) as [x|]; [|done]. f_equal.
  apply eq_true_iff_eq. split; intros Hx.
  - apply (attr_eqb_trans _ v); [by rewrite attr_eqb_sym|done].
  - by apply (attr_eqb_trans _ w).
Qed.

Lemma shared_apply_groups a t c net :
  shared_attribute_apply a t c net
  = flat_map
      (λ g, if length g.2 <? 2 then []
            else map (λ ab, shared_edge a t c ab.1 ab.2 g.1)
                   (pairs_in_order g.2))
      (fold_left (group_step a) (Dict.values (nodes net)) []).
Proof.
  unfold shared_attribute_apply. apply flat_map_ext. intros [v ns].
  cbn [fst snd]. destruct (length ns <? 2); [done|].
  apply map_ext. by intros [na nb].
Qed.

Lemma grouped_by_nodes a net :
  grouped_by a (Dict.values (nodes net))
    (fold_left (group_step a) (Dict.values (nodes net)) []).
Proof.
  apply (grouped_by_fold a (Dict.values (nodes net)) [] []).
  split_and!.
  - intros i j g1 g2 Hi. done.
  - by intros g ?%elem_of_nil.
  - by intros n v ?%elem_of_nil.
Qed.

(** X26: [SharedAttributeRule.apply] links exactly the pairs of nodes that
    have equal, truthy values of the attribute: it returns, for each such
    pair, the edge from the node that comes first in the network to the one
    that comes later, with the type and the confidence of the rule and
    weight 1, and nothing else. The value in the evidence is that of the
    first node of the network with an equal value. *)
Theorem shared_attribute_links (a : pystr) (t : RelationshipType) (c : Q)
    (net : Network) (e : NetworkEdge) :
  e ∈ shared_attribute_apply a t c net ↔
  ∃ na nb va vb n0 v,
    (na, nb) ∈ pairs_in_order (Dict.values (nodes net))
    ∧ Dict.get (node_attributes na) a = Some va ∧ attr_truthy va = true
    ∧ Dict.get (node_attributes nb) a = Some vb ∧ attr_eqb va vb = true
    ∧ List.find (holds a va) (Dict.values (nodes net)) = Some n0
    ∧ Dict.get (node_attributes n0) a = Some v
    ∧ e = shared_edge a t c na nb v.
Proof.
  rewrite shared_apply_groups.
  destruct (grouped_by_nodes a net) as (Hd & Hg & Hc).
  set (ns := Dict.values (nodes net)) in *.
  set (gs := fold_left (group_step a) ns []) in *.
  rewrite list_elem_of_In, in_flat_map. split.
  - intros ([v l] & Hin%list_elem_of_In & He). cbn [fst snd] in He.
    destruct (length l <? 2); [done|].
    apply list_elem_of_In, list_elem_of_fmap in He as ([na nb] & -> & Hp).
    cbn [fst snd].
    destruct (Hg _ Hin) as [Hf (n0 & rest & Hl & Hn0 & Ht)].
    cbn [fst snd] in *. rewrite Hf in Hp.
    apply pairs_filter in Hp as (Hp & Ha & Hb). unfold holds in Ha, Hb.
    destruct (Dict.get (node_attributes na) a) as [va|] eqn:Hva; [|done].
    destruct (Dict.get (node_attributes nb) a) as [vb|] eqn:Hvb; [|done].
    apply andb_true_iff in Ha as [Hta Hea], Hb as [Htb Heb].
    exists na, nb, va, vb, n0, v. split_and!; try done.
    + apply (attr_eqb_trans _ v); [by rewrite attr_eqb_sym|done].
    + rewrite <- (find_same (holds a v)) by (intros x; by apply holds_same).
      apply (find_filter_head _ _ _ rest). by rewrite <- Hf.
  - intros (na & nb & va & vb & n0 & v & Hp & Hva & Hta & Hvb & Hab & Hfind
            & Hv & ->).
    destruct (ResolveFacts.pairs_in_order_elems _ _ _ Hp) as [Hna Hnb].
    destruct (Hc na va Hna Hva Hta) as ([vg l] & Hin & Heg).
    cbn [fst] in Heg. exists (vg, l). split; [by apply list_elem_of_In|].
    cbn [fst snd].
    destruct (Hg _ Hin) as [Hf (n1 & rest & Hl & Hn1 & Ht)].
    cbn [fst snd] in *.
    assert (Hin_l : (na, nb) ∈ pairs_in_order l).
    { rewrite Hf. apply pairs_filter. split_and!; [done| |]; unfold holds.
      - by rewrite Hva, Hta, Heg.
      - rewrite Hvb, <- (attr_eqb_truthy _ _ Hab), Hta.
        by rewrite (attr_eqb_trans _ _ _ Heg Hab). }
    assert (n1 = n0) as ->.
    { assert (List.find (holds a vg) ns = Some n1) as Hf1
        by (apply (find_filter_head _ _ _ rest); by rewrite <- Hf).
      rewrite (find_same _ (holds a va)) in Hf1
        by (intros x; by apply holds_same).
      congruence. }
    assert (vg = v) as -> by congruence.
    destruct (Nat.ltb_spec (length l) 2) as [Hlt|_].
    { destruct l as [|x [|y l']]; cbn in Hlt; try lia;
        by apply elem_of_nil in Hin_l. }
    apply in_map_iff. exists (na, nb). split; [done|].
    by apply list_elem_of_In.
Qed.

(** *** run_inference, a second time *)

(** The rules of the library, with a shared-attribute rule that does not
    itself make SENT_TO or RECEIVED_FROM edges. *)
Inductive standard_rule : RelationshipInferenceRule → Prop :=
  | standard_shared a t c :
      t ≠ SENT_TO → t ≠ RECEIVED_FROM →
      standard_rule (SharedAttributeRule a t c)
  | standard_pattern n c : standard_rule (TransactionPatternRule n c).

Lemma default_rules_standard : Forall standard_rule default_rules.
Proof. unfold default_rules. repeat constructor; done. Qed.

(** [net'] has the nodes of [net], the same SENT_TO and RECEIVED_FROM
    edges in the same order, and at least the edge ids of [net]. *)
Definition same_basis (net net' : Network) : Prop :=
  nodes net' = nodes net
  ∧ List.filter is_transfer (Dict.values (edges net'))
    = List.filter is_transfer (Dict.values (edges net))
  ∧ ∀ k, k ∈ Dict.keys (edges net) → k ∈ Dict.keys (edges net').

Lemma same_basis_refl net : same_basis net net.
Proof. by split_and!. Qed.

Lemma same_basis_trans n1 n2 n3 :
  same_basis n1 n2 → same_basis n2 n3 → same_basis n1 n3.
Proof.
  intros (N1 & F1 & K1) (N2 & F2 & K2). split_and!; [congruence..|auto].
Qed.

Lemma tally_filter es : ∀ tally,
  tx_tally_all tally (List.filter is_transfer es) = tx_tally_all tally es.
Proof.
  induction es as [|e es IH]; intros tally; cbn [List.filter tx_tally_all];
    [done|].
  destruct (is_transfer e) eqn:Ht; cbn [tx_tally_all].
  - destruct (tx_tally tally e); [apply IH|done].
  - unfold tx_tally. fold (is_transfer e). rewrite Ht. apply IH.
Qed.

Lemma shared_edges_type a t c net e :
  e ∈ shared_attribute_apply a t c net → relationship_type e = t.
Proof.
  rewrite shared_apply_groups.
  intros (g & _ & He)%list_elem_of_In%in_flat_map.
  destruct (length g.2 <? 2); [done|].
  by apply in_map_iff in He as (ab & <- & _).
Qed.

Lemma standard_apply r net net' :
  standard_rule r → same_basis net net' → apply r net' = apply r net.
Proof.
  intros [a t c _ _|n c] (Hn & Hf & _); cbn [apply SharedAttributeRule
    TransactionPatternRule].
  - unfold shared_attribute_apply. by rewrite Hn.
  - unfold transaction_pattern_apply.
    by rewrite <- (tally_filter (Dict.values (edges net'))), Hf, tally_filter.
Qed.

Lemma standard_edges r net l :
  standard_rule r → apply r net = Some l →
  Forall (λ e, is_transfer e = false) l.
Proof.
  intros [a t c Ht1 Ht2|n c]; cbn [apply SharedAttributeRule
    TransactionPatternRule]; intros Hl; apply Forall_forall; intros e He.
  - injection Hl as <-. apply shared_edges_type in He.
    unfold is_transfer. rewrite He.
    by rewrite !bool_decide_eq_false_2.
  - pose proof (pattern_apply_spec n c net) as Hs. rewrite Hl in Hs.
    destruct Hs as [_ Hs]. apply Hs in He as (p & _ & _ & ->). done.
Qed.

Lemma set_absent {V} (d : dict pystr V) k v :
  Dict.mem d k = false → Dict.set d k v = d ++ [(k, v)].
Proof.
  unfold Dict.mem. induction d as [|[k' v'] d IH]; cbn [Dict.get Dict.set];
    [done|].
  destruct (decide (k' = k)); [done|]. intros Hm. cbn [app]. f_equal. auto.
Qed.

Lemma inference_edge_step_eq net acc e :
  inference_edge_step (net, acc) e
  = if Dict.mem (edges net) (id e) then (net, acc)
    else (add_edge net e, acc ++ [e]).
Proof. unfold inference_edge_step. by destruct (Dict.mem _ _). Qed.

Lemma steps_basis es : ∀ net acc,
  Forall (λ e, is_transfer e = false) es →
  let st := fold_left inference_edge_step es (net, acc) in
  same_basis net st.1 ∧ ∀ e, e ∈ es → id e ∈ Dict.keys (edges st.1).
Proof.
  induction es as [|e es IH]; intros net acc Hes; cbn [fold_left].
  - split; [apply same_basis_refl|]. by intros e ?%elem_of_nil.
  - apply Forall_cons in Hes as [He Hes]. cbv zeta.
    rewrite inference_edge_step_eq.
    destruct (Dict.mem (edges net) (id e)) eqn:Hm.
    + destruct (IH net acc Hes) as [Hb Hids]. split; [done|].
      intros x [->|Hx]%elem_of_cons; [|by apply Hids].
      destruct Hb as (_ & _ & Hk). by apply Hk, mem_keys.
    + destruct (IH (add_edge net e) (acc ++ [e]) Hes) as [Hb Hids].
      assert (Hb1 : same_basis net (add_edge net e)).
      { split_and!; [done| |].
        - cbn [add_edge edges]. rewrite (set_absent _ _ _ Hm).
          unfold Dict.values. rewrite map_app, List.filter_app.
          cbn [map List.filter snd]. rewrite He. by rewrite app_nil_r.
        - intros k Hk. cbn [add_edge edges]. rewrite elem_of_keys_set.
          by left. }
      split; [by eapply same_basis_trans|].
      intros x [->|Hx]%elem_of_cons; [|by apply Hids].
      destruct Hb as (_ & _ & Hk). apply Hk. cbn [add_edge edges].
      rewrite elem_of_keys_set. by right.
Qed.

Lemma steps_fixed es : ∀ net acc,
  (∀ e, e ∈ es → id e ∈ Dict.keys (edges net)) →
  fold_left inference_edge_step es (net, acc) = (net, acc).
Proof.
  induction es as [|e es IH]; intros net acc Hes; cbn [fold_left]; [done|].
  rewrite inference_edge_step_eq.
  rewrite (proj2 (mem_keys _ _) (Hes e (list_elem_of_here _ _))).
  apply IH. intros x Hx. by apply Hes, list_elem_of_further.
Qed.

Lemma second_pass rules :
  Forall standard_rule rules →
  ∀ net acc final l,
    inference_loop rules (net, acc) = (final, Some l) →
    same_basis net final
    ∧ ∀ big acc', same_basis final big →
        inference_loop rules (big, acc') = (big, Some acc').
Proof.
  induction 1 as [|r rs Hr Hrs IH]; intros net acc final l;
    cbn [inference_loop fst snd].
  - intros [= <- <-]. split; [apply same_basis_refl|]. done.
  - destruct (apply r net) as [new|] eqn:Hnew; [|done].
    pose proof (standard_edges _ _ _ Hr Hnew) as Hty.
    pose proof (steps_basis new net acc Hty) as Hst. cbv zeta in Hst.
    destruct (fold_left inference_edge_step new (net, acc)) as [net1 acc1].
    cbn [fst] in Hst. destruct Hst as [Hb1 Hids]. intros Hloop.
    destruct (IH _ _ _ _ Hloop) as [Hb2 Hnext].
    split; [by eapply same_basis_trans|].
    intros big acc' Hbig.
    rewrite (standard_apply r net big Hr), Hnew
      by (eapply same_basis_trans; [|done]; by eapply same_basis_trans).
    rewrite steps_fixed; [by apply Hnext|].
    intros e He. destruct Hbig as (_ & _ & Hk), Hb2 as (_ & _ & Hk2). auto.
Qed.

(** X27: After a call of [run_inference] that returns, a second call finds
    nothing new: it returns the empty list and leaves the network as it is.
    This holds for the rules of the library, provided that a
    shared-attribute rule is not set to make SENT_TO or RECEIVED_FROM edges,
    which the transaction rule would count; the default rules are such. *)
Theorem run_inference_idempotent (eng : Engine) (l : list NetworkEdge) :
  Forall standard_rule (inference_rules eng) →
  (run_inference eng).2 = Some l →
  run_inference (run_inference eng).1 = ((run_inference eng).1, Some []).
Proof.
  intros Hrules. unfold run_inference.
  destruct (inference_loop (inference_rules eng) (network eng, []))
    as [final res] eqn:Hloop.
  cbn [fst snd network inference_rules]. intros ->.
  destruct (second_pass _ Hrules _ _ _ _ Hloop) as [_ Hnext].
  by rewrite (Hnext final [] (same_basis_refl final)).
Qed.

Definition office (i : string) : NetworkNode :=
  {| node_id := str i; node_type := str "company"; label := str i;
     node_attributes := [(str "address", AStr (str "1 Main Street"))];
     risk_score := 0; source_systems := [] |}.

Definition two_offices : Engine :=
  {| network := add_node (add_node empty_network (office "A")) (office "B");
     inference_rules := default_rules |}.

Lemma run_inference_idempotent_witness :
  Forall standard_rule (inference_rules two_offices)
  ∧ length (default [] (run_inference two_offices).2) = 1
  ∧ (run_inference (run_inference two_offices).1).2 = Some [].
Proof.
  assert (Hrules : Forall standard_rule (inference_rules two_offices))
    by apply default_rules_standard.
  destruct (run_inference two_offices).2 as [l|] eqn:Hl;
    [|by vm_compute in Hl].
  split; [exact Hrules|]. split; [by vm_compute in Hl; injection Hl as <-|].
  by rewrite (run_inference_idempotent two_offices l Hrules Hl).
Defined.

End InferenceFacts.

(** ** BlockingStrategy.metaphone *)

Module MetaphoneFacts.
Import BlockingStrategy.

(** No occurrence of "CH". *)
Fixpoint no_ch (s : pystr) : bool :=
  match s with
  | [] => true
  | _ :: s' =>
      match starts_with (str "CH") s with
      | Some _ => false
      | None => no_ch s'
      end
  end.

Lemma starts_with_ch s :
  starts_with (str "CH") s
  = match s with
    | c :: h :: rest => if (67 =? c)%N && (72 =? h)%N then Some rest else None
    | _ => None
    end.
Proof.
  change (str "CH") with [67%N; 72%N].
  destruct s as [|c [|h rest]]; cbn [starts_with]; try done.
  - by destruct (67 =? c)%N.
  - by destruct (67 =? c)%N, (72 =? h)%N.
Qed.

Lemma starts_with_sch s :
  starts_with (str "SCH") s
  = match s with
    | c :: s' => if (83 =? c)%N then starts_with (str "CH") s' else None
    | [] => None
    end.
Proof.
  change (str "SCH") with [83%N; 67%N; 72%N].
  change (str "CH") with [67%N; 72%N].
  by destruct s as [|c s'].
Qed.

(** The result of the CH rule begins with H only if its input does. *)
Lemma ch_rule_head fuel s :
  head (replace_all_aux fuel (str "CH") (str "X") s) = Some 72%N →
  head s = Some 72%N.
Proof.
  destruct fuel as [|fuel]; cbn [replace_all_aux]; [done|].
  destruct s as [|c s']; [done|].
  destruct (starts_with (str "CH") (c :: s')); [|done].
  change (str "X") with [88%N]. by cbn.
Qed.

Lemma starts_with_shorter pat : ∀ s rest,
  starts_with pat s = Some rest → length rest ≤ length s.
Proof.
  induction pat as [|p pat IH]; intros s rest; cbn [starts_with].
  - by intros [= <-].
  - destruct s as [|c s]; [done|]. destruct (p =? c)%N; [|done].
    intros Hs%IH. cbn [length]. lia.
Qed.

Lemma ch_rule_clean fuel : ∀ s,
  length s < fuel →
  no_ch (replace_all_aux fuel (str "CH") (str "X") s) = true.
Proof.
  induction fuel as [|fuel IH]; intros s Hlen; [lia|].
  cbn [replace_all_aux]. destruct s as [|c s']; [done|].
  cbn [length] in Hlen.
  destruct (starts_with (str "CH") (c :: s')) as [rest|] eqn:Hs.
  - pose proof (starts_with_shorter _ _ _ Hs) as Hr. cbn [length] in Hr.
    change (str "X") with [88%N]. cbn [app no_ch].
    rewrite starts_with_ch.
    destruct (replace_all_aux fuel _ _ rest) as [|h out] eqn:Hout.
    + done.
    + change (67 =? 88)%N with false. cbn [andb].
      rewrite <- Hout. apply IH. destruct fuel; [lia|].
      rewrite starts_with_ch in Hs. destruct s' as [|h' r']; [done|].
      destruct (_ && _); [|done]. injection Hs as ->. cbn [length] in *. lia.
  - cbn [no_ch]. rewrite starts_with_ch.
    destruct (replace_all_aux fuel (str "CH") (str "X") s') as [|h out]
      eqn:Hout.
    + done.
    + destruct ((67 =? c)%N && (72 =? h)%N) eqn:Hch.
      * exfalso. apply andb_true_iff in Hch as [Hc Hh].
        apply N.eqb_eq in Hc, Hh. subst c h.
        assert (Hhead : head s' = Some 72%N).
        { apply (ch_rule_head fuel). by rewrite Hout. }
        destruct s' as [|h' r']; [done|]. injection Hhead as ->.
        rewrite starts_with_ch in Hs. done.
      * rewrite <- Hout. apply IH. lia.
Qed.

Lemma no_ch_tail c s : no_ch (c :: s) = true → no_ch s = true.
Proof. cbn [no_ch]. by destruct (starts_with _ _). Qed.

Lemma no_ch_head s : no_ch s = true → starts_with (str "CH") s = None.
Proof.
  destruct s as [|c s]; [by rewrite starts_with_ch|]. cbn [no_ch].
  by destruct (starts_with _ _).
Qed.

Lemma sch_rule_idle fuel : ∀ s,
  no_ch s = true → replace_all_aux fuel (str "SCH") (str "SK") s = s.
Proof.
  induction fuel as [|fuel IH]; intros s Hs; cbn [replace_all_aux]; [done|].
  destruct s as [|c s']; [done|].
  pose proof (no_ch_tail _ _ Hs) as Hs'.
  rewrite starts_with_sch, (no_ch_head _ Hs').
  destruct (83 =? c)%N; by rewrite (IH s' Hs').
Qed.

(** The rules of [metaphone] without the one for SCH. *)
Definition live_replacements : list (pystr → pystr) :=
  take 13 replacements ++ drop 14 replacements.

Section WithRuntime.
Context {U : Unicode}.

(** X28: The rule that turns SCH into SK never applies: the rule before it
    has turned every CH into X, so no SCH is left for it. [metaphone] is
    what it would be without that rule. *)
Theorem metaphone_sch_rule_idle (name : pystr) :
  (∀ s, replace_all (str "SCH") (str "SK")
          (replace_all (str "CH") (str "X") s)
        = replace_all (str "CH") (str "X") s)
  ∧ metaphone name
    = if negb (truthy name) then str ""
      else take 6 (fold_left (λ name sub, sub name) live_replacements
                     (keep_AZ (upper name))).
Proof.
  assert (Hidle : ∀ s, replace_all (str "SCH") (str "SK")
                         (replace_all (str "CH") (str "X") s)
                       = replace_all (str "CH") (str "X") s).
  { intros s. unfold replace_all at 1. apply sch_rule_idle.
    unfold replace_all. apply ch_rule_clean. lia. }
  split; [done|]. unfold metaphone. destruct (negb (truthy name)); [done|].
  f_equal. unfold live_replacements, replacements.
  cbn [take drop app fold_left]. by rewrite Hidle.
Qed.

End WithRuntime.

Example metaphone_schmidt :
  let U := basic_latin in metaphone (str "Schmidt") = str "SXMIDT".
Proof. by vm_compute. Qed.

End MetaphoneFacts.

(** ** propagate_risk: the nodes that are reached *)

Module SpreadFacts.
Import NetworkGeneration DictFacts NeighborFacts ReachFacts.

(** An edge joins [w] and [x], and [x] is not the empty id. *)
Definition hop (net : Network) (w x : pystr) : Prop :=
  adjacent net w x ∧ truthy x = true.

(** A path of [k] edges, taken in either direction, from [u] to [x], whose
    nodes after [u] have non-empty ids. *)
Fixpoint trail (net : Network) (k : nat) (u x : pystr) : Prop :=
  match k with
  | 0 => u = x
  | S k' => ∃ w, trail net k' u w ∧ hop net w x
  end.

(** The contributions are recorded for the visited nodes, each once. *)
Definition recorded (st : walk) : Prop :=
  (∀ x, x ∈ Dict.keys (risk_contributions st) ↔ x ∈ visited st)
  ∧ NoDup (Dict.keys (risk_contributions st)).

(** What has been reached over the pairs [(u, e)] visited so far. *)
Definition found (seen : list (pystr * NetworkEdge)) (x : pystr) : Prop :=
  truthy x = true ∧ ∃ u e, (u, e) ∈ seen ∧ far_end e u x.

Definition spread_state (vis0 : list pystr)
    (seen : list (pystr * NetworkEdge)) (st : walk) : Prop :=
  (∀ x, x ∈ visited st ↔ x ∈ vis0 ∨ found seen x)
  ∧ (∀ x, x ∈ next_level st ↔ (x ∉ vis0) ∧ found seen x)
  ∧ recorded st.

Lemma found_snoc seen u e x :
  found (seen ++ [(u, e)]) x
  ↔ found seen x ∨ (truthy x = true ∧ far_end e u x).
Proof.
  unfold found. split.
  - intros (Ht & u' & e' & [Hin|Hin%list_elem_of_singleton]%elem_of_app & Hf).
    + left. eauto.
    + injection Hin as -> ->. by right.
  - intros [(Ht & u' & e' & Hin & Hf)|[Ht Hf]].
    + split; [done|]. exists u', e'. split; [|done]. apply elem_of_app.
      by left.
    + split; [done|]. exists u, e. split; [|done]. apply elem_of_app. right.
      by apply list_elem_of_singleton.
Qed.

(** The neighbour that [risk_edge_step] reads off the edge. *)
Definition other_end (e : NetworkEdge) (node : pystr) : option pystr :=
  if str_eqb (source_id e) node then Some (target_id e)
  else if str_eqb (target_id e) node then Some (source_id e)
  else None.

Lemma other_end_far e node x :
  other_end e node = Some x ↔ far_end e node x.
Proof.
  unfold other_end, str_eqb, far_end.
  repeat case_bool_decide; split;
    intuition (subst; try congruence; try contradiction; auto).
Qed.

Lemma risk_edge_step_eq cr node st e :
  risk_edge_step cr node st e
  = match other_end e node with
    | Some n =>
        if truthy n && negb (in_set n (visited st)) then
          {| risk_contributions :=
               Dict.set (risk_contributions st) n
                 (cr * confidence e * weight e)%Q;
             visited := set_add (visited st) n;
             next_level := set_add (next_level st) n |}
        else st
    | None => st
    end.
Proof. done. Qed.

Lemma spread_edge vis0 seen st cr node e :
  spread_state vis0 seen st →
  spread_state vis0 (seen ++ [(node, e)]) (risk_edge_step cr node st e).
Proof.
  intros (Hv & Hn & Hk & Hnd). rewrite risk_edge_step_eq.
  destruct (other_end e node) as [n|] eqn:Ho.
  2:{ assert (Hno : ∀ x, ¬ far_end e node x).
      { intros x Hx%other_end_far. congruence. }
      split_and!; [| |done].
      - intros x. rewrite Hv, found_snoc. specialize (Hno x). tauto.
      - intros x. rewrite Hn, found_snoc. specialize (Hno x). tauto. }
  assert (Hfar : ∀ x, far_end e node x ↔ x = n).
  { intros x. rewrite <- other_end_far, Ho. split; [by intros [= ->]|].
    by intros ->. }
  destruct (truthy n) eqn:Ht; cbn [andb].
  2:{ assert (Hno : ∀ x, ¬ (truthy x = true ∧ far_end e node x)).
      { intros x [Htx ->%Hfar]. congruence. }
      split_and!; [| |done].
      - intros x. rewrite Hv, found_snoc. specialize (Hno x). tauto.
      - intros x. rewrite Hn, found_snoc. specialize (Hno x). tauto. }
  destruct (in_set n (visited st)) eqn:Hin; cbn [negb].
  - apply in_set_true in Hin. split_and!; [| |done].
    + intros x. rewrite Hv, found_snoc, Hfar. split; [tauto|].
      intros [?|[?|[_ ->]]]; [tauto..|]. by apply Hv.
    + intros x. rewrite Hn, found_snoc, Hfar. split; [tauto|].
      intros [Hx [?|[_ ->]]]; [done|]. apply Hv in Hin as [?|?]; done.
  - apply in_set_false in Hin.
    split_and!; cbn [risk_contributions visited next_level].
    + intros x. rewrite elem_of_set_add, Hv, found_snoc, Hfar. split.
      * intros [[?|?]| ->]; auto.
      * intros [?|[?|[_ ->]]]; auto.
    + intros x. rewrite elem_of_set_add, Hn, found_snoc, Hfar. split.
      * intros [[? ?]| ->]; [by auto|]. split; [|by auto].
        intros Hx. apply Hin, Hv. by left.
      * intros [Hx [?|[_ ->]]]; auto.
    + split; cbn [risk_contributions visited]; [|by apply NoDup_keys_set].
      intros x. rewrite elem_of_keys_set, elem_of_set_add, Hk. done.
Qed.

Lemma spread_edges vis0 cr node es : ∀ seen st,
  spread_state vis0 seen st →
  spread_state vis0 (seen ++ map (λ e, (node, e)) es)
    (fold_left (risk_edge_step cr node) es st).
Proof.
  induction es as [|e es IH]; intros seen st Hst; cbn [fold_left map].
  - by rewrite app_nil_r.
  - rewrite (cons_middle _ seen), app_assoc. by apply IH, spread_edge.
Qed.

Lemma spread_nodes net vis0 cr ns : ∀ seen st,
  spread_state vis0 seen st →
  spread_state vis0
    (seen ++ flat_map (λ n, map (λ e, (n, e)) (Dict.values (edges net))) ns)
    (fold_left (risk_node_step net cr) ns st).
Proof.
  induction ns as [|n ns IH]; intros seen st Hst; cbn [fold_left flat_map].
  - by rewrite app_nil_r.
  - rewrite app_assoc. by apply IH, spread_edges.
Qed.

Section WithSetOrder.
Context {SO : SetOrder}.

(** One pass of the loop over the hops. *)
Lemma spread_hop net cr cur st :
  recorded st →
  let st' := risk_hop net cr cur st in
  (∀ x, x ∈ visited st' ↔ x ∈ visited st ∨ ∃ u, u ∈ cur ∧ hop net u x)
  ∧ (∀ x, x ∈ next_level st'
          ↔ (x ∉ visited st) ∧ ∃ u, u ∈ cur ∧ hop net u x)
  ∧ recorded st'.
Proof.
  intros Hrec st'.
  assert (H0 : spread_state (visited st) []
                 {| risk_contributions := risk_contributions st;
                    visited := visited st; next_level := [] |}).
  { split_and!; cbn [visited next_level]; [| |done].
    - intros x. split; [by left|].
      intros [?|(_ & u & e & Hin & _)]; [done|]. by apply elem_of_nil in Hin.
    - intros x. split; [by intros ?%elem_of_nil|].
      intros [_ (_ & u & e & Hin & _)]. by apply elem_of_nil in Hin. }
  pose proof (spread_nodes net (visited st) cr (set_iter cur) [] _ H0)
    as (Hv & Hn & Hr).
  fold (risk_hop net cr cur st) in Hv, Hn, Hr. fold st' in Hv, Hn, Hr.
  cbn [app] in Hv, Hn.
  assert (Hfound : ∀ x,
    found (flat_map (λ n, map (λ e, (n, e)) (Dict.values (edges net)))
             (set_iter cur)) x
    ↔ ∃ u, u ∈ cur ∧ hop net u x).
  { intros x. unfold found, hop, adjacent. split.
    - intros (Ht & u & e & Hin & Hf).
      apply list_elem_of_In, in_flat_map in Hin as (n & Hn' & Hin).
      apply list_elem_of_In in Hn', Hin.
      apply list_elem_of_fmap in Hin as (e' & [= -> ->] & He).
      rewrite set_iter_perm in Hn'. eauto 6.
    - intros (u & Hu & (e & He & Hf) & Ht). split; [done|]. exists u, e.
      split; [|done]. apply list_elem_of_In, in_flat_map. exists u.
      split; apply list_elem_of_In; [by rewrite set_iter_perm|].
      by apply (list_elem_of_fmap_2 (λ e, (u, e))). }
  split_and!; [| |done].
  - intros x. by rewrite Hv, Hfound.
  - intros x. by rewrite Hn, Hfound.
Qed.

(** The state of [propagate_risk] after [i] hops from [s]. *)
Definition hops_done (net : Network) (s : pystr) (i : nat)
    (cur : list pystr) (st : walk) : Prop :=
  (∀ x, x ∈ visited st ↔ ∃ k, k ≤ i ∧ trail net k s x)
  ∧ (∀ x, x ∈ cur → trail net i s x)
  ∧ (∀ w, trail net i s w → w ∈ cur ∨ ∃ k, k < i ∧ trail net k s w)
  ∧ recorded st.

(** Once a hop finds nothing new, longer paths find nothing new either. *)
Lemma trail_closed net s i :
  (∀ x, trail net (S i) s x → ∃ k, k ≤ i ∧ trail net k s x) →
  ∀ m x, trail net m s x → ∃ k, k ≤ i ∧ trail net k s x.
Proof.
  intros Hclosed. induction m as [|m IH]; intros x Hx.
  - exists 0. split; [lia|done].
  - destruct Hx as (w & Hw & Hhop).
    destruct (IH w Hw) as (k & Hk & Hkw).
    destruct (decide (S k ≤ i)) as [Hle|Hgt].
    + exists (S k). split; [done|]. by exists w.
    + assert (k = i) as -> by lia. apply Hclosed. by exists w.
Qed.

Lemma spread_loop net q s : ∀ hops i cr cur st,
  hops_done net s i cur st →
  let st' := risk_loop net q hops cr cur st in
  (∀ x, x ∈ visited st' ↔ ∃ k, k ≤ i + hops ∧ trail net k s x)
  ∧ recorded st'.
Proof.
  induction hops as [|h IH]; intros i cr cur st (Hv & Hc & Hr & Hrec);
    cbn [risk_loop].
  - split; [|done]. intros x. rewrite Hv. by rewrite Nat.add_0_r.
  - cbv zeta.
    pose proof (spread_hop net (cr * q)%Q cur st Hrec) as (Lv & Ln & Lrec).
    cbv zeta in Lv, Ln, Lrec.
    set (st1 := risk_hop net (cr * q)%Q cur st) in *.
    assert (Hv1 : ∀ x, x ∈ visited st1 ↔ ∃ k, k ≤ S i ∧ trail net k s x).
    { intros x. rewrite Lv, Hv. split.
      - intros [(k & Hk & Hx)|(u & Hu & Hhop)].
        + exists k. split; [lia|done].
        + exists (S i). split; [lia|]. exists u. split; [by apply Hc|done].
      - intros (k & Hk & Hx).
        destruct (decide (k ≤ i)) as [Hle|Hgt]; [left; by exists k|].
        assert (k = S i) as -> by lia. destruct Hx as (w & Hw & Hhop).
        destruct (Hr w Hw) as [Hcur|(k' & Hk' & Hw')].
        + right. by exists w.
        + left. exists (S k'). split; [lia|]. by exists w. }
    destruct (next_level st1) as [|n0 nl] eqn:Hnext.
    + split; [|done]. intros x. rewrite Hv1. split.
      * intros (k & Hk & Hx). exists k. split; [lia|done].
      * intros (k & _ & Hx).
        assert (Hclosed : ∀ y, trail net (S i) s y →
                            ∃ k, k ≤ i ∧ trail net k s y).
        { intros y (w & Hw & Hhop). apply Hv.
          destruct (decide (y ∈ visited st)) as [Hin|Hnin]; [done|].
          destruct (Hr w Hw) as [Hcur|(k' & Hk' & Hw')].
          - assert (Hy : y ∈ @nil pystr) by (apply Ln; eauto).
            by apply elem_of_nil in Hy.
          - destruct Hnin. apply Hv. exists (S k'). split; [lia|].
            by exists w. }
        destruct (trail_closed net s i Hclosed k x Hx) as (k' & Hk' & Hx').
        exists k'. split; [lia|done].
    + rewrite <- Hnext in Ln |- *. replace (i + S h) with (S i + h) by lia.
      apply IH. split_and!; [done| | |done].
      * intros x [_ (u & Hu & Hhop)]%Ln. exists u. split; [by apply Hc|done].
      * intros x (w & Hw & Hhop).
        destruct (decide (x ∈ visited st)) as [Hin|Hnin].
        -- right. apply Hv in Hin as (k & Hk & Hx). exists k.
           split; [lia|done].
        -- destruct (Hr w Hw) as [Hcur|(k' & Hk' & Hw')].
           ++ left. apply Ln. split; [done|]. by exists w.
           ++ destruct Hnin. apply Hv. exists (S k'). split; [lia|].
              by exists w.
Qed.

(** X29: [propagate_risk] returns the empty dictionary for a source that is
    not a node of the network. Otherwise it records a contribution for
    exactly the nodes that a path of at most [max_hops] edges reaches from
    the source, the edges taken in either direction and the empty id left
    out, the source among them; each of them has one entry. *)
Theorem propagate_risk_reach (eng : Engine) (s : pystr) (max_hops : nat)
    (decay_factor : Q) :
  let result := propagate_risk eng s max_hops decay_factor in
  match Dict.get (nodes (network eng)) s with
  | None => result = []
  | Some source =>
      (∀ x, x ∈ Dict.keys result
            ↔ ∃ k, k ≤ max_hops ∧ trail (network eng) k s x)
      ∧ NoDup (Dict.keys result)
      ∧ Dict.get result s = Some (risk_score source)
  end.
Proof.
  intros result. unfold result, propagate_risk.
  destruct (Dict.get (nodes (network eng)) s) as [source|]; [|done].
  set (st0 := {| risk_contributions := [(s, risk_score source)];
                 visited := [s]; next_level := [] |}).
  assert (Hrec0 : recorded st0).
  { split; cbn; [done|]. apply NoDup_singleton. }
  assert (H0 : hops_done (network eng) s 0 [s] st0).
  { split_and!; [| | |done].
    - intros x. cbn [visited st0]. rewrite list_elem_of_singleton. split.
      + intros ->. exists 0. split; [lia|done].
      + intros (k & Hk & Hx). assert (k = 0) as -> by lia. by cbn in Hx.
    - intros x ->%list_elem_of_singleton. done.
    - intros w <-. left. apply list_elem_of_here. }
  pose proof (spread_loop (network eng) decay_factor s max_hops 0
                (risk_score source) [s] st0 H0) as (Hv & Hk & Hnd).
  cbv zeta in Hv, Hk, Hnd. split_and!; [|done|].
  - intros x. by rewrite Hk, Hv.
  - apply (RiskFacts.loop_keeps (network eng) decay_factor max_hops
             (risk_score source) [s] st0).
    + intros x Hx. by apply Hrec0.
    + cbn. by rewrite decide_True.
Qed.

End WithSetOrder.
End SpreadFacts.

(** ** export_to_neo4j_format *)

Module ExportFacts.
Import NetworkGeneration DictFacts.

Lemma dict_update_get (items : dict pystr attr) : ∀ d k,
  NoDup (Dict.keys items) →
  Dict.get (dict_update d items) k
  = match Dict.get items k with
    | Some v => Some v
    | None => Dict.get d k
    end.
Proof.
  unfold dict_update.
  induction items as [|[k0 v0] items IH]; intros d k Hnd;
    cbn [fold_left Dict.get]; [done|].
  cbn [Dict.keys map fst] in Hnd. apply NoDup_cons in Hnd as [Hk0 Hnd].
  rewrite IH by done. destruct (decide (k0 = k)) as [->|Hne].
  - rewrite (proj2 (get_None_keys items k)) by done. by rewrite get_set_eq.
  - destruct (Dict.get items k); [done|]. by rewrite get_set_ne.
Qed.

Section WithRuntime.
Context {U : Unicode}.

(** X30: The export lists the nodes and the edges in the order of the
    network, under their ids. The properties of a node are its attributes,
    with [label] and [risk_score] added only where the attributes have no
    entry of that name: an attribute called [label] or [risk_score] replaces
    the field of the node. Likewise for [weight] and [confidence] of an
    edge. *)
Theorem export_attributes_shadow (eng : Engine) :
  Forall (λ n, NoDup (Dict.keys (node_attributes n)))
    (Dict.values (nodes (network eng))) →
  Forall (λ e, NoDup (Dict.keys (attributes e)))
    (Dict.values (edges (network eng))) →
  let out := export_to_neo4j_format eng in
  Forall2
    (λ n o,
       neo4j_id o = node_id n ∧ labels o = [upper (node_type n)]
       ∧ ∀ k, Dict.get (properties o) k
              = match Dict.get (node_attributes n) k with
                | Some v => Some v
                | None =>
                    if decide (k = str "label") then Some (AStr (label n))
                    else if decide (k = str "risk_score")
                         then Some (ANum (risk_score n))
                         else None
                end)
    (Dict.values (nodes (network eng))) out.1
  ∧ Forall2
      (λ e o,
         relationship_id o = id e ∧ type o = value (relationship_type e)
         ∧ startNode o = source_id e ∧ endNode o = target_id e
         ∧ ∀ k, Dict.get (relationship_properties o) k
                = match Dict.get (attributes e) k with
                  | Some v => Some v
                  | None =>
                      if decide (k = str "weight") then Some (ANum (weight e))
                      else if decide (k = str "confidence")
                           then Some (ANum (confidence e))
                           else None
                  end)
      (Dict.values (edges (network eng))) out.2.
Proof.
  intros Hn He out. unfold out, export_to_neo4j_format. cbn [fst snd]. split.
  - apply Forall2_fmap_r, Forall_Forall2_diag.
    eapply Forall_impl; [exact Hn|]. intros n Hnd. cbn beta.
    split_and!; [done|done|].
    intros k. cbn [properties]. rewrite dict_update_get by done.
    destruct (Dict.get (node_attributes n) k); [done|]. cbn [Dict.get].
    destruct (decide (str "label" = k)) as [<-|Hl].
    + by rewrite decide_True.
    + rewrite (decide_False (P := k = str "label")) by congruence.
      destruct (decide (str "risk_score" = k)) as [<-|Hr].
      * by rewrite decide_True.
      * by rewrite (decide_False (P := k = str "risk_score")) by congruence.
  - apply Forall2_fmap_r, Forall_Forall2_diag.
    eapply Forall_impl; [exact He|]. intros e Hnd. cbn beta.
    split_and!; [done..|].
    intros k. cbn [relationship_properties].
    rewrite dict_update_get by done.
    destruct (Dict.get (attributes e) k); [done|]. cbn [Dict.get].
    destruct (decide (str "weight" = k)) as [<-|Hl].
    + by rewrite decide_True.
    + rewrite (decide_False (P := k = str "weight")) by congruence.
      destruct (decide (str "confidence" = k)) as [<-|Hr].
      * by rewrite decide_True.
      * by rewrite (decide_False (P := k = str "confidence")) by congruence.
Qed.

End WithRuntime.

Definition relabelled : Engine :=
  (create_node_from_entity new_engine (str "E1") (str "person")
     (str "Jane Doe")
     [(str "label", AStr (str "VIP")); (str "city", AStr (str "Oslo"))]
     (3 # 10) None).1.

Lemma export_attributes_shadow_witness :
  let U := basic_latin in
  Forall (λ n, NoDup (Dict.keys (node_attributes n)))
    (Dict.values (nodes (network relabelled)))
  ∧ map (λ o, Dict.get (properties o) (str "label"))
      (export_to_neo4j_format relabelled).1
    = [Some (AStr (str "VIP"))].
Proof.
  intros U.
  assert (Hn : Forall (λ n, NoDup (Dict.keys (node_attributes n)))
                 (Dict.values (nodes (network relabelled)))).
  { repeat constructor; cbn; rewrite ?elem_of_cons, ?elem_of_nil;
      try (intros [?|?]; done); by intros []. }
  assert (He : Forall (λ e, NoDup (Dict.keys (attributes e)))
                 (Dict.values (edges (network relabelled))))
    by constructor.
  split; [exact Hn|].
  destruct (export_attributes_shadow relabelled Hn He) as [Hnodes _].
  cbv zeta in Hnodes.
  destruct (export_to_neo4j_format relabelled).1 as [|o [|o' os]] eqn:Hout;
    try (by vm_compute in Hout).
  apply Forall2_cons_1 in Hnodes as [(_ & _ & Hk) _].
  cbn [map]. by rewrite Hk.
Defined.

End ExportFacts.
